(* ===== verification/_CoqProject ===== *)
-Q . S2P
Prelude.v
Lock.v
Diagnostic.v
Machine.v
SmartObject.v
Invariant.v
Protocol.v
Scenarios.v
Observational.v
Builds.v
Concurrent.v
Monotone.v
Sharing.v
LastRelease.v
Serial.v
Refinement.v
Independence.v
Local.v
Groups.v
Lifecycle.v
Races.v
