(* ===== verification/Prelude.v ===== *)
(** * EpOraLibrary [SmartObject]: a verification development

    The program is the intrusive reference-counting base class of
    EpOraLibrary, [src/EpOraLibrary/EpOraLibrary/EpLibraryHeaders/epSmartObject.h]:
    a heap object carries an [int] counter [m_refCount], a pointer
    [m_refCounterLock] to a lock of its own and the [m_lockPolicy] that chose
    the lock; [Retain] increments the counter under the lock, [Release]
    decrements it and, at zero, unlocks and runs [EP_DELETE this]; the
    destructor decrements once more, checks for zero and deletes the lock.

    ** Files, in dependency order

    - [Prelude] (this file): the C [int] as [Z] with its wrap-around
      ([wrap_int], [int_incr], [int_decr]), the execution monad [Exec]
      (state plus an outcome that is a value or an interrupt) with its
      notation in [exec_scope], the monad laws, the hint databases and tactics
      of the development, sums of integers over lists ([sum_with]) and
      termination by a measure ([sn_measure]).
    - [Lock]: the lock abstraction.  [LockPolicy] is the enumeration the
      constructors switch on; [CriticalSectionEx], [Mutex] and [NoLock] are
      the three implementations behind the [BaseLock] pointer.  Their code is
      not in the header, so their behaviour is modelled from the
      specification: a real lock has a holder and [Lock] by another thread
      cannot proceed, the no-op lock does nothing.  The interface is the class
      [LockImpl] with the laws [LockLaws]; the law class [MutualExclusion]
      holds for the two real locks only.
    - [Diagnostic]: the collaborators the header only calls: the log sink of
      [LOG_THIS_MSG] as a list of events, the two misuse errors raised through
      [EP_VERIFY_DOMAIN_ERROR_W_MSG] and [EP_VERIFY_RUNTIME_ERROR_W_MSG], and
      the class [ErrorMechanism] that says, per error, whether a failed
      verification unwinds out of the calling function (an exception,
      [Throwing]) or reports and returns ([Reporting]).
    - [Machine]: the memory the methods run on, a record [Machine] of the
      heap of live [SmartObject]s and the heap of live locks (two [gmap]s),
      the log and the list of signalled errors; the primitives every method
      is made of (dereference [this], follow the lock pointer, [Lock],
      [Unlock], load and store the fields, log, verify, allocate and free),
      what each primitive does, and [enter]: how a call gets past
      [m_refCounterLock->Lock()], or what stops it.
    - [SmartObject]: the methods of the class, one definition each, every
      statement of the header in order: [SmartObject_ctor] (lines 133-153),
      [SmartObject_copy_ctor] (159-179), [Retain] (95-100), [Release]
      (106-126), [SmartObject_dtor] (184-200), [EP_DELETE_this] (line 115),
      and [EP_NEW_SmartObject], [EP_NEW_copy] and [SmartObject_assign] for the
      expressions a client writes; the calls a client makes ([Op], [perform],
      [perform_all]); the closed form of every call ([Retain_result],
      [Release_result], [dtor_result], ...).
    - [Invariant]: the well-formedness invariant [wf] of the machine
      (counters are [int]s, every lock pointer that is not [NULL] points to a
      live lock of the class the policy names, no two objects share a lock,
      every lock has an owner) and its preservation by every call.
    - [Protocol]: the usage protocol of the specification as a step relation
      [pstep] on the counts of the live instances, the refinement relation
      [sim], and the simulation of the protocol by the methods.
    - [Scenarios]: the behaviours the specification lists as testable:
      balanced retains and releases, the release that destroys, the release
      too many, calls on other objects, copies, and its concrete scenarios.
    - [Observational]: machines up to their logs, an equivalence coarser than
      equality which every primitive and every method respects.
    - [Concurrent]: calls by several threads.  A [Frame] is a program point
      of [Retain], [Release] or the destructor, named by its line in the
      header, with the values the thread holds there; [Retain_step],
      [Release_step] and [dtor_step] execute the statement of a frame with
      the primitives of [Machine] ([fstep] picks the method).  A [Thread] is
      a frame and the calls still to make, a [Conc] the machine and the pool
      of threads; [cstep] lets any enabled thread execute one statement, and
      [run_schedule] runs the pool under a given schedule.
    - [Monotone]: what no statement undoes.  [evolves] relates a machine to
      one that comes from it without allocation, with the same lock pointers,
      policies and lock classes and a longer log.
    - [Sharing]: threads that retain and release one object under a lock
      that excludes: what holds while the object is shared ([core]), and the
      invariant [live] of every state the threads reach when somebody else
      keeps a reference.
    - [LastRelease]: threads that are the only owners.  The pool goes
      through three phases ([phase]): the object is shared; one thread is in
      the last part of [Release] (lines 113-115), the destructor or
      [operator delete] and the others have finished; the object is gone.
    - [Serial]: the runs of the pools of [Sharing] and [LastRelease] as
      sequences of calls: [busy] threads, [orderly] pools, the [Past] of a
      thread, interleavings ([merged]) and the invariant [serial_at].
    - [Builds]: the two builds of the header.  [Text] is what a client
      writes; [expand] is the preprocessor with [_DEBUG] (the macros of
      lines 214-218: [SmartObject_macro], [Release_macro], [Retain_macro]);
      [ReleaseBuild] is what the header declares without [_DEBUG] (lines
      61-90) and [Assignment] is [operator=] (line 58), both classes of
      operations, one per declaration; what the specification promises of
      them is assumed, as the law classes [ReleaseBuildLaws] and
      [AssignmentLaws]; the [_ndebug] definitions are bodies for the
      release build written from the specification, not from code.
    - [Refinement]: the layers composed: [margins] and [owners] are the
      programs of the pools of [Sharing] and [LastRelease] seen by the
      protocol; [refines] says that a pool has made its calls in an order
      the protocol permits and stands for the protocol's state.
    - [Independence]: pools whose threads call on some objects and not on
      another: the object a frame works on ([frame_object], [frame_lock]),
      the object nobody calls and its lock ([sole_owner], [bystander]), and
      a logic of computations that leave them untouched ([keeping]).
    - [Local]: what a call on an object can see of the machine ([view]:
      the object, its lock, the messages about it, the signalled errors),
      and a logic of computations that do on the view what they do on the
      machine ([local]).
    - [Groups]: pools in which several objects are shared at once, some
      outliving the calls and some destroyed by their last [Release]
      ([Lifetime]), and in which a thread may call on one object after
      another: [seen x lx c] is the pool as object [x] sees it (the view of
      the machine; of every thread the calls on [x], and the frame when the
      thread is in a call on [x]: [thread_on]), [together] the invariant of
      every object on what it sees, [Discipline] what the pool asks of the
      invariant of an object that is shared alone.
    - [Lifecycle]: the constructor, the calls of the creator, the threads
      and the destructor on one machine: [create] is what the creator does
      ([EP_NEW], then a [Retain] for every other owner), [handed] what it
      leaves, from which the pools of [Sharing] and [LastRelease] start.
    - [Races]: schedules that show what the lock and the verifications are
      for: the lost update under the no-op lock, the thread stopped by a
      throwing verification with the lock held, the [Retain] that comes
      between the last [Unlock()] and the destructor.

    ** How the model corresponds to the code

    The header holds two builds.  The bodies are those of the [_DEBUG] build
    (lines 95-200); the release build declares the same methods (lines 61-90)
    and defines them in a file that is not part of the sources.  Every method
    takes the call site the macros of lines 215-217 inject.  A method is an
    [Exec] computation over the [Machine]; each statement of the body is one
    primitive, in the order of the source, so that an interrupt leaves the
    machine exactly where the C++ would (a lock still held, an object not yet
    freed).  A call is made by a thread, which is whom a lock remembers as
    its holder.  In [SmartObject] a call runs from its first statement to its
    last without another call in between.  In [Concurrent] the same
    statements are the steps of threads: one step per statement, except that
    [m_refCount++] and [m_refCount--] are a read and a write with a step of
    any other thread possible in between, which is what a lock is for.  A
    thread whose [Lock()] finds the lock held is not enabled; a thread whose
    statement faults or throws is stopped where it is, with the lock if it
    holds it (nothing in the header catches).  The threads themselves and
    the scheduler are not code of the header: they follow section 5 of the
    specification (parallel threads, no scheduling assumption), so the
    theorems quantify over every schedule.

    [m_refCount] is an [int]: the model keeps it in [Z] and wraps every
    increment and decrement to 32 bits.  Signed overflow is undefined in C++;
    wrapping is what the targets of the library do, and the theorems say
    where the wrap can be observed.

    A null or dangling pointer dereference is undefined behaviour; the model
    stops the call with the interrupt [Fault].  A [Lock] that cannot proceed
    stops it with [Blocked].  A verification that fails and unwinds stops it
    with [Raised].  What the verification macros do on failure is in another
    header, so every theorem is stated for an arbitrary [ErrorMechanism], and
    both behaviours have their theorems.

    Four more assumptions are about code the header uses and does not
    define.  [LockObj] (line 97) is taken to be a scope guard: its
    constructor calls [Lock()], its destructor [Unlock()] when the scope is
    left, by return or by exception.  [EP_DELETE this] (line 115) is taken
    to be a delete-expression: the destructor, then [operator delete], which
    is not reached when the destructor unwinds.  [LOG_THIS_MSG] reads the
    counter and appends its message in one step of a thread; [Retain],
    [Release] and the destructor call it with the lock held.  [SmartObject()] written
    without an argument is given the default policy, as by a preprocessor
    that drops the comma before an empty [__VA_ARGS__].

    Everything is executable: the heaps are [gmap]s with [fresh] addresses,
    the invariant and the refinement relation are decidable, and the
    theorems with hypotheses are instantiated on the concrete machines
    [machine1], [machine_raw] and [fresh_machine], and on the pools
    [pool_of n] and [owners_of n] of [n] threads, [two_after] (five
    threads on two objects), [owners_beside] and [guest_beside] after a
    schedule.  No method uses fuel: every
    method is a finite sequence of primitives, and [perform_all] recurses on
    the list of calls.  [run_alone] takes the number of statements to run:
    [remaining f] bounds the statements from frame [f] to the end of the call
    (18 for [Release], whose longest path goes through the destructor), and
    [alone_Retain], [alone_Release] and [alone_Delete] show it is enough on
    every machine.  The pool needs no fuel: [run_schedule] recurses on the
    schedule.  Every step takes at least one off [total_work], the
    statements the threads have left, so the schedule [round_robin n k]
    ([k] rounds over [n] threads) ends where no thread can move as soon as
    [k] is at least [total_work] ([round_robin_nf]): a round in which some
    thread can move moves one.  That is 250 rounds for the ten threads that
    each retain and release; the schedules of the other pools (400 rounds
    for the ten owners, 100 for the five threads on two objects, 60 for
    the two owners of [Lifecycle]) are shown to end where no thread can
    move by evaluating [stuck].

    ** What the theorems show

    - [SmartObject]: per method, the exact final machine and outcome on every
      branch (the last reference, references left, a negative counter, a
      non-zero counter at destruction, each of the last two under a mechanism
      that unwinds and under one that returns); then the same as one equation
      per method with its closed form, valid on every machine ([Retain_run],
      [Release_run], [SmartObject_dtor_run], [EP_DELETE_this_run],
      [perform_run]), which is what the other files rewrite with; calls that
      cannot enter (a [NULL] lock pointer, a destroyed object, a held lock)
      change nothing; the counter counts exactly away from the bounds of
      [int], and wraps at [INT_MAX].
    - [Invariant]: [wf] holds of the empty machine and is preserved by every
      call, whatever the outcome.
    - [Protocol]: a machine related by [sim] to a protocol state performs
      every call the protocol permits, returns normally, signals nothing and
      ends related to the protocol's next state ([simulation_step],
      [simulation]); from the empty machine this is [refinement].
    - [Scenarios]: the testable properties of the specification, for every
      [n] where it quantifies, and its concrete scenarios by evaluation.
    - [Observational]: the log is written and never read; a [Retain]
      followed by a [Release] leaves the machine as it was, log aside
      ([Retain_Release_roundtrip]).
    - [Concurrent]: the lemmas that tie the statements to the methods: a
      call executed statement by statement by its thread alone is the
      method of [SmartObject], outcome and machine, on every branch
      ([alone_Retain], [alone_Release], [alone_Delete]); and the lemmas on
      schedules: a pool that cannot move stays as it is, a round robin of
      [total_work] rounds ends where no thread can move ([round_robin_nf]).
      Whether the threads have then returned or wait for a lock is not
      said here: that depends on the locks, and is shown in [Sharing].
    - [Monotone]: for every pool, whatever its threads call and whatever
      the locks are, the machine at the end of a run [evolves] from the one
      at its start ([runs_evolve]): the policy and the lock pointer of an
      object are those it was constructed with.
    - [Sharing]: for threads that call [Retain] and [Release] on one object
      whose lock excludes, and calls that keep the counter between 1 and
      [INT_MAX], every step keeps [live] ([cstep_preserves_inv]); hence in
      every reachable state, under every schedule, the counter is its final
      value plus what the calls still to make take off it
      ([counter_counts_references]), at most one thread is between [Lock()]
      and [Unlock()] ([mutual_exclusion]), the counter is written only by
      the thread that holds the lock ([counter_written_under_lock]), no
      update is lost ([no_lost_update]), some thread can move while a call is unfinished
      ([no_deadlock]), every run can be completed ([calls_complete]) and
      ends with the counter at the net sum and the object alive
      ([final_count]); and under the round-robin schedule of [total_work]
      rounds every thread has returned from its last call, none waiting
      for the lock ([round_robin_completes]); the ten threads of the
      specification are its instance.
    - [LastRelease]: for threads that hold every reference between them,
      each holding one whenever it makes a call, every step keeps [phase]
      ([cstep_preserves_phase]); the second phase is stated by [run_alone]:
      the statements the destroying thread has left, run alone, free the
      object and its lock, which the steps of that thread keep true because
      no other thread is enabled.  Hence, under every schedule, the thread
      that finds the counter at 0 is the last one ([destroyer_is_last]), no
      call runs on the destroyed object and no thread is stopped
      ([no_use_after_free]), the destructor runs at most once
      ([destroyed_at_most_once]), every run can be completed
      ([last_release_completes]) and ends with the object and its lock
      freed, one deletion message logged with the counter at 0 after those
      the log held before, and nothing signalled
      ([last_release_destroys]).
    - [Serial]: in a pool where at most one thread is busy and none is
      stopped, what a busy thread has left of its call, run alone, is the
      whole call made from the machine the completed calls left
      ([serial_at]); every step keeps this ([serial_cstep_fun]), so when all
      calls have completed the machine is, log included, the one
      [perform_all] leaves on an interleaving of the programs
      ([serializable] for the pools of [Sharing],
      [last_release_serializable] for those of [LastRelease]): the
      concurrent statements refine the sequential methods.
    - [Builds]: [erases p q] relates a computation to the one without its
      messages, [silent] and [writes] say what a computation adds to the
      log; the three compose along [exec_bind].  Of the code, the file
      shows that the messages of the debug build carry the positions of the
      client's statements ([messages_stamped]).  Of the release build it
      shows only what follows from the assumed laws: a lawful
      [ReleaseBuild] writes no message ([rb_perform_all_quiet]) and refines
      the protocol ([release_refinement]), and the bodies written from the
      specification are lawful ([ndebug_laws]).  None of this is a
      statement about lines of the header, which declares these methods
      and does not define them.
    - [Refinement]: the protocol permits every interleaving of programs
      that keep the count between 1 and [INT_MAX] wherever each thread is
      ([interleaving_permitted], by induction on the interleaving from its
      last call), and of programs of the only owners, whose last call
      releases the last reference ([interleaving_permitted_last]).  With
      [Serial] and [Protocol.simulation]: a pool of threads, under every
      schedule, ends in a machine that stands for the state the protocol
      reaches by the calls in the order they were made
      ([sharing_refines_protocol], [last_release_refines_protocol]).
    - [Independence]: each primitive writes only the object or the lock
      it is given, and a statement is given only [this] and the lock [this]
      points to, which is never the lock of another object (lock pointers
      are unshared and, by [Monotone], never rewritten).  Hence an object
      that no thread calls is, with its lock and the messages about it,
      after any run of any pool what it was before
      ([instances_independent]), whether the calls on
      the other objects return, fault, throw or destroy them
      ([copy_outlives_original]); the same holds of an address at which
      no object is ([bystander_rtc] asks only that no other object points
      to the lock).
    - [Local]: every primitive, given [this] and the lock [this] points
      to, commutes with the view, so the methods do ([methods_are_local])
      and every statement and every step of a thread ([local_fstep],
      [local_tstep]): a call cannot tell whether the other objects exist.
    - [Groups]: the step of a thread that is in a call on an object, or
      about to make one, is a step of the pool as that object sees it
      ([seen_cstep_fun]), and no other object sees it ([seen_other], by
      [Independence]): for the other objects the thread stays between two
      calls.  So the invariant of [Sharing] or the phases of [LastRelease]
      hold of every object, on what it sees, at every state
      ([together_cstep_fun]; the instances [inv_discipline] and
      [phase_discipline] discharge the class).  Hence each counter counts
      the references of its own object ([counters_count_references]), each
      lock excludes among the calls on its object
      ([mutual_exclusion_per_object]) while calls on different objects
      hold their locks together ([locks_held_together]), no thread waits
      for ever on whichever objects it calls ([no_deadlock_together]), no
      call is made on a destroyed object, not by a thread that comes to it
      from a call on another either ([no_use_after_free_together]), and
      every run can be completed ([calls_complete_together]); when the
      calls are over every thread has returned
      ([all_calls_return]), every object that outlives them has the count
      the calls on it give ([final_counts]) and every object whose owners
      gave back their references is destroyed, once
      ([last_releases_destroy]).  A run of the pool is, as each object
      sees it, a run of a pool of [Sharing] or of [LastRelease], in which
      the steps of calls on other objects do not show ([seen_rtc],
      [seen_reachable], [seen_reachable_last]); with [Refinement], every
      object of the pool refines the protocol
      ([objects_refine_protocol]).
    - [Lifecycle]: the creator leaves an object that owns a free lock,
      counted once for the constructor and once for every [Retain]
      ([created_handed]), which is what the pools start from
      ([handed_shares], [handed_shares_last]); the calls of a pool on one
      object change no other object and no other lock of a well-formed
      machine ([calls_reach_this_only]); so when the owners of a
      constructed object have given back their references the heaps are
      those the creator started from, one destructor has run and nothing
      was signalled ([lifecycle]): nothing leaks; and when they leave
      references to somebody else the object stays with that count and
      its lock free, and no destructor has run ([shared_object_stays]).
      The machine is well formed in every state of threads that share an
      object, between any two statements, and in every state of threads
      that are the only owners in which none is in the statements that
      destroy the object ([outside_destructor]), the last state included,
      where the destructor has deleted the lock with its object
      ([pools_keep_wf]); between the [EP_DELETE] of the lock and
      [operator delete] the object points to a lock that is gone
      ([dangling_in_destructor]).
    - [Races]: under the no-op lock an increment is lost and an object
      leaks; a verification that throws in the destructor stops its thread
      with the lock held and the other thread waits for ever; one that
      returns frees the object under its owner; a [Retain] through a
      pointer without a reference, made after the last [Release] has
      unlocked, returns and is reported by the destructor.

    The theorems attached to the two verifications show that, if the macro
    throws, [Release] and the destructor leave the lock held
    ([Release_negative_unwinds], [dtor_nonzero_unwinds]), and if it returns,
    the destructor frees an object that has owners
    ([EP_DELETE_this_nonzero_continues]); that a policy value outside the
    enumeration gives an object on which every call dereferences [NULL]
    ([SmartObject_ctor_unknown], [null_lock_faults]); and that a release too
    many is a call on a destroyed object, not a negative count
    ([release_after_destroy]).

    ** Not modelled

    The bodies of the lock classes, of the logger and of the verification
    macros (other headers); payload fields of derived classes.  The bodies
    of the release build are not in the sources: [Builds] states what the
    specification promises of them as laws of an interface and gives bodies
    that keep them; no theorem depends on those bodies but through the
    laws.  The preprocessor is modelled at the level of calls, not of
    tokens: a macro maps a written call and its position to the call with
    the call site.  The constructors are not
    interleaved with other calls: an object is shared after it is
    constructed.  The theorems of [Sharing] and [LastRelease] are for
    threads that call [Retain] and [Release] on one object through a
    reference they hold, under a lock that excludes; what happens otherwise
    (the no-op lock, a deletion under an owner) is shown on schedules in
    [Races], by evaluation.  In [Groups] a thread calls on one object at
    a time, as the header has it: no method calls another object's method
    while it holds a lock.  The locks are not re-entrant in the model; no
    method of the header takes the lock twice.

    Nothing more of the header can be modelled: every line of it that is
    a declaration or a statement has its definition; the lines that remain
    are the licence, the include directives, comments and braces.  The
    components that are modelled in part are so because the other half is
    in headers and source files that are not among the sources. *)

From stdpp Require Export gmap list strings.
From Stdlib Require Export ZArith Lia.

#[global] Open Scope Z_scope.

(** ** The C [int] *)

Definition INT_MIN : Z := - 2 ^ 31.
Definition INT_MAX : Z := 2 ^ 31 - 1.

Definition in_int (z : Z) : Prop := INT_MIN ≤ z ≤ INT_MAX.

#[global] Instance in_int_dec z : Decision (in_int z).
Proof. unfold in_int. apply _. Defined.

(** Two's complement wrap-around to 32 bits. *)
Definition wrap_int (z : Z) : Z := (z + 2 ^ 31) mod 2 ^ 32 - 2 ^ 31.

(** [c++] and [c--] on an [int]. *)
Definition int_incr (c : Z) : Z := wrap_int (c + 1).
Definition int_decr (c : Z) : Z := wrap_int (c - 1).

(** ** Outcomes and the execution monad *)

(** A call either returns a value or is interrupted; in both cases the state
    it leaves behind is kept. *)
Inductive Outcome (I A : Type) : Type :=
| Normal (a : A)
| Interrupt (i : I).
Arguments Normal {I A} a.
Arguments Interrupt {I A} i.

Definition Exec (S I A : Type) : Type := S → Outcome I A * S.

Section exec.
Context {S I : Type}.

Definition exec_ret {A} (a : A) : Exec S I A := λ s, (Normal a, s).

Definition exec_bind {A B} (p : Exec S I A) (k : A → Exec S I B) : Exec S I B :=
  λ s, match p s with
       | (Normal a, s') => k a s'
       | (Interrupt i, s') => (Interrupt i, s')
       end.

Definition exec_get : Exec S I S := λ s, (Normal s, s).
Definition exec_modify (f : S → S) : Exec S I unit := λ s, (Normal tt, f s).
Definition exec_interrupt {A} (i : I) : Exec S I A := λ s, (Interrupt i, s).

(** [exec_finally p c]: run [p], then [c] whatever the outcome of [p], and
    end as [p] did unless [c] itself is interrupted (a scope guard). *)
Definition exec_finally {A} (p : Exec S I A) (c : Exec S I unit) : Exec S I A :=
  λ s, let '(r, s') := p s in
       match c s' with
       | (Normal _, s'') => (r, s'')
       | (Interrupt i, s'') => (Interrupt i, s'')
       end.

Definition returns {A} (p : Exec S I A) (s : S) (a : A) (s' : S) : Prop :=
  p s = (Normal a, s').
Definition interrupted {A} (p : Exec S I A) (s : S) (i : I) (s' : S) : Prop :=
  p s = (Interrupt i, s').
End exec.

Declare Scope exec_scope.
Delimit Scope exec_scope with exec.
Notation "x <- p ;; k" := (exec_bind p (λ x, k))
  (at level 20, p at level 99, k at level 200, only parsing) : exec_scope.
Notation "p ;; k" := (exec_bind p (λ _, k))
  (at level 100, k at level 200, only parsing, right associativity) : exec_scope.

(** ** Sums over lists *)

(** The sum of an integer quantity over a list. *)
Definition sum_with {A} (f : A → Z) (l : list A) : Z :=
  foldr (λ x s, f x + s) 0 l.

(** ** Hint databases and tactics *)

Create HintDb int_arith discriminated.
Create Rewrite HintDb int_arith.
Create HintDb exec discriminated.
Create Rewrite HintDb exec.
Create Rewrite HintDb sums.

(** Unfold the [int] operations and hand the goal to [lia]. *)
Ltac int_solve :=
  unfold int_incr, int_decr, wrap_int, in_int, INT_MIN, INT_MAX in *;
  repeat match goal with
         | |- context [?a mod 2 ^ 32] =>
             lazymatch goal with
             | _ : 0 ≤ a mod 2 ^ 32 < 2 ^ 32 |- _ => fail
             | _ => pose proof (Z.mod_pos_bound a (2 ^ 32) eq_refl)
             end
         end;
  try (rewrite Z.mod_small by lia); lia.

(** Case analysis on the outcome of a computation that was run. *)
Ltac destruct_run p s :=
  let r := fresh "r" in
  let s' := fresh "s" in
  let E := fresh "E" in
  destruct (p s) as [r s'] eqn:E; destruct r.

(** ** Lemmas on [int] *)

Lemma wrap_int_small z : in_int z → wrap_int z = z.
Proof. intros. int_solve. Qed.

Lemma wrap_int_range z : in_int (wrap_int z).
Proof. int_solve. Qed.

Lemma wrap_int_idemp z : wrap_int (wrap_int z) = wrap_int z.
Proof. apply wrap_int_small, wrap_int_range. Qed.

Lemma wrap_int_congr z k : wrap_int (z + k * 2 ^ 32) = wrap_int z.
Proof.
  unfold wrap_int. replace (z + k * 2 ^ 32 + 2 ^ 31) with (z + 2 ^ 31 + k * 2 ^ 32) by lia.
  by rewrite Z.mod_add.
Qed.

Lemma wrap_int_add_l a b : wrap_int (wrap_int a + b) = wrap_int (a + b).
Proof.
  unfold wrap_int.
  replace ((a + 2 ^ 31) mod 2 ^ 32 - 2 ^ 31 + b + 2 ^ 31)
    with ((a + 2 ^ 31) mod 2 ^ 32 + b) by lia.
  rewrite Zplus_mod_idemp_l. f_equal. f_equal. lia.
Qed.

Lemma wrap_int_sub_l a b : wrap_int (wrap_int a - b) = wrap_int (a - b).
Proof. rewrite <- !Z.add_opp_r. apply wrap_int_add_l. Qed.

Lemma int_incr_range c : in_int (int_incr c).
Proof. apply wrap_int_range. Qed.

Lemma int_decr_range c : in_int (int_decr c).
Proof. apply wrap_int_range. Qed.

Lemma int_incr_small c : in_int c → c < INT_MAX → int_incr c = c + 1.
Proof. intros. int_solve. Qed.

Lemma int_decr_small c : in_int c → INT_MIN < c → int_decr c = c - 1.
Proof. intros. int_solve. Qed.

Lemma int_incr_0 : int_incr 0 = 1.
Proof. reflexivity. Qed.

Lemma int_decr_1 : int_decr 1 = 0.
Proof. reflexivity. Qed.

Lemma int_incr_max : int_incr INT_MAX = INT_MIN.
Proof. reflexivity. Qed.

Lemma int_decr_min : int_decr INT_MIN = INT_MAX.
Proof. reflexivity. Qed.

(** Increment and decrement are inverse on [int], wrap included. *)
Lemma int_decr_incr c : in_int c → int_decr (int_incr c) = c.
Proof.
  intros. unfold int_decr, int_incr. rewrite wrap_int_sub_l.
  replace (c + 1 - 1) with c by lia. by apply wrap_int_small.
Qed.

Lemma int_incr_decr c : in_int c → int_incr (int_decr c) = c.
Proof.
  intros. unfold int_decr, int_incr. rewrite wrap_int_add_l.
  replace (c - 1 + 1) with c by lia. by apply wrap_int_small.
Qed.

#[export] Hint Resolve wrap_int_range int_incr_range int_decr_range : int_arith.
#[export] Hint Rewrite wrap_int_idemp int_incr_max int_decr_min int_incr_0 int_decr_1 : int_arith.
#[export] Hint Rewrite int_decr_incr int_incr_decr using (auto with int_arith) : int_arith.

(** ** Laws of the execution monad *)

Section exec_laws.
Context {S I : Type}.
Implicit Types s : S.

Lemma exec_bind_ret_l {A B} (a : A) (k : A → Exec S I B) s :
  exec_bind (exec_ret a) k s = k a s.
Proof. reflexivity. Qed.

Lemma exec_bind_ret_r {A} (p : Exec S I A) s :
  exec_bind p exec_ret s = p s.
Proof. unfold exec_bind. by destruct_run p s. Qed.

Lemma exec_bind_assoc {A B C} (p : Exec S I A) (f : A → Exec S I B)
    (g : B → Exec S I C) s :
  exec_bind (exec_bind p f) g s = exec_bind p (λ a, exec_bind (f a) g) s.
Proof. unfold exec_bind. by destruct_run p s. Qed.

(** The two equations proofs step through a method with. *)
Lemma exec_bind_normal {A B} (p : Exec S I A) (k : A → Exec S I B) s a s' :
  p s = (Normal a, s') → exec_bind p k s = k a s'.
Proof. unfold exec_bind. by intros ->. Qed.

Lemma exec_bind_interrupt {A B} (p : Exec S I A) (k : A → Exec S I B) s i s' :
  p s = (Interrupt i, s') → exec_bind p k s = (Interrupt i, s').
Proof. unfold exec_bind. by intros ->. Qed.

Lemma exec_bind_inv_normal {A B} (p : Exec S I A) (k : A → Exec S I B) s b s'' :
  exec_bind p k s = (Normal b, s'') →
  ∃ a s', p s = (Normal a, s') ∧ k a s' = (Normal b, s'').
Proof. unfold exec_bind. destruct_run p s; [eauto | done]. Qed.

Lemma exec_finally_normal {A} (p : Exec S I A) (c : Exec S I unit) s r s' s'' :
  p s = (r, s') → c s' = (Normal tt, s'') → exec_finally p c s = (r, s'').
Proof. unfold exec_finally. by intros -> ->. Qed.
End exec_laws.

(** ** Lemmas on sums *)

Section sums.
Context {A : Type}.
Implicit Types (l : list A) (f g : A → Z).

Lemma sum_with_nil f : sum_with f [] = 0.
Proof. done. Qed.

Lemma sum_with_cons f x l : sum_with f (x :: l) = f x + sum_with f l.
Proof. done. Qed.

Lemma sum_with_app f l k : sum_with f (l ++ k) = sum_with f l + sum_with f k.
Proof. induction l as [|x l IH]; cbn [app]; rewrite ?sum_with_cons; [done | lia]. Qed.

Lemma sum_with_fmap {B} (h : B → A) f (k : list B) :
  sum_with f (h <$> k) = sum_with (f ∘ h) k.
Proof. induction k; simpl; [done|]. by f_equal. Qed.

Lemma sum_with_replicate f n x :
  sum_with f (replicate n x) = Z.of_nat n * f x.
Proof. induction n as [|n IH]; simpl; [done|]. rewrite IH. lia. Qed.

Lemma sum_with_ext f g l : (∀ x, f x = g x) → sum_with f l = sum_with g l.
Proof. intros Hfg. induction l; simpl; [done|]. by rewrite Hfg, IHl. Qed.

Lemma sum_with_insert f l i x y :
  l !! i = Some x → sum_with f (<[i:=y]> l) = sum_with f l + (f y - f x).
Proof.
  revert i. induction l as [|z l IH]; intros [|i] Hi; simplify_eq/=; [lia|].
  rewrite (IH i) by done. lia.
Qed.

Lemma sum_with_le f g l :
  Forall (λ x, f x ≤ g x) l → sum_with f l ≤ sum_with g l.
Proof. induction 1; simpl; lia. Qed.

Lemma sum_with_nonneg f l : Forall (λ x, 0 ≤ f x) l → 0 ≤ sum_with f l.
Proof. induction 1; simpl; lia. Qed.

(** One element has [k] to spare, the others at least none. *)
Lemma sum_with_lookup_le f g l i x k :
  l !! i = Some x → f x + k ≤ g x → Forall (λ x, f x ≤ g x) l →
  sum_with f l + k ≤ sum_with g l.
Proof.
  intros Hi Hx Hl. revert i Hi.
  induction Hl as [|z l Hz Hl IH]; intros [|i] Hi; simplify_eq/=.
  - apply sum_with_le in Hl. lia.
  - specialize (IH i Hi). lia.
Qed.

Lemma sum_with_zero f l : Forall (λ x, f x = 0) l → sum_with f l = 0.
Proof. induction 1; simpl; lia. Qed.

Lemma sum_with_zero_inv f l :
  Forall (λ x, 0 ≤ f x) l → sum_with f l = 0 → Forall (λ x, f x = 0) l.
Proof.
  induction 1 as [|x l Hx Hl IH]; simpl; [done|]. intros Hs.
  pose proof (sum_with_nonneg f l Hl). constructor; [lia|]. apply IH. lia.
Qed.

(** One element counts at least for itself when none counts below 0. *)
Lemma sum_with_lookup_ge f l i x :
  l !! i = Some x → Forall (λ x, 0 ≤ f x) l → f x ≤ sum_with f l.
Proof.
  intros Hi Hl.
  assert (sum_with (λ _, 0) l + f x ≤ sum_with f l) as Hle
    by (apply (sum_with_lookup_le _ _ _ i x); [done | simpl; lia | done]).
  rewrite (sum_with_zero (λ _, 0)) in Hle; [lia | by apply Forall_true].
Qed.

Lemma sum_list_with_insert (h : A → nat) l i x y :
  l !! i = Some x →
  (sum_list_with h (<[i:=y]> l) + h x = sum_list_with h l + h y)%nat.
Proof.
  revert i. induction l as [|z l IH]; intros [|i] Hi; simplify_eq/=; [lia|].
  specialize (IH i Hi). lia.
Qed.
End sums.

#[global] Arguments sum_with : simpl never.
#[export] Hint Rewrite @sum_with_nil @sum_with_cons : sums.

(** ** Two lists updated at one index *)

Section insert2.
Context {A B : Type}.

(** What holds of the elements of two lists at each index, after both are
    updated at [i]. *)
Lemma lookup2_insert (P Q : nat → A → B → Prop) (l : list A) (k : list B) i x y x' y' :
  l !! i = Some x → k !! i = Some y →
  (∀ j a b, l !! j = Some a → k !! j = Some b → P j a b) →
  Q i x' y' →
  (∀ j a b, j ≠ i → l !! j = Some a → k !! j = Some b → P j a b → Q j a b) →
  ∀ j a b, <[i:=x']> l !! j = Some a → <[i:=y']> k !! j = Some b → Q j a b.
Proof.
  intros Hx Hy HP HQ Hother j a b.
  pose proof (lookup_lt_Some _ _ _ Hx). pose proof (lookup_lt_Some _ _ _ Hy).
  destruct (decide (j = i)) as [->|Hne].
  - rewrite !list_lookup_insert_eq by done. by intros [= <-] [= <-].
  - rewrite !list_lookup_insert_ne by done. eauto.
Qed.

(** A property of every element but the one that was replaced. *)
Lemma Forall_insert_inv (P : A → Prop) (l : list A) i x x' :
  l !! i = Some x → P x → Forall P (<[i:=x']> l) → Forall P l.
Proof.
  intros Hx HP Hall. apply Forall_lookup. intros j a Ha.
  destruct (decide (j = i)) as [->|Hne]; [congruence|].
  eapply (Forall_lookup_1 _ _ j); [done|]. by rewrite list_lookup_insert_ne.
Qed.

End insert2.

(** ** Termination by a measure *)

(** A relation whose steps decrease a natural number has no infinite
    chain. *)
Section measure.
Context {A : Type} (R : relation A) (μ : A → nat).
Hypothesis R_decreases : ∀ x y, R x y → (μ y < μ x)%nat.

Lemma sn_measure x : sn R x.
Proof.
  remember (μ x) as n eqn:Hn. revert x Hn.
  induction (lt_wf n) as [n _ IH]; intros x ->.
  constructor; intros y Hy. eapply IH; [by apply R_decreases | done].
Qed.
End measure.
