(* ===== verification/Lock.v ===== *)
(** * Lock: the lock policy and the locks behind [BaseLock *]

    [LockPolicy] is the enumeration both constructors of [SmartObject] switch
    on (epSmartObject.h lines 138-152 and 164-178); [BaseLock] is what the
    switch allocates: a [CriticalSectionEx], a [Mutex] or a [NoLock].  The
    classes themselves live in other headers, so what [Lock] and [Unlock] do
    is taken from the specification: the two real locks have at most one
    holder, and [Lock] cannot proceed while another call holds the lock; the
    no-op lock never holds anything back.

    [LockImpl] is the interface the reference counter is written against;
    [LockLaws] are the laws all three implementations satisfy, and
    [MutualExclusion] those only a real lock satisfies. *)

From S2P Require Import Prelude.

(** Threads are identified by a number. *)
Definition tid := nat.
Bind Scope nat_scope with tid.

(** ** The policy enumeration *)

(** The three named policies, and any other value the [enum] variable may
    carry (the [default:] branch of the switch). *)
Inductive LockPolicy : Type :=
| LOCK_POLICY_CRITICALSECTION
| LOCK_POLICY_MUTEX
| LOCK_POLICY_NONE
| LOCK_POLICY_OTHER (v : Z).

#[global] Instance LockPolicy_eq_dec : EqDecision LockPolicy.
Proof. solve_decision. Defined.

Definition policy_known (p : LockPolicy) : bool :=
  match p with LOCK_POLICY_OTHER _ => false | _ => true end.

(** ** The interface *)

(** [Lock t l] is [None] when the call cannot proceed in state [l];
    [Unlock t l] is [None] when [t] does not hold [l] (undefined in the
    implementations); [holder l] is who holds the lock. *)
Class LockImpl (L : Type) : Type := {
  Lock : tid → L → option L;
  Unlock : tid → L → option L;
  holder : L → option tid;
}.

Class LockLaws (L : Type) `{LockImpl L} : Prop := {
  free_lockable t l : holder l = None → is_Some (Lock t l);
  Lock_Unlock t l l' : Lock t l = Some l' → Unlock t l' = Some l;
  Unlock_free t l l' : Unlock t l = Some l' → holder l' = None;
}.

Class MutualExclusion (L : Type) `{LockImpl L} : Prop := {
  Lock_acquires t l l' : Lock t l = Some l' → holder l = None ∧ holder l' = Some t;
  held_blocks t t' l : holder l = Some t → Lock t' l = None;
  Unlock_by_holder t l l' : Unlock t l = Some l' → holder l = Some t;
}.

(** ** The implementations *)

(** A lock with an owner: the state of [CriticalSectionEx] and of [Mutex]. *)
Record OwnedLock : Type := { owner : option tid }.

#[global] Instance OwnedLock_eq_dec : EqDecision OwnedLock.
Proof. solve_decision. Defined.

Definition OwnedLock_Lock (t : tid) (l : OwnedLock) : option OwnedLock :=
  match owner l with
  | None => Some {| owner := Some t |}
  | Some _ => None
  end.

Definition OwnedLock_Unlock (t : tid) (l : OwnedLock) : option OwnedLock :=
  match owner l with
  | Some t' => if decide (t' = t) then Some {| owner := None |} else None
  | None => None
  end.

#[global] Instance OwnedLock_impl : LockImpl OwnedLock :=
  {| Lock := OwnedLock_Lock; Unlock := OwnedLock_Unlock; holder := owner |}.

(** The no-op lock has no state. *)
Definition NoLock : Type := unit.

#[global] Instance NoLock_impl : LockImpl NoLock :=
  {| Lock := λ _ l, Some l; Unlock := λ _ l, Some l; holder := λ _, None |}.

(** The object behind a [BaseLock *]: one of the three classes. *)
Inductive BaseLock : Type :=
| CriticalSectionEx (s : OwnedLock)
| Mutex (s : OwnedLock)
| NoLock_obj (s : NoLock).

#[global] Instance BaseLock_eq_dec : EqDecision BaseLock.
Proof. solve_decision. Defined.

(** Virtual dispatch of [Lock], [Unlock] through the base pointer. *)
Definition BaseLock_Lock (t : tid) (l : BaseLock) : option BaseLock :=
  match l with
  | CriticalSectionEx s => CriticalSectionEx <$> Lock t s
  | Mutex s => Mutex <$> Lock t s
  | NoLock_obj s => NoLock_obj <$> Lock t s
  end.

Definition BaseLock_Unlock (t : tid) (l : BaseLock) : option BaseLock :=
  match l with
  | CriticalSectionEx s => CriticalSectionEx <$> Unlock t s
  | Mutex s => Mutex <$> Unlock t s
  | NoLock_obj s => NoLock_obj <$> Unlock t s
  end.

Definition BaseLock_holder (l : BaseLock) : option tid :=
  match l with
  | CriticalSectionEx s | Mutex s => holder s
  | NoLock_obj s => holder s
  end.

#[global] Instance BaseLock_impl : LockImpl BaseLock :=
  {| Lock := BaseLock_Lock; Unlock := BaseLock_Unlock; holder := BaseLock_holder |}.

(** The policy a lock object implements. *)
Definition lock_kind (l : BaseLock) : LockPolicy :=
  match l with
  | CriticalSectionEx _ => LOCK_POLICY_CRITICALSECTION
  | Mutex _ => LOCK_POLICY_MUTEX
  | NoLock_obj _ => LOCK_POLICY_NONE
  end.

(** A lock that excludes: anything but the no-op lock. *)
Definition exclusive (l : BaseLock) : bool :=
  match l with NoLock_obj _ => false | _ => true end.

(** The default constructors of the three classes: a new lock is free. *)
Definition new_CriticalSectionEx : BaseLock := CriticalSectionEx {| owner := None |}.
Definition new_Mutex : BaseLock := Mutex {| owner := None |}.
Definition new_NoLock : BaseLock := NoLock_obj tt.

(** Which lock object the switch of the constructors builds for a policy;
    [None] is the [NULL] of the [default:] branch. *)
Definition new_lock (lockPolicyType : LockPolicy) : option BaseLock :=
  match lockPolicyType with
  | LOCK_POLICY_CRITICALSECTION => Some new_CriticalSectionEx
  | LOCK_POLICY_MUTEX => Some new_Mutex
  | LOCK_POLICY_NONE => Some new_NoLock
  | LOCK_POLICY_OTHER _ => None
  end.

(** ** Laws *)

Ltac lock_crush :=
  repeat match goal with
         | l : OwnedLock |- _ => destruct l as [[?|]]
         | l : NoLock |- _ => destruct l
         | l : BaseLock |- _ => destruct l
         end;
  cbn in *; unfold OwnedLock_Lock, OwnedLock_Unlock in *; cbn in *;
  repeat case_decide; simplify_eq/=; eauto.

#[global] Instance OwnedLock_laws : LockLaws OwnedLock.
Proof. split; intros; lock_crush. Qed.

#[global] Instance OwnedLock_excl : MutualExclusion OwnedLock.
Proof. split; intros; lock_crush. Qed.

#[global] Instance NoLock_laws : LockLaws NoLock.
Proof. split; intros; lock_crush. Qed.

#[global] Instance BaseLock_laws : LockLaws BaseLock.
Proof. split; intros; lock_crush. Qed.

(** The no-op lock is not a mutual-exclusion lock: two threads may both
    pass [Lock]. *)
Lemma NoLock_not_exclusive (t t' : tid) :
  ∃ l l', Lock t tt = Some l ∧ Lock t' l = Some l'.
Proof. by exists tt, tt. Qed.

Section base_lock.
Implicit Types (l : BaseLock) (t : tid).

Lemma Lock_kind t l l' : Lock t l = Some l' → lock_kind l' = lock_kind l.
Proof. intros. lock_crush. Qed.

Lemma Unlock_kind t l l' : Unlock t l = Some l' → lock_kind l' = lock_kind l.
Proof. intros. lock_crush. Qed.

Lemma exclusive_kind l : exclusive l = bool_decide (lock_kind l ≠ LOCK_POLICY_NONE).
Proof. by destruct l. Qed.

(** Mutual exclusion through the base pointer, for a real lock. *)
Lemma BaseLock_Lock_acquires t l l' :
  exclusive l = true → Lock t l = Some l' → holder l = None ∧ holder l' = Some t.
Proof. intros. lock_crush. Qed.

Lemma BaseLock_held_blocks t t' l : holder l = Some t → Lock t' l = None.
Proof. intros. lock_crush. Qed.

Lemma BaseLock_Unlock_by_holder t l l' :
  exclusive l = true → Unlock t l = Some l' → holder l = Some t.
Proof. intros. lock_crush. Qed.

Lemma BaseLock_Lock_free t l : holder l = None → ∃ l', Lock t l = Some l'.
Proof. intros. by apply (free_lockable (L:=BaseLock)). Qed.

Lemma BaseLock_Lock_None t l : Lock t l = None → ∃ t', holder l = Some t'.
Proof. intros. lock_crush. Qed.

(** The holder, and nobody else, can give the lock back; it is free then. *)
Lemma BaseLock_holder_unlocks t l :
  holder l = Some t →
  ∃ l', Unlock t l = Some l' ∧ holder l' = None ∧ exclusive l' = exclusive l.
Proof. intros. lock_crush. Qed.

Lemma Lock_exclusive t l l' : Lock t l = Some l' → exclusive l' = exclusive l.
Proof. intros. lock_crush. Qed.

Lemma Unlock_exclusive t l l' : Unlock t l = Some l' → exclusive l' = exclusive l.
Proof. intros. lock_crush. Qed.

Lemma new_lock_kind p l : new_lock p = Some l → lock_kind l = p.
Proof. destruct p; intros; simplify_eq/=; done. Qed.

Lemma new_lock_free p l : new_lock p = Some l → holder l = None.
Proof. destruct p; intros; simplify_eq/=; done. Qed.

Lemma new_lock_known p : is_Some (new_lock p) ↔ policy_known p = true.
Proof. destruct p; cbn; split; first [done | by eauto | by intros [??]]. Qed.

Lemma new_lock_unknown p : new_lock p = None ↔ policy_known p = false.
Proof. destruct p; cbn; split; intros; done. Qed.
End base_lock.

#[export] Hint Resolve Lock_kind Unlock_kind new_lock_kind new_lock_free : exec.
