(* ===== verification/Diagnostic.v ===== *)
(** * Diagnostic: the log sink and the error mechanism

    The header calls two collaborators it does not define.  [LOG_THIS_MSG]
    records a message per allocation, retain, release and deletion, with the
    address of the object and the counter after the operation
    (epSmartObject.h lines 99, 110, 136, 162, 188); the model keeps the
    messages as [LogEvent]s.  [EP_VERIFY_DOMAIN_ERROR_W_MSG] and
    [EP_VERIFY_RUNTIME_ERROR_W_MSG] report the two misuses of the protocol
    (lines 118-123 and 189-194); whether a failed verification leaves the
    calling function is a property of the macro, kept as the class
    [ErrorMechanism]. *)

From S2P Require Import Prelude Lock.

(** Addresses of heap objects. *)
Definition loc := positive.
Bind Scope positive_scope with loc.

(** ** The log *)

(** What the macros of lines 215-217 pass to every method. *)
Record CallSite : Type := {
  fileName : string;
  funcName : string;
  lineNum : N;
}.

#[global] Instance CallSite_eq_dec : EqDecision CallSite.
Proof. solve_decision. Defined.

(** The four messages of the header. *)
Inductive LogKind : Type :=
| Allocated
| Retained
| Released
| Deleted.

#[global] Instance LogKind_eq_dec : EqDecision LogKind.
Proof. solve_decision. Defined.

(** One [LOG_THIS_MSG]: the call site (the destructor's message has none),
    [this], and [this->m_refCount] at the time of the call. *)
Record LogEvent : Type := {
  ev_kind : LogKind;
  ev_site : option CallSite;
  ev_this : loc;
  ev_count : Z;
}.

#[global] Instance LogEvent_eq_dec : EqDecision LogEvent.
Proof. solve_decision. Defined.

Abbreviation event k site this c :=
  {| ev_kind := k; ev_site := site; ev_this := this; ev_count := c |}.

(** The events of a log that concern one object. *)
Definition events_of (this : loc) (log : list LogEvent) : list LogEvent :=
  filter (λ e, ev_this e = this) log.

(** ** Misuse errors *)

(** The two verifications of the header, with the counter they print. *)
Inductive Misuse : Type :=
| NegativeReferenceCount (count : Z)
| NonZeroCountAtDestruction (count : Z).

#[global] Instance Misuse_eq_dec : EqDecision Misuse.
Proof. solve_decision. Defined.

(** What a failed verification does to the calling function. *)
Inductive Disposition : Type :=
| Unwinds
| Continues.

#[global] Instance Disposition_eq_dec : EqDecision Disposition.
Proof. solve_decision. Defined.

Class ErrorMechanism : Type := { on_failure : Misuse → Disposition }.

(** The verification throws: control leaves the function at the macro. *)
Definition Throwing : ErrorMechanism := {| on_failure := λ _, Unwinds |}.

(** The verification reports and returns to the statement after the macro. *)
Definition Reporting : ErrorMechanism := {| on_failure := λ _, Continues |}.

(** The asymmetry the specification asks to preserve: a negative counter is
    reported, a non-zero counter at destruction is a hard failure. *)
Definition Asymmetric : ErrorMechanism :=
  {| on_failure := λ e, match e with
                        | NegativeReferenceCount _ => Continues
                        | NonZeroCountAtDestruction _ => Unwinds
                        end |}.

(** ** Lemmas *)

Lemma events_of_app this l1 l2 :
  events_of this (l1 ++ l2) = events_of this l1 ++ events_of this l2.
Proof. apply filter_app. Qed.

Lemma events_of_other this e log :
  ev_this e ≠ this → events_of this (log ++ [e]) = events_of this log.
Proof.
  intros. rewrite events_of_app. unfold events_of at 2.
  rewrite filter_cons_False by done. by rewrite filter_nil, app_nil_r.
Qed.

Lemma events_of_same this e log :
  ev_this e = this → events_of this (log ++ [e]) = events_of this log ++ [e].
Proof.
  intros. rewrite events_of_app. unfold events_of at 2.
  by rewrite filter_cons_True.
Qed.
