(* ===== verification/Machine.v ===== *)
(** * Machine: the memory the methods run on, and the primitives

    [SmartObject] is the data of the class (epSmartObject.h lines 207-212);
    [Machine] is the heap of live objects, the heap of live locks, the log
    and the errors signalled so far.  A method is a [Call]: an [Exec]
    computation over the machine that returns, or stops with an
    [Interruption]: an exception of the error mechanism ([Raised]),
    undefined behaviour ([Fault]) or a [Lock] that cannot proceed
    ([Blocked]).

    The primitives are the statements the method bodies are made of; each
    reads [this] afresh, as the C++ does. *)

From S2P Require Import Prelude Lock Diagnostic.

(** ** Data *)

(** The private members; [None] is the [NULL] lock pointer. *)
Record SmartObject : Type := {
  m_refCount : Z;
  m_refCounterLock : option loc;
  m_lockPolicy : LockPolicy;
}.

#[global] Instance SmartObject_eq_dec : EqDecision SmartObject.
Proof. solve_decision. Defined.

Record Machine : Type := {
  objects : gmap loc SmartObject;
  locks : gmap loc BaseLock;
  log : list LogEvent;
  signalled : list Misuse;
}.

#[global] Instance Machine_eq_dec : EqDecision Machine.
Proof. solve_decision. Defined.

Definition empty_machine : Machine :=
  {| objects := ∅; locks := ∅; log := []; signalled := [] |}.

(** Undefined behaviour the methods can reach. *)
Inductive Crash : Type :=
| NullLock (this : loc)
| DanglingThis (this : loc)
| DanglingLock (l : loc)
| UnlockNotHeld (l : loc).

Inductive Interruption : Type :=
| Raised (e : Misuse)
| Fault (c : Crash)
| Blocked (l : loc).

#[global] Instance Crash_eq_dec : EqDecision Crash.
Proof. solve_decision. Defined.
#[global] Instance Interruption_eq_dec : EqDecision Interruption.
Proof. solve_decision. Defined.

Definition Call (A : Type) : Type := Exec Machine Interruption A.

#[local] Open Scope exec_scope.

(** ** Field and machine updates *)

Definition set_refCount (c : Z) (o : SmartObject) : SmartObject :=
  {| m_refCount := c; m_refCounterLock := m_refCounterLock o;
     m_lockPolicy := m_lockPolicy o |}.
Definition set_refCounterLock (p : option loc) (o : SmartObject) : SmartObject :=
  {| m_refCount := m_refCount o; m_refCounterLock := p;
     m_lockPolicy := m_lockPolicy o |}.
Definition set_lockPolicy (p : LockPolicy) (o : SmartObject) : SmartObject :=
  {| m_refCount := m_refCount o; m_refCounterLock := m_refCounterLock o;
     m_lockPolicy := p |}.

Definition with_objects (f : gmap loc SmartObject → gmap loc SmartObject)
    (m : Machine) : Machine :=
  {| objects := f (objects m); locks := locks m; log := log m;
     signalled := signalled m |}.
Definition with_locks (f : gmap loc BaseLock → gmap loc BaseLock)
    (m : Machine) : Machine :=
  {| objects := objects m; locks := f (locks m); log := log m;
     signalled := signalled m |}.
Definition with_log (e : LogEvent) (m : Machine) : Machine :=
  {| objects := objects m; locks := locks m; log := log m ++ [e];
     signalled := signalled m |}.
Definition with_signal (e : Misuse) (m : Machine) : Machine :=
  {| objects := objects m; locks := locks m; log := log m;
     signalled := signalled m ++ [e] |}.

(** ** Observations *)

(** The counter of the object at [this], if it is alive. *)
Definition refCount (m : Machine) (this : loc) : option Z :=
  m_refCount <$> objects m !! this.

(** The lock object [this->m_refCounterLock] points to. *)
Definition lock_state (m : Machine) (this : loc) : option BaseLock :=
  o ← objects m !! this; l ← m_refCounterLock o; locks m !! l.

(** The object is alive, its lock is alive and nobody holds it. *)
Definition lock_free (m : Machine) (this : loc) : bool :=
  match lock_state m this with
  | Some lk => bool_decide (holder lk = None)
  | None => false
  end.

Definition alive (m : Machine) (this : loc) : bool :=
  bool_decide (is_Some (objects m !! this)).

(** ** Primitives *)

Definition fault {A} (c : Crash) : Call A := exec_interrupt (Fault c).

(** [*this]: the object must be alive. *)
Definition deref (this : loc) : Call SmartObject :=
  m <- exec_get ;;
  match objects m !! this with
  | Some o => exec_ret o
  | None => fault (DanglingThis this)
  end.

Definition load_refCount (this : loc) : Call Z :=
  o <- deref this ;; exec_ret (m_refCount o).

Definition store_refCount (this : loc) (c : Z) : Call unit :=
  o <- deref this ;;
  exec_modify (with_objects <[this := set_refCount c o]>).

Definition load_refCounterLock (this : loc) : Call (option loc) :=
  o <- deref this ;; exec_ret (m_refCounterLock o).

Definition store_refCounterLock (this : loc) (p : option loc) : Call unit :=
  o <- deref this ;;
  exec_modify (with_objects <[this := set_refCounterLock p o]>).

Definition load_lockPolicy (this : loc) : Call LockPolicy :=
  o <- deref this ;; exec_ret (m_lockPolicy o).

Definition store_lockPolicy (this : loc) (p : LockPolicy) : Call unit :=
  o <- deref this ;;
  exec_modify (with_objects <[this := set_lockPolicy p o]>).

(** [m_refCount++] and [m_refCount--]: a load and a store. *)
Definition refCount_incr (this : loc) : Call unit :=
  c <- load_refCount this ;; store_refCount this (int_incr c).

Definition refCount_decr (this : loc) : Call unit :=
  c <- load_refCount this ;; store_refCount this (int_decr c).

(** [m_refCounterLock->]: the pointer must not be [NULL]. *)
Definition refCounterLock (this : loc) : Call loc :=
  p <- load_refCounterLock this ;;
  match p with
  | Some l => exec_ret l
  | None => fault (NullLock this)
  end.

(** [l->Lock()] and [l->Unlock()] by thread [t]. *)
Definition BaseLock_call_Lock (t : tid) (l : loc) : Call unit :=
  m <- exec_get ;;
  match locks m !! l with
  | None => fault (DanglingLock l)
  | Some lk =>
      match Lock t lk with
      | Some lk' => exec_modify (with_locks <[l := lk']>)
      | None => exec_interrupt (Blocked l)
      end
  end.

Definition BaseLock_call_Unlock (t : tid) (l : loc) : Call unit :=
  m <- exec_get ;;
  match locks m !! l with
  | None => fault (DanglingLock l)
  | Some lk =>
      match Unlock t lk with
      | Some lk' => exec_modify (with_locks <[l := lk']>)
      | None => fault (UnlockNotHeld l)
      end
  end.

(** [m_refCounterLock->Lock()] and [m_refCounterLock->Unlock()]. *)
Definition refCounterLock_Lock (t : tid) (this : loc) : Call unit :=
  l <- refCounterLock this ;; BaseLock_call_Lock t l.

Definition refCounterLock_Unlock (t : tid) (this : loc) : Call unit :=
  l <- refCounterLock this ;; BaseLock_call_Unlock t l.

(** [LOG_THIS_MSG(..., this, this->m_refCount)]. *)
Definition LOG_THIS_MSG (k : LogKind) (site : option CallSite) (this : loc) :
    Call unit :=
  c <- load_refCount this ;;
  exec_modify (with_log (event k site this c)).

(** [EP_VERIFY_..._W_MSG(cond, msg)]: nothing when [cond] holds; otherwise
    the error is signalled and, if the mechanism unwinds, the call ends. *)
Definition EP_VERIFY `{ErrorMechanism} (cond : bool) (e : Misuse) : Call unit :=
  if cond then exec_ret tt
  else
    exec_modify (with_signal e) ;;
    match on_failure e with
    | Unwinds => exec_interrupt (Raised e)
    | Continues => exec_ret tt
    end.

(** [EP_NEW] of a lock object: a fresh address in the lock heap. *)
Definition EP_NEW_lock (lk : BaseLock) : Call loc :=
  m <- exec_get ;;
  let l := fresh (dom (locks m)) in
  exec_modify (with_locks <[l := lk]>) ;;
  exec_ret l.

(** [EP_DELETE] of a lock object. *)
Definition EP_DELETE_lock (l : loc) : Call unit :=
  m <- exec_get ;;
  match locks m !! l with
  | Some _ => exec_modify (with_locks (delete l))
  | None => fault (DanglingLock l)
  end.

(** Storage for a new object, with whatever [raw] contents it has. *)
Definition operator_new (raw : SmartObject) : Call loc :=
  m <- exec_get ;;
  let this := fresh (dom (objects m)) in
  exec_modify (with_objects <[this := raw]>) ;;
  exec_ret this.

(** The storage of [this] is given back. *)
Definition operator_delete (this : loc) : Call unit :=
  _ <- deref this ;;
  exec_modify (with_objects (delete this)).

(** A live object with a live lock of its own. *)
Record owns (m : Machine) (this : loc) (o : SmartObject) (l : loc)
    (lk : BaseLock) : Prop := {
  owns_this : objects m !! this = Some o;
  owns_ptr : m_refCounterLock o = Some l;
  owns_lock : locks m !! l = Some lk;
}.

#[global] Instance owns_dec m this o l lk : Decision (owns m this o l lk).
Proof.
  destruct (decide (objects m !! this = Some o ∧ m_refCounterLock o = Some l
                    ∧ locks m !! l = Some lk)) as [H|H].
  - left. by destruct H as (?&?&?).
  - right. intros []. by apply H.
Defined.

(** ** The entry of a method *)

(** What [m_refCounterLock->Lock()] finds when thread [t] gets past it: the
    object, the address of its lock, and the lock before and after it is
    taken. *)
Record Entered : Type := {
  en_object : SmartObject;
  en_lock : loc;
  en_free : BaseLock;
  en_held : BaseLock;
}.

(** How a call by [t] on [this] starts: what stops it, or what it holds. *)
Definition enter (m : Machine) (t : tid) (this : loc) : Interruption + Entered :=
  match objects m !! this with
  | None => inl (Fault (DanglingThis this))
  | Some o =>
      match m_refCounterLock o with
      | None => inl (Fault (NullLock this))
      | Some l =>
          match locks m !! l with
          | None => inl (Fault (DanglingLock l))
          | Some lk =>
              match Lock t lk with
              | None => inl (Blocked l)
              | Some lk' =>
                  inr {| en_object := o; en_lock := l; en_free := lk; en_held := lk' |}
              end
          end
      end
  end.

(** ** Tactics *)

(** Machines are equal when their four components are. *)
Lemma Machine_eq m1 m2 :
  objects m1 = objects m2 → locks m1 = locks m2 → log m1 = log m2 →
  signalled m1 = signalled m2 → m1 = m2.
Proof. destruct m1, m2; cbn; congruence. Qed.

Ltac machine_simpl :=
  cbn [objects locks log signalled with_objects with_locks with_log with_signal
       m_refCount m_refCounterLock m_lockPolicy
       set_refCount set_refCounterLock set_lockPolicy
       ev_kind ev_site ev_this ev_count] in *.

(** Solve a lookup in a machine that was updated. *)
Ltac exec_lookup :=
  machine_simpl;
  first [ eassumption
        | rewrite lookup_insert_eq; reflexivity
        | rewrite lookup_insert_ne by done; eassumption
        | rewrite lookup_delete_eq; reflexivity
        | rewrite lookup_delete_ne by done; eassumption
        | reflexivity ].

#[export] Hint Extern 2 (_ !! _ = _) => exec_lookup : exec.
#[export] Hint Extern 2 (m_refCounterLock _ = _) => exec_lookup : exec.

(** Step through a [Call] whose next primitive returns. *)
Ltac exec_step :=
  lazymatch goal with
  | |- exec_bind (exec_bind _ _) _ _ = _ => rewrite exec_bind_assoc
  | |- exec_bind ?p ?k ?m = _ =>
      erewrite (exec_bind_normal p k m) by (eauto 6 with exec)
  | |- (if true then _ else _) _ = _ => cbv iota
  | |- (if false then _ else _) _ = _ => cbv iota
  | |- (match ?x with Some _ => _ | None => _ end) _ = _ =>
      match goal with H : x = _ |- _ => rewrite H end
  end.

(** Decide the tests of the code on the counter with [lia]. *)
Ltac exec_cond :=
  repeat match goal with
         | |- context [?a =? ?b] =>
             first [ rewrite (proj2 (Z.eqb_eq a b)) by lia
                   | rewrite (proj2 (Z.eqb_neq a b)) by lia ]
         | |- context [?a <? ?b] =>
             first [ rewrite (proj2 (Z.ltb_lt a b)) by lia
                   | rewrite (proj2 (Z.ltb_ge a b)) by lia ]
         | |- context [?a <=? ?b] =>
             first [ rewrite (proj2 (Z.leb_le a b)) by lia
                   | rewrite (proj2 (Z.leb_gt a b)) by lia ]
         end;
  cbn [negb].

Ltac exec_steps := repeat (exec_step; machine_simpl; exec_cond).

(** Finish: equality of the outcome and of the four components. *)
Ltac machine_eq :=
  f_equal; apply Machine_eq; machine_simpl;
  rewrite ?insert_insert_eq, ?delete_insert_eq, <- ?app_assoc;
  first [ done | by apply insert_id | by rewrite insert_id | idtac ].

(** ** What the primitives do *)

Section primitives.
Implicit Types (m : Machine) (this l : loc) (o : SmartObject) (t : tid)
  (lk : BaseLock) (c : Z).

Lemma deref_alive m this o :
  objects m !! this = Some o → deref this m = (Normal o, m).
Proof. unfold deref, exec_bind, exec_get. by intros ->. Qed.

Lemma deref_dangling m this :
  objects m !! this = None →
  deref this m = (Interrupt (Fault (DanglingThis this)), m).
Proof. unfold deref, exec_bind, exec_get. by intros ->. Qed.

Lemma load_refCount_alive m this o :
  objects m !! this = Some o → load_refCount this m = (Normal (m_refCount o), m).
Proof. intros. unfold load_refCount. by erewrite exec_bind_normal by by apply deref_alive. Qed.

Lemma store_refCount_alive m this o c :
  objects m !! this = Some o →
  store_refCount this c m = (Normal tt, with_objects <[this := set_refCount c o]> m).
Proof. intros. unfold store_refCount. by erewrite exec_bind_normal by by apply deref_alive. Qed.

Lemma load_refCounterLock_alive m this o :
  objects m !! this = Some o →
  load_refCounterLock this m = (Normal (m_refCounterLock o), m).
Proof. intros. unfold load_refCounterLock. by erewrite exec_bind_normal by by apply deref_alive. Qed.

Lemma store_refCounterLock_alive m this o p :
  objects m !! this = Some o →
  store_refCounterLock this p m =
    (Normal tt, with_objects <[this := set_refCounterLock p o]> m).
Proof. intros. unfold store_refCounterLock. by erewrite exec_bind_normal by by apply deref_alive. Qed.

Lemma load_lockPolicy_alive m this o :
  objects m !! this = Some o → load_lockPolicy this m = (Normal (m_lockPolicy o), m).
Proof. intros. unfold load_lockPolicy. by erewrite exec_bind_normal by by apply deref_alive. Qed.

Lemma store_lockPolicy_alive m this o p :
  objects m !! this = Some o →
  store_lockPolicy this p m = (Normal tt, with_objects <[this := set_lockPolicy p o]> m).
Proof. intros. unfold store_lockPolicy. by erewrite exec_bind_normal by by apply deref_alive. Qed.

Lemma refCount_incr_alive m this o :
  objects m !! this = Some o →
  refCount_incr this m =
    (Normal tt, with_objects <[this := set_refCount (int_incr (m_refCount o)) o]> m).
Proof.
  intros. unfold refCount_incr.
  erewrite exec_bind_normal by by apply load_refCount_alive.
  by apply store_refCount_alive.
Qed.

Lemma refCount_decr_alive m this o :
  objects m !! this = Some o →
  refCount_decr this m =
    (Normal tt, with_objects <[this := set_refCount (int_decr (m_refCount o)) o]> m).
Proof.
  intros. unfold refCount_decr.
  erewrite exec_bind_normal by by apply load_refCount_alive.
  by apply store_refCount_alive.
Qed.

Lemma refCounterLock_ok m this o l :
  objects m !! this = Some o → m_refCounterLock o = Some l →
  refCounterLock this m = (Normal l, m).
Proof.
  intros ? Hl. unfold refCounterLock.
  erewrite exec_bind_normal by by apply load_refCounterLock_alive.
  by rewrite Hl.
Qed.

Lemma refCounterLock_null m this o :
  objects m !! this = Some o → m_refCounterLock o = None →
  refCounterLock this m = (Interrupt (Fault (NullLock this)), m).
Proof.
  intros ? Hl. unfold refCounterLock.
  erewrite exec_bind_normal by by apply load_refCounterLock_alive.
  by rewrite Hl.
Qed.

Lemma refCounterLock_dangling m this :
  objects m !! this = None →
  refCounterLock this m = (Interrupt (Fault (DanglingThis this)), m).
Proof.
  intros. unfold refCounterLock, load_refCounterLock.
  rewrite exec_bind_assoc. by erewrite exec_bind_interrupt by by apply deref_dangling.
Qed.

Lemma BaseLock_call_Lock_ok m t l lk lk' :
  locks m !! l = Some lk → Lock t lk = Some lk' →
  BaseLock_call_Lock t l m = (Normal tt, with_locks <[l := lk']> m).
Proof. unfold BaseLock_call_Lock, exec_bind, exec_get. by intros -> ->. Qed.

Lemma BaseLock_call_Lock_blocked m t l lk :
  locks m !! l = Some lk → Lock t lk = None →
  BaseLock_call_Lock t l m = (Interrupt (Blocked l), m).
Proof. unfold BaseLock_call_Lock, exec_bind, exec_get. by intros -> ->. Qed.

Lemma BaseLock_call_Unlock_ok m t l lk lk' :
  locks m !! l = Some lk → Unlock t lk = Some lk' →
  BaseLock_call_Unlock t l m = (Normal tt, with_locks <[l := lk']> m).
Proof. unfold BaseLock_call_Unlock, exec_bind, exec_get. by intros -> ->. Qed.

Lemma refCounterLock_Lock_ok m t this o l lk lk' :
  owns m this o l lk → Lock t lk = Some lk' →
  refCounterLock_Lock t this m = (Normal tt, with_locks <[l := lk']> m).
Proof.
  intros [] ?. unfold refCounterLock_Lock.
  erewrite exec_bind_normal by by eapply refCounterLock_ok.
  by eapply BaseLock_call_Lock_ok.
Qed.

Lemma refCounterLock_Lock_blocked m t this o l lk :
  owns m this o l lk → Lock t lk = None →
  refCounterLock_Lock t this m = (Interrupt (Blocked l), m).
Proof.
  intros [] ?. unfold refCounterLock_Lock.
  erewrite exec_bind_normal by by eapply refCounterLock_ok.
  by eapply BaseLock_call_Lock_blocked.
Qed.

Lemma refCounterLock_Unlock_ok m t this o l lk lk' :
  owns m this o l lk → Unlock t lk = Some lk' →
  refCounterLock_Unlock t this m = (Normal tt, with_locks <[l := lk']> m).
Proof.
  intros [] ?. unfold refCounterLock_Unlock.
  erewrite exec_bind_normal by by eapply refCounterLock_ok.
  by eapply BaseLock_call_Unlock_ok.
Qed.

Lemma LOG_THIS_MSG_alive m k site this o :
  objects m !! this = Some o →
  LOG_THIS_MSG k site this m =
    (Normal tt, with_log (event k site this (m_refCount o)) m).
Proof. intros. unfold LOG_THIS_MSG. by erewrite exec_bind_normal by by apply load_refCount_alive. Qed.

Lemma EP_VERIFY_holds `{ErrorMechanism} e m : EP_VERIFY true e m = (Normal tt, m).
Proof. reflexivity. Qed.

Lemma EP_VERIFY_unwinds `{ErrorMechanism} e m :
  on_failure e = Unwinds →
  EP_VERIFY false e m = (Interrupt (Raised e), with_signal e m).
Proof. unfold EP_VERIFY, exec_bind, exec_modify. by intros ->. Qed.

Lemma EP_VERIFY_continues `{ErrorMechanism} e m :
  on_failure e = Continues →
  EP_VERIFY false e m = (Normal tt, with_signal e m).
Proof. unfold EP_VERIFY, exec_bind, exec_modify. by intros ->. Qed.

Lemma EP_NEW_lock_fresh m lk :
  EP_NEW_lock lk m =
    (Normal (fresh (dom (locks m))), with_locks <[fresh (dom (locks m)) := lk]> m).
Proof. reflexivity. Qed.

Lemma EP_DELETE_lock_ok m l lk :
  locks m !! l = Some lk →
  EP_DELETE_lock l m = (Normal tt, with_locks (delete l) m).
Proof. unfold EP_DELETE_lock, exec_bind, exec_get. by intros ->. Qed.

Lemma operator_new_fresh m raw :
  operator_new raw m =
    (Normal (fresh (dom (objects m))),
     with_objects <[fresh (dom (objects m)) := raw]> m).
Proof. reflexivity. Qed.

Lemma operator_delete_alive m this o :
  objects m !! this = Some o →
  operator_delete this m = (Normal tt, with_objects (delete this) m).
Proof. intros. unfold operator_delete. by erewrite exec_bind_normal by by apply deref_alive. Qed.

Lemma fresh_lock_None m : locks m !! fresh (dom (locks m)) = None.
Proof. apply not_elem_of_dom, is_fresh. Qed.

Lemma fresh_object_None m : objects m !! fresh (dom (objects m)) = None.
Proof. apply not_elem_of_dom, is_fresh. Qed.

Lemma owns_with_objects m this o l lk o' :
  owns m this o l lk → m_refCounterLock o' = Some l →
  owns (with_objects <[this := o']> m) this o' l lk.
Proof. intros []. split; by exec_lookup. Qed.

Lemma owns_with_locks m this o l lk lk' :
  owns m this o l lk → owns (with_locks <[l := lk']> m) this o l lk'.
Proof. intros []. split; by exec_lookup. Qed.

Lemma owns_with_log m this o l lk e :
  owns m this o l lk → owns (with_log e m) this o l lk.
Proof. intros []. by split. Qed.

Lemma owns_with_signal m this o l lk e :
  owns m this o l lk → owns (with_signal e m) this o l lk.
Proof. intros []. by split. Qed.

Lemma owns_refCount m this o l lk :
  owns m this o l lk → refCount m this = Some (m_refCount o).
Proof. intros [Ho _ _]. unfold refCount. by rewrite Ho. Qed.

Lemma owns_lock_state m this o l lk :
  owns m this o l lk → lock_state m this = Some lk.
Proof. intros [Ho Hl Hk]. unfold lock_state. rewrite Ho. cbn. by rewrite Hl. Qed.

Lemma owns_lock_free m this o l lk :
  owns m this o l lk → holder lk = None → lock_free m this = true.
Proof.
  intros [Ho Hl Hk] ?. unfold lock_free, lock_state.
  rewrite Ho. cbn. rewrite Hl. cbn. rewrite Hk. by apply bool_decide_eq_true.
Qed.

Lemma lock_free_owns m this :
  lock_free m this = true →
  ∃ o l lk, owns m this o l lk ∧ holder lk = None.
Proof.
  unfold lock_free, lock_state.
  destruct (objects m !! this) as [o|] eqn:Ho; [|done]. cbn.
  destruct (m_refCounterLock o) as [l|] eqn:Hl; [|done]. cbn.
  destruct (locks m !! l) as [lk|] eqn:Hk; [|done].
  intros ?%bool_decide_eq_true. exists o, l, lk. by split.
Qed.

(** A [Lock] that succeeds found the lock free. *)
Lemma Lock_Some_free t lk lk' : Lock t lk = Some lk' → holder lk = None.
Proof. intros. lock_crush. Qed.

(** A call that enters works on a live object with a live lock, which it
    takes and can give back. *)
Lemma enter_inr m t this e :
  enter m t this = inr e →
  owns m this (en_object e) (en_lock e) (en_free e) ∧
  Lock t (en_free e) = Some (en_held e) ∧
  Unlock t (en_held e) = Some (en_free e).
Proof.
  unfold enter. intros He. repeat case_match; simplify_eq.
  cbn [en_object en_lock en_free en_held].
  split; [by split|]. split; [done|]. by eapply Lock_Unlock.
Qed.

Lemma owns_enter m t this o l lk lk' :
  owns m this o l lk → Lock t lk = Some lk' →
  enter m t this =
    inr {| en_object := o; en_lock := l; en_free := lk; en_held := lk' |}.
Proof. intros [Ho Hl Hk] Hlock. unfold enter. by rewrite Ho, Hl, Hk, Hlock. Qed.

(** A lock nobody holds lets every thread in. *)
Lemma lock_free_enter m t this :
  lock_free m this = true ↔ ∃ e, enter m t this = inr e.
Proof.
  split.
  - intros (o & l & lk & Ho & Hh)%lock_free_owns.
    destruct (BaseLock_Lock_free t lk Hh) as [lk' Hlock].
    eexists. by eapply owns_enter.
  - intros [e (Ho & Hlock & _)%enter_inr].
    eapply owns_lock_free; [done|]. by eapply Lock_Some_free.
Qed.

(** A call that cannot enter stops at [m_refCounterLock] or at [Lock()],
    and the machine is untouched. *)
Lemma enter_inl m t this i :
  enter m t this = inl i →
  refCounterLock this m = (Interrupt i, m) ∨
  ∃ l, refCounterLock this m = (Normal l, m) ∧
       BaseLock_call_Lock t l m = (Interrupt i, m).
Proof.
  unfold enter. intros He.
  destruct (objects m !! this) as [o|] eqn:Ho;
    [|simplify_eq; left; by apply refCounterLock_dangling].
  destruct (m_refCounterLock o) as [l|] eqn:Hl;
    [|simplify_eq; left; by eapply refCounterLock_null].
  right. exists l. split; [by eapply refCounterLock_ok|].
  unfold BaseLock_call_Lock, exec_bind, exec_get.
  by repeat case_match; simplify_eq.
Qed.

Lemma refCounterLock_Lock_stops m t this i :
  enter m t this = inl i → refCounterLock_Lock t this m = (Interrupt i, m).
Proof.
  intros [H|(l & H1 & H2)]%enter_inl; unfold refCounterLock_Lock.
  - by erewrite exec_bind_interrupt.
  - by erewrite exec_bind_normal.
Qed.
End primitives.

#[export] Hint Resolve deref_alive load_refCount_alive store_refCount_alive
  load_refCounterLock_alive store_refCounterLock_alive load_lockPolicy_alive
  store_lockPolicy_alive refCount_incr_alive refCount_decr_alive
  refCounterLock_ok BaseLock_call_Lock_ok BaseLock_call_Unlock_ok
  refCounterLock_Lock_ok refCounterLock_Unlock_ok LOG_THIS_MSG_alive
  EP_VERIFY_holds EP_VERIFY_continues EP_NEW_lock_fresh EP_DELETE_lock_ok
  operator_new_fresh operator_delete_alive : exec.
#[export] Hint Resolve owns_with_objects owns_with_locks owns_with_log
  owns_with_signal : exec.
