(* ===== verification/SmartObject.v ===== *)
(** * SmartObject: the methods of the class

    One definition per method of epSmartObject.h, in the [_DEBUG] build whose
    bodies the header holds: the constructor (lines 133-153), the copy
    constructor (159-179), [Retain] (95-100), [Release] (106-126), the
    destructor (184-200), and [EP_DELETE this] as [Release] uses it.  Every
    statement is one primitive of [Machine], in the order of the source.

    The theorems give, for every branch of every method, the machine the
    call leaves and how it ends; the [_run] lemmas collect the branches of a
    method into one equation with its closed form ([Retain_result],
    [Release_result], ...), which is what the other files rewrite with. *)

From S2P Require Import Prelude Lock Diagnostic Machine.

#[local] Open Scope exec_scope.

(** ** The methods *)

(** The [switch] on the policy, shared by the two constructors: the lock the
    object will own, or [NULL] for a value that is none of the three. *)
Definition switch_lockPolicy (this : loc) (p : LockPolicy) : Call unit :=
  match p with
  | LOCK_POLICY_CRITICALSECTION =>
      l <- EP_NEW_lock new_CriticalSectionEx ;; store_refCounterLock this (Some l)
  | LOCK_POLICY_MUTEX =>
      l <- EP_NEW_lock new_Mutex ;; store_refCounterLock this (Some l)
  | LOCK_POLICY_NONE =>
      l <- EP_NEW_lock new_NoLock ;; store_refCounterLock this (Some l)
  | LOCK_POLICY_OTHER _ =>
      store_refCounterLock this None
  end.

(** [SmartObject(fileName, funcName, lineNum, lockPolicyType)] on the storage
    at [this]. *)
Definition SmartObject_ctor (site : CallSite) (this : loc)
    (lockPolicyType : LockPolicy) : Call unit :=
  store_refCount this 1 ;;
  LOG_THIS_MSG Allocated (Some site) this ;;
  store_lockPolicy this lockPolicyType ;;
  switch_lockPolicy this lockPolicyType.

(** [SmartObject(fileName, funcName, lineNum, const SmartObject& b)]. *)
Definition SmartObject_copy_ctor (site : CallSite) (this b : loc) : Call unit :=
  store_refCount this 1 ;;
  LOG_THIS_MSG Allocated (Some site) this ;;
  p <- load_lockPolicy b ;;
  store_lockPolicy this p ;;
  p' <- load_lockPolicy this ;;
  switch_lockPolicy this p'.

(** [LockObj lock(l)]: the scope guard of [Retain]: [Lock] now, [Unlock] of
    the same pointer when the scope is left. *)
Definition LockObj {A} (t : tid) (l : loc) (scope : Call A) : Call A :=
  BaseLock_call_Lock t l ;;
  exec_finally scope (BaseLock_call_Unlock t l).

(** [Retain(fileName, funcName, lineNum)]. *)
Definition Retain (t : tid) (site : CallSite) (this : loc) : Call unit :=
  l <- refCounterLock this ;;
  LockObj t l
    (refCount_incr this ;;
     LOG_THIS_MSG Retained (Some site) this).

Section methods.
Context `{EM : ErrorMechanism}.

(** [~SmartObject()]. *)
Definition SmartObject_dtor (t : tid) (this : loc) : Call unit :=
  refCounterLock_Lock t this ;;
  refCount_decr this ;;
  LOG_THIS_MSG Deleted None this ;;
  c <- load_refCount this ;;
  (if negb (c =? 0) then
     c' <- load_refCount this ;;
     EP_VERIFY (c' =? 0) (NonZeroCountAtDestruction c')
   else exec_ret tt) ;;
  refCounterLock_Unlock t this ;;
  p <- load_refCounterLock this ;;
  match p with
  | Some l => EP_DELETE_lock l
  | None => exec_ret tt
  end.

(** [EP_DELETE this]: the destructor, then the storage is given back. *)
Definition EP_DELETE_this (t : tid) (this : loc) : Call unit :=
  SmartObject_dtor t this ;;
  operator_delete this.

(** [Release(fileName, funcName, lineNum)]. *)
Definition Release (t : tid) (site : CallSite) (this : loc) : Call unit :=
  refCounterLock_Lock t this ;;
  refCount_decr this ;;
  LOG_THIS_MSG Released (Some site) this ;;
  c <- load_refCount this ;;
  if c =? 0 then
    refCount_incr this ;;
    refCounterLock_Unlock t this ;;
    EP_DELETE_this t this
  else
    c <- load_refCount this ;;
    (if c <? 0 then
       c' <- load_refCount this ;;
       EP_VERIFY (0 <=? c') (NegativeReferenceCount c')
     else exec_ret tt) ;;
    refCounterLock_Unlock t this.

End methods.

(** [EP_NEW T(lockPolicyType)]: storage, then the constructor. *)
Definition EP_NEW_SmartObject (raw : SmartObject) (site : CallSite)
    (lockPolicyType : LockPolicy) : Call loc :=
  this <- operator_new raw ;;
  SmartObject_ctor site this lockPolicyType ;;
  exec_ret this.

(** [EP_NEW T(b)]: storage, then the copy constructor. *)
Definition EP_NEW_copy (raw : SmartObject) (site : CallSite) (b : loc) : Call loc :=
  this <- operator_new raw ;;
  SmartObject_copy_ctor site this b ;;
  exec_ret this.

(** [operator=]: the base class has nothing to copy; it returns [*this]. *)
Definition SmartObject_assign (this b : loc) : Call loc :=
  exec_ret this.

(** ** Client calls *)

(** What a client can do with objects of the class. *)
Inductive Op : Type :=
| OpNew (raw : SmartObject) (site : CallSite) (lockPolicyType : LockPolicy)
| OpCopy (raw : SmartObject) (site : CallSite) (b : loc)
| OpRetain (t : tid) (site : CallSite) (this : loc)
| OpRelease (t : tid) (site : CallSite) (this : loc)
| OpDelete (t : tid) (this : loc)
| OpAssign (this b : loc).

Definition perform `{EM : ErrorMechanism} (op : Op) : Call unit :=
  match op with
  | OpNew raw site p => _ <- EP_NEW_SmartObject raw site p ;; exec_ret tt
  | OpCopy raw site b => _ <- EP_NEW_copy raw site b ;; exec_ret tt
  | OpRetain t site this => Retain t site this
  | OpRelease t site this => Release t site this
  | OpDelete t this => EP_DELETE_this t this
  | OpAssign this b => _ <- SmartObject_assign this b ;; exec_ret tt
  end.

(** A sequence of calls, up to the first that does not return. *)
Fixpoint perform_all `{EM : ErrorMechanism} (ops : list Op) : Call unit :=
  match ops with
  | [] => exec_ret tt
  | op :: ops => perform op ;; perform_all ops
  end.

(** ** The calls in closed form *)

(** How a call ends, and the machine it leaves. *)
#[local] Abbreviation Result := (Outcome Interruption unit * Machine)%type.

(** The object a constructor leaves at [this]. *)
Definition constructed (p : LockPolicy) (lock : option loc) : SmartObject :=
  {| m_refCount := 1; m_refCounterLock := lock; m_lockPolicy := p |}.

(** The machine a constructor leaves: one message, and the object with a
    new lock of the policy's class, or with [NULL] for a policy that is none
    of the three. *)
Definition ctor_result (site : CallSite) (this : loc) (p : LockPolicy)
    (m : Machine) : Machine :=
  let l := fresh (dom (locks m)) in
  let m' := with_log (event Allocated (Some site) this 1) m in
  match new_lock p with
  | Some lk => with_objects <[this := constructed p (Some l)]> (with_locks <[l := lk]> m')
  | None => with_objects <[this := constructed p None]> m'
  end.

(** [Retain]: the counter is one more, and one message says so. *)
Definition Retain_result (t : tid) (site : CallSite) (this : loc)
    (m : Machine) : Result :=
  match enter m t this with
  | inl i => (Interrupt i, m)
  | inr e =>
      let c := int_incr (m_refCount (en_object e)) in
      (Normal tt,
       with_log (event Retained (Some site) this c)
         (with_objects <[this := set_refCount c (en_object e)]> m))
  end.

(** The state the destructor leaves when it runs to its end: the counter
    decremented, the deletion logged, the lock object deleted (the pointer
    in the object dangles from here on). *)
Definition destructed (m : Machine) (this l : loc) (o : SmartObject) : Machine :=
  with_locks (delete l)
    (with_log (event Deleted None this (int_decr (m_refCount o)))
       (with_objects <[this := set_refCount (int_decr (m_refCount o)) o]> m)).

(** The destructor: with the counter at zero after the decrement it runs
    to its end; otherwise the error is signalled, and the mechanism decides
    whether the lock is still unlocked and deleted. *)
Definition dtor_result `{EM : ErrorMechanism} (t : tid) (this : loc)
    (m : Machine) : Result :=
  match enter m t this with
  | inl i => (Interrupt i, m)
  | inr e =>
      let o := en_object e in
      let c := int_decr (m_refCount o) in
      if decide (c = 0) then (Normal tt, destructed m this (en_lock e) o)
      else
        match on_failure (NonZeroCountAtDestruction c) with
        | Unwinds =>
            (Interrupt (Raised (NonZeroCountAtDestruction c)),
             with_signal (NonZeroCountAtDestruction c)
               (with_log (event Deleted None this c)
                  (with_objects <[this := set_refCount c o]>
                     (with_locks <[en_lock e := en_held e]> m))))
        | Continues =>
            (Normal tt,
             with_signal (NonZeroCountAtDestruction c)
               (destructed m this (en_lock e) o))
        end
  end.

(** [EP_DELETE this]: as the destructor; when that returns, the storage is
    gone as well, references or not. *)
Definition EP_DELETE_this_result `{EM : ErrorMechanism} (t : tid) (this : loc)
    (m : Machine) : Result :=
  match enter m t this with
  | inl i => (Interrupt i, m)
  | inr e =>
      let o := en_object e in
      let c := int_decr (m_refCount o) in
      let gone := with_log (event Deleted None this c)
                    (with_locks (delete (en_lock e)) (with_objects (delete this) m)) in
      if decide (c = 0) then (Normal tt, gone)
      else
        match on_failure (NonZeroCountAtDestruction c) with
        | Unwinds =>
            (Interrupt (Raised (NonZeroCountAtDestruction c)),
             with_signal (NonZeroCountAtDestruction c)
               (with_log (event Deleted None this c)
                  (with_objects <[this := set_refCount c o]>
                     (with_locks <[en_lock e := en_held e]> m))))
        | Continues => (Normal tt, with_signal (NonZeroCountAtDestruction c) gone)
        end
  end.

(** [Release]: by the counter after the decrement, the object is destroyed
    (zero), the error is signalled (negative), or the call just returns. *)
Definition Release_result `{EM : ErrorMechanism} (t : tid) (site : CallSite)
    (this : loc) (m : Machine) : Result :=
  match enter m t this with
  | inl i => (Interrupt i, m)
  | inr e =>
      let o := en_object e in
      let c := int_decr (m_refCount o) in
      let m' := with_log (event Released (Some site) this c)
                  (with_objects <[this := set_refCount c o]> m) in
      if decide (c = 0) then
        (Normal tt,
         with_log (event Deleted None this 0)
           (with_log (event Released (Some site) this 0)
              (with_locks (delete (en_lock e)) (with_objects (delete this) m))))
      else if decide (c < 0) then
        match on_failure (NegativeReferenceCount c) with
        | Unwinds =>
            (Interrupt (Raised (NegativeReferenceCount c)),
             with_signal (NegativeReferenceCount c)
               (with_locks <[en_lock e := en_held e]> m'))
        | Continues => (Normal tt, with_signal (NegativeReferenceCount c) m')
        end
      else (Normal tt, m')
  end.

(** [EP_NEW] of a copy of [b]: the policy is read from [b] after the storage
    is there, so a source that is gone stops the constructor half-way,
    unless the new storage took its address. *)
Definition EP_NEW_copy_result (raw : SmartObject) (site : CallSite) (b : loc)
    (m : Machine) : Outcome Interruption loc * Machine :=
  let this := fresh (dom (objects m)) in
  match <[this := raw]> (objects m) !! b with
  | Some ob => (Normal this, ctor_result site this (m_lockPolicy ob) m)
  | None =>
      (Interrupt (Fault (DanglingThis b)),
       with_log (event Allocated (Some site) this 1)
         (with_objects <[this := set_refCount 1 raw]> m))
  end.

(** What [perform] computes, call by call. *)
Definition perform_result `{EM : ErrorMechanism} (op : Op) (m : Machine) : Result :=
  match op with
  | OpNew raw site p =>
      (Normal tt, ctor_result site (fresh (dom (objects m))) p m)
  | OpCopy raw site b =>
      let r := EP_NEW_copy_result raw site b m in
      (match r.1 with Normal _ => Normal tt | Interrupt i => Interrupt i end, r.2)
  | OpRetain t site this => Retain_result t site this m
  | OpRelease t site this => Release_result t site this m
  | OpDelete t this => EP_DELETE_this_result t this m
  | OpAssign this b => (Normal tt, m)
  end.

(** ** Concrete machines *)

(** A call site, and a machine with one object at address 1 that owns the
    mutex at address 1; the theorems are instantiated on them. *)
Definition site0 : CallSite :=
  {| fileName := "main.cpp"; funcName := "main"; lineNum := 42 |}.

Definition object1 (c : Z) : SmartObject :=
  {| m_refCount := c; m_refCounterLock := Some 1%positive;
     m_lockPolicy := LOCK_POLICY_MUTEX |}.

Definition machine1 (c : Z) : Machine :=
  {| objects := {[ 1%positive := object1 c ]};
     locks := {[ 1%positive := new_Mutex ]};
     log := []; signalled := [] |}.

(** The machine of [machine1] with the mutex held by thread 1. *)
Definition machine1_held (c : Z) : Machine :=
  with_locks <[1%positive := Mutex {| owner := Some 1%nat |}]> (machine1 c).

(** The storage [operator new] hands to a constructor: any contents. *)
Definition raw0 : SmartObject :=
  {| m_refCount := 77; m_refCounterLock := None;
     m_lockPolicy := LOCK_POLICY_OTHER 9 |}.

Definition machine_raw : Machine :=
  with_objects <[2%positive := raw0]> (machine1 5).

Lemma machine1_owns c : owns (machine1 c) 1 (object1 c) 1 new_Mutex.
Proof. by split. Qed.

(** ** The constructors *)

Section construction.
Context (m : Machine) (site : CallSite) (this : loc) (raw : SmartObject).
Hypothesis Hraw : objects m !! this = Some raw.

(** The address the lock of a new object gets. *)
#[local] Abbreviation l := (fresh (dom (locks m))).

Lemma switch_lockPolicy_known o p lk0 m0 :
  objects m0 !! this = Some o → new_lock p = Some lk0 →
  switch_lockPolicy this p m0 =
    (Normal tt,
     with_objects <[this := set_refCounterLock (Some (fresh (dom (locks m0)))) o]>
       (with_locks <[fresh (dom (locks m0)) := lk0]> m0)).
Proof using Type.
  intros Ho Hp. destruct p; simplify_eq/=; exec_steps;
    by erewrite store_refCounterLock_alive by exec_lookup.
Qed.

(** C7. The constructor with one of the three policies: whatever the storage
    held, the object has counter 1, the policy, and a pointer to a new lock
    of that policy's class; one message is logged with counter 1. *)
Theorem SmartObject_ctor_known p lk0 :
  new_lock p = Some lk0 →
  SmartObject_ctor site this p m =
    (Normal tt,
     with_objects <[this := constructed p (Some l)]>
       (with_locks <[l := lk0]>
          (with_log (event Allocated (Some site) this 1) m))).
Proof using Hraw.
  intros Hp. unfold SmartObject_ctor. exec_steps.
  erewrite switch_lockPolicy_known by (first [exec_lookup | done]). machine_eq.
Qed.

(** C40. The constructor with any other policy value: the lock pointer is
    [NULL], no lock is allocated, and the constructor returns normally. *)
Theorem SmartObject_ctor_unknown p :
  new_lock p = None →
  SmartObject_ctor site this p m =
    (Normal tt,
     with_objects <[this := constructed p None]>
       (with_log (event Allocated (Some site) this 1) m)).
Proof using Hraw.
  intros Hp. unfold SmartObject_ctor. destruct p; simplify_eq/=. exec_steps.
  erewrite store_refCounterLock_alive by exec_lookup. machine_eq.
Qed.

Lemma switch_lockPolicy_unknown o p m0 :
  objects m0 !! this = Some o → new_lock p = None →
  switch_lockPolicy this p m0 =
    (Normal tt, with_objects <[this := set_refCounterLock None o]> m0).
Proof using Type.
  intros Ho Hp. destruct p; simplify_eq/=. by apply store_refCounterLock_alive.
Qed.

(** Run a constructor up to its [switch], then through it. *)
Ltac ctor_steps :=
  exec_steps;
  first [ erewrite switch_lockPolicy_known by (first [exec_lookup | done])
        | erewrite switch_lockPolicy_unknown by (first [exec_lookup | done]) ];
  machine_eq.

(** The source of a copy, seen from the constructor after its first store:
    the new storage itself when [b] is [this]. *)
Lemma copy_source b ob c :
  objects m !! b = Some ob →
  ∃ ob', <[this := set_refCount c raw]> (objects m) !! b = Some ob' ∧
         m_lockPolicy ob' = m_lockPolicy ob.
Proof using Hraw.
  intros Hb. destruct (decide (this = b)) as [<-|Hne].
  - exists (set_refCount c raw). rewrite lookup_insert_eq. by simplify_eq.
  - exists ob. by rewrite lookup_insert_ne.
Qed.

(** C8. The copy constructor: counter 1, the policy of the source, a new lock;
    neither the counter nor the lock of the source is used. *)
Theorem SmartObject_copy_ctor_known b ob lk0 :
  objects m !! b = Some ob →
  new_lock (m_lockPolicy ob) = Some lk0 →
  SmartObject_copy_ctor site this b m =
    (Normal tt,
     with_objects <[this := constructed (m_lockPolicy ob) (Some l)]>
       (with_locks <[l := lk0]>
          (with_log (event Allocated (Some site) this 1) m))).
Proof using Hraw.
  intros Hb Hp. destruct (copy_source b ob 1 Hb) as (ob' & Hb' & Hpol).
  rewrite <- Hpol in *. unfold SmartObject_copy_ctor. ctor_steps.
Qed.

(** The copy of an object whose policy is none of the three has a [NULL]
    lock pointer as well. *)
Theorem SmartObject_copy_ctor_unknown b ob :
  objects m !! b = Some ob →
  new_lock (m_lockPolicy ob) = None →
  SmartObject_copy_ctor site this b m =
    (Normal tt,
     with_objects <[this := constructed (m_lockPolicy ob) None]>
       (with_log (event Allocated (Some site) this 1) m)).
Proof using Hraw.
  intros Hb Hp. destruct (copy_source b ob 1 Hb) as (ob' & Hb' & Hpol).
  rewrite <- Hpol in *. unfold SmartObject_copy_ctor. ctor_steps.
Qed.

(** Both constructors in closed form. *)
Lemma SmartObject_ctor_run p :
  SmartObject_ctor site this p m = (Normal tt, ctor_result site this p m).
Proof using Hraw.
  unfold SmartObject_ctor, ctor_result.
  destruct (new_lock p) eqn:Hp; ctor_steps.
Qed.

Lemma SmartObject_copy_ctor_run b ob :
  objects m !! b = Some ob →
  SmartObject_copy_ctor site this b m =
    (Normal tt, ctor_result site this (m_lockPolicy ob) m).
Proof using Hraw.
  intros Hb. destruct (copy_source b ob 1 Hb) as (ob' & Hb' & Hpol).
  rewrite <- Hpol in *. unfold SmartObject_copy_ctor, ctor_result.
  destruct (new_lock (m_lockPolicy ob')) eqn:Hp; ctor_steps.
Qed.

(** A source that is gone stops the copy constructor after its message. *)
Lemma SmartObject_copy_ctor_dangling b :
  objects m !! b = None →
  SmartObject_copy_ctor site this b m =
    (Interrupt (Fault (DanglingThis b)),
     with_log (event Allocated (Some site) this 1)
       (with_objects <[this := set_refCount 1 raw]> m)).
Proof using Hraw.
  intros Hb. assert (this ≠ b) by (intros <-; simplify_eq).
  unfold SmartObject_copy_ctor. exec_steps.
  erewrite exec_bind_interrupt; [done|].
  unfold load_lockPolicy. erewrite exec_bind_interrupt; [done|].
  apply deref_dangling. by exec_lookup.
Qed.

End construction.

Lemma SmartObject_ctor_known_witness :
  SmartObject_ctor site0 2 LOCK_POLICY_CRITICALSECTION machine_raw =
    (Normal tt,
     with_objects <[2%positive := constructed LOCK_POLICY_CRITICALSECTION
                                    (Some (fresh (dom (locks machine_raw))))]>
       (with_locks <[fresh (dom (locks machine_raw)) := new_CriticalSectionEx]>
          (with_log (event Allocated (Some site0) 2%positive 1) machine_raw))).
Proof. by apply (SmartObject_ctor_known machine_raw site0 2%positive raw0). Defined.

Lemma SmartObject_ctor_unknown_witness :
  SmartObject_ctor site0 2 (LOCK_POLICY_OTHER 7) machine_raw =
    (Normal tt,
     with_objects <[2%positive := constructed (LOCK_POLICY_OTHER 7) None]>
       (with_log (event Allocated (Some site0) 2%positive 1) machine_raw)).
Proof. by apply (SmartObject_ctor_unknown machine_raw site0 2%positive raw0). Defined.

Lemma SmartObject_copy_ctor_known_witness :
  SmartObject_copy_ctor site0 2 1 machine_raw =
    (Normal tt,
     with_objects <[2%positive := constructed LOCK_POLICY_MUTEX
                                    (Some (fresh (dom (locks machine_raw))))]>
       (with_locks <[fresh (dom (locks machine_raw)) := new_Mutex]>
          (with_log (event Allocated (Some site0) 2%positive 1) machine_raw))).
Proof.
  by apply (SmartObject_copy_ctor_known machine_raw site0 2%positive raw0 eq_refl
              1%positive (object1 5)).
Defined.

(** [EP_NEW T(lockPolicyType)] on any machine: the address is fresh, and the
    object is constructed there, whatever the storage held. *)
Lemma EP_NEW_SmartObject_run m raw site p :
  EP_NEW_SmartObject raw site p m =
    (Normal (fresh (dom (objects m))),
     ctor_result site (fresh (dom (objects m))) p m).
Proof.
  unfold EP_NEW_SmartObject. exec_steps.
  erewrite exec_bind_normal by (eapply SmartObject_ctor_run; exec_lookup).
  unfold ctor_result. machine_simpl. destruct (new_lock p); machine_eq.
Qed.

(** [EP_NEW T(b)] on any machine. *)
Lemma EP_NEW_copy_run m raw site b :
  EP_NEW_copy raw site b m = EP_NEW_copy_result raw site b m.
Proof.
  unfold EP_NEW_copy, EP_NEW_copy_result. exec_steps.
  destruct (<[fresh (dom (objects m)) := raw]> (objects m) !! b) as [ob|] eqn:Hb.
  - erewrite exec_bind_normal
      by (eapply SmartObject_copy_ctor_run; [exec_lookup | exact Hb]).
    unfold ctor_result. machine_simpl.
    destruct (new_lock (m_lockPolicy ob)); machine_eq.
  - erewrite exec_bind_interrupt
      by (eapply SmartObject_copy_ctor_dangling; [exec_lookup | exact Hb]).
    machine_eq.
Qed.

(** A constructor signals nothing. *)
Lemma ctor_result_signalled site this p m :
  signalled (ctor_result site this p m) = signalled m.
Proof. unfold ctor_result. by destruct (new_lock p). Qed.

(** And leaves every other object alone. *)
Lemma ctor_result_frame site this p m b :
  this ≠ b → objects (ctor_result site this p m) !! b = objects m !! b.
Proof.
  intros. unfold ctor_result. destruct (new_lock p); cbn; by rewrite lookup_insert_ne.
Qed.

(** A copy of a live object. *)
Lemma EP_NEW_copy_alive m raw site b ob :
  objects m !! b = Some ob →
  EP_NEW_copy raw site b m =
    (Normal (fresh (dom (objects m))),
     ctor_result site (fresh (dom (objects m))) (m_lockPolicy ob) m).
Proof.
  intros Hb. rewrite EP_NEW_copy_run. unfold EP_NEW_copy_result.
  rewrite lookup_insert_ne, Hb; [done|].
  intros <-. by rewrite fresh_object_None in Hb.
Qed.

(** ** The destructor and [EP_DELETE this] *)

(** The facts every proof about a live object starts from: the components
    of [owns], and the lock as [t] acquires and releases it. *)
Lemma live_object_facts m t this l o lk :
  owns m this o l lk → holder lk = None →
  objects m !! this = Some o ∧ m_refCounterLock o = Some l ∧
  locks m !! l = Some lk ∧
  ∃ lk', Lock t lk = Some lk' ∧ Unlock t lk' = Some lk.
Proof.
  intros [] Hfree. destruct (BaseLock_Lock_free t lk Hfree) as [lk' ?].
  repeat split; try done. exists lk'. split; [done|]. by eapply Lock_Unlock.
Qed.

(** The same facts from [Howns] and [Hfree], as hypotheses. *)
Ltac live_object :=
  lazymatch goal with
  | Howns : owns ?m ?this ?o ?l ?lk, Hfree : holder ?lk = None, t : tid |- _ =>
      destruct (live_object_facts m t this l o lk Howns Hfree)
        as (Ho & Hl & Hk & lk' & Hlock & Hunlock)
  end.

(** And from a call that entered. *)
Ltac entered He :=
  apply enter_inr in He as (Howns & Hlock & Hunlock);
  cbn [en_object en_lock en_free en_held] in *; cbv zeta;
  pose proof Howns as [Ho Hl Hk].

(** Rewrite [enter] on a live object whose lock is free. *)
Ltac enter_live :=
  live_object; erewrite owns_enter by eassumption;
  cbn [en_object en_lock en_free en_held]; cbv zeta;
  repeat case_decide; try lia.

(** Run the destructor to its end, or to the macro that ends it. *)
Ltac dtor_steps :=
  unfold SmartObject_dtor, destructed; exec_steps;
  first [ by erewrite exec_bind_interrupt by by apply EP_VERIFY_unwinds
        | erewrite EP_DELETE_lock_ok by exec_lookup; machine_eq ].

Section destruction.
Context `{EM : ErrorMechanism}.
Context (m : Machine) (t : tid) (this l : loc) (o : SmartObject) (lk : BaseLock).
Hypothesis Howns : owns m this o l lk.
Hypothesis Hfree : holder lk = None.

(** The counter the destructor tests: the old one, decremented. *)
#[local] Abbreviation c' := (int_decr (m_refCount o)).

(** C5. The destructor on an object whose only reference is the implicit one:
    the counter reaches zero, nothing is signalled, and the lock is
    unlocked, then deleted. *)
Theorem dtor_zero :
  c' = 0 → SmartObject_dtor t this m = (Normal tt, destructed m this l o).
Proof using Howns Hfree. intros Hc. live_object. dtor_steps. Qed.

(** C6. The destructor while references remain, when the verification unwinds:
    the destructor ends at the macro, after the error is signalled with the
    counter that is left; the lock is neither unlocked nor deleted. *)
Theorem dtor_nonzero_unwinds :
  c' ≠ 0 → on_failure (NonZeroCountAtDestruction c') = Unwinds →
  ∃ lk',
    Lock t lk = Some lk' ∧
    SmartObject_dtor t this m =
      (Interrupt (Raised (NonZeroCountAtDestruction c')),
       with_signal (NonZeroCountAtDestruction c')
         (with_log (event Deleted None this c')
            (with_objects <[this := set_refCount c' o]>
               (with_locks <[l := lk']> m)))).
Proof using Howns Hfree.
  intros Hc Hunw. live_object. exists lk'. split; [done|]. dtor_steps.
Qed.

(** The destructor while references remain, when the verification
    reports and returns: the error is signalled with the counter that is
    left, and the lock is unlocked and deleted all the same. *)
Theorem dtor_nonzero_continues :
  c' ≠ 0 → on_failure (NonZeroCountAtDestruction c') = Continues →
  SmartObject_dtor t this m =
    (Normal tt, with_signal (NonZeroCountAtDestruction c') (destructed m this l o)).
Proof using Howns Hfree. intros Hc Hcont. live_object. dtor_steps. Qed.

End destruction.

Lemma dtor_zero_witness :
  SmartObject_dtor (EM:=Throwing) 0%nat 1 (machine1 1) =
    (Normal tt, destructed (machine1 1) 1 1 (object1 1)).
Proof.
  by apply (dtor_zero (machine1 1) 0%nat 1%positive 1%positive (object1 1) new_Mutex).
Defined.

Lemma dtor_nonzero_unwinds_witness :
  ∃ lk',
    Lock 0%nat new_Mutex = Some lk' ∧
    SmartObject_dtor (EM:=Throwing) 0%nat 1 (machine1 3) =
      (Interrupt (Raised (NonZeroCountAtDestruction 2)),
       with_signal (NonZeroCountAtDestruction 2)
         (with_log (event Deleted None 1%positive 2)
            (with_objects <[1%positive := set_refCount 2 (object1 3)]>
               (with_locks <[1%positive := lk']> (machine1 3))))).
Proof.
  by apply (dtor_nonzero_unwinds (EM:=Throwing) (machine1 3) 0%nat 1%positive
              1%positive (object1 3) new_Mutex).
Defined.

Lemma dtor_nonzero_continues_witness :
  SmartObject_dtor (EM:=Reporting) 0%nat 1 (machine1 3) =
    (Normal tt,
     with_signal (NonZeroCountAtDestruction 2) (destructed (machine1 3) 1 1 (object1 3))).
Proof.
  by apply (dtor_nonzero_continues (EM:=Reporting) (machine1 3) 0%nat 1%positive
              1%positive (object1 3) new_Mutex).
Defined.

(** The destructor in closed form, on any machine. *)
Lemma SmartObject_dtor_run `{EM : ErrorMechanism} m t this :
  SmartObject_dtor t this m = dtor_result t this m.
Proof.
  unfold dtor_result. destruct (enter m t this) as [i|[o l lk lk']] eqn:He.
  - unfold SmartObject_dtor.
    by erewrite exec_bind_interrupt by by apply refCounterLock_Lock_stops.
  - entered He. case_decide as Hc; [|destruct (on_failure _) eqn:Hf]; dtor_steps.
Qed.

(** [EP_DELETE this] in closed form. *)
Lemma EP_DELETE_this_run `{EM : ErrorMechanism} m t this :
  EP_DELETE_this t this m = EP_DELETE_this_result t this m.
Proof.
  unfold EP_DELETE_this, EP_DELETE_this_result, exec_bind.
  rewrite SmartObject_dtor_run. unfold dtor_result.
  destruct (enter m t this) as [i|[o l lk lk']] eqn:He; [done|]. entered He.
  case_decide; [|destruct (on_failure _); [done|]];
    erewrite operator_delete_alive by (unfold destructed; exec_lookup);
    unfold destructed; machine_eq.
Qed.

Section deletion.
Context `{EM : ErrorMechanism}.
Context (m : Machine) (t : tid) (this l : loc) (o : SmartObject) (lk : BaseLock).
Hypothesis Howns : owns m this o l lk.
Hypothesis Hfree : holder lk = None.

#[local] Abbreviation c' := (int_decr (m_refCount o)).

(** [EP_DELETE this] of an unshared object: destructor, then the storage is
    given back; the object and its lock are gone. *)
Lemma EP_DELETE_this_zero :
  c' = 0 →
  EP_DELETE_this t this m =
    (Normal tt,
     with_log (event Deleted None this 0)
       (with_locks (delete l) (with_objects (delete this) m))).
Proof using Howns Hfree.
  intros Hc. rewrite EP_DELETE_this_run.
  unfold EP_DELETE_this_result. enter_live. by rewrite Hc.
Qed.

(** C36. [EP_DELETE this] while references remain, under a mechanism that reports
    and returns: the error is signalled, and the object and its lock are
    freed under their owners. *)
Theorem EP_DELETE_this_nonzero_continues :
  c' ≠ 0 → on_failure (NonZeroCountAtDestruction c') = Continues →
  EP_DELETE_this t this m =
    (Normal tt,
     with_signal (NonZeroCountAtDestruction c')
       (with_log (event Deleted None this c')
          (with_locks (delete l) (with_objects (delete this) m)))).
Proof using Howns Hfree.
  intros Hc Hcont. rewrite EP_DELETE_this_run.
  unfold EP_DELETE_this_result. enter_live. by rewrite Hcont.
Qed.

(** Under a mechanism that unwinds the storage is not given back: the call
    ends where the destructor did, with the lock held. *)
Theorem EP_DELETE_this_nonzero_unwinds :
  c' ≠ 0 → on_failure (NonZeroCountAtDestruction c') = Unwinds →
  ∃ lk',
    Lock t lk = Some lk' ∧
    EP_DELETE_this t this m =
      (Interrupt (Raised (NonZeroCountAtDestruction c')),
       with_signal (NonZeroCountAtDestruction c')
         (with_log (event Deleted None this c')
            (with_objects <[this := set_refCount c' o]>
               (with_locks <[l := lk']> m)))).
Proof using Howns Hfree.
  intros Hc Hunw. rewrite EP_DELETE_this_run.
  unfold EP_DELETE_this_result. enter_live. rewrite Hunw. by exists lk'.
Qed.

End deletion.

Lemma EP_DELETE_this_nonzero_continues_witness :
  EP_DELETE_this (EM:=Reporting) 0%nat 1 (machine1 3) =
    (Normal tt,
     with_signal (NonZeroCountAtDestruction 2)
       (with_log (event Deleted None 1%positive 2)
          (with_locks (delete 1%positive)
             (with_objects (delete 1%positive) (machine1 3))))).
Proof.
  by apply (EP_DELETE_this_nonzero_continues (EM:=Reporting) (machine1 3) 0%nat
              1%positive 1%positive (object1 3) new_Mutex).
Defined.

Lemma EP_DELETE_this_nonzero_unwinds_witness :
  ∃ lk',
    Lock 0%nat new_Mutex = Some lk' ∧
    EP_DELETE_this (EM:=Throwing) 0%nat 1 (machine1 3) =
      (Interrupt (Raised (NonZeroCountAtDestruction 2)),
       with_signal (NonZeroCountAtDestruction 2)
         (with_log (event Deleted None 1%positive 2)
            (with_objects <[1%positive := set_refCount 2 (object1 3)]>
               (with_locks <[1%positive := lk']> (machine1 3))))).
Proof.
  by apply (EP_DELETE_this_nonzero_unwinds (EM:=Throwing) (machine1 3) 0%nat
              1%positive 1%positive (object1 3) new_Mutex).
Defined.

(** ** [Retain] and [Release] *)

(** Run [Retain] through its scope and out of it. *)
Ltac retain_steps :=
  unfold Retain, LockObj; exec_steps;
  erewrite exec_finally_normal; [| exec_steps; eauto with exec | eauto with exec];
  machine_eq.

(** Run [Release] when the object stays: to the [Unlock] at its end, or to
    the macro that ends it. *)
Ltac release_steps :=
  unfold Release; exec_steps;
  first [ by erewrite exec_bind_interrupt by by apply EP_VERIFY_unwinds
        | erewrite refCounterLock_Unlock_ok by eauto with exec; machine_eq ].

(** Run [Release] when the counter reached zero: through the dummy
    increment and the [Unlock], then [EP_DELETE this]. *)
Ltac release_last_steps Hc :=
  unfold Release; exec_steps; rewrite !Hc; exec_steps;
  autorewrite with int_arith;
  erewrite EP_DELETE_this_zero; [| split; exec_lookup | done | done];
  machine_eq; by rewrite insert_id.

Section live_object.
Context `{EM : ErrorMechanism}.
Context (m : Machine) (t : tid) (site : CallSite) (this l : loc)
  (o : SmartObject) (lk : BaseLock).
Hypothesis Howns : owns m this o l lk.
Hypothesis Hfree : holder lk = None.

(** C3. On a live object whose lock is free, [Retain] returns; the counter is
    one more (wrapped to [int]), the lock is as before, and one message is
    logged with the new counter. *)
Theorem Retain_spec :
  Retain t site this m =
    (Normal tt,
     with_log (event Retained (Some site) this (int_incr (m_refCount o)))
       (with_objects <[this := set_refCount (int_incr (m_refCount o)) o]> m)).
Proof using Howns Hfree. live_object. retain_steps. Qed.

(** The counter [Release] tests: the old one, decremented. *)
#[local] Abbreviation c' := (int_decr (m_refCount o)).

(** C1. [Release] of the last reference: the post-decrement counter is zero.
    The call returns; the object and its lock are gone from the heaps; the
    log has the release message and the destructor's, both with counter 0;
    nothing is signalled. *)
Theorem Release_zero :
  c' = 0 →
  Release t site this m =
    (Normal tt,
     with_log (event Deleted None this 0)
       (with_log (event Released (Some site) this 0)
          (with_locks (delete l) (with_objects (delete this) m)))).
Proof using Howns Hfree. intros Hc. live_object. release_last_steps Hc. Qed.

(** C2. [Release] with references left: the post-decrement counter is positive.
    The call returns; the counter is the decremented one, the lock is as
    before, one message is logged, nothing is signalled. *)
Theorem Release_positive :
  0 < c' →
  Release t site this m =
    (Normal tt,
     with_log (event Released (Some site) this c')
       (with_objects <[this := set_refCount c' o]> m)).
Proof using Howns Hfree. intros Hc. live_object. release_steps. Qed.

(** C4. [Release] without a reference to give up, when the verification
    unwinds: the call ends at the macro with the exception, after the error
    is signalled with the negative counter; the statement that unlocks is
    not reached and the lock stays held by the caller. *)
Theorem Release_negative_unwinds :
  c' < 0 → on_failure (NegativeReferenceCount c') = Unwinds →
  ∃ lk',
    Lock t lk = Some lk' ∧
    Release t site this m =
      (Interrupt (Raised (NegativeReferenceCount c')),
       with_signal (NegativeReferenceCount c')
         (with_log (event Released (Some site) this c')
            (with_objects <[this := set_refCount c' o]>
               (with_locks <[l := lk']> m)))).
Proof using Howns Hfree.
  intros Hc Hunw. live_object. exists lk'. split; [done|]. release_steps.
Qed.

(** C35. [Release] without a reference to give up, when the verification
    reports and returns: the error is signalled with the negative counter,
    the object stays with that counter, the lock is released and the call
    returns. *)
Theorem Release_negative_continues :
  c' < 0 → on_failure (NegativeReferenceCount c') = Continues →
  Release t site this m =
    (Normal tt,
     with_signal (NegativeReferenceCount c')
       (with_log (event Released (Some site) this c')
          (with_objects <[this := set_refCount c' o]> m))).
Proof using Howns Hfree. intros Hc Hcont. live_object. release_steps. Qed.

End live_object.

Lemma Retain_spec_witness :
  Retain 0%nat site0 1 (machine1 1) =
    (Normal tt,
     with_log (event Retained (Some site0) 1%positive 2)
       (with_objects <[1%positive := set_refCount 2 (object1 1)]> (machine1 1))).
Proof.
  by apply (Retain_spec (machine1 1) 0%nat site0 1%positive 1%positive
              (object1 1) new_Mutex).
Defined.

Lemma Release_zero_witness :
  Release (EM:=Throwing) 0%nat site0 1 (machine1 1) =
    (Normal tt,
     with_log (event Deleted None 1%positive 0)
       (with_log (event Released (Some site0) 1%positive 0)
          (with_locks (delete 1%positive)
             (with_objects (delete 1%positive) (machine1 1))))).
Proof.
  by apply (Release_zero (machine1 1) 0%nat site0 1%positive 1%positive
              (object1 1) new_Mutex).
Defined.

Lemma Release_positive_witness :
  Release (EM:=Throwing) 0%nat site0 1 (machine1 4) =
    (Normal tt,
     with_log (event Released (Some site0) 1%positive 3)
       (with_objects <[1%positive := set_refCount 3 (object1 4)]> (machine1 4))).
Proof.
  by apply (Release_positive (machine1 4) 0%nat site0 1%positive 1%positive
              (object1 4) new_Mutex).
Defined.

Lemma Release_negative_unwinds_witness :
  ∃ lk',
    Lock 0%nat new_Mutex = Some lk' ∧
    Release (EM:=Throwing) 0%nat site0 1 (machine1 0) =
      (Interrupt (Raised (NegativeReferenceCount (-1))),
       with_signal (NegativeReferenceCount (-1))
         (with_log (event Released (Some site0) 1%positive (-1))
            (with_objects <[1%positive := set_refCount (-1) (object1 0)]>
               (with_locks <[1%positive := lk']> (machine1 0))))).
Proof.
  by apply (Release_negative_unwinds (EM:=Throwing) (machine1 0) 0%nat site0
              1%positive 1%positive (object1 0) new_Mutex).
Defined.

Lemma Release_negative_continues_witness :
  Release (EM:=Reporting) 0%nat site0 1 (machine1 0) =
    (Normal tt,
     with_signal (NegativeReferenceCount (-1))
       (with_log (event Released (Some site0) 1%positive (-1))
          (with_objects <[1%positive := set_refCount (-1) (object1 0)]>
             (machine1 0)))).
Proof.
  by apply (Release_negative_continues (EM:=Reporting) (machine1 0) 0%nat site0
              1%positive 1%positive (object1 0) new_Mutex).
Defined.

(** [Retain] in closed form, on any machine. *)
Lemma Retain_run m t site this :
  Retain t site this m = Retain_result t site this m.
Proof.
  unfold Retain_result. destruct (enter m t this) as [i|[o l lk lk']] eqn:He.
  - unfold Retain, LockObj.
    destruct (enter_inl m t this i He) as [H|(l & H1 & H2)].
    + by erewrite exec_bind_interrupt.
    + erewrite exec_bind_normal by done. by erewrite exec_bind_interrupt.
  - entered He. retain_steps.
Qed.

(** [Release] in closed form, on any machine. *)
Lemma Release_run `{EM : ErrorMechanism} m t site this :
  Release t site this m = Release_result t site this m.
Proof.
  unfold Release_result. destruct (enter m t this) as [i|[o l lk lk']] eqn:He.
  - unfold Release.
    by erewrite exec_bind_interrupt by by apply refCounterLock_Lock_stops.
  - entered He. pose proof (Lock_Some_free _ _ _ Hlock) as Hfree.
    case_decide as Hc; [release_last_steps Hc|].
    case_decide; [destruct (on_failure _) eqn:Hf|]; release_steps.
Qed.

(** [perform] in closed form. *)
Lemma perform_run `{EM : ErrorMechanism} op m : perform op m = perform_result op m.
Proof.
  destruct op; cbn [perform perform_result].
  - unfold exec_bind. by rewrite EP_NEW_SmartObject_run.
  - unfold exec_bind. rewrite EP_NEW_copy_run.
    by destruct (EP_NEW_copy_result raw site b m) as [[] ?].
  - apply Retain_run.
  - apply Release_run.
  - apply EP_DELETE_this_run.
  - done.
Qed.

(** Two sequences of calls, one after the other. *)
Lemma perform_all_app `{EM : ErrorMechanism} ops1 ops2 m :
  perform_all (ops1 ++ ops2) m = (perform_all ops1 ;; perform_all ops2) m.
Proof.
  revert m. induction ops1 as [|op ops1 IH]; intros m; cbn [app perform_all];
    [done|].
  rewrite exec_bind_assoc. unfold exec_bind at 1 2.
  destruct (perform op m) as [[[]|?] m1]; [apply IH | done].
Qed.

(** One more call after a sequence that returned. *)
Lemma perform_all_snoc `{EM : ErrorMechanism} ops op m m1 :
  perform_all ops m = (Normal tt, m1) →
  perform_all (ops ++ [op]) m = perform op m1.
Proof.
  intros Hops. rewrite perform_all_app. erewrite exec_bind_normal by done.
  cbn [perform_all]. unfold exec_bind, exec_ret.
  by destruct (perform op m1) as [[[]|?] ?].
Qed.

(** ** Calls that cannot enter *)

(** A call that cannot enter ends where it started: nothing is counted,
    logged or signalled. *)
Lemma cannot_enter `{EM : ErrorMechanism} m t site this i :
  enter m t this = inl i →
  Retain t site this m = (Interrupt i, m) ∧
  Release t site this m = (Interrupt i, m) ∧
  SmartObject_dtor t this m = (Interrupt i, m) ∧
  EP_DELETE_this t this m = (Interrupt i, m).
Proof.
  intros He.
  rewrite Retain_run, Release_run, SmartObject_dtor_run, EP_DELETE_this_run.
  unfold Retain_result, Release_result, EP_DELETE_this_result, dtor_result.
  by rewrite He.
Qed.

(** C37. A constructor with a policy that is none of the three leaves an object
    no method can be called on: every call dereferences the [NULL] lock
    pointer, the destructor included, whose own test of the pointer comes
    after two uses of it. *)
Theorem null_lock_faults `{EM : ErrorMechanism} m t site this o :
  objects m !! this = Some o → m_refCounterLock o = None →
  Retain t site this m = (Interrupt (Fault (NullLock this)), m) ∧
  Release t site this m = (Interrupt (Fault (NullLock this)), m) ∧
  SmartObject_dtor t this m = (Interrupt (Fault (NullLock this)), m) ∧
  EP_DELETE_this t this m = (Interrupt (Fault (NullLock this)), m).
Proof. intros Ho Hn. apply cannot_enter. unfold enter. by rewrite Ho, Hn. Qed.

(** A call on an object that was destroyed is a use after free. *)
Lemma dangling_this_faults `{EM : ErrorMechanism} m t site this :
  objects m !! this = None →
  Retain t site this m = (Interrupt (Fault (DanglingThis this)), m) ∧
  Release t site this m = (Interrupt (Fault (DanglingThis this)), m) ∧
  SmartObject_dtor t this m = (Interrupt (Fault (DanglingThis this)), m) ∧
  EP_DELETE_this t this m = (Interrupt (Fault (DanglingThis this)), m).
Proof. intros Ho. apply cannot_enter. unfold enter. by rewrite Ho. Qed.

(** A call on an object whose lock another call holds cannot proceed, and
    leaves the counter alone. *)
Theorem held_lock_blocks `{EM : ErrorMechanism} m t t' site this o l lk :
  owns m this o l lk → holder lk = Some t' →
  Retain t site this m = (Interrupt (Blocked l), m) ∧
  Release t site this m = (Interrupt (Blocked l), m) ∧
  SmartObject_dtor t this m = (Interrupt (Blocked l), m) ∧
  EP_DELETE_this t this m = (Interrupt (Blocked l), m).
Proof.
  intros [Ho Hl Hk] Hh. apply cannot_enter. unfold enter.
  by rewrite Ho, Hl, Hk, (BaseLock_held_blocks t' t lk Hh).
Qed.

Lemma null_lock_faults_witness :
  let m := with_objects <[2%positive := constructed (LOCK_POLICY_OTHER 7) None]>
             machine_raw in
  Retain 0%nat site0 2 m = (Interrupt (Fault (NullLock 2)), m) ∧
  Release (EM:=Throwing) 0%nat site0 2 m = (Interrupt (Fault (NullLock 2)), m) ∧
  SmartObject_dtor (EM:=Throwing) 0%nat 2 m = (Interrupt (Fault (NullLock 2)), m) ∧
  EP_DELETE_this (EM:=Throwing) 0%nat 2 m = (Interrupt (Fault (NullLock 2)), m).
Proof.
  by apply (null_lock_faults (EM:=Throwing) _ 0%nat site0 2%positive
              (constructed (LOCK_POLICY_OTHER 7) None)).
Defined.

Lemma held_lock_blocks_witness :
  Retain 0%nat site0 1 (machine1_held 2) =
    (Interrupt (Blocked 1), machine1_held 2) ∧
  Release (EM:=Throwing) 0%nat site0 1 (machine1_held 2) =
    (Interrupt (Blocked 1), machine1_held 2) ∧
  SmartObject_dtor (EM:=Throwing) 0%nat 1 (machine1_held 2) =
    (Interrupt (Blocked 1), machine1_held 2) ∧
  EP_DELETE_this (EM:=Throwing) 0%nat 1 (machine1_held 2) =
    (Interrupt (Blocked 1), machine1_held 2).
Proof.
  by apply (held_lock_blocks (EM:=Throwing) (machine1_held 2) 0%nat 1%nat site0
              1%positive (object1 2) 1%positive (Mutex {| owner := Some 1%nat |})).
Defined.

(** ** The counter and the bounds of [int] *)

Section bounds.
Context `{EM : ErrorMechanism}.
Context (m : Machine) (t : tid) (site : CallSite) (this l : loc)
  (o : SmartObject) (lk : BaseLock).
Hypothesis Howns : owns m this o l lk.
Hypothesis Hfree : holder lk = None.
Hypothesis Hint : in_int (m_refCount o).

(** Read the counter off a closed form. *)
Ltac counter_of :=
  unfold refCount; cbn [fst snd]; machine_simpl;
  rewrite ?lookup_insert_eq, ?lookup_delete_eq;
  cbn [fmap option_fmap option_map]; machine_simpl.

(** Below [INT_MAX], [Retain] adds exactly one: no wrap-around. *)
Theorem Retain_counts_up :
  m_refCount o < INT_MAX →
  (Retain t site this m).1 = Normal tt ∧
  refCount (Retain t site this m).2 this = Some (m_refCount o + 1).
Proof using Howns Hfree Hint.
  intros Hmax. rewrite Retain_run. unfold Retain_result. enter_live.
  counter_of. by rewrite int_incr_small.
Qed.

(** C39. At [INT_MAX], [Retain] returns normally and leaves the counter at
    [INT_MIN]: one more owner, and a negative count. *)
Theorem Retain_wraps :
  m_refCount o = INT_MAX →
  (Retain t site this m).1 = Normal tt ∧
  refCount (Retain t site this m).2 this = Some INT_MIN ∧
  signalled (Retain t site this m).2 = signalled m.
Proof using Howns Hfree.
  intros Hmax. rewrite Retain_run. unfold Retain_result. enter_live.
  counter_of. by rewrite Hmax.
Qed.

(** With more than one reference, [Release] takes exactly one and the
    object stays. *)
Theorem Release_counts_down :
  1 < m_refCount o →
  (Release t site this m).1 = Normal tt ∧
  refCount (Release t site this m).2 this = Some (m_refCount o - 1) ∧
  signalled (Release t site this m).2 = signalled m.
Proof using Howns Hfree Hint.
  intros Hc. rewrite Release_run. unfold Release_result.
  pose proof (int_decr_small (m_refCount o) Hint) as Hd.
  unfold in_int, INT_MIN in *. enter_live. counter_of. by rewrite Hd by lia.
Qed.

(** With exactly one reference, [Release] destroys the object and its
    lock, and signals nothing. *)
Theorem Release_last :
  m_refCount o = 1 →
  (Release t site this m).1 = Normal tt ∧
  objects (Release t site this m).2 !! this = None ∧
  locks (Release t site this m).2 !! l = None ∧
  signalled (Release t site this m).2 = signalled m.
Proof using Howns Hfree.
  intros Hc. rewrite Release_run. unfold Release_result.
  assert (int_decr (m_refCount o) = 0) as Hd by by rewrite Hc.
  enter_live. by counter_of.
Qed.

(** With no reference to give up (a counter of zero or less), [Release]
    signals the error with the counter it produced, whatever the mechanism
    does next, and the object stays. *)
Theorem Release_needs_reference :
  m_refCount o ≤ 0 → INT_MIN < m_refCount o →
  signalled (Release t site this m).2 =
    signalled m ++ [NegativeReferenceCount (m_refCount o - 1)] ∧
  refCount (Release t site this m).2 this = Some (m_refCount o - 1).
Proof using Howns Hfree Hint.
  intros Hc Hmin. rewrite Release_run. unfold Release_result.
  pose proof (int_decr_small (m_refCount o) Hint Hmin) as Hd. enter_live.
  destruct (on_failure _); counter_of; by rewrite Hd.
Qed.

End bounds.

Lemma Retain_counts_up_witness :
  (Retain 0%nat site0 1 (machine1 1)).1 = Normal tt ∧
  refCount (Retain 0%nat site0 1 (machine1 1)).2 1 = Some (1 + 1).
Proof.
  apply (Retain_counts_up (machine1 1) 0%nat site0 1%positive 1%positive
           (object1 1) new_Mutex); [apply machine1_owns | done | done | done].
Defined.

Lemma Retain_wraps_witness :
  (Retain 0%nat site0 1 (machine1 INT_MAX)).1 = Normal tt ∧
  refCount (Retain 0%nat site0 1 (machine1 INT_MAX)).2 1 = Some INT_MIN ∧
  signalled (Retain 0%nat site0 1 (machine1 INT_MAX)).2 = [].
Proof.
  apply (Retain_wraps (machine1 INT_MAX) 0%nat site0 1%positive 1%positive
           (object1 INT_MAX) new_Mutex); [apply machine1_owns | done | done].
Defined.

Lemma Release_needs_reference_witness :
  signalled (Release (EM:=Throwing) 0%nat site0 1 (machine1 0)).2 =
    [NegativeReferenceCount (0 - 1)] ∧
  refCount (Release (EM:=Throwing) 0%nat site0 1 (machine1 0)).2 1 = Some (0 - 1).
Proof.
  apply (Release_needs_reference (EM:=Throwing) (machine1 0) 0%nat site0
           1%positive 1%positive (object1 0) new_Mutex);
    [apply machine1_owns | done | done | done | done].
Defined.

(** Past [INT_MAX] the count is lost: from [INT_MAX] references, two more
    retains and one release leave [INT_MAX + 1] owners, and the release
    reports a negative reference count. *)
Example retain_past_INT_MAX :
  let r := perform_all (EM:=Reporting)
             [OpRetain 0%nat site0 1; OpRetain 0%nat site0 1; OpRelease 0%nat site0 1]
             (machine1 INT_MAX) in
  r.1 = Normal tt ∧ signalled r.2 = [NegativeReferenceCount INT_MIN] ∧
  refCount r.2 1 = Some INT_MIN.
Proof. vm_compute. done. Qed.
