(* ===== verification/Invariant.v ===== *)
(** * Invariant: well-formed machines

    The invariant of the heap the methods maintain between calls: every live
    object has an [int] counter and owns a live lock of the class its policy
    names (or has a [NULL] lock pointer and a policy that is none of the
    three); no two objects share a lock; every live lock has an owner.

    Every method preserves it, however the call ends. *)

From S2P Require Import Prelude Lock Diagnostic Machine SmartObject.

(** ** The invariant *)

(** The lock pointer of [o] is right for its policy. *)
Definition lock_ok (m : Machine) (o : SmartObject) : Prop :=
  match m_refCounterLock o with
  | Some l => lock_kind <$> locks m !! l = Some (m_lockPolicy o)
  | None => policy_known (m_lockPolicy o) = false
  end.

Definition wf_object (m : Machine) (o : SmartObject) : Prop :=
  in_int (m_refCount o) ∧ lock_ok m o.

(** [a] and [b] do not point to the same lock, unless they are the same. *)
Definition unshared (a : loc) (oa : SmartObject) (b : loc) (ob : SmartObject) : Prop :=
  is_Some (m_refCounterLock oa) → m_refCounterLock oa = m_refCounterLock ob → a = b.

Record wf (m : Machine) : Prop := {
  wf_objects : map_Forall (λ _ o, wf_object m o) (objects m);
  wf_unshared :
    map_Forall (λ a oa, map_Forall (λ b ob, unshared a oa b ob) (objects m)) (objects m);
  wf_owned :
    map_Forall (λ l _, map_Exists (λ _ o, m_refCounterLock o = Some l) (objects m))
      (locks m);
}.

#[global] Instance lock_ok_dec m o : Decision (lock_ok m o).
Proof. unfold lock_ok. destruct (m_refCounterLock o); apply _. Defined.

#[global] Instance wf_object_dec m o : Decision (wf_object m o).
Proof. unfold wf_object. apply _. Defined.

#[global] Instance unshared_dec a oa b ob : Decision (unshared a oa b ob).
Proof. unfold unshared. apply _. Defined.

#[global] Instance wf_dec m : Decision (wf m).
Proof.
  destruct (decide (map_Forall (λ _ o, wf_object m o) (objects m))) as [H1|H1];
    [|right; by intros []].
  destruct (decide (map_Forall (λ a oa,
              map_Forall (λ b ob, unshared a oa b ob) (objects m)) (objects m)))
    as [H2|H2]; [|right; by intros []].
  destruct (decide (map_Forall (λ l _,
              map_Exists (λ _ o, m_refCounterLock o = Some l) (objects m)) (locks m)))
    as [H3|H3]; [|right; by intros []].
  left. by split.
Defined.

(** The sources a call reads are alive: the only call that reads another
    object than [this] is the copy. *)
Definition sources_alive (m : Machine) (op : Op) : Prop :=
  match op with
  | OpCopy _ _ b => is_Some (objects m !! b)
  | _ => True
  end.

#[global] Instance sources_alive_dec m op : Decision (sources_alive m op).
Proof. destruct op; apply _. Defined.

(** ** The invariant, point-wise *)

Section wf_facts.
Implicit Types (m : Machine) (this l : loc) (o : SmartObject) (lk : BaseLock).

Lemma wf_intro m :
  (∀ this o, objects m !! this = Some o → wf_object m o) →
  (∀ a oa b ob, objects m !! a = Some oa → objects m !! b = Some ob →
                unshared a oa b ob) →
  (∀ l lk, locks m !! l = Some lk →
           ∃ this o, objects m !! this = Some o ∧ m_refCounterLock o = Some l) →
  wf m.
Proof.
  intros H1 H2 H3. split.
  - intros ???. eauto.
  - intros ?????. eauto.
  - intros l lk Hl. apply map_Exists_lookup. by eapply H3.
Qed.

Lemma wf_object_at m this o : wf m → objects m !! this = Some o → wf_object m o.
Proof. intros [H _ _] ?. by eapply H. Qed.

Lemma wf_no_sharing m a oa b ob l :
  wf m → objects m !! a = Some oa → objects m !! b = Some ob →
  m_refCounterLock oa = Some l → m_refCounterLock ob = Some l → a = b.
Proof.
  intros [_ H _] Ha Hb Hla Hlb. eapply (H a oa Ha b ob Hb); [by rewrite Hla|congruence].
Qed.

Lemma wf_lock_owner m l lk :
  wf m → locks m !! l = Some lk →
  ∃ this o, objects m !! this = Some o ∧ m_refCounterLock o = Some l.
Proof. intros [_ _ H] Hl. by apply map_Exists_lookup, (H l lk Hl). Qed.

(** A live object of a well-formed machine with a lock pointer owns a
    lock. *)
Lemma wf_owns m this o l :
  wf m → objects m !! this = Some o → m_refCounterLock o = Some l →
  ∃ lk, owns m this o l lk ∧ lock_kind lk = m_lockPolicy o.
Proof.
  intros Hwf Ho Hl. destruct (wf_object_at _ _ _ Hwf Ho) as [_ Hk].
  unfold lock_ok in Hk. rewrite Hl in Hk.
  destruct (locks m !! l) as [lk|] eqn:?; simplify_eq/=.
  exists lk. by repeat split.
Qed.

Lemma lock_ok_locks m o (f : gmap loc BaseLock → gmap loc BaseLock) :
  (∀ l, lock_kind <$> f (locks m) !! l = lock_kind <$> locks m !! l ∨
        m_refCounterLock o ≠ Some l) →
  lock_ok m o → lock_ok (with_locks f m) o.
Proof.
  unfold lock_ok. intros Hf. destruct (m_refCounterLock o) as [l|]; [|done].
  cbn. destruct (Hf l) as [->|]; done.
Qed.

End wf_facts.

(** ** Updates that keep the invariant *)

Section wf_updates.
Context (m : Machine).
Hypothesis Hwf : wf m.

Lemma wf_with_log e : wf (with_log e m).
Proof using Hwf. by destruct Hwf. Qed.

Lemma wf_with_signal e : wf (with_signal e m).
Proof using Hwf. by destruct Hwf. Qed.

(** Storing an [int] in the counter of a live object. *)
Lemma wf_store_refCount this o c :
  objects m !! this = Some o → in_int c →
  wf (with_objects <[this := set_refCount c o]> m).
Proof using Hwf.
  intros Ho Hc. apply wf_intro; cbn.
  - intros a oa [[-> <-]|[? Ha]]%lookup_insert_Some.
    + split; [exact Hc|]. by destruct (wf_object_at _ _ _ Hwf Ho).
    + by apply (wf_object_at m a).
  - intros a oa b ob Ha Hb. apply lookup_insert_Some in Ha, Hb.
    intros [l Hl] Heq. rewrite Hl in Heq.
    assert (∀ x ox, (this = x ∧ set_refCount c o = ox ∨ this ≠ x ∧ objects m !! x = Some ox) →
              m_refCounterLock ox = Some l →
              ∃ ox', objects m !! x = Some ox' ∧ m_refCounterLock ox' = Some l) as Hx.
    { intros x ox [[<- <-]|[_ ?]] ?; eauto. }
    destruct (Hx a oa Ha Hl) as (? & ? & ?), (Hx b ob Hb (eq_sym Heq)) as (? & ? & ?).
    by eapply wf_no_sharing.
  - intros l lk Hl. destruct (wf_lock_owner _ _ _ Hwf Hl) as (x & ox & Hx & ?).
    destruct (decide (x = this)) as [->|].
    + exists this, (set_refCount c o). rewrite lookup_insert_eq. by simplify_eq.
    + exists x, ox. by rewrite lookup_insert_ne.
Qed.

(** Changing the state of a lock, not its class. *)
Lemma wf_update_lock l lk lk' :
  locks m !! l = Some lk → lock_kind lk' = lock_kind lk →
  wf (with_locks <[l := lk']> m).
Proof using Hwf.
  intros Hl Hk. apply wf_intro; cbn.
  - intros a oa Ha. destruct (wf_object_at _ _ _ Hwf Ha) as [? Hok].
    split; [done|]. apply lock_ok_locks; [|done].
    intros l0. left. destruct (decide (l = l0)) as [<-|].
    + rewrite lookup_insert_eq, Hl. cbn. by rewrite Hk.
    + by rewrite lookup_insert_ne.
  - intros. by eapply (wf_unshared _ Hwf).
  - intros l0 lk0 [[<- _]|[_ ?]]%lookup_insert_Some; by eapply wf_lock_owner.
Qed.

(** Removing an object together with the lock it owns. *)
Lemma wf_delete this o l lk :
  owns m this o l lk →
  wf (with_locks (delete l) (with_objects (delete this) m)).
Proof using Hwf.
  intros [Ho Hl Hk]. apply wf_intro; cbn.
  - intros a oa [Hne Ha]%lookup_delete_Some.
    destruct (wf_object_at _ _ _ Hwf Ha) as [? Hok]. split; [done|].
    apply (lock_ok_locks (with_objects (delete this) m)); [|done]. cbn.
    intros l0. destruct (decide (l = l0)) as [<-|]; [right|left].
    + intros ?. apply Hne. by eapply wf_no_sharing.
    + by rewrite lookup_delete_ne.
  - intros a oa b ob [_ Ha]%lookup_delete_Some [_ Hb]%lookup_delete_Some.
    by eapply (wf_unshared _ Hwf).
  - intros l0 lk0 [Hne Hl0]%lookup_delete_Some.
    destruct (wf_lock_owner _ _ _ Hwf Hl0) as (x & ox & Hx & ?).
    exists x, ox. split; [|done]. apply lookup_delete_Some. split; [|done].
    intros <-. simplify_eq.
Qed.

(** Adding a constructed object with a new lock of its own. *)
Lemma wf_construct this l p lk0 :
  objects m !! this = None → locks m !! l = None → new_lock p = Some lk0 →
  wf (with_objects <[this := constructed p (Some l)]>
        (with_locks <[l := lk0]> m)).
Proof using Hwf.
  intros Ho Hl Hp. apply wf_intro; cbn.
  - intros a oa [[<- <-]|[? Ha]]%lookup_insert_Some.
    + split; [done|]. unfold lock_ok. cbn. rewrite lookup_insert_eq. cbn.
      by erewrite new_lock_kind.
    + destruct (wf_object_at _ _ _ Hwf Ha) as [? Hok]. split; [done|].
      apply (lock_ok_locks m); [|done]. intros l0.
      destruct (decide (l = l0)) as [<-|]; [right|left; by rewrite lookup_insert_ne].
      intros Hl0. destruct (wf_owns _ _ _ _ Hwf Ha Hl0) as (? & [] & _). congruence.
  - assert (∀ x ox, objects m !! x = Some ox → m_refCounterLock ox ≠ Some l) as Hfresh.
    { intros x ox Hx Hlx. destruct (wf_owns _ _ _ _ Hwf Hx Hlx) as (? & [] & _). congruence. }
    intros a oa b ob [[<- <-]|[? Ha]]%lookup_insert_Some
      [[<- <-]|[? Hb]]%lookup_insert_Some; try done.
    + intros _ Heq. cbn in Heq. by destruct (Hfresh _ _ Hb).
    + intros _ Heq. cbn in Heq. by destruct (Hfresh _ _ Ha).
    + by eapply (wf_unshared _ Hwf).
  - intros l0 lk1 [[<- _]|[? Hl0]]%lookup_insert_Some.
    + exists this, (constructed p (Some l)). by rewrite lookup_insert_eq.
    + destruct (wf_lock_owner _ _ _ Hwf Hl0) as (x & ox & Hx & ?).
      exists x, ox. rewrite lookup_insert_ne; [done|]. intros <-. congruence.
Qed.

(** Adding a constructed object with a [NULL] lock. *)
Lemma wf_construct_null this p :
  objects m !! this = None → new_lock p = None →
  wf (with_objects <[this := constructed p None]> m).
Proof using Hwf.
  intros Ho Hp. apply wf_intro; cbn.
  - intros a oa [[<- <-]|[? Ha]]%lookup_insert_Some.
    + split; [done|]. by apply new_lock_unknown.
    + by apply (wf_object_at m a).
  - intros a oa b ob [[<- <-]|[? Ha]]%lookup_insert_Some
      [[<- <-]|[? Hb]]%lookup_insert_Some; try done.
    + by intros [? ?].
    + intros [? Hs] Heq. cbn in Heq. congruence.
    + by eapply (wf_unshared _ Hwf).
  - intros l lk Hl. destruct (wf_lock_owner _ _ _ Hwf Hl) as (x & ox & Hx & ?).
    exists x, ox. rewrite lookup_insert_ne; [done|]. intros <-. congruence.
Qed.

End wf_updates.

Create HintDb wf discriminated.
#[export] Hint Resolve wf_with_log wf_with_signal wf_store_refCount wf_update_lock
  wf_delete wf_construct wf_construct_null : wf.
#[export] Hint Resolve owns_this owns_lock fresh_object_None fresh_lock_None : wf.

(** Close a goal [wf m'] where [m'] is the final machine of a method. *)
Ltac wf_solve := cbn [snd]; eauto 12 with wf exec int_arith.

(** A constructor's result at an address that was not in use. *)
Lemma wf_ctor_result m site this p :
  wf m → objects m !! this = None → wf (ctor_result site this p m).
Proof.
  intros Hwf Ho. unfold ctor_result. destruct (new_lock p) as [lk0|] eqn:Hp.
  - apply (wf_construct (with_log _ m)); [wf_solve | done | | done].
    exact (fresh_lock_None m).
  - apply (wf_construct_null (with_log _ m)); [wf_solve | done | done].
Qed.

#[export] Hint Resolve wf_ctor_result : wf.

(** ** Every method preserves the invariant *)

Section preservation.
Context `{EM : ErrorMechanism}.
Context (m : Machine) (t : tid) (site : CallSite) (this : loc).
Hypothesis Hwf : wf m.

(** Split a closed form at its entry; a call that does not enter leaves
    [m], and one that does leaves a machine built from [m]. *)
Ltac wf_entered :=
  destruct (enter m t this) as [i|[o l lk lk']] eqn:He; [done|];
  entered He;
  match goal with H : Lock _ _ = Some _ |- _ => pose proof (Lock_kind _ _ _ H) end.

(** [Retain] keeps the machine well formed, however it ends. *)
Theorem Retain_preserves_wf : wf (Retain t site this m).2.
Proof using Hwf.
  rewrite Retain_run. unfold Retain_result. wf_entered. wf_solve.
Qed.

(** [Release] keeps the machine well formed, however it ends: returning,
    destroying the object, or unwinding with the lock held. *)
Theorem Release_preserves_wf : wf (Release t site this m).2.
Proof using Hwf.
  rewrite Release_run. unfold Release_result. wf_entered.
  repeat case_decide; try destruct (on_failure _); wf_solve.
Qed.

(** [EP_DELETE this] keeps the machine well formed, however it ends. *)
Theorem EP_DELETE_this_preserves_wf : wf (EP_DELETE_this t this m).2.
Proof using Hwf.
  rewrite EP_DELETE_this_run. unfold EP_DELETE_this_result. wf_entered.
  repeat case_decide; try destruct (on_failure _); wf_solve.
Qed.

(** [EP_NEW] of an object keeps the machine well formed, whatever the
    policy value and whatever the storage held. *)
Theorem EP_NEW_SmartObject_preserves_wf raw p :
  wf (EP_NEW_SmartObject raw site p m).2.
Proof using Hwf. rewrite EP_NEW_SmartObject_run. wf_solve. Qed.

(** [EP_NEW] of a copy of a live object keeps the machine well formed. *)
Theorem EP_NEW_copy_preserves_wf raw b :
  is_Some (objects m !! b) → wf (EP_NEW_copy raw site b m).2.
Proof using Hwf.
  intros [ob Hb]. rewrite (EP_NEW_copy_alive m raw site b ob Hb). wf_solve.
Qed.

End preservation.

Lemma wf_empty : wf empty_machine.
Proof. apply wf_intro; cbn; intros *; by rewrite lookup_empty. Qed.

(** C10. Whatever a client calls, and however the call ends, the machine stays
    well formed, given that the source of a copy is alive ([sources_alive]:
    the copy constructor reads the policy through the reference it is
    passed). *)
Theorem perform_preserves_wf `{EM : ErrorMechanism} m op :
  wf m → sources_alive m op → wf (perform op m).2.
Proof.
  intros Hwf Hsrc. destruct op as [raw site p|raw site b|t site this|t site this|t this|this b];
    cbn [perform]; unfold exec_bind.
  - pose proof (EP_NEW_SmartObject_preserves_wf m site Hwf raw p).
    by destruct (EP_NEW_SmartObject raw site p m) as [[]].
  - pose proof (EP_NEW_copy_preserves_wf m site Hwf raw b Hsrc).
    by destruct (EP_NEW_copy raw site b m) as [[]].
  - by apply Retain_preserves_wf.
  - by apply Release_preserves_wf.
  - by apply EP_DELETE_this_preserves_wf.
  - done.
Qed.

(** The machine with one object and one mutex is well formed. *)
Lemma wf_machine1 : wf (machine1 1).
Proof. compute_done. Qed.

Lemma perform_preserves_wf_witness :
  wf (perform (EM:=Throwing) (OpRelease 0%nat site0 1) (machine1 1)).2.
Proof.
  apply (perform_preserves_wf (EM:=Throwing) (machine1 1) (OpRelease 0%nat site0 1));
    [apply wf_machine1 | exact I].
Defined.
