(* ===== verification/Protocol.v ===== *)
(** * Protocol: the reference-counting protocol, and refinement

    The specification describes each instance as a state machine: live with
    a positive count, or destroyed; retain adds one, release takes one and
    the release of the last reference destroys.  [Protocol] is the state of
    all instances at once, a finite map from the live addresses to their
    counts, and [pstep] is the transition relation, one rule per client
    call the protocol permits.

    The refinement theorem: a machine that matches a protocol state
    ([sim]) performs every sequence of calls the protocol permits without
    fault, block or misuse report, and ends matching the protocol's final
    state. *)

From S2P Require Import Prelude Lock Diagnostic Machine SmartObject Invariant.

(** ** The abstract protocol *)

(** The live instances and the number of owning references of each. *)
Abbreviation Protocol := (gmap loc Z).

(** One rule per call a client may make, in the states where the protocol
    permits it. *)
Inductive pstep : Op → Protocol → Protocol → Prop :=
| pstep_new raw site p (a : Protocol) :
    policy_known p = true →
    pstep (OpNew raw site p) a (<[fresh (dom a) := 1]> a)
| pstep_copy raw site b (a : Protocol) n :
    a !! b = Some n →
    pstep (OpCopy raw site b) a (<[fresh (dom a) := 1]> a)
| pstep_retain t site this (a : Protocol) n :
    a !! this = Some n → n < INT_MAX →
    pstep (OpRetain t site this) a (<[this := n + 1]> a)
| pstep_release t site this (a : Protocol) n :
    a !! this = Some n → 1 < n →
    pstep (OpRelease t site this) a (<[this := n - 1]> a)
| pstep_release_last t site this (a : Protocol) :
    a !! this = Some 1 →
    pstep (OpRelease t site this) a (delete this a)
| pstep_delete t this (a : Protocol) :
    a !! this = Some 1 →
    pstep (OpDelete t this) a (delete this a)
| pstep_assign this b (a : Protocol) :
    pstep (OpAssign this b) a a.

(** Sequences of permitted calls. *)
Inductive psteps : list Op → Protocol → Protocol → Prop :=
| psteps_nil a : psteps [] a a
| psteps_cons op ops a a' a'' :
    pstep op a a' → psteps ops a' a'' → psteps (op :: ops) a a''.

(** Counts of live instances are positive [int]s. *)
Definition counts_ok (a : Protocol) : Prop :=
  map_Forall (λ _ n, 1 ≤ n ≤ INT_MAX) a.

#[global] Instance counts_ok_dec a : Decision (counts_ok a).
Proof. unfold counts_ok. apply _. Defined.

(** The protocol as a function: the state after [op], when [op] is
    permitted. *)
Definition pstep_fun (op : Op) (a : Protocol) : option Protocol :=
  match op with
  | OpNew _ _ p =>
      if policy_known p then Some (<[fresh (dom a) := 1]> a) else None
  | OpCopy _ _ b => _ ← a !! b; Some (<[fresh (dom a) := 1]> a)
  | OpRetain _ _ this =>
      n ← a !! this; if decide (n < INT_MAX) then Some (<[this := n + 1]> a) else None
  | OpRelease _ _ this =>
      n ← a !! this;
      if decide (1 < n) then Some (<[this := n - 1]> a)
      else if decide (n = 1) then Some (delete this a) else None
  | OpDelete _ this =>
      n ← a !! this; if decide (n = 1) then Some (delete this a) else None
  | OpAssign _ _ => Some a
  end.

(** A sequence of calls, as a function. *)
Fixpoint psteps_fun (ops : list Op) (a : Protocol) : option Protocol :=
  match ops with
  | [] => Some a
  | op :: ops => a' ← pstep_fun op a; psteps_fun ops a'
  end.

(** ** The refinement relation *)

(** The protocol state a machine stands for. *)
Definition abs (m : Machine) : Protocol := m_refCount <$> objects m.

(** Between calls no lock is held, and every object has a lock. *)
Definition quiescent (m : Machine) : Prop :=
  map_Forall (λ _ lk, holder lk = None) (locks m) ∧
  map_Forall (λ _ o, is_Some (m_refCounterLock o)) (objects m).

#[global] Instance quiescent_dec m : Decision (quiescent m).
Proof. unfold quiescent. apply _. Defined.

Record sim (m : Machine) (a : Protocol) : Prop := {
  sim_wf : wf m;
  sim_quiescent : quiescent m;
  sim_abs : abs m = a;
  sim_counts : counts_ok a;
}.

#[global] Instance sim_dec m a : Decision (sim m a).
Proof.
  destruct (decide (wf m ∧ quiescent m ∧ abs m = a ∧ counts_ok a)) as [H|H].
  - left. by destruct H as (?&?&?&?).
  - right. intros []. by apply H.
Defined.

(** A program that follows the protocol: a new object, retained, copied,
    and both released down to the first one's last reference. *)
Definition program0 : list Op :=
  [OpNew raw0 site0 LOCK_POLICY_MUTEX; OpRetain 0%nat site0 1;
   OpCopy raw0 site0 1; OpRelease 0%nat site0 1; OpRelease 1%nat site0 2].

(** ** The protocol alone *)

Lemma pstep_fun_sound op a a' : pstep_fun op a = Some a' → pstep op a a'.
Proof.
  destruct op; cbn; intros; repeat (case_match || case_decide);
    simplify_option_eq; eauto using pstep.
Qed.

Lemma pstep_fun_complete op a a' : pstep op a a' → pstep_fun op a = Some a'.
Proof.
  destruct 1; cbn;
    repeat match goal with H : _ = _ |- _ => rewrite H; clear H end; cbn;
    repeat case_decide; done || lia.
Qed.

(** The protocol keeps every count a positive [int]. *)
Lemma pstep_counts_ok op a a' : pstep op a a' → counts_ok a → counts_ok a'.
Proof.
  unfold counts_ok.
  destruct 1; intros Hok; try done;
    try (apply map_Forall_insert_2; [|done]);
    try (by apply map_Forall_delete);
    try (pose proof (map_Forall_lookup_1 _ _ _ _ Hok H)); cbn in *;
    unfold INT_MAX in *; lia.
Qed.

Lemma psteps_counts_ok ops a a' : psteps ops a a' → counts_ok a → counts_ok a'.
Proof. induction 1; eauto using pstep_counts_ok. Qed.

Lemma psteps_fun_sound ops a a' : psteps_fun ops a = Some a' → psteps ops a a'.
Proof.
  revert a. induction ops as [|op ops IH]; intros a H; simplify_option_eq;
    eauto using psteps, pstep_fun_sound.
Qed.

Lemma psteps_app ops1 ops2 a a' a'' :
  psteps ops1 a a' → psteps ops2 a' a'' → psteps (ops1 ++ ops2) a a''.
Proof. induction 1; cbn; eauto using psteps. Qed.

(** ** Re-establishing the refinement relation *)

Section sim_facts.
Context (m : Machine) (a : Protocol).
Hypothesis Hsim : sim m a.

(** A live instance of the protocol is a live object with a free lock of
    its own, and its count is the object's counter. *)
Lemma sim_live this n :
  a !! this = Some n →
  ∃ o l lk, owns m this o l lk ∧ holder lk = None ∧ m_refCount o = n ∧
            1 ≤ n ≤ INT_MAX.
Proof using Hsim.
  destruct Hsim as [Hwf [Hfree Hlock] <- Hc]. intros Ha.
  pose proof (map_Forall_lookup_1 _ _ _ _ Hc Ha) as Hn. cbn in Hn.
  unfold abs in Ha. apply lookup_fmap_Some in Ha as (o & <- & Ho).
  destruct (map_Forall_lookup_1 _ _ _ _ Hlock Ho) as [l Hl].
  destruct (wf_owns _ _ _ _ Hwf Ho Hl) as (lk & Hown & _).
  exists o, l, lk. split; [done|]. split; [|done].
  destruct Hown as [_ _ Hk]. exact (map_Forall_lookup_1 _ _ _ _ Hfree Hk).
Qed.

Lemma sim_fresh : fresh (dom a) = fresh (dom (objects m)).
Proof using Hsim. destruct Hsim as [_ _ <- _]. unfold abs. by rewrite dom_fmap_L. Qed.

Lemma sim_with_log e : sim (with_log e m) a.
Proof using Hsim. destruct Hsim. split; try done. by apply wf_with_log. Qed.

(** A counter stored in a live object. *)
Lemma sim_store this o l lk c :
  owns m this o l lk → 1 ≤ c ≤ INT_MAX →
  sim (with_objects <[this := set_refCount c o]> m) (<[this := c]> a).
Proof using Hsim.
  destruct Hsim as [Hwf [Hfree Hlock] <- Hc]. intros [Ho Hl Hk] Hrange. split.
  - apply wf_store_refCount; [done..|]. unfold in_int, INT_MIN, INT_MAX in *. lia.
  - split; [done|]. cbn. apply map_Forall_insert_2; [|done]. cbn. by rewrite Hl.
  - unfold abs. cbn. by rewrite fmap_insert.
  - by apply map_Forall_insert_2.
Qed.

(** An object removed with its lock. *)
Lemma sim_delete this o l lk :
  owns m this o l lk →
  sim (with_locks (delete l) (with_objects (delete this) m)) (delete this a).
Proof using Hsim.
  destruct Hsim as [Hwf [Hfree Hlock] <- Hc]. intros Hown. split.
  - by eapply wf_delete.
  - split; cbn; by apply map_Forall_delete.
  - unfold abs. cbn. by rewrite fmap_delete.
  - by apply map_Forall_delete.
Qed.

(** A live instance of the protocol can be entered by any thread. *)
Lemma sim_enter t this n :
  a !! this = Some n →
  ∃ e, enter m t this = inr e ∧ m_refCount (en_object e) = n ∧
       1 ≤ n ≤ INT_MAX ∧ owns m this (en_object e) (en_lock e) (en_free e).
Proof using Hsim.
  intros (o & l & lk & Hown & Hfree & Hn & Hr)%sim_live.
  destruct (BaseLock_Lock_free t lk Hfree) as [lk' Hlock].
  eexists. split; [by eapply owns_enter|]. done.
Qed.

(** The policy of a live instance is one of the three. *)
Lemma sim_policy_known b n :
  a !! b = Some n →
  ∃ ob, objects m !! b = Some ob ∧ policy_known (m_lockPolicy ob) = true.
Proof using Hsim.
  intros (ob & lb & lkb & [Hob Hlb Hkb] & _)%sim_live. exists ob. split; [done|].
  destruct (wf_owns m b ob lb (sim_wf _ _ Hsim) Hob Hlb) as (lk & _ & <-).
  by destruct lk.
Qed.

(** An object constructed at a fresh address with a fresh lock. *)
Lemma sim_construct p lk0 :
  new_lock p = Some lk0 →
  sim (with_objects <[fresh (dom (objects m)) :=
                        constructed p (Some (fresh (dom (locks m))))]>
         (with_locks <[fresh (dom (locks m)) := lk0]> m))
      (<[fresh (dom a) := 1]> a).
Proof using Hsim.
  rewrite sim_fresh. destruct Hsim as [Hwf [Hfree Hlock] <- Hc]. intros Hp. split.
  - apply wf_construct; auto using fresh_object_None, fresh_lock_None.
  - split; cbn; (apply map_Forall_insert_2; [|done]); cbn; eauto using new_lock_free.
  - unfold abs. cbn. by rewrite fmap_insert.
  - apply map_Forall_insert_2; [|done]. cbn. unfold INT_MAX. lia.
Qed.

End sim_facts.

(** What a constructor with one of the three policies leaves. *)
Lemma sim_ctor_result m a site p :
  sim m a → policy_known p = true →
  sim (ctor_result site (fresh (dom (objects m))) p m) (<[fresh (dom a) := 1]> a).
Proof.
  intros Hsim [lk0 Hp]%new_lock_known. unfold ctor_result. rewrite Hp.
  apply (sim_construct (with_log _ m)); [by apply sim_with_log | done].
Qed.

(** ** Refinement *)

Section simulation_proofs.
Context `{EM : ErrorMechanism}.

(** Enter the closed form of a call on a live instance of the protocol. *)
Ltac sim_entered Hsim Ha :=
  lazymatch type of Ha with
  | _ !! ?this = Some ?n =>
      lazymatch goal with
      | |- context [enter ?m ?t this] =>
          destruct (sim_enter m _ Hsim t this n Ha)
            as ([o l lk lk'] & -> & Hc & Hr & Hown);
          cbn [en_object en_lock en_free en_held] in *; cbv zeta
      end
  end.

(** One call the protocol permits: the machine performs it and returns, in
    a state that matches the protocol's, without signalling anything. *)
Lemma simulation_step op m a a' :
  sim m a → pstep op a a' →
  ∃ m', perform op m = (Normal tt, m') ∧ sim m' a' ∧ signalled m' = signalled m.
Proof.
  intros Hsim Hstep. rewrite perform_run. destruct Hstep as
    [raw site p a Hp | raw site b a n Hb | t site this a n Ha Hn
    | t site this a n Ha Hn | t site this a Ha | t this a Ha | this b a];
    cbn [perform_result];
    unfold Retain_result, Release_result, EP_DELETE_this_result;
    try sim_entered Hsim Ha.
  - eexists. split; [done|]. by split; [apply sim_ctor_result|apply ctor_result_signalled].
  - destruct (sim_policy_known m a Hsim b n Hb) as (ob & Hob & Hp).
    rewrite <- EP_NEW_copy_run, (EP_NEW_copy_alive m raw site b ob Hob).
    eexists. split; [done|]. by split; [apply sim_ctor_result|apply ctor_result_signalled].
  - eexists. split; [done|]. split; [|done]. subst n.
    rewrite int_incr_small by (unfold in_int, INT_MIN, INT_MAX in *; lia).
    apply (sim_with_log (with_objects _ m)). eapply sim_store; [done..|lia].
  - subst n. rewrite int_decr_small by (unfold in_int, INT_MIN, INT_MAX in *; lia).
    repeat case_decide; try lia. eexists. split; [done|]. split; [|done].
    eapply (sim_with_log (with_objects _ m)), sim_store; [done..|lia].
  - rewrite Hc. case_decide; [|done]. eexists. split; [done|]. split; [|done].
    apply (sim_with_log (with_log _ _)), (sim_with_log (with_locks _ _)).
    by eapply sim_delete.
  - rewrite Hc. case_decide; [|done]. eexists. split; [done|]. split; [|done].
    apply (sim_with_log (with_locks _ _)). by eapply sim_delete.
  - by exists m.
Qed.

(** A sequence of calls the protocol permits: the machine performs all of
    them, ends in a state that matches, and signals nothing. *)
Lemma simulation ops m a a' :
  sim m a → psteps ops a a' →
  ∃ m', perform_all ops m = (Normal tt, m') ∧ sim m' a' ∧ signalled m' = signalled m.
Proof.
  intros Hsim Hsteps. revert m Hsim.
  induction Hsteps as [a|op ops a a1 a2 Hstep Hsteps IH]; intros m Hsim.
  - by exists m.
  - destruct (simulation_step op m a a1 Hsim Hstep) as (m1 & Hrun & Hsim1 & Hs1).
    destruct (IH m1 Hsim1) as (m2 & Hrun2 & Hsim2 & Hs2).
    exists m2. split; [|split; [done|congruence]].
    cbn [perform_all]. by erewrite exec_bind_normal.
Qed.

End simulation_proofs.

Lemma sim_empty : sim empty_machine ∅.
Proof.
  split; [apply wf_empty | split; apply map_Forall_empty | done | apply map_Forall_empty].
Qed.

(** C9. A program of the client that follows the protocol from the start, with
    no object yet: every call returns, no error is signalled under either
    mechanism, the objects alive at the end are those of the protocol with
    its counts, every one with a free lock of its own. *)
Theorem refinement `{EM : ErrorMechanism} ops a :
  psteps ops ∅ a →
  ∃ m, perform_all ops empty_machine = (Normal tt, m) ∧ sim m a ∧ signalled m = [].
Proof. intros Hsteps. exact (simulation ops empty_machine ∅ a sim_empty Hsteps). Qed.

Lemma refinement_witness :
  ∃ m, perform_all (EM:=Throwing) program0 empty_machine = (Normal tt, m) ∧
       sim m {[1%positive := 1]} ∧ signalled m = [].
Proof.
  apply (refinement (EM:=Throwing) program0 {[1%positive := 1]}).
  apply psteps_fun_sound. by vm_compute.
Defined.
