(* ===== verification/Scenarios.v ===== *)
(** * Scenarios: the behaviours the specification lists as testable

    Balanced retains and releases leave the count where it was; the release
    of the last reference destroys, once, and no earlier release does; a
    call after that is a use after free; calls on one object leave every
    other object alone; a copy starts at count 1 with the policy of its
    source. *)

From S2P Require Import Prelude Lock Diagnostic Machine SmartObject.
From S2P Require Import Invariant Protocol.

(** ** Definitions *)

(** The messages [k] releases log when they take the counter from [c + k]
    down to [c]. *)
Fixpoint release_log (site : CallSite) (this : loc) (c : Z) (k : nat) :
    list LogEvent :=
  match k with
  | O => []
  | S k => event Released (Some site) this (c + Z.of_nat k)
             :: release_log site this c k
  end.

Definition with_logs (es : list LogEvent) (m : Machine) : Machine :=
  {| objects := objects m; locks := locks m; log := log m ++ es;
     signalled := signalled m |}.

(** [n] retains, then [n] releases, by one thread on one object. *)
Definition balanced (n : nat) (t : tid) (site : CallSite) (this : loc) : list Op :=
  replicate n (OpRetain t site this) ++ replicate n (OpRelease t site this).

(** The object of a call, for the calls that have one. *)
Definition target (op : Op) : option loc :=
  match op with
  | OpRetain _ _ this | OpRelease _ _ this | OpDelete _ this => Some this
  | OpNew _ _ _ | OpCopy _ _ _ | OpAssign _ _ => None
  end.

(** A machine built by the constructor alone: one object with a mutex. *)
Definition fresh_machine : Machine :=
  (EP_NEW_SmartObject (object1 0) site0 LOCK_POLICY_MUTEX empty_machine).2.

(** ** Balanced retains and releases *)

Section balanced.
Context `{EM : ErrorMechanism}.
Context (t : tid) (site : CallSite) (this : loc).

Lemma psteps_retains n (a : Protocol) c :
  a !! this = Some c → c + Z.of_nat n ≤ INT_MAX →
  psteps (replicate n (OpRetain t site this)) a (<[this := c + Z.of_nat n]> a).
Proof using Type.
  revert a c. induction n as [|n IH]; intros a c Ha Hn; cbn [replicate].
  - rewrite Z.add_0_r, insert_id by done. constructor.
  - econstructor; [eapply pstep_retain; [done|lia]|].
    replace (c + Z.of_nat (S n)) with (c + 1 + Z.of_nat n) by lia.
    rewrite <- (insert_insert_eq a this (c + 1 + Z.of_nat n) (c + 1)).
    apply IH; [by rewrite lookup_insert_eq | lia].
Qed.

Lemma psteps_releases n (a : Protocol) c :
  a !! this = Some (c + Z.of_nat n) → 1 ≤ c →
  psteps (replicate n (OpRelease t site this)) a (<[this := c]> a).
Proof using Type.
  revert a. induction n as [|n IH]; intros a Ha Hc; cbn [replicate].
  - rewrite Z.add_0_r in Ha. rewrite insert_id by done. constructor.
  - econstructor; [eapply pstep_release; [done|lia]|].
    rewrite <- (insert_insert_eq a this c (c + Z.of_nat (S n) - 1)).
    apply IH; [|done]. rewrite lookup_insert_eq. f_equal. lia.
Qed.

(** C12. [n] retains followed by [n] releases on an object of count [c], when
    [c + n] does not exceed [INT_MAX]: every call returns, nothing is
    signalled, the object is alive and its count is what it was. *)
Theorem balanced_retain_release n m (a : Protocol) c :
  sim m a → a !! this = Some c → c + Z.of_nat n ≤ INT_MAX →
  ∃ m', perform_all (balanced n t site this) m = (Normal tt, m') ∧
        refCount m' this = Some c ∧ sim m' a ∧ signalled m' = signalled m.
Proof using Type.
  intros Hsim Ha Hn. unfold balanced.
  assert (psteps (replicate n (OpRetain t site this)
                  ++ replicate n (OpRelease t site this)) a a) as Hrun.
  { eapply psteps_app; [by apply psteps_retains|].
    rewrite <- (insert_id a this c) at 2 by done.
    rewrite <- (insert_insert_eq a this c (c + Z.of_nat n)).
    apply psteps_releases; [by rewrite lookup_insert_eq|].
    pose proof (map_Forall_lookup_1 _ _ _ _ (sim_counts _ _ Hsim) Ha). cbn in *. lia. }
  destruct (simulation _ m a a Hsim Hrun) as (m' & Hm' & Hsim' & Hs).
  exists m'. split; [done|]. split; [|done].
  unfold refCount. destruct Hsim' as [_ _ Habs _]. unfold abs in Habs.
  by rewrite <- lookup_fmap, Habs.
Qed.

End balanced.

Lemma sim_fresh_machine : sim fresh_machine {[1%positive := 1]}.
Proof. compute_done. Qed.

Lemma balanced_retain_release_witness :
  ∃ m', perform_all (EM:=Throwing) (balanced 3 0%nat site0 1) fresh_machine
          = (Normal tt, m') ∧
        refCount m' 1 = Some 1 ∧ sim m' {[1%positive := 1]} ∧
        signalled m' = signalled fresh_machine.
Proof.
  apply (balanced_retain_release (EM:=Throwing) 0%nat site0 1%positive 3
           fresh_machine {[1%positive := 1]} 1);
    [apply sim_fresh_machine | done | done].
Defined.

(** ** The release that destroys *)

Section last_release.
Context `{EM : ErrorMechanism}.
Context (t : tid) (site : CallSite) (this l : loc) (lk : BaseLock).
Hypothesis Hfree : holder lk = None.

(** From count [k + 1], [k + 1] releases, as one equation: the first [k]
    log the counts [k] down to [1], the last logs [0] and runs the
    destructor, which logs its one message. *)
Lemma release_all_run k m o :
  owns m this o l lk → m_refCount o = Z.of_nat (S k) → Z.of_nat (S k) ≤ INT_MAX →
  perform_all (replicate (S k) (OpRelease t site this)) m =
    (Normal tt,
     with_log (event Deleted None this 0)
       (with_logs (release_log site this 0 (S k))
          (with_locks (delete l) (with_objects (delete this) m)))).
Proof using Hfree.
  revert m o. induction k as [|k IH]; intros m o Howns Hc Hmax;
    (change (replicate (S ?n) ?x) with (x :: replicate n x) at 1);
    cbn [perform_all perform]; unfold exec_bind at 1;
    rewrite Release_run; unfold Release_result;
    pose proof (int_decr_small (m_refCount o)) as Hd;
    unfold in_int, INT_MIN, INT_MAX in *; enter_live.
  - unfold with_logs. cbn [replicate perform_all exec_ret release_log]. machine_eq.
  - rewrite Hd, Hc by lia. replace (Z.of_nat (S (S k)) - 1) with (Z.of_nat (S k)) by lia.
    erewrite (IH _ (set_refCount (Z.of_nat (S k)) o));
      [|by apply owns_with_log, (owns_with_objects m this o)|done|lia].
    unfold with_logs. cbn [release_log]. machine_eq.
Qed.

Lemma release_log_Released c k :
  Forall (λ e, ev_kind e = Released ∧ ev_this e = this) (release_log site this c k).
Proof using Type. induction k; cbn [release_log]; by constructor. Qed.

Lemma release_log_length c k : length (release_log site this c k) = k.
Proof using Type. induction k; cbn [release_log length]; congruence. Qed.

(** C11. An object with [k + 1] references, released [k + 1] times: every call
    returns and nothing is signalled; the object and its lock are gone;
    the log gained [k + 1] release messages and then one deletion message,
    so the object was destroyed once, by the last release. *)
Theorem release_all k m o :
  owns m this o l lk → m_refCount o = Z.of_nat (S k) → Z.of_nat (S k) ≤ INT_MAX →
  let r := perform_all (replicate (S k) (OpRelease t site this)) m in
  r.1 = Normal tt ∧ objects r.2 !! this = None ∧ locks r.2 !! l = None ∧
  signalled r.2 = signalled m ∧
  log r.2 = log m ++ release_log site this 0 (S k) ++ [event Deleted None this 0] ∧
  length (release_log site this 0 (S k)) = S k ∧
  Forall (λ e, ev_kind e = Released ∧ ev_this e = this)
    (release_log site this 0 (S k)).
Proof using Hfree.
  intros Hown Hc Hmax. cbv zeta. erewrite release_all_run by done. cbn.
  rewrite !lookup_delete_eq, <- app_assoc.
  split_and!; auto using release_log_Released, release_log_length.
Qed.

(** C38. One release more than the references held is a call on a destroyed
    object: after the [k + 1] releases of an object with [k + 1] references
    the next [Release] faults at its first dereference; it signals no
    negative count and writes no message. *)
Theorem release_after_destroy k m o :
  owns m this o l lk → m_refCount o = Z.of_nat (S k) → Z.of_nat (S k) ≤ INT_MAX →
  let r := perform_all (replicate (S k) (OpRelease t site this)) m in
  r.1 = Normal tt ∧
  Release t site this r.2 = (Interrupt (Fault (DanglingThis this)), r.2) ∧
  signalled r.2 = signalled m ∧
  log r.2 = log m ++ release_log site this 0 (S k) ++ [event Deleted None this 0].
Proof using Hfree.
  intros Hown Hc Hmax. cbv zeta. erewrite release_all_run by done. cbn.
  split_and!; [done | | done | by rewrite <- app_assoc].
  apply dangling_this_faults. cbn. by rewrite lookup_delete_eq.
Qed.

End last_release.

Lemma release_all_witness :
  let r := perform_all (EM:=Throwing) (replicate 3 (OpRelease 0%nat site0 1))
             (machine1 3) in
  r.1 = Normal tt ∧ objects r.2 !! 1%positive = None ∧
  locks r.2 !! 1%positive = None ∧ signalled r.2 = signalled (machine1 3) ∧
  log r.2 = log (machine1 3) ++ release_log site0 1%positive 0 3
            ++ [event Deleted None 1%positive 0] ∧
  length (release_log site0 1%positive 0 3) = 3%nat ∧
  Forall (λ e, ev_kind e = Released ∧ ev_this e = 1%positive)
    (release_log site0 1%positive 0 3).
Proof.
  apply (release_all (EM:=Throwing) 0%nat site0 1%positive 1%positive new_Mutex
           eq_refl 2 (machine1 3) (object1 3));
    [apply machine1_owns | done | done].
Defined.

Lemma release_after_destroy_witness :
  let r := perform_all (EM:=Throwing) (replicate 3 (OpRelease 0%nat site0 1))
             (machine1 3) in
  r.1 = Normal tt ∧
  Release (EM:=Throwing) 0%nat site0 1 r.2 = (Interrupt (Fault (DanglingThis 1)), r.2) ∧
  signalled r.2 = signalled (machine1 3) ∧
  log r.2 = log (machine1 3) ++ release_log site0 1%positive 0 3
              ++ [event Deleted None 1%positive 0].
Proof.
  apply (release_after_destroy (EM:=Throwing) 0%nat site0 1%positive 1%positive
           new_Mutex eq_refl 2 (machine1 3) (object1 3));
    [apply machine1_owns | done | done].
Defined.

(** ** Calls on one object leave the others alone *)

(** Whatever a client calls and however the call ends, a live object that
    is not the object of the call is as it was: its counter, its policy and
    its lock pointer. *)
Theorem perform_frame `{EM : ErrorMechanism} op m b ob :
  objects m !! b = Some ob → target op ≠ Some b →
  objects (perform op m).2 !! b = Some ob.
Proof.
  intros Hb Hne. assert (fresh (dom (objects m)) ≠ b) as Hnew.
  { intros <-. by rewrite fresh_object_None in Hb. }
  rewrite perform_run.
  destruct op; cbn [perform_result target] in *;
    unfold EP_NEW_copy_result, Retain_result, Release_result, EP_DELETE_this_result;
    repeat first [case_match | case_decide]; cbn;
    by rewrite ?ctor_result_frame, ?lookup_insert_ne, ?lookup_delete_ne by congruence.
Qed.

Lemma perform_frame_witness :
  objects (perform (EM:=Throwing) (OpRelease 0%nat site0 1) machine_raw).2 !! 2%positive
    = Some raw0.
Proof.
  apply (perform_frame (EM:=Throwing) (OpRelease 0%nat site0 1) machine_raw
           2%positive raw0); done.
Defined.

(** ** Copies *)

Section copies.
Context `{EM : ErrorMechanism}.
Context (m : Machine) (raw : SmartObject) (site : CallSite) (b lb : loc)
  (ob : SmartObject) (lkb : BaseLock).
Hypothesis Hwf : wf m.
Hypothesis Hb : owns m b ob lb lkb.

(** A copy of a live object [b] of a well-formed machine: a new object with
    count 1 and the policy of [b], which owns a new free lock that is not
    the lock of [b]; [b] is as it was, whatever its count. *)
Theorem copy_is_independent :
  ∃ p lp lkp m',
    EP_NEW_copy raw site b m = (Normal p, m') ∧
    p ≠ b ∧ lp ≠ lb ∧
    owns m' p (constructed (m_lockPolicy ob) (Some lp)) lp lkp ∧
    holder lkp = None ∧ lock_kind lkp = m_lockPolicy ob ∧
    owns m' b ob lb lkb.
Proof using Hwf Hb.
  destruct Hb as [Hob Hlb Hkb].
  destruct (wf_owns m b ob lb Hwf Hob Hlb) as (lk & [_ _ Hk] & Hkind).
  destruct (new_lock (m_lockPolicy ob)) as [lk0|] eqn:Hp.
  2:{ apply new_lock_unknown in Hp. rewrite <- Hkind in Hp. by destruct lk. }
  assert (fresh (dom (objects m)) ≠ b) as Hnb.
  { intros <-. by rewrite fresh_object_None in Hob. }
  assert (fresh (dom (locks m)) ≠ lb) as Hnl.
  { intros <-. by rewrite fresh_lock_None in Hkb. }
  exists (fresh (dom (objects m))), (fresh (dom (locks m))), lk0. eexists.
  split; [by eapply EP_NEW_copy_alive|]. unfold ctor_result. rewrite Hp.
  repeat split; eauto using new_lock_free, new_lock_kind; by exec_lookup.
Qed.

End copies.

Lemma copy_is_independent_witness :
  ∃ p lp lkp m',
    EP_NEW_copy raw0 site0 1 (machine1 1) = (Normal p, m') ∧
    p ≠ 1%positive ∧ lp ≠ 1%positive ∧
    owns m' p (constructed (m_lockPolicy (object1 1)) (Some lp)) lp lkp ∧
    holder lkp = None ∧ lock_kind lkp = m_lockPolicy (object1 1) ∧
    owns m' 1 (object1 1) 1 new_Mutex.
Proof.
  apply (copy_is_independent (machine1 1) raw0 site0 1%positive 1%positive
           (object1 1) new_Mutex wf_machine1 (machine1_owns 1)).
Defined.

(** Assignment changes no count: with O at count 1 and P at count 3, after
    [O = P] the machine is the same. *)
Theorem assign_changes_nothing m this b :
  SmartObject_assign this b m = (Normal this, m).
Proof. reflexivity. Qed.

(** ** The concrete scenarios of the specification *)

(** Construct O (count 1), retain three times (count 4), release three
    times: O is alive with count 1. *)
Example three_retains_three_releases :
  let ops := replicate 3 (OpRetain 0%nat site0 1) ++ replicate 3 (OpRelease 0%nat site0 1) in
  let r := perform_all (EM:=Throwing) ops fresh_machine in
  r.1 = Normal tt ∧ refCount r.2 1 = Some 1 ∧ signalled r.2 = [].
Proof. vm_compute. done. Qed.

(** The fourth release destroys O: the heaps are empty, and the log holds
    the allocation, three retains, four releases and one deletion. *)
Example fourth_release_destroys :
  let ops := replicate 3 (OpRetain 0%nat site0 1) ++ replicate 4 (OpRelease 0%nat site0 1) in
  let r := perform_all (EM:=Throwing) ops fresh_machine in
  r.1 = Normal tt ∧ objects r.2 = ∅ ∧ locks r.2 = ∅ ∧ signalled r.2 = [] ∧
  ev_count <$> log r.2 = [1; 2; 3; 4; 3; 2; 1; 0; 0] ∧
  ev_kind <$> log r.2 =
    [Allocated; Retained; Retained; Retained; Released; Released; Released;
     Released; Deleted].
Proof. vm_compute. done. Qed.

(** Deleting O directly while its count is 3 signals the error. *)
Example delete_while_shared :
  let ops := replicate 2 (OpRetain 0%nat site0 1) ++ [OpDelete 0%nat 1] in
  let r := perform_all (EM:=Throwing) ops fresh_machine in
  r.1 = Interrupt (Raised (NonZeroCountAtDestruction 2)) ∧
  signalled r.2 = [NonZeroCountAtDestruction 2] ∧
  refCount r.2 1 = Some 2.
Proof. vm_compute. done. Qed.
