(* ===== verification/Observational.v ===== *)
(** * Observational: the diagnostic messages do not steer the methods

    The log is written by [LOG_THIS_MSG] and never read.  Two machines that
    differ only in their logs ([≡ₗ]) are an equivalence coarser than
    equality; every primitive, every method and every client call respects
    it: from equivalent machines they end the same way, in equivalent
    machines.  So what a build without the diagnostic messages does to the
    objects and locks is what this build does. *)

From S2P Require Import Prelude Lock Diagnostic Machine SmartObject.

#[local] Open Scope exec_scope.

(** ** Machines up to their logs *)

Definition log_equiv (m1 m2 : Machine) : Prop :=
  objects m1 = objects m2 ∧ locks m1 = locks m2 ∧ signalled m1 = signalled m2.

Infix "≡ₗ" := log_equiv (at level 70).

#[global] Instance log_equiv_dec m1 m2 : Decision (m1 ≡ₗ m2).
Proof. unfold log_equiv. apply _. Defined.

(** The machine without its log. *)
Definition erase_log (m : Machine) : Machine :=
  {| objects := objects m; locks := locks m; log := []; signalled := signalled m |}.

(** Outcomes with final machines, up to the logs. *)
Definition result_equiv {A} (r1 r2 : Outcome Interruption A * Machine) : Prop :=
  r1.1 = r2.1 ∧ r1.2 ≡ₗ r2.2.

(** A computation that does not read the log. *)
Definition log_blind {A} (p : Call A) : Prop :=
  ∀ m1 m2, m1 ≡ₗ m2 → result_equiv (p m1) (p m2).

(** ** The equivalence *)

#[global] Instance log_equiv_equivalence : Equivalence log_equiv.
Proof.
  split.
  - by intros m.
  - intros m1 m2 (?&?&?). by repeat split.
  - intros m1 m2 m3 (?&?&?) (?&?&?). repeat split; congruence.
Qed.

#[global] Instance objects_proper : Proper (log_equiv ==> (=)) objects.
Proof. by intros m1 m2 (?&?&?). Qed.
#[global] Instance locks_proper : Proper (log_equiv ==> (=)) locks.
Proof. by intros m1 m2 (?&?&?). Qed.
#[global] Instance signalled_proper : Proper (log_equiv ==> (=)) signalled.
Proof. by intros m1 m2 (?&?&?). Qed.

#[global] Instance with_objects_proper f :
  Proper (log_equiv ==> log_equiv) (with_objects f).
Proof. intros m1 m2 (?&?&?). repeat split; cbn; congruence. Qed.
#[global] Instance with_locks_proper f :
  Proper (log_equiv ==> log_equiv) (with_locks f).
Proof. intros m1 m2 (?&?&?). repeat split; cbn; congruence. Qed.
#[global] Instance with_signal_proper e :
  Proper (log_equiv ==> log_equiv) (with_signal e).
Proof. intros m1 m2 (?&?&?). repeat split; cbn; congruence. Qed.

#[global] Instance with_log_proper e :
  Proper (log_equiv ==> log_equiv) (with_log e).
Proof. intros m1 m2 (?&?&?). repeat split; cbn; congruence. Qed.

Lemma with_log_equiv e m : with_log e m ≡ₗ m.
Proof. by repeat split. Qed.

Lemma erase_log_equiv m : erase_log m ≡ₗ m.
Proof. by repeat split. Qed.

#[global] Instance refCount_proper : Proper (log_equiv ==> (=) ==> (=)) refCount.
Proof. intros m1 m2 Hm ? this ->. unfold refCount. by rewrite Hm. Qed.

(** ** Log-blind computations compose *)

Section log_blind.
Context {A B : Type}.

Lemma log_blind_ret (a : A) : log_blind (exec_ret a).
Proof. by intros m1 m2 Hm. Qed.

Lemma log_blind_interrupt i : log_blind (exec_interrupt (A:=A) i).
Proof. by intros m1 m2 Hm. Qed.

Lemma log_blind_bind (p : Call A) (k : A → Call B) :
  log_blind p → (∀ a, log_blind (k a)) → log_blind (x <- p ;; k x).
Proof.
  intros Hp Hk m1 m2 Hm. unfold exec_bind.
  destruct (Hp m1 m2 Hm) as [Hr Hs].
  destruct (p m1) as [[a1|i1] s1], (p m2) as [[a2|i2] s2]; simplify_eq/=.
  - by apply Hk.
  - by split.
Qed.

Lemma log_blind_finally (p : Call A) (c : Call unit) :
  log_blind p → log_blind c → log_blind (exec_finally p c).
Proof.
  intros Hp Hc m1 m2 Hm. unfold exec_finally.
  destruct (Hp m1 m2 Hm) as [Hr Hs].
  destruct (p m1) as [r1 s1], (p m2) as [r2 s2]; simplify_eq/=.
  destruct (Hc s1 s2 Hs) as [Hr' Hs'].
  destruct (c s1) as [[[]|i1] t1], (c s2) as [[[]|i2] t2]; simplify_eq/=; by split.
Qed.

(** A computation that inspects the machine through a log-blind function. *)
Lemma log_blind_get (f : Machine → Call A) :
  (∀ m1 m2, m1 ≡ₗ m2 → result_equiv (f m1 m1) (f m2 m2)) →
  log_blind (m <- exec_get ;; f m).
Proof. intros Hf m1 m2 Hm. by apply Hf. Qed.

Lemma log_blind_modify (f : Machine → Machine) :
  Proper (log_equiv ==> log_equiv) f → log_blind (exec_modify f).
Proof. intros Hf m1 m2 Hm. split; [done|]. by apply Hf. Qed.

End log_blind.

Create HintDb log_blind discriminated.
#[export] Hint Resolve log_blind_ret log_blind_interrupt : log_blind.

(** Decompose a computation into its primitives. *)
Ltac log_blind_solve :=
  repeat first
    [ solve [auto with log_blind nocore]
    | apply log_blind_ret | apply log_blind_interrupt
    | apply log_blind_bind; [|intros ?]
    | apply log_blind_finally
    | apply log_blind_modify; apply _
    | match goal with
      | |- log_blind (match ?x with _ => _ end) => destruct x
      | |- log_blind (if ?b then _ else _) => destruct b
      end ].

(** ** The primitives *)

Section primitives.
Implicit Types (this l : loc) (t : tid).

Lemma log_blind_deref this : log_blind (deref this).
Proof.
  apply log_blind_get. intros m1 m2 Hm. rewrite (objects_proper _ _ Hm).
  by destruct (objects m2 !! this).
Qed.
#[local] Hint Resolve log_blind_deref : log_blind.

Lemma log_blind_Lock t l : log_blind (BaseLock_call_Lock t l).
Proof.
  apply log_blind_get. intros m1 m2 Hm. rewrite (locks_proper _ _ Hm).
  destruct (locks m2 !! l) as [lk|]; [|done].
  destruct (Lock t lk); [|done]. split; [done|]. by apply with_locks_proper.
Qed.

Lemma log_blind_Unlock t l : log_blind (BaseLock_call_Unlock t l).
Proof.
  apply log_blind_get. intros m1 m2 Hm. rewrite (locks_proper _ _ Hm).
  destruct (locks m2 !! l) as [lk|]; [|done].
  destruct (Unlock t lk); [|done]. split; [done|]. by apply with_locks_proper.
Qed.

Lemma log_blind_EP_NEW_lock lk : log_blind (EP_NEW_lock lk).
Proof.
  apply log_blind_get. intros m1 m2 Hm. rewrite (locks_proper _ _ Hm).
  split; [done|]. by apply with_locks_proper.
Qed.

Lemma log_blind_EP_DELETE_lock l : log_blind (EP_DELETE_lock l).
Proof.
  apply log_blind_get. intros m1 m2 Hm. rewrite (locks_proper _ _ Hm).
  destruct (locks m2 !! l); [|done]. split; [done|]. by apply with_locks_proper.
Qed.

Lemma log_blind_operator_new raw : log_blind (operator_new raw).
Proof.
  apply log_blind_get. intros m1 m2 Hm. rewrite (objects_proper _ _ Hm).
  split; [done|]. by apply with_objects_proper.
Qed.

(** The message itself changes nothing but the log. *)
Lemma log_blind_LOG_THIS_MSG k site this : log_blind (LOG_THIS_MSG k site this).
Proof.
  unfold LOG_THIS_MSG, load_refCount. log_blind_solve.
Qed.

End primitives.

#[export] Hint Resolve log_blind_deref log_blind_Lock log_blind_Unlock
  log_blind_EP_NEW_lock log_blind_EP_DELETE_lock log_blind_operator_new
  log_blind_LOG_THIS_MSG : log_blind.

(** Unfold a method down to the primitives above. *)
Ltac log_blind_method :=
  unfold EP_NEW_SmartObject, EP_NEW_copy, SmartObject_assign,
    Retain, LockObj, Release, EP_DELETE_this, SmartObject_dtor,
    SmartObject_ctor, SmartObject_copy_ctor, switch_lockPolicy,
    refCounterLock_Lock, refCounterLock_Unlock, refCounterLock,
    refCount_incr, refCount_decr, EP_VERIFY, operator_delete, fault,
    load_refCount, store_refCount, load_refCounterLock, store_refCounterLock,
    load_lockPolicy, store_lockPolicy;
  log_blind_solve.

(** ** The methods *)

Section methods.
Context `{EM : ErrorMechanism}.

Lemma log_blind_Retain t site this : log_blind (Retain t site this).
Proof. log_blind_method. Qed.

Lemma log_blind_Release t site this : log_blind (Release t site this).
Proof. log_blind_method. Qed.

Lemma log_blind_EP_DELETE_this t this : log_blind (EP_DELETE_this t this).
Proof. log_blind_method. Qed.

Lemma log_blind_EP_NEW_SmartObject raw site p :
  log_blind (EP_NEW_SmartObject raw site p).
Proof. log_blind_method. Qed.

Lemma log_blind_EP_NEW_copy raw site b : log_blind (EP_NEW_copy raw site b).
Proof. log_blind_method. Qed.

(** Every client call ends the same way, and leaves the same objects,
    locks and signalled errors, whatever the log held. *)
Theorem perform_log_blind op : log_blind (perform op).
Proof.
  destruct op; cbn [perform]; unfold SmartObject_assign;
    first [ apply log_blind_Retain | apply log_blind_Release
          | apply log_blind_EP_DELETE_this
          | apply log_blind_bind; [|intros; apply log_blind_ret] ];
    first [ apply log_blind_EP_NEW_SmartObject | apply log_blind_EP_NEW_copy
          | apply log_blind_ret ].
Qed.

(** A sequence of client calls, run from two machines that differ only in
    their logs: the runs end the same way, with the same objects, locks and
    signalled errors. *)
Theorem perform_all_log_blind ops m1 m2 :
  m1 ≡ₗ m2 →
  (perform_all ops m1).1 = (perform_all ops m2).1 ∧
  log_equiv (perform_all ops m1).2 (perform_all ops m2).2.
Proof.
  revert m1 m2. change (log_blind (perform_all ops)).
  induction ops as [|op ops IH]; cbn [perform_all];
    auto using log_blind_ret, log_blind_bind, perform_log_blind.
Qed.

(** C34. [Retain] and then [Release] on a live object that has an owner and whose
    lock is free: both return, and the machine is what it was but for the
    two messages in the log.  At [INT_MAX] too, where the counter is
    [INT_MIN] in between. *)
Theorem Retain_Release_roundtrip t site site' this m o l lk :
  owns m this o l lk → holder lk = None → 1 ≤ m_refCount o ≤ INT_MAX →
  ∃ m', (Retain t site this ;; Release t site' this) m = (Normal tt, m') ∧
        log_equiv m' m ∧
        log m' = log m ++ [event Retained (Some site) this (int_incr (m_refCount o));
                           event Released (Some site') this (m_refCount o)].
Proof.
  intros Howns Hfree Hc. destruct (free_lockable t lk Hfree) as [lk' Hlock].
  assert (in_int (m_refCount o)) as Hint by int_solve.
  set (c1 := int_incr (m_refCount o)).
  set (m1 := with_log (event Retained (Some site) this c1)
               (with_objects <[this := set_refCount c1 o]> m)).
  assert (Retain t site this m = (Normal tt, m1)) as HR.
  { rewrite Retain_run. unfold Retain_result.
    by rewrite (owns_enter _ _ _ _ _ _ _ Howns Hlock). }
  assert (owns m1 this (set_refCount c1 o) l lk) as Howns1
    by (apply owns_with_log, (owns_with_objects _ _ o); [done | apply Howns]).
  exists (with_log (event Released (Some site') this (m_refCount o))
            (with_objects <[this := set_refCount (m_refCount o) (set_refCount c1 o)]> m1)).
  split.
  - rewrite (exec_bind_normal _ _ _ _ _ HR), Release_run. unfold Release_result.
    rewrite (owns_enter _ _ _ _ _ _ _ Howns1 Hlock). cbn [en_object].
    machine_simpl. subst c1. rewrite int_decr_incr by done.
    by rewrite !decide_False by lia.
  - subst m1. machine_simpl. split; [|by rewrite <- app_assoc].
    split_and!; [|done..]. simpl. rewrite insert_insert_eq. apply insert_id.
    destruct Howns as [-> _ _]. by destruct o.
Qed.

End methods.

Lemma Retain_Release_roundtrip_witness :
  ∃ m', (Retain 0%nat site0 1%positive ;;
         Release (EM:=Throwing) 0%nat site0 1%positive) (machine1 INT_MAX)
          = (Normal tt, m') ∧
        m' ≡ₗ machine1 INT_MAX ∧
        log m' = log (machine1 INT_MAX)
                 ++ [event Retained (Some site0) 1%positive
                       (int_incr (m_refCount (object1 INT_MAX)));
                     event Released (Some site0) 1%positive
                       (m_refCount (object1 INT_MAX))].
Proof.
  apply (Retain_Release_roundtrip (EM:=Throwing) 0%nat site0 site0 1%positive
           (machine1 INT_MAX) (object1 INT_MAX) 1%positive new_Mutex);
    [apply machine1_owns | done | done].
Defined.

Lemma perform_all_log_blind_witness :
  let ops := [OpRetain 0%nat site0 1; OpRelease 0%nat site0 1; OpRelease 0%nat site0 1] in
  let m2 := with_log (event Allocated (Some site0) 1%positive 1) (machine1 1) in
  (perform_all (EM:=Throwing) ops (machine1 1)).1 = (perform_all (EM:=Throwing) ops m2).1 ∧
  (perform_all (EM:=Throwing) ops (machine1 1)).2 ≡ₗ (perform_all (EM:=Throwing) ops m2).2.
Proof. by apply (perform_all_log_blind (EM:=Throwing)). Defined.
