(* ===== verification/Builds.v ===== *)
(** * Builds: the release build and the call-site macros

    The header holds two builds of the class.  With [_DEBUG] every method
    takes the call site, and the macros of lines 214-218 rewrite the calls
    the client writes so that they pass it.  Without [_DEBUG] the header
    only declares the methods (lines 61-90); a file that is not part of the
    sources defines them.  The same client text compiles in both builds.

    This file holds the client text ([Text]), its meaning in the debug
    build (the macros, [expand]) and in the release build ([rb_perform]), the
    interface the header declares ([ReleaseBuild], [Assignment]) with what
    the specification promises of it ([ReleaseBuildLaws],
    [AssignmentLaws]), and the bodies of the release build as the
    specification describes them: those of the debug build without the
    diagnostic statement.  What is proved of the release build is proved
    against the interface and under its laws, which are assumptions: the
    header has no body of the release build, so nothing here is a property
    of its code.  What is proved of code is about the macros and the debug
    methods: the messages of a client program carry the positions of its
    statements ([messages_stamped]). *)

From S2P Require Import Prelude Lock Diagnostic Machine SmartObject Invariant Protocol Observational.

#[local] Open Scope exec_scope.

(** ** What the header declares *)

(** [EP_LOCK_POLICY], the default argument of the constructor (lines 78 and
    133): a configuration choice made outside the header. *)
Class Configuration : Type := { EP_LOCK_POLICY : LockPolicy }.

(** [SmartObject & operator=(const SmartObject&b)] (line 58), declared in
    both builds: it takes [this] and [b] and returns a reference. *)
Class Assignment : Type := { operator_assign : loc → loc → Call loc }.

(** The methods of the build without [_DEBUG] (lines 61-90): [Retain()],
    [Release()], the two constructors and the destructor.  None takes a
    call site. *)
Class ReleaseBuild : Type := {
  rb_Retain : tid → loc → Call unit;
  rb_Release : tid → loc → Call unit;
  rb_SmartObject : loc → LockPolicy → Call unit;
  rb_SmartObject_copy : loc → loc → Call unit;
  rb_dtor : tid → loc → Call unit;
}.

(** ** Client text *)

(** The arguments of a constructor call as it is written: [SmartObject()],
    [SmartObject(lockPolicyType)], [SmartObject(b)]. *)
Inductive Args : Type :=
| NoArgs
| PolicyArg (lockPolicyType : LockPolicy)
| CopyArg (b : loc).

(** What a client writes; the same text in both builds. *)
Inductive Text : Type :=
| T_new (raw : SmartObject) (args : Args)
| T_Retain (t : tid) (this : loc)
| T_Release (t : tid) (this : loc)
| T_delete (t : tid) (this : loc)
| T_assign (this b : loc).

#[global] Instance Args_eq_dec : EqDecision Args.
Proof. solve_decision. Defined.

(** A statement of the client: its text and where it stands, which is what
    [__TFILE__], [__TFUNCTION__] and [__LINE__] expand to there. *)
Abbreviation Statement := (CallSite * Text)%type.

(** ** The debug build: the macros *)

Section macros.
Context `{CF : Configuration}.

(** [#define SmartObject(...) SmartObject(__TFILE__,__TFUNCTION__,__LINE__,__VA_ARGS__)]:
    the call site goes first and the arguments follow; the overload is
    chosen by the argument, and without one the policy is the default. *)
Definition SmartObject_macro (here : CallSite) (raw : SmartObject) (args : Args) : Op :=
  match args with
  | NoArgs => OpNew raw here EP_LOCK_POLICY
  | PolicyArg lockPolicyType => OpNew raw here lockPolicyType
  | CopyArg b => OpCopy raw here b
  end.

(** [#define Release() Release(__TFILE__,__TFUNCTION__,__LINE__)]. *)
Definition Release_macro (here : CallSite) (t : tid) (this : loc) : Op :=
  OpRelease t here this.

(** [#define Retain() Retain(__TFILE__,__TFUNCTION__,__LINE__)]. *)
Definition Retain_macro (here : CallSite) (t : tid) (this : loc) : Op :=
  OpRetain t here this.

(** The statement after the preprocessor, with [_DEBUG] defined: the three
    macros rewrite the calls they name and leave the rest. *)
Definition expand (s : Statement) : Op :=
  match s.2 with
  | T_new raw args => SmartObject_macro s.1 raw args
  | T_Retain t this => Retain_macro s.1 t this
  | T_Release t this => Release_macro s.1 t this
  | T_delete t this => OpDelete t this
  | T_assign this b => OpAssign this b
  end.

End macros.

(** ** The release build: the calls *)

Section release.
Context `{CF : Configuration} `{RB : ReleaseBuild} `{AS : Assignment}.

(** [EP_NEW T(args)] in the release build. *)
Definition rb_EP_NEW (raw : SmartObject) (args : Args) : Call loc :=
  this <- operator_new raw ;;
  match args with
  | NoArgs => rb_SmartObject this EP_LOCK_POLICY
  | PolicyArg lockPolicyType => rb_SmartObject this lockPolicyType
  | CopyArg b => rb_SmartObject_copy this b
  end ;;
  exec_ret this.

(** [EP_DELETE this] in the release build. *)
Definition rb_EP_DELETE_this (t : tid) (this : loc) : Call unit :=
  rb_dtor t this ;; operator_delete this.

(** The statement in the release build: no macro is defined and the text
    is compiled as it stands. *)
Definition rb_perform (x : Text) : Call unit :=
  match x with
  | T_new raw args => _ <- rb_EP_NEW raw args ;; exec_ret tt
  | T_Retain t this => rb_Retain t this
  | T_Release t this => rb_Release t this
  | T_delete t this => rb_EP_DELETE_this t this
  | T_assign this b => _ <- operator_assign this b ;; exec_ret tt
  end.

(** A sequence of statements, up to the first that does not return. *)
Fixpoint rb_perform_all (xs : list Text) : Call unit :=
  match xs with
  | [] => exec_ret tt
  | x :: xs => rb_perform x ;; rb_perform_all xs
  end.

End release.

(** ** What the specification promises of the declared methods *)

(** The computation with the diagnostic sink disabled: it ends as [p] does
    and leaves the objects, locks and signalled errors [p] leaves, and the
    log is what it was. *)
Definition quiet {A} (p : Call A) : Call A :=
  λ m, let r := p m in
       (r.1, {| objects := objects r.2; locks := locks r.2; log := log m;
                signalled := signalled r.2 |}).

(** [q] ends as [p] does, with the same objects, locks and signalled
    errors, from machines that differ only in their logs. *)
Definition erases {A} (p q : Call A) : Prop :=
  ∀ m1 m2, m1 ≡ₗ m2 → result_equiv (p m1) (q m2).

(** [q] writes no message. *)
Definition silent {A} (q : Call A) : Prop := ∀ m, log (q m).2 = log m.

(** The messages [p] writes are added to the log and satisfy [P]. *)
Definition writes {A} (P : LogEvent → Prop) (p : Call A) : Prop :=
  ∀ m, ∃ es, log (p m).2 = log m ++ es ∧ Forall P es.

(** A message of a call made at [here]: it carries [here], or it is the
    destructor's, which carries no call site. *)
Definition stamped (here : CallSite) (e : LogEvent) : Prop :=
  ev_site e = Some here ∨ (ev_kind e = Deleted ∧ ev_site e = None).

#[global] Instance stamped_dec here e : Decision (stamped here e).
Proof. unfold stamped. apply _. Defined.

(** [this] is alive when [p] has returned. *)
Definition alive_after {A} (this : loc) (p : Call A) : Prop :=
  ∀ m a m', p m = (Normal a, m') → is_Some (objects m' !! this).

(** The release build is the debug build with the diagnostic hook compiled
    out (sections 2 and 9 of the specification): each method is what the
    method of the debug build is, from whatever call site, without the
    message. *)
Class ReleaseBuildLaws `{EM : ErrorMechanism} (RB : ReleaseBuild) : Prop := {
  rb_Retain_quiet t site this m :
    rb_Retain t this m = quiet (Retain t site this) m;
  rb_Release_quiet t site this m :
    rb_Release t this m = quiet (Release t site this) m;
  rb_SmartObject_quiet site this p m :
    rb_SmartObject this p m = quiet (SmartObject_ctor site this p) m;
  rb_SmartObject_copy_quiet site this b m :
    rb_SmartObject_copy this b m = quiet (SmartObject_copy_ctor site this b) m;
  rb_dtor_quiet t this m :
    rb_dtor t this m = quiet (SmartObject_dtor t this) m;
}.

(** Assignment returns [*this] and changes nothing: the base class has no
    field an assignment copies (sections 3 and 4.2). *)
Class AssignmentLaws (AS : Assignment) : Prop := {
  operator_assign_returns this b m : operator_assign this b m = (Normal this, m);
}.

(** ** The bodies of the release build *)

(** The methods of the debug build without the call site and without
    [LOG_THIS_MSG]. *)
Definition SmartObject_ctor_ndebug (this : loc) (lockPolicyType : LockPolicy) :
    Call unit :=
  store_refCount this 1 ;;
  store_lockPolicy this lockPolicyType ;;
  switch_lockPolicy this lockPolicyType.

Definition SmartObject_copy_ctor_ndebug (this b : loc) : Call unit :=
  store_refCount this 1 ;;
  p <- load_lockPolicy b ;;
  store_lockPolicy this p ;;
  p' <- load_lockPolicy this ;;
  switch_lockPolicy this p'.

Definition Retain_ndebug (t : tid) (this : loc) : Call unit :=
  l <- refCounterLock this ;;
  LockObj t l (refCount_incr this).

Section ndebug.
Context `{EM : ErrorMechanism}.

Definition SmartObject_dtor_ndebug (t : tid) (this : loc) : Call unit :=
  refCounterLock_Lock t this ;;
  refCount_decr this ;;
  c <- load_refCount this ;;
  (if negb (c =? 0) then
     c' <- load_refCount this ;;
     EP_VERIFY (c' =? 0) (NonZeroCountAtDestruction c')
   else exec_ret tt) ;;
  refCounterLock_Unlock t this ;;
  p <- load_refCounterLock this ;;
  match p with
  | Some l => EP_DELETE_lock l
  | None => exec_ret tt
  end.

Definition Release_ndebug (t : tid) (this : loc) : Call unit :=
  refCounterLock_Lock t this ;;
  refCount_decr this ;;
  c <- load_refCount this ;;
  if c =? 0 then
    refCount_incr this ;;
    refCounterLock_Unlock t this ;;
    SmartObject_dtor_ndebug t this ;;
    operator_delete this
  else
    c <- load_refCount this ;;
    (if c <? 0 then
       c' <- load_refCount this ;;
       EP_VERIFY (0 <=? c') (NegativeReferenceCount c')
     else exec_ret tt) ;;
    refCounterLock_Unlock t this.

(** The release build with these bodies. *)
#[export] Instance ndebug_build : ReleaseBuild := {
  rb_Retain := Retain_ndebug;
  rb_Release := Release_ndebug;
  rb_SmartObject := SmartObject_ctor_ndebug;
  rb_SmartObject_copy := SmartObject_copy_ctor_ndebug;
  rb_dtor := SmartObject_dtor_ndebug;
}.

End ndebug.

(** [operator=] of the base class. *)
#[export] Instance base_assignment : Assignment := {
  operator_assign := SmartObject_assign;
}.

(** ** A concrete program *)

(** The default policy is the critical section. *)
Definition config0 : Configuration :=
  {| EP_LOCK_POLICY := LOCK_POLICY_CRITICALSECTION |}.

(** A position in the client's source. *)
Definition line (n : N) : CallSite :=
  {| fileName := "client.cpp"; funcName := "run"; lineNum := n |}.

(** A client that makes an object with the default policy, shares it,
    copies it, assigns the copy, and gives back every reference. *)
Definition client0 : list Statement :=
  [(line 10, T_new raw0 NoArgs); (line 11, T_Retain 0%nat 1);
   (line 12, T_new raw0 (CopyArg 1)); (line 13, T_assign 2 1);
   (line 14, T_Release 0%nat 1); (line 15, T_Release 1%nat 1);
   (line 16, T_Release 0%nat 2)].

(** ** Computations without their messages *)

Section erasure.
Context {A B : Type}.

Lemma erases_blind (p : Call A) : log_blind p → erases p p.
Proof. done. Qed.

Lemma erases_bind (p q : Call A) (k k' : A → Call B) :
  erases p q → (∀ a, erases (k a) (k' a)) → erases (x <- p ;; k x) (x <- q ;; k' x).
Proof.
  intros Hp Hk m1 m2 Hm. unfold exec_bind. destruct (Hp m1 m2 Hm) as [Hr Hs].
  destruct (p m1) as [[a1|i1] s1], (q m2) as [[a2|i2] s2]; simplify_eq/=.
  - by apply Hk.
  - by split.
Qed.

Lemma erases_finally (p q : Call A) (c : Call unit) :
  erases p q → log_blind c → erases (exec_finally p c) (exec_finally q c).
Proof.
  intros Hp Hc m1 m2 Hm. unfold exec_finally. destruct (Hp m1 m2 Hm) as [Hr Hs].
  destruct (p m1) as [r1 s1], (q m2) as [r2 s2]; simplify_eq/=.
  destruct (Hc s1 s2 Hs) as [Hr' Hs'].
  destruct (c s1) as [[[]|i1] t1], (c s2) as [[[]|i2] t2]; simplify_eq/=; by split.
Qed.

(** A message after a statement that leaves [this] alive, and what
    follows. *)
Lemma erases_log (p q : Call A) k site this (r r' : Call B) :
  erases p q → alive_after this p → erases r r' →
  erases (p ;; LOG_THIS_MSG k site this ;; r) (q ;; r').
Proof.
  intros Hp Halive Hr m1 m2 Hm. unfold exec_bind at 1 3.
  destruct (Hp m1 m2 Hm) as [Ho Hs].
  destruct (p m1) as [[a1|i1] s1] eqn:Hp1, (q m2) as [[a2|i2] s2];
    simplify_eq/=; [|by split].
  destruct (Halive _ _ _ Hp1) as [o Ho].
  unfold exec_bind. rewrite (LOG_THIS_MSG_alive _ _ _ _ _ Ho).
  apply Hr. by rewrite with_log_equiv.
Qed.

Lemma silent_ret (a : A) : silent (exec_ret a).
Proof. done. Qed.

Lemma silent_interrupt i : silent (exec_interrupt (A:=A) i).
Proof. done. Qed.

Lemma silent_bind (p : Call A) (k : A → Call B) :
  silent p → (∀ a, silent (k a)) → silent (x <- p ;; k x).
Proof.
  intros Hp Hk m. specialize (Hp m). unfold exec_bind.
  destruct (p m) as [[a|i] m1]; [|done]. simpl in Hp. by rewrite Hk.
Qed.

Lemma silent_finally (p : Call A) (c : Call unit) :
  silent p → silent c → silent (exec_finally p c).
Proof.
  intros Hp Hc m. specialize (Hp m). unfold exec_finally.
  destruct (p m) as [r m1]. specialize (Hc m1).
  destruct (c m1) as [[[]|i] m2]; simpl in *; congruence.
Qed.

(** The computation with the sink disabled is the computation, when it
    writes no message. *)
Lemma quiet_intro (p q : Call A) m :
  erases p q → silent q → q m = quiet p m.
Proof.
  intros He Hs. destruct (He m m) as [Hr (Ho & Hl & Hg)]; [done|].
  specialize (Hs m). unfold quiet. destruct (q m) as [r [o l g s]], (p m) as [r' m'].
  simpl in *. by subst.
Qed.

Lemma quiet_erases (p : Call A) : log_blind p → erases p (quiet p).
Proof. intros Hp m1 m2 Hm. destruct (Hp m1 m2 Hm) as [Hr (?&?&?)]. by repeat split. Qed.

Lemma quiet_silent (p : Call A) : silent (quiet p).
Proof. done. Qed.

(** A computation equal to one of these at every machine. *)
Lemma erases_ext (p q q' : Call A) : (∀ m, q' m = q m) → erases p q → erases p q'.
Proof. intros Hq He m1 m2 Hm. rewrite Hq. by apply He. Qed.

Lemma silent_ext (q q' : Call A) : (∀ m, q' m = q m) → silent q → silent q'.
Proof. intros Hq Hs m. rewrite Hq. apply Hs. Qed.

Lemma writes_silent P (p : Call A) : silent p → writes P p.
Proof. intros Hp m. exists []. by rewrite Hp, app_nil_r. Qed.

Lemma writes_bind P (p : Call A) (k : A → Call B) :
  writes P p → (∀ a, writes P (k a)) → writes P (x <- p ;; k x).
Proof.
  intros Hp Hk m. destruct (Hp m) as (es & Hes & HP). unfold exec_bind.
  destruct (p m) as [[a|i] m1]; [|by exists es]. simpl in Hes.
  destruct (Hk a m1) as (es' & Hes' & HP'). exists (es ++ es').
  split; [by rewrite Hes', Hes, (assoc_L (++)) | by apply Forall_app].
Qed.

Lemma writes_finally P (p : Call A) (c : Call unit) :
  writes P p → silent c → writes P (exec_finally p c).
Proof.
  intros Hp Hc m. destruct (Hp m) as (es & Hes & HP). unfold exec_finally.
  destruct (p m) as [r m1]. specialize (Hc m1). exists es.
  destruct (c m1) as [[[]|i] m2]; simpl in *; split; congruence || done.
Qed.

Lemma writes_weaken (P Q : LogEvent → Prop) (p : Call A) :
  (∀ e, P e → Q e) → writes P p → writes Q p.
Proof.
  intros HPQ Hp m. destruct (Hp m) as (es & Hes & HP). exists es.
  split; [done | by eapply Forall_impl].
Qed.

End erasure.

(** A message that ends a block. *)
Lemma erases_log_last (p q : Call unit) k site this :
  erases p q → alive_after this p → erases (p ;; LOG_THIS_MSG k site this) q.
Proof.
  intros Hp Halive m1 m2 Hm. unfold exec_bind. destruct (Hp m1 m2 Hm) as [Ho Hs].
  destruct (p m1) as [[[]|i1] s1] eqn:Hp1, (q m2) as [[[]|i2] s2];
    simplify_eq/=; [|by split].
  destruct (Halive _ _ _ Hp1) as [o Ho]. rewrite (LOG_THIS_MSG_alive _ _ _ _ _ Ho).
  split; [done|]. by rewrite with_log_equiv.
Qed.

Create HintDb silent discriminated.
Create HintDb erases discriminated.
#[export] Hint Resolve silent_ret silent_interrupt quiet_silent : silent.

(** Decompose a computation into its primitives. *)
Ltac silent_solve :=
  repeat match goal with
    | |- silent (exec_bind _ _) => apply silent_bind; [|intros ?]
    | |- silent (exec_finally _ _) => apply silent_finally
    | |- silent (match ?x with _ => _ end) => destruct x
    | |- silent (if ?b then _ else _) => destruct b
    | |- silent _ => solve [auto with silent nocore]
    end.

(** ** The primitives write no message *)

Section primitives.
Context `{EM : ErrorMechanism}.

(** A primitive is a look at the machine and an update of the objects, the
    locks or the signalled errors. *)
Ltac silent_primitive :=
  intros m; cbv [exec_bind exec_get exec_modify exec_ret exec_interrupt fault];
  repeat case_match; simplify_eq/=; done.

Lemma silent_deref this : silent (deref this).
Proof. unfold deref. silent_primitive. Qed.

Lemma silent_store_refCount this c : silent (store_refCount this c).
Proof. unfold store_refCount, deref. silent_primitive. Qed.

Lemma silent_store_refCounterLock this p : silent (store_refCounterLock this p).
Proof. unfold store_refCounterLock, deref. silent_primitive. Qed.

Lemma silent_store_lockPolicy this p : silent (store_lockPolicy this p).
Proof. unfold store_lockPolicy, deref. silent_primitive. Qed.

Lemma silent_Lock t l : silent (BaseLock_call_Lock t l).
Proof. unfold BaseLock_call_Lock. silent_primitive. Qed.

Lemma silent_Unlock t l : silent (BaseLock_call_Unlock t l).
Proof. unfold BaseLock_call_Unlock. silent_primitive. Qed.

Lemma silent_EP_VERIFY cond e : silent (EP_VERIFY cond e).
Proof. unfold EP_VERIFY. silent_primitive. Qed.

Lemma silent_EP_NEW_lock lk : silent (EP_NEW_lock lk).
Proof. unfold EP_NEW_lock. silent_primitive. Qed.

Lemma silent_EP_DELETE_lock l : silent (EP_DELETE_lock l).
Proof. unfold EP_DELETE_lock. silent_primitive. Qed.

Lemma silent_operator_new raw : silent (operator_new raw).
Proof. unfold operator_new. silent_primitive. Qed.

Lemma silent_operator_delete this : silent (operator_delete this).
Proof. unfold operator_delete, deref. silent_primitive. Qed.

(** The one primitive that writes: its message has the kind and the call
    site it is given, and is about [this]. *)
Lemma writes_LOG_THIS_MSG k site this :
  writes (λ e, ev_kind e = k ∧ ev_site e = site ∧ ev_this e = this)
    (LOG_THIS_MSG k site this).
Proof.
  intros m. unfold LOG_THIS_MSG, load_refCount, deref, exec_bind, exec_get.
  destruct (objects m !! this); [|by exists []; rewrite app_nil_r].
  eexists [_]. split; [done|]. by repeat constructor.
Qed.

Lemma alive_after_store_refCount this c : alive_after this (store_refCount this c).
Proof.
  intros m a m'. unfold store_refCount, deref, exec_bind, exec_get.
  destruct (objects m !! this); [|done]. intros [= _ <-]. simpl.
  by rewrite lookup_insert_eq.
Qed.

Lemma alive_after_bind {A B} this (p : Call A) (k : A → Call B) :
  (∀ a, alive_after this (k a)) → alive_after this (x <- p ;; k x).
Proof.
  intros Hk m b m'. unfold exec_bind. destruct (p m) as [[a|i] m1]; [|done].
  apply Hk.
Qed.

Lemma alive_after_refCount_incr this : alive_after this (refCount_incr this).
Proof. apply alive_after_bind. intros c. apply alive_after_store_refCount. Qed.

Lemma alive_after_refCount_decr this : alive_after this (refCount_decr this).
Proof. apply alive_after_bind. intros c. apply alive_after_store_refCount. Qed.

End primitives.

#[export] Hint Resolve silent_deref silent_store_refCount
  silent_store_refCounterLock silent_store_lockPolicy silent_Lock silent_Unlock
  silent_EP_VERIFY silent_EP_NEW_lock silent_EP_DELETE_lock silent_operator_new
  silent_operator_delete : silent.

#[export] Hint Resolve alive_after_store_refCount alive_after_refCount_incr
  alive_after_refCount_decr : silent.

(** Unfold a method of the release build down to the primitives. *)
Ltac silent_method :=
  unfold Retain_ndebug, Release_ndebug, SmartObject_dtor_ndebug,
    SmartObject_ctor_ndebug, SmartObject_copy_ctor_ndebug, LockObj,
    switch_lockPolicy, refCounterLock_Lock, refCounterLock_Unlock,
    refCounterLock, refCount_incr, refCount_decr, load_refCount,
    load_refCounterLock, load_lockPolicy, fault;
  silent_solve.

(** Match a method of the debug build with the one of the release build,
    statement by statement; the message goes with the write before it. *)
Ltac erases_solve :=
  repeat first
    [ apply erases_blind; solve [log_blind_method]
    | apply erases_log; [| solve [auto with silent nocore] |]
    | apply erases_log_last; [| solve [auto with silent nocore]]
    | apply erases_bind; [|intros ?]
    | apply erases_finally; [|solve [log_blind_method]]
    | match goal with
      | |- erases (match ?x with _ => _ end) _ => destruct x
      | |- erases (if ?b then _ else _) _ => destruct b
      end ].

Ltac erases_method :=
  unfold Retain, Release, EP_DELETE_this, SmartObject_dtor, SmartObject_ctor,
    SmartObject_copy_ctor, Retain_ndebug, Release_ndebug,
    SmartObject_dtor_ndebug, SmartObject_ctor_ndebug,
    SmartObject_copy_ctor_ndebug, LockObj;
  erases_solve.

(** ** The bodies of the release build keep the promise *)

Section bodies.
Context `{EM : ErrorMechanism}.

(** The bodies are the methods of the debug build without their message:
    each ends as the debug method does from whatever call site, leaves the
    objects, the locks and the signalled errors it leaves, and writes no
    message.  They show that the laws can be kept; nothing here is a
    statement about the file that defines the release build. *)
Lemma Retain_ndebug_erases t site this :
  erases (Retain t site this) (Retain_ndebug t this).
Proof. erases_method. Qed.

Lemma Release_ndebug_erases t site this :
  erases (Release t site this) (Release_ndebug t this).
Proof. erases_method. Qed.

Lemma SmartObject_dtor_ndebug_erases t this :
  erases (SmartObject_dtor t this) (SmartObject_dtor_ndebug t this).
Proof. erases_method. Qed.

Lemma SmartObject_ctor_ndebug_erases site this p :
  erases (SmartObject_ctor site this p) (SmartObject_ctor_ndebug this p).
Proof. erases_method. Qed.

Lemma SmartObject_copy_ctor_ndebug_erases site this b :
  erases (SmartObject_copy_ctor site this b) (SmartObject_copy_ctor_ndebug this b).
Proof. erases_method. Qed.

Lemma silent_Retain_ndebug t this : silent (Retain_ndebug t this).
Proof. silent_method. Qed.

Lemma silent_SmartObject_dtor_ndebug t this : silent (SmartObject_dtor_ndebug t this).
Proof. silent_method. Qed.

Lemma silent_Release_ndebug t this : silent (Release_ndebug t this).
Proof. silent_method. Qed.

Lemma silent_SmartObject_ctor_ndebug this p : silent (SmartObject_ctor_ndebug this p).
Proof. silent_method. Qed.

Lemma silent_SmartObject_copy_ctor_ndebug this b :
  silent (SmartObject_copy_ctor_ndebug this b).
Proof. silent_method. Qed.

End bodies.

(** ** The messages of the debug build *)

(** Decompose a method of the debug build: the messages come from
    [LOG_THIS_MSG], everything else is silent. *)
Ltac writes_solve :=
  repeat match goal with
    | |- writes _ (exec_bind _ _) => apply writes_bind; [|intros ?]
    | |- writes _ (exec_finally _ _) => apply writes_finally; [|silent_solve]
    | |- writes _ (match ?x with _ => _ end) => destruct x
    | |- writes _ (if ?b then _ else _) => destruct b
    | |- writes _ (LOG_THIS_MSG _ _ _) =>
        eapply writes_weaken; [|apply writes_LOG_THIS_MSG];
        intros ? (? & ? & ?); unfold stamped; by auto
    | |- writes _ _ => apply writes_silent; silent_solve
    end.

Ltac writes_method :=
  unfold EP_NEW_SmartObject, EP_NEW_copy, SmartObject_assign, Retain, Release,
    EP_DELETE_this, SmartObject_dtor, SmartObject_ctor, SmartObject_copy_ctor,
    LockObj, switch_lockPolicy, refCounterLock_Lock, refCounterLock_Unlock,
    refCounterLock, refCount_incr, refCount_decr, load_refCount,
    load_refCounterLock, load_lockPolicy, fault;
  writes_solve.

Section messages.
Context `{EM : ErrorMechanism} `{CF : Configuration}.

(** The messages of a call carry the call site it was given; the
    destructor's carries none. *)
Lemma writes_perform op site :
  match op with
  | OpNew _ s _ | OpCopy _ s _ | OpRetain _ s _ | OpRelease _ s _ => s = site
  | OpDelete _ _ | OpAssign _ _ => True
  end → writes (stamped site) (perform op).
Proof. destruct op; cbn [perform]; intros Hs; subst; writes_method. Qed.

(** The messages of a statement carry its position. *)
Lemma writes_expand here x : writes (stamped here) (perform (expand (here, x))).
Proof. apply writes_perform. by destruct x as [raw [| |]| | | |]. Qed.

(** The messages of a client program in the debug build are added to the
    log, and each carries the position of a statement of the program, put
    there by the macros, or is the message of a destructor, which carries
    none. *)
Theorem messages_stamped program :
  writes (λ e, ∃ here, here ∈ program.*1 ∧ stamped here e)
    (perform_all (expand <$> program)).
Proof.
  induction program as [|[here x] program IH]; cbn [fmap list_fmap perform_all].
  - by apply writes_silent.
  - apply writes_bind; [|intros _].
    + eapply writes_weaken; [|apply writes_expand].
      intros e He. exists here. split; [apply list_elem_of_here | done].
    + eapply writes_weaken; [|apply IH].
      intros e (s & Hs & He). exists s. split; [by apply list_elem_of_further | done].
Qed.

End messages.

(** The bodies are a lawful release build. *)
#[export] Instance ndebug_laws `{EM : ErrorMechanism} : ReleaseBuildLaws ndebug_build.
Proof.
  split; intros; apply quiet_intro; cbn;
    auto using Retain_ndebug_erases, Release_ndebug_erases,
      SmartObject_dtor_ndebug_erases, SmartObject_ctor_ndebug_erases,
      SmartObject_copy_ctor_ndebug_erases, silent_Retain_ndebug,
      silent_Release_ndebug, silent_SmartObject_dtor_ndebug,
      silent_SmartObject_ctor_ndebug, silent_SmartObject_copy_ctor_ndebug.
Qed.

#[export] Instance base_assignment_laws : AssignmentLaws base_assignment.
Proof. by split. Qed.

(** ** Client programs, against the interface *)

(** Machines that differ in their logs stand for the same protocol state. *)
Lemma sim_log_equiv m1 m2 a : m1 ≡ₗ m2 → sim m1 a → sim m2 a.
Proof.
  intros (Ho & Hl & _) [[Hobj Hun Hown] [Hfree Hlocks] Habs Hc].
  destruct m1, m2; simpl in *; subst.
  split; [split|split|..]; first [assumption | reflexivity].
Qed.

Section client.
Context `{EM : ErrorMechanism} `{CF : Configuration}.
Context (RB : ReleaseBuild) (AS : Assignment).
Context `{!ReleaseBuildLaws RB} `{!AssignmentLaws AS}.

(** What the laws say of each method, as a relation and as silence. *)
Lemma rb_Retain_erases t site this : erases (Retain t site this) (rb_Retain t this).
Proof.
  eapply erases_ext; [intros m; apply rb_Retain_quiet|].
  apply quiet_erases, log_blind_Retain.
Qed.

Lemma rb_Release_erases t site this : erases (Release t site this) (rb_Release t this).
Proof.
  eapply erases_ext; [intros m; apply rb_Release_quiet|].
  apply quiet_erases, log_blind_Release.
Qed.

Lemma rb_SmartObject_erases site this p :
  erases (SmartObject_ctor site this p) (rb_SmartObject this p).
Proof.
  eapply erases_ext; [intros m; apply rb_SmartObject_quiet|].
  apply quiet_erases. log_blind_method.
Qed.

Lemma rb_SmartObject_copy_erases site this b :
  erases (SmartObject_copy_ctor site this b) (rb_SmartObject_copy this b).
Proof.
  eapply erases_ext; [intros m; apply rb_SmartObject_copy_quiet|].
  apply quiet_erases. log_blind_method.
Qed.

Lemma rb_dtor_erases t this : erases (SmartObject_dtor t this) (rb_dtor t this).
Proof.
  eapply erases_ext; [intros m; apply rb_dtor_quiet|].
  apply quiet_erases. log_blind_method.
Qed.

Lemma silent_rb_Retain t this : silent (rb_Retain t this).
Proof. eapply silent_ext; [apply (rb_Retain_quiet t site0)|apply quiet_silent]. Qed.

Lemma silent_rb_Release t this : silent (rb_Release t this).
Proof. eapply silent_ext; [apply (rb_Release_quiet t site0)|apply quiet_silent]. Qed.

Lemma silent_rb_SmartObject this p : silent (rb_SmartObject this p).
Proof. eapply silent_ext; [apply (rb_SmartObject_quiet site0)|apply quiet_silent]. Qed.

Lemma silent_rb_SmartObject_copy this b : silent (rb_SmartObject_copy this b).
Proof.
  eapply silent_ext; [apply (rb_SmartObject_copy_quiet site0)|apply quiet_silent].
Qed.

Lemma silent_rb_dtor t this : silent (rb_dtor t this).
Proof. eapply silent_ext; [apply rb_dtor_quiet|apply quiet_silent]. Qed.

Lemma operator_assign_erases this b :
  erases (SmartObject_assign this b) (operator_assign this b).
Proof. intros m1 m2 Hm. by rewrite operator_assign_returns. Qed.

Lemma silent_operator_assign this b : silent (operator_assign this b).
Proof. intros m. by rewrite operator_assign_returns. Qed.

#[local] Hint Resolve rb_Retain_erases rb_Release_erases rb_SmartObject_erases
  rb_SmartObject_copy_erases rb_dtor_erases operator_assign_erases : erases.
#[local] Hint Resolve silent_rb_Retain silent_rb_Release silent_rb_SmartObject
  silent_rb_SmartObject_copy silent_rb_dtor silent_operator_assign : silent.

(** One statement: the release build does what the expansion of the
    statement does in the debug build, wherever the statement stands. *)
Lemma rb_perform_erases here x : erases (perform (expand (here, x))) (rb_perform x).
Proof.
  destruct x as [raw [| |]| | | |]; cbn [expand perform rb_perform fst snd];
    unfold SmartObject_macro, Retain_macro, Release_macro; cbn [perform];
    unfold EP_NEW_SmartObject, EP_NEW_copy, rb_EP_NEW, EP_DELETE_this,
      rb_EP_DELETE_this;
    repeat first
      [ solve [auto with erases nocore]
      | apply erases_blind; solve [log_blind_method]
      | apply erases_bind; [|intros ?] ].
Qed.

Lemma silent_rb_perform x : silent (rb_perform x).
Proof.
  destruct x as [raw [| |]| | | |]; cbn [rb_perform];
    unfold rb_EP_NEW, rb_EP_DELETE_this; silent_solve.
Qed.

Lemma rb_perform_all_erases program :
  erases (perform_all (expand <$> program)) (rb_perform_all program.*2).
Proof.
  induction program as [|[here x] program IH];
    cbn [fmap list_fmap perform_all rb_perform_all].
  - by apply erases_blind, log_blind_ret.
  - apply erases_bind; [apply rb_perform_erases | done].
Qed.

Lemma silent_rb_perform_all xs : silent (rb_perform_all xs).
Proof.
  induction xs as [|x xs IH]; cbn [rb_perform_all]; [done|].
  apply silent_bind; [apply silent_rb_perform | done].
Qed.

Lemma rb_perform_all_quiet program m :
  rb_perform_all program.*2 m = quiet (perform_all (expand <$> program)) m.
Proof.
  apply quiet_intro; [apply rb_perform_all_erases | apply silent_rb_perform_all].
Qed.

(** The release build refines the protocol: a client program that follows
    the protocol from the start is performed by any lawful release build to
    its end, without fault, block or misuse report, the objects alive at
    the end are those of the protocol with its counts, and no message is
    written. *)
Theorem release_refinement program a :
  psteps (expand <$> program) ∅ a →
  ∃ m, rb_perform_all program.*2 empty_machine = (Normal tt, m) ∧
       sim m a ∧ signalled m = [] ∧ log m = [].
Proof.
  intros Hsteps.
  destruct (simulation _ empty_machine ∅ a sim_empty Hsteps) as (m & Hrun & Hsim & Hs).
  rewrite rb_perform_all_quiet. unfold quiet. rewrite Hrun. simpl.
  eexists. split; [done|]. split; [|done]. eapply sim_log_equiv; [|done].
  by repeat split.
Qed.

End client.

(** The log of the client in the debug build: one message per call with
    the line of the call, and the destructor's message after the last
    [Release] of each object. *)
Example client0_log :
  ev_site <$> log (perform_all (EM:=Throwing) (expand (CF:=config0) <$> client0)
                     empty_machine).2
  = [Some (line 10); Some (line 11); Some (line 12); Some (line 14);
     Some (line 15); None; Some (line 16); None].
Proof. by vm_compute. Qed.

Lemma release_refinement_witness :
  ∃ m, rb_perform_all (CF:=config0) (RB:=ndebug_build (EM:=Throwing))
         client0.*2 empty_machine = (Normal tt, m) ∧
       sim m ∅ ∧ signalled m = [] ∧ log m = [].
Proof.
  apply (release_refinement (EM:=Throwing) (CF:=config0)
           (ndebug_build (EM:=Throwing)) base_assignment client0 ∅).
  apply psteps_fun_sound. by vm_compute.
Defined.
