(* ===== verification/Concurrent.v ===== *)
(** * Concurrent: calls by several threads, statement by statement

    In [SmartObject] a call runs from its first statement to its last.  Here
    a call is a [Frame]: the line of epSmartObject.h the thread executes
    next, with the values it holds; [fstep] executes that line with the
    primitives of [Machine], the same ones the methods are made of, and
    gives the next frame.  [m_refCount++] and [m_refCount--] are two steps
    each, a read and a write, so that an update lost between them can be
    seen; every other statement is one step.

    A [Thread] is a frame and the calls still to make; a [Conc] is the
    machine and the pool of threads; [cstep] lets one thread take one step.
    A thread whose [Lock] cannot proceed is not enabled; a thread whose step
    faults or unwinds is stopped where it is, with what it holds. *)

From S2P Require Import Prelude Lock Diagnostic Machine SmartObject.

#[local] Open Scope exec_scope.

(** ** Frames *)

(** One constructor per statement; the number is the line of the header.  A
    [w] marks the write of an increment or decrement whose read was the
    step before. *)
Inductive Frame : Type :=
| Retain_97 (site : CallSite) (this : loc)
| Retain_98 (site : CallSite) (this l : loc)
| Retain_98w (site : CallSite) (this l : loc) (c : Z)
| Retain_99 (site : CallSite) (this l : loc)
| Retain_100 (l : loc)
| Release_108 (site : CallSite) (this : loc)
| Release_109 (site : CallSite) (this : loc)
| Release_109w (site : CallSite) (this : loc) (c : Z)
| Release_110 (site : CallSite) (this : loc)
| Release_111 (this : loc)
| Release_113 (this : loc)
| Release_113w (this : loc) (c : Z)
| Release_114 (this : loc)
| Release_118 (this : loc)
| Release_122 (this : loc)
| Release_124 (this : loc)
| Dtor_186 (this : loc)
| Dtor_187 (this : loc)
| Dtor_187w (this : loc) (c : Z)
| Dtor_188 (this : loc)
| Dtor_189 (this : loc)
| Dtor_193 (this : loc)
| Dtor_195 (this : loc)
| Dtor_196 (this : loc)
| Dtor_198 (this l : loc)
| Delete_115 (this : loc)
| Returned
| Stopped (i : Interruption).

#[global] Instance Frame_eq_dec : EqDecision Frame.
Proof. solve_decision. Defined.

(** The calls threads make on shared objects. *)
Inductive Invocation : Type :=
| Inv_Retain (site : CallSite) (this : loc)
| Inv_Release (site : CallSite) (this : loc)
| Inv_Delete (this : loc).

#[global] Instance Invocation_eq_dec : EqDecision Invocation.
Proof. solve_decision. Defined.

(** The first statement of a call. *)
Definition entry (i : Invocation) : Frame :=
  match i with
  | Inv_Retain site this => Retain_97 site this
  | Inv_Release site this => Release_108 site this
  | Inv_Delete this => Dtor_186 this
  end.

(** The call as the client of [SmartObject] writes it. *)
Definition as_op (t : tid) (i : Invocation) : Op :=
  match i with
  | Inv_Retain site this => OpRetain t site this
  | Inv_Release site this => OpRelease t site this
  | Inv_Delete this => OpDelete t this
  end.

Section steps.
Context `{EM : ErrorMechanism}.

(** One statement of [Retain]. *)
Definition Retain_step (t : tid) (f : Frame) : Call Frame :=
  match f with
  | Retain_97 site this =>
      l <- refCounterLock this ;; BaseLock_call_Lock t l ;;
      exec_ret (Retain_98 site this l)
  | Retain_98 site this l =>
      c <- load_refCount this ;; exec_ret (Retain_98w site this l c)
  | Retain_98w site this l c =>
      store_refCount this (int_incr c) ;; exec_ret (Retain_99 site this l)
  | Retain_99 site this l =>
      LOG_THIS_MSG Retained (Some site) this ;; exec_ret (Retain_100 l)
  | Retain_100 l =>
      BaseLock_call_Unlock t l ;; exec_ret Returned
  | _ => exec_ret f
  end.

(** One statement of [Release]; [EP_DELETE this] is the destructor, then
    the storage is given back. *)
Definition Release_step (t : tid) (f : Frame) : Call Frame :=
  match f with
  | Release_108 site this =>
      refCounterLock_Lock t this ;; exec_ret (Release_109 site this)
  | Release_109 site this =>
      c <- load_refCount this ;; exec_ret (Release_109w site this c)
  | Release_109w site this c =>
      store_refCount this (int_decr c) ;; exec_ret (Release_110 site this)
  | Release_110 site this =>
      LOG_THIS_MSG Released (Some site) this ;; exec_ret (Release_111 this)
  | Release_111 this =>
      c <- load_refCount this ;;
      exec_ret (if c =? 0 then Release_113 this else Release_118 this)
  | Release_113 this =>
      c <- load_refCount this ;; exec_ret (Release_113w this c)
  | Release_113w this c =>
      store_refCount this (int_incr c) ;; exec_ret (Release_114 this)
  | Release_114 this =>
      refCounterLock_Unlock t this ;; exec_ret (Dtor_186 this)
  | Delete_115 this =>
      operator_delete this ;; exec_ret Returned
  | Release_118 this =>
      c <- load_refCount this ;;
      exec_ret (if c <? 0 then Release_122 this else Release_124 this)
  | Release_122 this =>
      c' <- load_refCount this ;;
      EP_VERIFY (0 <=? c') (NegativeReferenceCount c') ;;
      exec_ret (Release_124 this)
  | Release_124 this =>
      refCounterLock_Unlock t this ;; exec_ret Returned
  | _ => exec_ret f
  end.

(** One statement of the destructor; after the last one the caller goes
    on with [operator delete]. *)
Definition dtor_step (t : tid) (f : Frame) : Call Frame :=
  match f with
  | Dtor_186 this =>
      refCounterLock_Lock t this ;; exec_ret (Dtor_187 this)
  | Dtor_187 this =>
      c <- load_refCount this ;; exec_ret (Dtor_187w this c)
  | Dtor_187w this c =>
      store_refCount this (int_decr c) ;; exec_ret (Dtor_188 this)
  | Dtor_188 this =>
      LOG_THIS_MSG Deleted None this ;; exec_ret (Dtor_189 this)
  | Dtor_189 this =>
      c <- load_refCount this ;;
      exec_ret (if negb (c =? 0) then Dtor_193 this else Dtor_195 this)
  | Dtor_193 this =>
      c' <- load_refCount this ;;
      EP_VERIFY (c' =? 0) (NonZeroCountAtDestruction c') ;;
      exec_ret (Dtor_195 this)
  | Dtor_195 this =>
      refCounterLock_Unlock t this ;; exec_ret (Dtor_196 this)
  | Dtor_196 this =>
      p <- load_refCounterLock this ;;
      exec_ret (match p with Some l => Dtor_198 this l | None => Delete_115 this end)
  | Dtor_198 this l =>
      EP_DELETE_lock l ;; exec_ret (Delete_115 this)
  | _ => exec_ret f
  end.

(** One statement of thread [t]: that of the method its frame is in. *)
Definition fstep (t : tid) (f : Frame) : Call Frame :=
  match f with
  | Retain_97 _ _ | Retain_98 _ _ _ | Retain_98w _ _ _ _ | Retain_99 _ _ _
  | Retain_100 _ => Retain_step t f
  | Release_108 _ _ | Release_109 _ _ | Release_109w _ _ _ | Release_110 _ _
  | Release_111 _ | Release_113 _ | Release_113w _ _ | Release_114 _
  | Release_118 _ | Release_122 _ | Release_124 _ | Delete_115 _ =>
      Release_step t f
  | Dtor_186 _ | Dtor_187 _ | Dtor_187w _ _ | Dtor_188 _ | Dtor_189 _
  | Dtor_193 _ | Dtor_195 _ | Dtor_196 _ | Dtor_198 _ _ => dtor_step t f
  | Returned | Stopped _ => exec_ret f
  end.

(** The statements a call has left at most. *)
Definition remaining (f : Frame) : nat :=
  match f with
  | Retain_97 _ _ => 5 | Retain_98 _ _ _ => 4 | Retain_98w _ _ _ _ => 3
  | Retain_99 _ _ _ => 2 | Retain_100 _ => 1
  | Release_108 _ _ => 18 | Release_109 _ _ => 17 | Release_109w _ _ _ => 16
  | Release_110 _ _ => 15 | Release_111 _ => 14
  | Release_113 _ => 13 | Release_113w _ _ => 12 | Release_114 _ => 11
  | Release_118 _ => 3 | Release_122 _ => 2 | Release_124 _ => 1
  | Dtor_186 _ => 10 | Dtor_187 _ => 9 | Dtor_187w _ _ => 8 | Dtor_188 _ => 7
  | Dtor_189 _ => 6 | Dtor_193 _ => 5 | Dtor_195 _ => 4 | Dtor_196 _ => 3
  | Dtor_198 _ _ => 2 | Delete_115 _ => 1
  | Returned => 0 | Stopped _ => 0
  end.

(** A frame with nothing left to execute. *)
Definition is_final (f : Frame) : bool :=
  match f with Returned | Stopped _ => true | _ => false end.

(** The object whose lock the statement takes. *)
Definition locks_at (f : Frame) : option loc :=
  match f with
  | Retain_97 _ this | Release_108 _ this | Dtor_186 this => Some this
  | _ => None
  end.

(** A call run by its thread alone, statement after statement. *)
Fixpoint run_alone (fuel : nat) (t : tid) (f : Frame) : Call unit :=
  match fuel with
  | O => exec_ret tt
  | S fuel =>
      match f with
      | Returned | Stopped _ => exec_ret tt
      | _ => f' <- fstep t f ;; run_alone fuel t f'
      end
  end.

End steps.

(** ** Threads and the pool *)

(** A thread: the call it is in, and the calls it still has to make. *)
Record Thread : Type := { frame : Frame; todo : list Invocation }.

#[global] Instance Thread_eq_dec : EqDecision Thread.
Proof. solve_decision. Defined.

(** A thread that has not started yet. *)
Definition thread_of (calls : list Invocation) : Thread :=
  {| frame := Returned; todo := calls |}.

(** The thread has nothing left to do: it returned from its last call, or
    it was stopped by a fault or an exception nobody catches. *)
Definition finished (th : Thread) : bool :=
  match frame th, todo th with
  | Returned, [] => true
  | Stopped _, _ => true
  | _, _ => false
  end.

(** The machine and the threads; a thread's id is its index. *)
Record Conc : Type := { mem : Machine; pool : list Thread }.

Section pool.
Context `{EM : ErrorMechanism}.

(** What thread [t] does next: between two calls it makes the next call,
    inside a call it executes the statement of its frame. *)
Definition tstep (t : tid) (th : Thread) : Call Thread :=
  match frame th, todo th with
  | Returned, i :: rest => exec_ret {| frame := entry i; todo := rest |}
  | f, rest => f' <- fstep t f ;; exec_ret {| frame := f'; todo := rest |}
  end.

(** One step of thread [t], when it is enabled: a thread that is finished
    or whose [Lock] cannot proceed is not; a fault or an exception stops the
    thread where it is, with what it holds. *)
Definition cstep_fun (t : tid) (c : Conc) : option Conc :=
  th ← pool c !! t;
  if finished th then None
  else
    match tstep t th (mem c) with
    | (Normal th', m') => Some {| mem := m'; pool := <[t := th']> (pool c) |}
    | (Interrupt (Blocked _), _) => None
    | (Interrupt i, m') =>
        Some {| mem := m';
                pool := <[t := {| frame := Stopped i; todo := todo th |}]> (pool c) |}
    end.

(** The pool takes a step when one of its threads does. *)
Inductive cstep : Conc → Conc → Prop :=
| cstep_thread t c c' : cstep_fun t c = Some c' → cstep c c'.

(** A schedule names the thread that runs at each step; a thread that is
    not enabled when it is named loses its turn. *)
Fixpoint run_schedule (s : list tid) (c : Conc) : Conc :=
  match s with
  | [] => c
  | t :: s => run_schedule s (default c (cstep_fun t c))
  end.

(** No thread of the pool is enabled. *)
Definition stuck (c : Conc) : bool :=
  bool_decide (Forall (λ t, cstep_fun t c = None) (seq 0 (length (pool c)))).

(** The statements a thread has left at most, calls included. *)
Definition work (th : Thread) : nat :=
  remaining (frame th) + sum_list_with (λ i, S (remaining (entry i))) (todo th).

Definition total_work (c : Conc) : nat := sum_list_with work (pool c).

End pool.

(** The pool before any thread has run. *)
Definition start (m : Machine) (programs : list (list Invocation)) : Conc :=
  {| mem := m; pool := thread_of <$> programs |}.

(** ** A concrete pool *)

(** One [Retain] immediately followed by one [Release], on the object of
    [machine1]. *)
Definition retain_release : list Invocation :=
  [Inv_Retain site0 1%positive; Inv_Release site0 1%positive].

(** [n] threads that do so, on the object with one owner. *)
Definition pool_of (n : nat) : Conc :=
  start (machine1 1) (replicate n retain_release).

(** Each of [n] threads in turn, [k] times over. *)
Definition round_robin (n k : nat) : list tid := mjoin (replicate k (seq 0 n)).

(** The state of [n] such threads after schedule [s], with the throwing
    verification. *)
Definition pool_after (n : nat) (s : list tid) : Conc :=
  run_schedule (EM:=Throwing) s (pool_of n).

(** A thread that has read the counter in its [Retain]. *)
Definition thread_98w : Thread :=
  {| frame := Retain_98w site0 1%positive 1%positive 1;
     todo := [Inv_Release site0 1%positive] |}.

(** ** A call alone is the method

    A call whose statements run without another thread in between is the
    method of [SmartObject], outcome and machine, on every branch;
    [remaining] statements are enough.  The files on pools use this to go
    from the steps of a thread to the calls it has made. *)

Section alone.
Context `{EM : ErrorMechanism}.

Lemma run_alone_step fuel t f f' m m' :
  fstep t f m = (Normal f', m') → is_final f = false →
  run_alone (S fuel) t f m = run_alone fuel t f' m'.
Proof. intros H Hf. destruct f; try done; cbn [run_alone]; by erewrite exec_bind_normal. Qed.

Lemma run_alone_stop fuel t f i m m' :
  fstep t f m = (Interrupt i, m') → run_alone (S fuel) t f m = (Interrupt i, m').
Proof. intros H. destruct f; try done; cbn [run_alone]; by erewrite exec_bind_interrupt. Qed.

Lemma run_alone_final fuel t f m :
  is_final f = true → run_alone fuel t f m = (Normal tt, m).
Proof. by destruct fuel, f. Qed.

(** The statement of a frame, executed. *)
Ltac fstep_run := cbn [fstep Retain_step Release_step dtor_step]; exec_steps; reflexivity.

(** Decide the next frame where it depends on a pointer that was read. *)
Ltac frame_simpl :=
  machine_simpl;
  repeat match goal with
         | H : ?x = Some _
           |- context [match ?x with Some _ => _ | None => _ end] => rewrite H
         end.

(** One statement that returns, then the rest. *)
Ltac alone_step :=
  erewrite run_alone_step; [ | fstep_run | reflexivity ]; frame_simpl.

(** Every statement that is left, one by one. *)
Ltac alone_steps :=
  cbn [remaining]; repeat alone_step; rewrite ?run_alone_final by done.

(** A call that cannot enter stops at its first statement. *)
Lemma fstep_Lock_stops t f this i m :
  locks_at f = Some this → enter m t this = inl i →
  fstep t f m = (Interrupt i, m).
Proof.
  intros Hf He. destruct f; simplify_eq/=;
    try by rewrite (exec_bind_interrupt _ _ _ _ _ (refCounterLock_Lock_stops _ _ _ _ He)).
  destruct (enter_inl m t this i He) as [H|(l & H1 & H2)].
  - by rewrite (exec_bind_interrupt _ _ _ _ _ H).
  - rewrite (exec_bind_normal _ _ _ _ _ H1).
    by rewrite (exec_bind_interrupt _ _ _ _ _ H2).
Qed.

(** The statement at which an unwinding verification ends the call. *)
Ltac alone_unwinds :=
  erewrite run_alone_stop;
  [ | cbn [fstep Retain_step Release_step dtor_step]; exec_steps;
      rewrite (exec_bind_interrupt _ _ _ _ _ (EP_VERIFY_unwinds _ _ ltac:(eassumption)));
      reflexivity ].

Lemma alone_Delete t this m :
  run_alone (remaining (Dtor_186 this)) t (Dtor_186 this) m =
    EP_DELETE_this t this m.
Proof.
  rewrite EP_DELETE_this_run. unfold EP_DELETE_this_result.
  destruct (enter m t this) as [i|[o l lk lk']] eqn:He.
  - by apply run_alone_stop, (fstep_Lock_stops t _ this).
  - entered He. case_decide as Hc; [|destruct (on_failure _) eqn:Hf].
    + alone_steps. machine_eq.
    + cbn [remaining]. repeat alone_step. alone_unwinds. machine_eq.
    + alone_steps. machine_eq.
Qed.

(** The last [Release] from its dummy increment on: the destructor finds
    the counter it expects, and the object and its lock are freed. *)
Lemma alone_destroys t this l o lk lk' m :
  owns m this o l lk → Unlock t lk = Some lk' → holder lk' = None →
  m_refCount o = 0 →
  run_alone (remaining (Release_113 this)) t (Release_113 this) m =
    (Normal tt,
     with_log (event Deleted None this 0)
       (with_locks (delete l) (with_objects (delete this) m))).
Proof.
  intros Howns Hunlock Hfree Hc. pose proof Howns as [Ho Hl Hk].
  alone_steps. change 10%nat with (remaining (Dtor_186 this)).
  rewrite alone_Delete, Hc. autorewrite with int_arith.
  erewrite EP_DELETE_this_zero; [| split; exec_lookup | done | done].
  machine_eq.
Qed.

Lemma alone_Release t site this m :
  run_alone (remaining (Release_108 site this)) t (Release_108 site this) m =
    Release t site this m.
Proof.
  rewrite Release_run. unfold Release_result.
  destruct (enter m t this) as [i|[o l lk lk']] eqn:He.
  - by apply run_alone_stop, (fstep_Lock_stops t _ this).
  - entered He. pose proof (Lock_Some_free _ _ _ Hlock) as Hfree.
    case_decide as Hc; [|case_decide; [destruct (on_failure _) eqn:Hf|]].
    + alone_steps. change 10%nat with (remaining (Dtor_186 this)).
      rewrite alone_Delete, Hc. autorewrite with int_arith.
      erewrite EP_DELETE_this_zero; [| split; exec_lookup | done | done].
      machine_eq; by rewrite insert_id.
    + cbn [remaining]. repeat alone_step. alone_unwinds. machine_eq.
    + alone_steps. machine_eq.
    + alone_steps. machine_eq.
Qed.

(** [Retain] alone. *)
Lemma alone_Retain t site this m :
  run_alone (remaining (Retain_97 site this)) t (Retain_97 site this) m =
    Retain t site this m.
Proof.
  rewrite Retain_run. unfold Retain_result.
  destruct (enter m t this) as [i|[o l lk lk']] eqn:He.
  - by apply run_alone_stop, (fstep_Lock_stops t _ this).
  - entered He. alone_steps. machine_eq.
Qed.

End alone.

(** ** Every run of the pool ends *)

Section termination.
Context `{EM : ErrorMechanism}.

(** A statement that returns leaves less to execute. *)
Lemma fstep_decreases t f f' m m' :
  fstep t f m = (Normal f', m') → is_final f = false →
  (remaining f' < remaining f)%nat.
Proof.
  destruct f; intros Hf ?; try done; cbn [fstep Retain_step Release_step dtor_step] in Hf;
    unfold exec_bind, exec_ret in Hf; repeat case_match; simplify_eq;
    cbn [remaining]; lia.
Qed.

Lemma finished_final th : finished th = false → is_final (frame th) = true →
  ∃ i rest, frame th = Returned ∧ todo th = i :: rest.
Proof. destruct th as [[] []]; naive_solver. Qed.

(** Inside a call the thread executes the statement of its frame. *)
Lemma tstep_inside t th m :
  is_final (frame th) = false →
  tstep t th m =
    exec_bind (fstep t (frame th))
      (λ f', exec_ret {| frame := f'; todo := todo th |}) m.
Proof. unfold tstep. by destruct (frame th). Qed.

(** A finished thread is not enabled, nor is a thread that does not
    exist. *)
Lemma finished_disabled t c th :
  pool c !! t = Some th → finished th = true → cstep_fun t c = None.
Proof. intros Ht Hfin. unfold cstep_fun. rewrite Ht. simpl. by rewrite Hfin. Qed.

Lemma final_not_finished th :
  is_final (frame th) = false → finished th = false.
Proof. by destruct th as [[] []]. Qed.

Lemma tstep_decreases t th th' m m' :
  tstep t th m = (Normal th', m') → finished th = false →
  (work th' < work th)%nat.
Proof.
  intros Ht Hfin. destruct (is_final (frame th)) eqn:Hfinal.
  - destruct (finished_final th) as (i & rest & Hf & Hr); [done..|].
    unfold tstep in Ht. rewrite Hf, Hr in Ht. unfold work. rewrite Hf, Hr.
    unfold exec_ret in Ht. simplify_eq/=. lia.
  - rewrite tstep_inside in Ht by done. apply exec_bind_inv_normal in Ht as (f' & m1 & Hf & Hr).
    unfold exec_ret in Hr. simplify_eq. apply fstep_decreases in Hf; [|done].
    unfold work; simpl. lia.
Qed.

Lemma tstep_stops_inside t th i m m' :
  tstep t th m = (Interrupt i, m') → is_final (frame th) = false.
Proof. by destruct th as [[] []]. Qed.

Lemma work_stopped th i :
  is_final (frame th) = false →
  (work {| frame := Stopped i; todo := todo th |} < work th)%nat.
Proof. destruct th as [[] ?]; intros; simplify_eq/=; unfold work; simpl; lia. Qed.

(** A step of the pool is a step of one thread that is not finished. *)
Lemma cstep_fun_inv t c c' :
  cstep_fun t c = Some c' →
  ∃ th th', pool c !! t = Some th ∧ finished th = false ∧
    pool c' = <[t := th']> (pool c) ∧ (work th' < work th)%nat.
Proof.
  unfold cstep_fun. intros Hc. destruct (pool c !! t) as [th|] eqn:Ht; [|done].
  simpl in Hc. destruct (finished th) eqn:Hfin; [done|].
  destruct (tstep t th (mem c)) as [[th'|i] m'] eqn:Hs.
  - simplify_eq. eauto 8 using tstep_decreases.
  - exists th, {| frame := Stopped i; todo := todo th |}.
    apply tstep_stops_inside in Hs as Hin.
    destruct i; simplify_eq; eauto using work_stopped.
Qed.

Lemma cstep_decreases c c' : cstep c c' → (total_work c' < total_work c)%nat.
Proof.
  intros [t ? ? (th & th' & Ht & _ & Hp & Hw)%cstep_fun_inv].
  unfold total_work. rewrite Hp. pose proof (sum_list_with_insert work _ _ _ th' Ht).
  unfold tid in *. lia.
Qed.

Lemma cstep_sn c : sn cstep c.
Proof. apply (sn_measure cstep total_work), @cstep_decreases. Qed.

(** A statement that returns does not stop the thread. *)
Lemma fstep_not_Stopped t f f' m m' j :
  fstep t f m = (Normal f', m') → is_final f = false → f' ≠ Stopped j.
Proof.
  destruct f; intros Hf ?; try done;
    cbn [fstep Retain_step Release_step dtor_step] in Hf;
    unfold exec_bind, exec_ret in Hf; repeat case_match; by simplify_eq.
Qed.

(** More statements than a call has left change nothing. *)
Lemma run_alone_enough k t f m :
  (remaining f ≤ k)%nat → run_alone k t f m = run_alone (remaining f) t f m.
Proof.
  revert f m. induction (lt_wf k) as [k _ IH]; intros f m Hk.
  destruct (is_final f) eqn:Hfinal; [by rewrite !run_alone_final|].
  destruct (remaining f) as [|r] eqn:Hr; [by destruct f|].
  destruct k as [|k]; [lia|].
  destruct (fstep t f m) as [[f'|i] m'] eqn:Hf.
  - pose proof (fstep_decreases _ _ _ _ _ Hf Hfinal).
    rewrite !(run_alone_step _ _ _ _ _ _ Hf Hfinal).
    by rewrite (IH k), (IH r) by lia.
  - by rewrite !(run_alone_stop _ _ _ _ _ _ Hf).
Qed.

(** A call run alone from a statement is the call run alone from the
    next. *)
Lemma run_alone_next t f f' m m' :
  fstep t f m = (Normal f', m') → is_final f = false →
  run_alone (remaining f) t f m = run_alone (remaining f') t f' m'.
Proof.
  intros Hf Hfinal. pose proof (fstep_decreases _ _ _ _ _ Hf Hfinal).
  destruct (remaining f) as [|r] eqn:Hr; [lia|].
  rewrite (run_alone_step _ _ _ _ _ _ Hf Hfinal). apply run_alone_enough. lia.
Qed.

(** A call that runs to its end made its next statement. *)
Lemma run_alone_inv t f m M :
  is_final f = false → run_alone (remaining f) t f m = (Normal tt, M) →
  ∃ f' m', fstep t f m = (Normal f', m') ∧
           run_alone (remaining f') t f' m' = (Normal tt, M).
Proof.
  intros Hfinal Hrun. destruct (fstep t f m) as [[f'|i] m'] eqn:Hf.
  - rewrite (run_alone_next _ _ _ _ _ Hf Hfinal) in Hrun. eauto.
  - destruct (remaining f) as [|r] eqn:Hr; [by destruct f|].
    by rewrite (run_alone_stop _ _ _ _ _ _ Hf) in Hrun.
Qed.

(** The two kinds of step of a thread: making the next call, and executing
    a statement of the call it is in. *)
Lemma tstep_call t th i rest m :
  frame th = Returned → todo th = i :: rest →
  tstep t th m = (Normal {| frame := entry i; todo := rest |}, m).
Proof. unfold tstep. by intros -> ->. Qed.

Lemma tstep_statement t th th' m m' :
  is_final (frame th) = false → tstep t th m = (Normal th', m') →
  fstep t (frame th) m = (Normal (frame th'), m') ∧ todo th' = todo th.
Proof.
  intros Hfinal Hs. rewrite tstep_inside in Hs by done.
  apply exec_bind_inv_normal in Hs as (f' & m1 & Hf & Hr).
  unfold exec_ret in Hr. by simplify_eq.
Qed.

(** Threads are neither created nor removed. *)
Lemma cstep_length c c' : rtc cstep c c' → length (pool c') = length (pool c).
Proof.
  induction 1 as [|? ? ? [t ? ? (? & ? & _ & _ & Hp & _)%cstep_fun_inv] _ IH];
    [done|]. by rewrite IH, Hp, length_insert.
Qed.

Lemma run_schedule_rtc s c : rtc cstep c (run_schedule s c).
Proof.
  revert c. induction s as [|t s IH]; intros c; simpl; [done|].
  destruct (cstep_fun t c) as [c'|] eqn:Hc; simpl; [|done].
  eapply rtc_l; [by econstructor | done].
Qed.

(** [stuck] decides that the pool cannot move. *)
Lemma stuck_nf c : stuck c = true ↔ nf cstep c.
Proof.
  unfold stuck, nf, red. rewrite bool_decide_eq_true, Forall_forall. split.
  - intros Hs (c' & Hstep). inversion Hstep as [t ? ? Hc]; subst.
    destruct (cstep_fun_inv _ _ _ Hc) as (th & _ & Ht%lookup_lt_Some & _).
    rewrite Hs in Hc; [done|]. apply elem_of_seq. lia.
  - intros Hnf t _. destruct (cstep_fun t c) as [c'|] eqn:Hc; [|done].
    destruct Hnf. exists c'. by econstructor.
Qed.

Lemma not_stuck_red c : stuck c = false → red cstep c.
Proof.
  unfold stuck. rewrite bool_decide_eq_false.
  intros (t & _ & Ht)%not_Forall_Exists%Exists_exists; [|apply _].
  destruct (cstep_fun t c) as [c'|] eqn:Hc; [|done]. exists c'. by econstructor.
Qed.

Lemma red_cstep_dec c : Decision (red cstep c).
Proof.
  destruct (stuck c) eqn:Hs; [right; by apply stuck_nf | left; by apply not_stuck_red].
Qed.

(** Every pool can be run until no thread is enabled. *)
Lemma cstep_normalises c : ∃ c', rtc cstep c c' ∧ nf cstep c'.
Proof. pose proof red_cstep_dec. apply sn_wn, cstep_sn. Qed.

(** ** The round-robin schedule *)

Lemma run_schedule_app s1 s2 c :
  run_schedule (s1 ++ s2) c = run_schedule s2 (run_schedule s1 c).
Proof. revert c. induction s1 as [|t s1 IH]; intros c; simpl; [done | apply IH]. Qed.

(** A pool that cannot move stays as it is under every schedule. *)
Lemma run_schedule_nf s c : nf cstep c → run_schedule s c = c.
Proof.
  intros Hnf. induction s as [|t s IH]; simpl; [done|].
  destruct (cstep_fun t c) as [c'|] eqn:Hc; simpl; [|done].
  destruct Hnf. exists c'. by econstructor.
Qed.

Lemma run_schedule_work s c :
  (total_work (run_schedule s c) ≤ total_work c)%nat.
Proof.
  revert c. induction s as [|t s IH]; intros c; simpl; [done|].
  destruct (cstep_fun t c) as [c'|] eqn:Hc; simpl; [|done].
  pose proof (cstep_decreases c c' (cstep_thread _ _ _ Hc)).
  specialize (IH c'). lia.
Qed.

(** A schedule that names a thread that is enabled makes a step: the
    thread takes its turn, or another does before it. *)
Lemma run_schedule_moves s c t :
  t ∈ s → is_Some (cstep_fun t c) →
  (total_work (run_schedule s c) < total_work c)%nat.
Proof.
  revert c. induction s as [|t' s IH]; intros c Hin Hen; [by apply elem_of_nil in Hin|].
  simpl. destruct (cstep_fun t' c) as [c'|] eqn:Hc; simpl.
  - pose proof (cstep_decreases c c' (cstep_thread _ _ _ Hc)).
    pose proof (run_schedule_work s c'). lia.
  - apply elem_of_cons in Hin as [->|Hin]; [|by apply IH].
    rewrite Hc in Hen. by destruct Hen.
Qed.

(** A thread of a pool that is not stuck is enabled. *)
Lemma not_stuck_enabled c :
  stuck c = false →
  ∃ t, (t < length (pool c))%nat ∧ is_Some (cstep_fun t c).
Proof.
  unfold stuck. rewrite bool_decide_eq_false.
  intros (t & Hin & Ht)%not_Forall_Exists%Exists_exists; [|apply _].
  exists t. split; [apply elem_of_seq in Hin; lia|].
  simpl in Ht. destruct (cstep_fun t c); [by eexists | by destruct Ht].
Qed.

(** Each round of the round-robin schedule gives every thread its turn, so
    a round either finds the pool stuck or makes a step: as many rounds as
    the threads have statements left bring the pool to a state in which no
    thread can move. *)
Lemma round_robin_nf n k c :
  (length (pool c) ≤ n)%nat → (total_work c ≤ k)%nat →
  nf cstep (run_schedule (round_robin n k) c).
Proof.
  revert c. induction k as [|k IH]; intros c Hn Hk.
  { intros [c' Hs]. apply cstep_decreases in Hs. simpl in *. lia. }
  change (round_robin n (S k)) with (seq 0 n ++ round_robin n k).
  rewrite run_schedule_app. destruct (stuck c) eqn:Hst.
  { apply stuck_nf in Hst.
    by rewrite (run_schedule_nf (seq 0 n) c), (run_schedule_nf _ c). }
  destruct (not_stuck_enabled c Hst) as (t & Ht & Hen). apply IH.
  - by rewrite (cstep_length _ _ (run_schedule_rtc _ c)).
  - pose proof (run_schedule_moves (seq 0 n) c t) as Hlt.
    rewrite elem_of_seq in Hlt. specialize (Hlt ltac:(lia) Hen). lia.
Qed.

End termination.
