(* ===== verification/Monotone.v ===== *)
(** * Monotone: what no statement undoes

    The statements of [Retain], [Release] and the destructor allocate
    nothing, write no field of an object but its counter, write the counter
    wrapped to an [int], leave a lock the class it has, and append to the
    log and to the signalled errors.  [evolves m m'] says that [m'] comes
    from [m] by such changes; it is a preorder, every primitive the
    statements use is [evolving], and so is every run of every pool.  The
    files on pools use it to carry the lock pointer, the policy and the
    class of the lock of an object from the start of a run to any of its
    states. *)

From S2P Require Import Prelude Lock Diagnostic Machine SmartObject Concurrent.

#[local] Open Scope exec_scope.

(** ** Definitions *)

(** An object as it was: the lock pointer and the policy it was constructed
    with, and a counter that is an [int] if it was. *)
Definition same_object (o o' : SmartObject) : Prop :=
  m_refCounterLock o' = m_refCounterLock o ∧ m_lockPolicy o' = m_lockPolicy o ∧
  (in_int (m_refCount o) → in_int (m_refCount o')).

(** [m'] comes from [m]: what is alive was alive and is the same object or
    a lock of the same class; what was logged or signalled still is. *)
Record evolves (m m' : Machine) : Prop := {
  evolves_objects x o' :
    objects m' !! x = Some o' →
    ∃ o, objects m !! x = Some o ∧ same_object o o';
  evolves_locks l lk' :
    locks m' !! l = Some lk' →
    ∃ lk, locks m !! l = Some lk ∧ lock_kind lk' = lock_kind lk;
  evolves_log : log m `prefix_of` log m';
  evolves_signalled : signalled m `prefix_of` signalled m';
}.

(** A computation whose final machine comes from its initial one, however
    it ends. *)
Definition evolving {A} (p : Call A) : Prop := ∀ m, evolves m (p m).2.

(** ** The preorder *)

Lemma same_object_refl o : same_object o o.
Proof. by split_and!. Qed.

Lemma same_object_trans o1 o2 o3 :
  same_object o1 o2 → same_object o2 o3 → same_object o1 o3.
Proof. intros (? & ? & ?) (? & ? & ?). split_and!; [congruence..|auto]. Qed.

#[global] Instance evolves_preorder : PreOrder evolves.
Proof.
  split.
  - intros m. split; eauto using same_object_refl.
  - intros m1 m2 m3 [Ho1 Hl1 Hg1 Hs1] [Ho2 Hl2 Hg2 Hs2]. split.
    + intros x o3 (o2 & (o1 & ? & ?)%Ho1 & ?)%Ho2. eauto using same_object_trans.
    + intros l lk3 (lk2 & (lk1 & ? & ?)%Hl1 & ?)%Hl2. exists lk1. split; congruence.
    + by etrans.
    + by etrans.
Qed.

(** ** The updates of the machine *)

Section updates.
Context (m : Machine).

Lemma evolves_with_log e : evolves m (with_log e m).
Proof. split; simpl; eauto using same_object_refl. by apply prefix_app_r. Qed.

Lemma evolves_with_signal e : evolves m (with_signal e m).
Proof. split; simpl; eauto using same_object_refl. by apply prefix_app_r. Qed.

(** The counter is written with an [int]. *)
Lemma evolves_set_refCount this o c :
  objects m !! this = Some o → in_int c →
  evolves m (with_objects <[this := set_refCount c o]> m).
Proof.
  intros Ho Hc. split; simpl; eauto. intros x o'.
  destruct (decide (x = this)) as [->|Hne].
  - rewrite lookup_insert_eq. intros [= <-]. exists o. by split_and!.
  - rewrite lookup_insert_ne by done. eauto using same_object_refl.
Qed.

(** A lock changes hands. *)
Lemma evolves_update_lock l lk lk' :
  locks m !! l = Some lk → lock_kind lk' = lock_kind lk →
  evolves m (with_locks <[l := lk']> m).
Proof.
  intros Hl Hk. split; simpl; eauto using same_object_refl. intros l1 lk1.
  destruct (decide (l1 = l)) as [->|Hne].
  - rewrite lookup_insert_eq. intros [= <-]. eauto.
  - rewrite lookup_insert_ne by done. eauto.
Qed.

Lemma evolves_delete_lock l : evolves m (with_locks (delete l) m).
Proof.
  split; simpl; eauto using same_object_refl.
  intros l1 lk1 [_ ?]%lookup_delete_Some. eauto.
Qed.

Lemma evolves_delete_object this : evolves m (with_objects (delete this) m).
Proof.
  split; simpl; eauto.
  intros x o [_ ?]%lookup_delete_Some. eauto using same_object_refl.
Qed.

End updates.

(** ** Computations *)

Section evolving.
Context {A B : Type}.

Lemma evolving_ret (a : A) : evolving (exec_ret a).
Proof. by intros m. Qed.

Lemma evolving_interrupt i : evolving (exec_interrupt (A:=A) i).
Proof. by intros m. Qed.

Lemma evolving_bind (p : Call A) (k : A → Call B) :
  evolving p → (∀ a, evolving (k a)) → evolving (x <- p ;; k x).
Proof.
  intros Hp Hk m. unfold exec_bind. specialize (Hp m).
  destruct (p m) as [[a|i] m1]; [|done]. etrans; [done | apply Hk].
Qed.

Lemma evolving_finally (p : Call A) (c : Call unit) :
  evolving p → evolving c → evolving (exec_finally p c).
Proof.
  intros Hp Hc m. unfold exec_finally. specialize (Hp m).
  destruct (p m) as [r m1]. specialize (Hc m1).
  destruct (c m1) as [[[]|i] m2]; by etrans.
Qed.

(** A computation that reads the machine and goes on from what it read. *)
Lemma evolving_get (f : Machine → Call A) :
  (∀ m, evolves m (f m m).2) → evolving (m <- exec_get ;; f m).
Proof. intros Hf m. apply Hf. Qed.

End evolving.

Create HintDb evolving discriminated.
#[export] Hint Resolve evolving_ret evolving_interrupt : evolving.
#[export] Hint Resolve int_incr_range int_decr_range : evolving.

(** Decompose a computation into its primitives. *)
Ltac evolving_solve :=
  repeat first
    [ solve [auto with evolving nocore]
    | apply evolving_bind; [|intros ?]
    | apply evolving_finally
    | match goal with
      | |- evolving (match ?x with _ => _ end) => destruct x
      | |- evolving (if ?b then _ else _) => destruct b
      end ].

(** ** The primitives *)

Section primitives.
Context `{EM : ErrorMechanism}.
Implicit Types (this l : loc) (t : tid).

Lemma evolving_deref this : evolving (deref this).
Proof. apply evolving_get. intros m. by destruct (objects m !! this). Qed.
#[local] Hint Resolve evolving_deref : evolving.

Lemma evolving_load_refCount this : evolving (load_refCount this).
Proof. unfold load_refCount. evolving_solve. Qed.

Lemma evolving_load_refCounterLock this : evolving (load_refCounterLock this).
Proof. unfold load_refCounterLock. evolving_solve. Qed.
#[local] Hint Resolve evolving_load_refCount evolving_load_refCounterLock : evolving.

Lemma evolving_store_refCount this c : in_int c → evolving (store_refCount this c).
Proof.
  intros Hc m. unfold store_refCount, deref, exec_bind, exec_get.
  destruct (objects m !! this) as [o|] eqn:Ho; simpl; [|done].
  by apply evolves_set_refCount.
Qed.

Lemma evolving_refCounterLock this : evolving (refCounterLock this).
Proof. unfold refCounterLock, fault. evolving_solve. Qed.

Lemma evolving_Lock t l : evolving (BaseLock_call_Lock t l).
Proof.
  apply evolving_get. intros m. destruct (locks m !! l) as [lk|] eqn:Hl; [|done].
  destruct (Lock t lk) as [lk'|] eqn:Hlock; [|done].
  eapply evolves_update_lock, Lock_kind; done.
Qed.

Lemma evolving_Unlock t l : evolving (BaseLock_call_Unlock t l).
Proof.
  apply evolving_get. intros m. destruct (locks m !! l) as [lk|] eqn:Hl; [|done].
  destruct (Unlock t lk) as [lk'|] eqn:Hlock; [|done].
  eapply evolves_update_lock, Unlock_kind; done.
Qed.
#[local] Hint Resolve evolving_refCounterLock evolving_Lock evolving_Unlock : evolving.

Lemma evolving_refCounterLock_Lock t this : evolving (refCounterLock_Lock t this).
Proof. unfold refCounterLock_Lock. evolving_solve. Qed.

Lemma evolving_refCounterLock_Unlock t this :
  evolving (refCounterLock_Unlock t this).
Proof. unfold refCounterLock_Unlock. evolving_solve. Qed.

Lemma evolving_LOG_THIS_MSG k site this : evolving (LOG_THIS_MSG k site this).
Proof.
  unfold LOG_THIS_MSG. apply evolving_bind; [evolving_solve|].
  intros c m. apply evolves_with_log.
Qed.

Lemma evolving_EP_VERIFY cond e : evolving (EP_VERIFY cond e).
Proof.
  unfold EP_VERIFY. destruct cond; [evolving_solve|].
  apply evolving_bind; [intros m; apply evolves_with_signal|].
  intros _. destruct (on_failure e); evolving_solve.
Qed.

Lemma evolving_EP_DELETE_lock l : evolving (EP_DELETE_lock l).
Proof.
  apply evolving_get. intros m. destruct (locks m !! l); [|done].
  apply evolves_delete_lock.
Qed.

Lemma evolving_operator_delete this : evolving (operator_delete this).
Proof.
  unfold operator_delete. apply evolving_bind; [evolving_solve|].
  intros _ m. apply evolves_delete_object.
Qed.

End primitives.

#[export] Hint Resolve evolving_deref evolving_load_refCount
  evolving_load_refCounterLock evolving_store_refCount evolving_refCounterLock
  evolving_Lock evolving_Unlock evolving_refCounterLock_Lock
  evolving_refCounterLock_Unlock evolving_LOG_THIS_MSG evolving_EP_VERIFY
  evolving_EP_DELETE_lock evolving_operator_delete : evolving.

(** ** The methods *)

Section methods.
Context `{EM : ErrorMechanism}.

Lemma evolving_Retain t site this : evolving (Retain t site this).
Proof. unfold Retain, LockObj, refCount_incr. evolving_solve. Qed.

Lemma evolving_dtor t this : evolving (SmartObject_dtor t this).
Proof. unfold SmartObject_dtor, refCount_decr. evolving_solve. Qed.

Lemma evolving_EP_DELETE_this t this : evolving (EP_DELETE_this t this).
Proof. unfold EP_DELETE_this. pose proof (evolving_dtor t this). evolving_solve. Qed.

Lemma evolving_Release t site this : evolving (Release t site this).
Proof.
  unfold Release, refCount_incr, refCount_decr.
  pose proof (evolving_EP_DELETE_this t this). evolving_solve.
Qed.

End methods.

(** ** Statements, threads and pools *)

Section steps.
Context `{EM : ErrorMechanism}.

Lemma evolving_fstep t f : evolving (fstep t f).
Proof.
  destruct f; cbn [fstep Retain_step Release_step dtor_step]; evolving_solve.
Qed.

Lemma evolving_tstep t th : evolving (tstep t th).
Proof.
  unfold tstep. pose proof (evolving_fstep t).
  destruct (frame th), (todo th); evolving_solve.
Qed.

Lemma evolving_run_alone fuel t f : evolving (run_alone fuel t f).
Proof.
  revert f. induction fuel as [|fuel IH]; intros f; [apply evolving_ret|].
  pose proof (evolving_fstep t f).
  destruct f; cbn [run_alone]; evolving_solve.
Qed.

Lemma cstep_fun_evolves t c c' :
  cstep_fun t c = Some c' → evolves (mem c) (mem c').
Proof.
  unfold cstep_fun. destruct (pool c !! t) as [th|]; [|done]. simpl.
  pose proof (evolving_tstep t th (mem c)) as He.
  destruct (finished th); [done|].
  destruct (tstep t th (mem c)) as [[th'|[]] m']; intros; by simplify_eq.
Qed.

Lemma cstep_evolves c c' : cstep c c' → evolves (mem c) (mem c').
Proof. intros [t ? ? ?]. by eapply cstep_fun_evolves. Qed.

End steps.

Section theorems.
Context `{EM : ErrorMechanism}.

(** Whatever the threads call and whatever the schedule, the machine at
    the end of a run comes from the machine at its start: an object that is
    alive was alive, with the lock pointer and the policy it has (no
    statement allocates, none writes these fields); a lock that is alive
    was alive, of the same class; the log and the signalled errors only
    grew. *)
Theorem runs_evolve c c' : rtc cstep c c' → evolves (mem c) (mem c').
Proof. induction 1; [done|]. etrans; [by apply cstep_evolves | done]. Qed.

End theorems.

(** ** The concrete pool *)

Lemma runs_evolve_witness :
  evolves (mem (pool_of 2)) (mem (pool_after 2 [0; 0; 0; 0]%nat)).
Proof.
  apply (runs_evolve (EM:=Throwing) (pool_of 2) (pool_after 2 [0; 0; 0; 0]%nat)),
    run_schedule_rtc.
Defined.
