(* ===== verification/Sharing.v ===== *)
(** * Sharing: threads that retain and release one object

    Threads share the object at [this], whose lock at [l] excludes.  Each
    thread makes a sequence of [Retain] and [Release] calls on it.  [c0] is
    the counter when every call has been made: the counter at the start
    plus the [Retain]s minus the [Release]s.  The calls are such that the
    counter stays between 1 and [INT_MAX] however far each thread has got:
    somebody always holds a reference.

    [live] is the invariant of every state the pool reaches, whatever the
    schedule: the counter is [c0] plus what the calls still to make give
    back, at most one thread is between [Lock] and [Unlock], a value read
    for an update is still the counter when it is written back, nothing is
    signalled and the object is alive.  From it: mutual exclusion, no lost
    update, no deadlock, and the counter after all calls. *)

From S2P Require Import Prelude Lock Diagnostic Machine SmartObject Concurrent.

(** ** What a thread holds *)

(** The references a call gives back ([Release]) or takes ([Retain]). *)
Definition balance_of (i : Invocation) : Z :=
  match i with
  | Inv_Retain _ _ => -1
  | Inv_Release _ _ => 1
  | Inv_Delete _ => 0
  end.

(** What the counter loses by these calls. *)
Definition balance (calls : list Invocation) : Z := sum_with balance_of calls.

(** Inside a call the counter changes at the write of the increment or
    decrement: before it a [Retain] has not counted yet, a [Release] still
    counts. *)
Definition uncounted (f : Frame) : Z :=
  match f with
  | Retain_97 _ _ | Retain_98 _ _ _ | Retain_98w _ _ _ _ => -1
  | Release_108 _ _ | Release_109 _ _ | Release_109w _ _ _ => 1
  | _ => 0
  end.

(** What the counter has above its final value on account of thread [th]:
    what the thread's remaining writes take off it. *)
Definition owned (th : Thread) : Z := uncounted (frame th) + balance (todo th).

(** The least and the most of it at any later time: the extremes of
    [balance] over the calls from some call on. *)
Fixpoint lo (calls : list Invocation) : Z :=
  match calls with
  | [] => 0
  | i :: rest => Z.min (balance (i :: rest)) (lo rest)
  end.

Fixpoint hi (calls : list Invocation) : Z :=
  match calls with
  | [] => 0
  | i :: rest => Z.max (balance (i :: rest)) (hi rest)
  end.

Definition floor (th : Thread) : Z := Z.min (owned th) (lo (todo th)).
Definition ceiling (th : Thread) : Z := Z.max (owned th) (hi (todo th)).

(** Calls of a thread that holds a reference whenever it makes one: from
    every call on, it gives back more than it takes. *)
Fixpoint strict (calls : list Invocation) : Prop :=
  match calls with
  | [] => True
  | i :: rest => 1 ≤ balance (i :: rest) ∧ strict rest
  end.

(** What the counter has at least on account of such a thread, by its
    frame: one for the reference it calls through, and in [Retain], once
    the counter is written, one for the reference taken. *)
Definition lowest (f : Frame) : Z :=
  match f with
  | Retain_97 _ _ | Retain_98 _ _ _ | Retain_98w _ _ _ _ => 1
  | Retain_99 _ _ _ | Retain_100 _ => 2
  | Release_108 _ _ | Release_109 _ _ | Release_109w _ _ _ => 1
  | _ => 0
  end.

Definition thread_strict (th : Thread) : Prop :=
  strict (todo th) ∧ lowest (frame th) ≤ owned th.

(** The counter a statement needs to find for the object to stay: the
    write of a decrement and the test for zero need 1. *)
Definition needs (f : Frame) : Z :=
  match f with
  | Release_109w _ _ _ | Release_111 _ => 1
  | _ => 0
  end.

(** The decrement of [Release] is written and its test for 0 not yet
    made. *)
Definition just_decremented (f : Frame) : bool :=
  match f with Release_110 _ _ | Release_111 _ => true | _ => false end.

(** The messages of destructors in the log. *)
Definition deletions (m : Machine) : list LogEvent :=
  filter (λ e, ev_kind e = Deleted) (log m).

(** The statements between [Lock()] and [Unlock()]. *)
Definition in_cs (f : Frame) : bool :=
  match f with
  | Retain_98 _ _ _ | Retain_98w _ _ _ _ | Retain_99 _ _ _ | Retain_100 _
  | Release_109 _ _ | Release_109w _ _ _ | Release_110 _ _ | Release_111 _
  | Release_113 _ | Release_113w _ _ | Release_114 _
  | Release_118 _ | Release_122 _ | Release_124 _
  | Dtor_187 _ | Dtor_187w _ _ | Dtor_188 _ | Dtor_189 _ | Dtor_193 _
  | Dtor_195 _ => true
  | _ => false
  end.

(** The value of the counter a thread has read and not yet written back. *)
Definition reg (f : Frame) : option Z :=
  match f with
  | Retain_98w _ _ _ c | Release_109w _ _ c | Release_113w _ c
  | Dtor_187w _ c => Some c
  | _ => None
  end.

Section sharing.
Context `{EM : ErrorMechanism}.
Context (this l : loc) (c0 : Z).

(** A [Retain] or a [Release] on the shared object. *)
Definition on_this (i : Invocation) : Prop :=
  match i with
  | Inv_Retain _ x | Inv_Release _ x => x = this
  | Inv_Delete _ => False
  end.

(** Calls on the shared object. *)
Fixpoint todo_ok (calls : list Invocation) : Prop :=
  match calls with
  | [] => True
  | i :: rest => on_this i ∧ todo_ok rest
  end.

(** The frames of such calls while other owners remain. *)
Definition frame_ok (f : Frame) : Prop :=
  match f with
  | Returned => True
  | Retain_97 _ x | Release_108 _ x | Release_109 _ x | Release_109w _ x _
  | Release_110 _ x | Release_111 x | Release_118 x | Release_124 x => x = this
  | Retain_98 _ x y | Retain_98w _ x y _ | Retain_99 _ x y => x = this ∧ y = l
  | Retain_100 y => y = l
  | _ => False
  end.

Definition thread_ok (th : Thread) : Prop :=
  frame_ok (frame th) ∧ todo_ok (todo th).

(** What holds while the object is shared, whether or not it outlives the
    calls: [o] is the object and [lk] its lock in state [c]. *)
Record core (c : Conc) (o : SmartObject) (lk : BaseLock) : Prop := {
  core_owns : owns (mem c) this o l lk;
  core_exclusive : exclusive lk = true;
  core_count : m_refCount o = c0 + sum_with owned (pool c);
  core_ceiling : c0 + sum_with ceiling (pool c) ≤ INT_MAX;
  core_threads : Forall thread_ok (pool c);
  core_holder t :
    holder lk = Some t ↔ ∃ th, pool c !! t = Some th ∧ in_cs (frame th) = true;
  core_regs t th r :
    pool c !! t = Some th → reg (frame th) = Some r → r = m_refCount o;
  core_quiet : signalled (mem c) = [];
}.

(** The invariant of an object that outlives the calls: the counter is at
    least 1 wherever the threads are. *)
Record live (c : Conc) (o : SmartObject) (lk : BaseLock) : Prop := {
  live_core : core c o lk;
  live_floor : 1 ≤ c0 + sum_with floor (pool c);
}.

Definition inv (c : Conc) : Prop := ∃ o lk, live c o lk.

(** What a step of thread [t] from [th] to [th'] does to the lock: it is
    taken on the way in, given back on the way out, and not touched
    otherwise. *)
Definition lock_moves (t : tid) (f f' : Frame) (lk lk' : BaseLock) : Prop :=
  match in_cs f, in_cs f' with
  | false, true => Lock t lk = Some lk'
  | true, false => Unlock t lk = Some lk'
  | _, _ => lk' = lk
  end.

(** What a step of thread [t] from [th] to [th'] must do to the machine
    for the invariant to go on. *)
Record moves (c : Conc) (o : SmartObject) (lk : BaseLock) (t : tid)
    (th th' : Thread) (m' : Machine) (o' : SmartObject) (lk' : BaseLock) : Prop := {
  mv_owns : owns m' this o' l lk';
  mv_lock : lock_moves t (frame th) (frame th') lk lk';
  mv_ok : thread_ok th';
  mv_count : m_refCount o' - m_refCount o = owned th' - owned th;
  mv_floor : floor th ≤ floor th';
  mv_ceiling : ceiling th' ≤ ceiling th;
  mv_strict : thread_strict th → thread_strict th';
  mv_alive :
    1 ≤ m_refCount o ∨ just_decremented (frame th) = true →
    1 ≤ m_refCount o' ∨ just_decremented (frame th') = true;
  mv_reg r : reg (frame th') = Some r → r = m_refCount o';
  mv_outside : in_cs (frame th) = false → m_refCount o' = m_refCount o;
  mv_quiet : signalled m' = signalled (mem c);
  mv_log : deletions m' = deletions (mem c);
}.

(** Thread [t] can take its step, and the step is right. *)
Definition advances (c : Conc) (o : SmartObject) (lk : BaseLock) (t : tid)
    (th : Thread) : Prop :=
  ∃ th' m' o' lk',
    tstep t th (mem c) = (Normal th', m') ∧ moves c o lk t th th' m' o' lk'.

(** Thread [t] is at a [Lock()] that another thread holds. *)
Definition waits (c : Conc) (lk : BaseLock) (t : tid) (th : Thread) : Prop :=
  tstep t th (mem c) = (Interrupt (Blocked l), mem c) ∧
  in_cs (frame th) = false ∧ ∃ t', t' ≠ t ∧ holder lk = Some t'.

(** Thread [t] can take a step, or the thread that is between [Lock()] and
    [Unlock()] can. *)
Definition unblocked (c : Conc) (t : tid) : Prop :=
  is_Some (cstep_fun t c) ∨
  ∃ (t' : tid) th', pool c !! t' = Some th' ∧ in_cs (frame th') = true ∧
                    is_Some (cstep_fun t' c).

(** What the threads start from: the object is alive and its lock is a
    free lock that excludes; [c0] is the counter less what the calls take
    off it; wherever each thread is in its calls, the counter is at least 1
    and at most [INT_MAX]. *)
Definition shares (m : Machine) (programs : list (list Invocation)) : Prop :=
  ∃ o lk,
    owns m this o l lk ∧ exclusive lk = true ∧ holder lk = None ∧
    m_refCount o = c0 + sum_with balance programs ∧
    1 ≤ c0 + sum_with lo programs ∧ c0 + sum_with hi programs ≤ INT_MAX ∧
    Forall todo_ok programs ∧ signalled m = [].

(** The states the threads reach from such a start. *)
Definition reachable (m : Machine) (programs : list (list Invocation))
    (c : Conc) : Prop :=
  shares m programs ∧ rtc cstep (start m programs) c.

End sharing.

#[global] Instance on_this_dec this i : Decision (on_this this i).
Proof. destruct i; simpl; apply _. Defined.

#[global] Instance todo_ok_dec this calls : Decision (todo_ok this calls).
Proof. induction calls; simpl; apply _. Defined.

(** ** Facts about frames and threads *)

Lemma reg_in_cs f r : reg f = Some r → in_cs f = true.
Proof. by destruct f. Qed.

Lemma in_cs_not_final f : in_cs f = true → is_final f = false.
Proof. by destruct f. Qed.

Lemma in_cs_not_finished th : in_cs (frame th) = true → finished th = false.
Proof. by destruct th as [[] []]. Qed.

Lemma lo_le_balance calls : lo calls ≤ balance calls.
Proof. destruct calls; simpl; [done | lia]. Qed.

Lemma balance_le_hi calls : balance calls ≤ hi calls.
Proof. destruct calls; simpl; [done | lia]. Qed.

Lemma floor_le_owned th : floor th ≤ owned th.
Proof. unfold floor. lia. Qed.

Lemma owned_le_ceiling th : owned th ≤ ceiling th.
Proof. unfold ceiling. lia. Qed.

Lemma floor_thread_of calls : floor (thread_of calls) = lo calls.
Proof. unfold floor, owned. simpl. pose proof (lo_le_balance calls). lia. Qed.

Lemma ceiling_thread_of calls : ceiling (thread_of calls) = hi calls.
Proof. unfold ceiling, owned. simpl. pose proof (balance_le_hi calls). lia. Qed.

Lemma strict_balance calls : strict calls → 0 ≤ balance calls.
Proof. destruct calls; simpl; [done | lia]. Qed.

(** A thread on whose account the counter has nothing, and that is not
    between [Lock()] and [Unlock()], has finished. *)
Lemma strict_zero this l th :
  thread_ok this l th → thread_strict th → owned th = 0 →
  in_cs (frame th) = false → th = thread_of [].
Proof.
  destruct th as [f [|i rest]]; unfold thread_ok, thread_strict, owned; simpl.
  - intros [Hf _] [_ Hlow] Ho Hin. destruct f; simplify_eq/=; done || lia.
  - intros [Hf _] [[Hb _] Hlow] Ho Hin. unfold balance in *.
    autorewrite with sums in *. destruct f; simplify_eq/=; done || lia.
Qed.

(** In its last [Release], after the decrement, it has no call left. *)
Lemma strict_last th :
  thread_strict th → owned th = 0 → uncounted (frame th) = 0 → todo th = [].
Proof.
  destruct th as [f [|i rest]]; unfold thread_strict, owned; simpl; [done|].
  intros [[Hb _] _] Ho Hu. lia.
Qed.

Lemma lowest_nonneg f : 0 ≤ lowest f.
Proof. by destruct f. Qed.

Lemma strict_owned th : thread_strict th → 0 ≤ owned th.
Proof. intros [_ ?]. pose proof (lowest_nonneg (frame th)). lia. Qed.

Lemma strict_thread_of calls : strict calls → thread_strict (thread_of calls).
Proof. intros Hs. split; [done|]. by apply strict_balance. Qed.

Lemma deletions_Deleted site x c m :
  deletions (with_log (event Deleted site x c) m) =
    deletions m ++ [event Deleted site x c].
Proof. unfold deletions. simpl. by rewrite filter_app. Qed.

Lemma deletions_with_log k site x c m :
  k ≠ Deleted → deletions (with_log (event k site x c) m) = deletions m.
Proof.
  intros. unfold deletions. simpl.
  by rewrite filter_app, filter_cons_False, filter_nil, app_nil_r.
Qed.

Section invariant.
Context `{EM : ErrorMechanism}.
Context (this l : loc) (c0 : Z).

#[local] Abbreviation core := (core this l c0).
#[local] Abbreviation live := (live this l c0).
#[local] Abbreviation moves := (moves this l).
#[local] Abbreviation thread_ok := (thread_ok this l).

Section core_facts.
Context (c : Conc) (o : SmartObject) (lk : BaseLock) (Hcore : core c o lk).
Context (t : tid) (th : Thread) (Ht : pool c !! t = Some th).

Lemma core_thread_ok : thread_ok th.
Proof. eapply Forall_lookup_1; [apply Hcore | done]. Qed.

Lemma core_is_holder : in_cs (frame th) = true → holder lk = Some t.
Proof. intros. apply Hcore. eauto. Qed.

Lemma core_not_holder : in_cs (frame th) = false → holder lk ≠ Some t.
Proof.
  intros Hout Hh.
  destruct (proj1 (core_holder this l c0 c o lk Hcore t) Hh) as (th' & ? & ?).
  congruence.
Qed.

(** While a thread is inside, the others are not. *)
Lemma core_others_outside t' th' :
  in_cs (frame th) = true → pool c !! t' = Some th' → t' ≠ t →
  in_cs (frame th') = false.
Proof.
  intros Hin Ht' Hne. destruct (in_cs (frame th')) eqn:Hin'; [|done].
  pose proof (core_is_holder Hin).
  assert (holder lk = Some t') by (apply Hcore; eauto). congruence.
Qed.

(** The counter is at most [INT_MAX] when the thread has made its
    increments. *)
Lemma core_count_upper : m_refCount o + (ceiling th - owned th) ≤ INT_MAX.
Proof.
  rewrite (core_count this l c0 c o lk Hcore).
  pose proof (core_ceiling this l c0 c o lk Hcore).
  assert (sum_with owned (pool c) + (ceiling th - owned th)
          ≤ sum_with ceiling (pool c)); [|lia].
  eapply sum_with_lookup_le; [done | lia | apply Forall_true, owned_le_ceiling].
Qed.
End core_facts.

(** When the lock is free no thread is inside. *)
Lemma core_free_outside c o lk :
  core c o lk → holder lk = None →
  Forall (λ th, in_cs (frame th) = false) (pool c).
Proof.
  intros Hcore Hfree. apply Forall_lookup. intros t th Ht.
  destruct (in_cs (frame th)) eqn:Hin; [|done].
  pose proof (core_is_holder _ _ _ Hcore _ _ Ht Hin). congruence.
Qed.

(** The lock after a step is held by the thread that is inside. *)
Lemma lock_moves_holder c o lk t th th' lk' :
  core c o lk → pool c !! t = Some th →
  lock_moves t (frame th) (frame th') lk lk' →
  exclusive lk' = true ∧
  (holder lk' = Some t ↔ in_cs (frame th') = true) ∧
  ∀ t', t' ≠ t → holder lk' = Some t' ↔ holder lk = Some t'.
Proof.
  intros Hcore Ht. pose proof (core_exclusive _ _ _ _ _ _ Hcore) as Hex.
  unfold lock_moves.
  destruct (in_cs (frame th)) eqn:Hin, (in_cs (frame th')) eqn:Hin'.
  - intros ->. pose proof (core_is_holder _ _ _ Hcore _ _ Ht Hin). naive_solver.
  - pose proof (core_is_holder _ _ _ Hcore _ _ Ht Hin) as Hh.
    destruct (BaseLock_holder_unlocks _ _ Hh) as (lk1 & Hu & Hfree & Hex1).
    intros Hu'. assert (lk' = lk1) as -> by congruence.
    rewrite Hfree, Hh, Hex1. naive_solver.
  - intros Hlock. destruct (BaseLock_Lock_acquires _ _ _ Hex Hlock) as [-> ->].
    erewrite Lock_exclusive by done. naive_solver.
  - intros ->. pose proof (core_not_holder _ _ _ Hcore _ _ Ht Hin). naive_solver.
Qed.

(** A step that [moves] keeps what holds while the object is shared. *)
Lemma core_update c o lk t th th' m' o' lk' :
  core c o lk → pool c !! t = Some th → moves c o lk t th th' m' o' lk' →
  core {| mem := m'; pool := <[t := th']> (pool c) |} o' lk'.
Proof.
  intros Hcore Ht [Hown' Hlock Hok Hc _ Hhi _ _ Hreg Hout Hq' _].
  destruct (lock_moves_holder _ _ _ _ _ _ _ Hcore Ht Hlock) as (? & Hself & Hothers).
  destruct Hcore as [Hown Hex Hcount Hceil Hths Hhold Hregs Hq].
  pose proof (lookup_lt_Some _ _ _ Ht). split; simpl; try done.
  - rewrite (sum_with_insert _ _ _ _ _ Ht). lia.
  - rewrite (sum_with_insert _ _ _ _ _ Ht). lia.
  - by apply Forall_insert.
  - intros t'. destruct (decide (t' = t)) as [->|Hne].
    + rewrite list_lookup_insert_eq, Hself by done. split; [eauto|].
      by intros (? & [= <-] & ?).
    + by rewrite list_lookup_insert_ne, Hothers.
  - intros t' th1 r. destruct (decide (t' = t)) as [->|Hne].
    + rewrite list_lookup_insert_eq by done. intros [= <-]. apply Hreg.
    + rewrite list_lookup_insert_ne by done. intros Ht' Hr.
      destruct (in_cs (frame th)) eqn:Hin; [|rewrite Hout by done; eauto].
      apply reg_in_cs in Hr. destruct Hne.
      assert (holder lk = Some t') as Ht1 by (apply Hhold; eauto).
      assert (holder lk = Some t) as Ht2 by (apply Hhold; eauto). congruence.
  - congruence.
Qed.

(** The counter of an object that outlives the calls is within [int], and
    not 0. *)
Lemma live_count_range c o lk : live c o lk → 1 ≤ m_refCount o ≤ INT_MAX.
Proof.
  intros [Hcore Hfloor]. rewrite (core_count _ _ _ _ _ _ Hcore).
  pose proof (core_ceiling _ _ _ _ _ _ Hcore).
  assert (sum_with floor (pool c) ≤ sum_with owned (pool c))
    by apply sum_with_le, Forall_true, floor_le_owned.
  assert (sum_with owned (pool c) ≤ sum_with ceiling (pool c))
    by apply sum_with_le, Forall_true, owned_le_ceiling.
  lia.
Qed.

Lemma live_update c o lk t th th' m' o' lk' :
  live c o lk → pool c !! t = Some th → moves c o lk t th th' m' o' lk' →
  live {| mem := m'; pool := <[t := th']> (pool c) |} o' lk'.
Proof.
  intros [Hcore Hfloor] Ht Hmoves. split; [by eapply core_update|]. simpl.
  rewrite (sum_with_insert _ _ _ _ _ Ht). pose proof (mv_floor _ _ _ _ _ _ _ _ _ _ _ Hmoves). lia.
Qed.

(** ** The steps of a thread *)

(** Unfold what a thread holds at a given frame. *)
Ltac owned_simpl :=
  unfold thread_ok, thread_strict, floor, ceiling, owned in *;
  cbn [frame todo uncounted lowest needs just_decremented frame_ok todo_ok
       strict in_cs reg entry on_this lo hi] in *;
  repeat match goal with
         | H : _ ∧ _ |- _ => destruct H
         | _ : todo_ok _ ?r |- _ =>
             is_var r;
             lazymatch goal with
             | _ : lo r ≤ balance r |- _ => fail
             | _ => pose proof (lo_le_balance r); pose proof (balance_le_hi r)
             end
         | H : strict ?r |- _ =>
             is_var r;
             lazymatch goal with
             | _ : 0 ≤ balance r |- _ => fail
             | _ => pose proof (strict_balance r H)
             end
         end;
  unfold balance in *; autorewrite with sums in *;
  cbn [balance_of Z.eqb Pos.eqb] in *.

(** The conditions of [moves] at given frames, one after the other: the
    first gives the object and the lock after the step. *)
Ltac moves_goal :=
  unfold lock_moves; try (intros [? ?]); try (intros [?|?]);
  owned_simpl; machine_simpl;
  repeat match goal with
         | H : int_incr _ = _ |- _ => rewrite H
         | H : int_decr _ = _ |- _ => rewrite H
         end;
  first [ done | split; exec_lookup | by intros ? [= <-]
        | by rewrite deletions_with_log | intuition lia ].

Ltac moves_solve := split; lazymatch goal with |- _ => moves_goal end.

(** A step that returns, computed, and what it [moves]. *)
Ltac advance :=
  eexists _, _, _, _; split;
  [ cbn [tstep fstep Retain_step Release_step dtor_step frame todo];
    exec_steps; reflexivity
  | moves_solve ].

Section thread_steps.
Context (c : Conc) (o : SmartObject) (lk : BaseLock) (Hcore : core c o lk).
Context (t : tid).

#[local] Abbreviation advances := (advances this l c o lk t).
#[local] Abbreviation at_frame f rest :=
  (pool c !! t = Some {| frame := f; todo := rest |}).

(** What the invariant says where thread [t] is. *)
Ltac at_thread Ht :=
  pose proof (core_thread_ok _ _ _ Hcore _ _ Ht);
  pose proof (core_owns _ _ _ _ _ _ Hcore) as Howns;
  pose proof Howns as [];
  pose proof (core_count_upper _ _ _ Hcore _ _ Ht);
  try (unshelve epose proof (core_regs _ _ _ _ _ _ Hcore _ _ _ Ht eq_refl); [shelve..|]);
  owned_simpl; subst.

Lemma advances_call i rest :
  at_frame Returned (i :: rest) →
  advances {| frame := Returned; todo := i :: rest |}.
Proof. intros Ht. at_thread Ht. destruct i; owned_simpl; try done; advance. Qed.

(** Inside the critical section every statement runs; the object stays if
    the counter is what the statement [needs]. *)
Lemma advances_inside f rest :
  at_frame f rest → in_cs f = true → remaining f ≠ 1%nat →
  needs f ≤ m_refCount o → advances {| frame := f; todo := rest |}.
Proof.
  intros Ht Hin Hlast Hneeds. destruct f; try done; at_thread Ht; try done.
  all: owned_simpl.
  all: try (assert (int_incr (m_refCount o) = m_refCount o + 1)
              by (apply int_incr_small; int_solve)).
  all: try (assert (int_decr (m_refCount o) = m_refCount o - 1)
              by (apply int_decr_small; int_solve)).
  all: advance.
Qed.

(** The last statement of a call gives the lock back. *)
Lemma advances_leave f rest :
  at_frame f rest → in_cs f = true → remaining f = 1%nat →
  advances {| frame := f; todo := rest |}.
Proof.
  intros Ht Hin Hlast.
  destruct (BaseLock_holder_unlocks t lk) as (lk' & Hu & _);
    [by eapply core_is_holder|].
  destruct f; try done; at_thread Ht; advance.
Qed.

(** The first statement takes the lock, or finds it held by another
    thread. *)
Lemma enters_or_waits f rest :
  at_frame f rest → in_cs f = false → is_final f = false →
  advances {| frame := f; todo := rest |} ∨ waits l c lk t {| frame := f; todo := rest |}.
Proof.
  intros Ht Hout Hrun. destruct (Lock t lk) as [lk'|] eqn:Hlock.
  { left. destruct f; try done; at_thread Ht; try done; advance. }
  right. destruct (BaseLock_Lock_None _ _ Hlock) as [t' Ht'].
  pose proof (core_not_holder _ _ _ Hcore _ _ Ht Hout).
  split; [|split; [done|exists t'; split; congruence]].
  destruct f; try done; at_thread Ht; try done; cbn [tstep frame todo].
  all: erewrite exec_bind_interrupt; [done|].
  all: apply (fstep_Lock_stops _ _ this); [done|].
  all: unfold enter; by rewrite owns_this, owns_ptr, owns_lock, Hlock.
Qed.

(** A thread that is not finished takes its step, unless it waits for the
    lock. *)
Lemma core_thread_step th :
  pool c !! t = Some th → finished th = false →
  needs (frame th) ≤ m_refCount o →
  advances th ∨ waits l c lk t th.
Proof.
  destruct th as [f rest]. intros Ht Hfin Hneeds.
  destruct (in_cs f) eqn:Hin, (is_final f) eqn:Hfinal.
  - apply in_cs_not_final in Hin. congruence.
  - left. destruct (decide (remaining f = 1%nat));
      eauto using advances_leave, advances_inside.
  - left. destruct (finished_final _ Hfin Hfinal) as (i & r & ? & ?); simplify_eq/=.
    by apply advances_call.
  - by apply enters_or_waits.
Qed.

(** A thread that advances is enabled. *)
Lemma advances_enabled th th' m' :
  pool c !! t = Some th → finished th = false →
  tstep t th (mem c) = (Normal th', m') →
  cstep_fun t c = Some {| mem := m'; pool := <[t := th']> (pool c) |}.
Proof. intros Ht Hfin Hstep. unfold cstep_fun. rewrite Ht; simpl. by rewrite Hfin, Hstep. Qed.

Lemma waits_cstep th :
  pool c !! t = Some th → waits l c lk t th → cstep_fun t c = None.
Proof.
  intros Ht (Hstep & _). unfold cstep_fun. rewrite Ht; simpl.
  rewrite Hstep. by destruct (finished th).
Qed.

End thread_steps.

(** ** The pool of an object that outlives the calls *)

#[local] Abbreviation inv := (inv this l c0).
#[local] Abbreviation shares := (shares this l c0).

Lemma needs_le_1 f : needs f ≤ 1.
Proof. by destruct f. Qed.

Lemma live_thread_step c o lk t th :
  live c o lk → pool c !! t = Some th → finished th = false →
  advances this l c o lk t th ∨ waits l c lk t th.
Proof.
  intros Hlive Ht Hfin. apply core_thread_step; [apply Hlive | done..|].
  pose proof (live_count_range _ _ _ Hlive). pose proof (needs_le_1 (frame th)). lia.
Qed.

(** A thread that advances is enabled, and its step keeps the invariant. *)
Lemma advances_cstep c o lk t th :
  live c o lk → pool c !! t = Some th → finished th = false →
  advances this l c o lk t th → ∃ c', cstep_fun t c = Some c' ∧ inv c'.
Proof.
  intros Hlive Ht Hfin (th' & m' & o' & lk' & Hstep & Hmoves).
  eexists. split; [by eapply advances_enabled|].
  exists o', lk'. by eapply live_update.
Qed.

Lemma inv_cstep_fun t c c' : inv c → cstep_fun t c = Some c' → inv c'.
Proof.
  intros (o & lk & Hlive) Hc.
  destruct (cstep_fun_inv _ _ _ Hc) as (th & _ & Ht & Hfin & _).
  destruct (live_thread_step _ _ _ _ _ Hlive Ht Hfin) as [Ha|Hw].
  - destruct (advances_cstep _ _ _ _ _ Hlive Ht Hfin Ha) as (? & ? & ?). congruence.
  - apply (waits_cstep _ _ _ _) in Hw; [congruence | done].
Qed.

(** C14. Every step of every thread keeps the invariant. *)
Theorem cstep_preserves_inv c c' : inv c → cstep c c' → inv c'.
Proof.
  intros Hinv Hs. inversion Hs as [t ? ? Hc]; subst. by apply (inv_cstep_fun t c).
Qed.

Lemma inv_rtc c c' : inv c → rtc cstep c c' → inv c'.
Proof. induction 2 as [|? ? ? [t ? ? ?]]; eauto using inv_cstep_fun. Qed.

(** While the object has an owner left no destructor runs. *)
Lemma inv_cstep_deletions t c c' :
  inv c → cstep_fun t c = Some c' → deletions (mem c') = deletions (mem c).
Proof.
  intros (o & lk & Hlive) Hc.
  destruct (cstep_fun_inv _ _ _ Hc) as (th & _ & Ht & Hfin & _).
  destruct (live_thread_step _ _ _ _ _ Hlive Ht Hfin)
    as [(th' & m' & o' & lk' & Hstep & Hmoves)|Hw].
  - rewrite (advances_enabled _ _ _ _ _ Ht Hfin Hstep) in Hc. simplify_eq.
    apply Hmoves.
  - apply (waits_cstep _ _ _ _) in Hw; [congruence | done].
Qed.

Lemma inv_rtc_deletions c c' :
  inv c → rtc cstep c c' → deletions (mem c') = deletions (mem c).
Proof.
  intros Hinv Hrun. induction Hrun as [|c c1 c' [t ? ? Hc] _ IH]; [done|].
  rewrite IH by by eapply inv_cstep_fun. by eapply inv_cstep_deletions.
Qed.

(** The threads hold what their programs say before they run. *)
Lemma core_start m programs o lk :
  owns m this o l lk → exclusive lk = true → holder lk = None →
  m_refCount o = c0 + sum_with balance programs →
  c0 + sum_with hi programs ≤ INT_MAX →
  Forall (todo_ok this) programs → signalled m = [] →
  core (start m programs) o lk.
Proof.
  intros Hown Hex Hfree Hcount Hhi Hok Hq. split; cbn [start mem pool]; try done.
  - by rewrite sum_with_fmap.
  - rewrite sum_with_fmap. erewrite sum_with_ext; [done|]. apply ceiling_thread_of.
  - apply Forall_fmap. eapply Forall_impl; [done|]. by intros p Hp.
  - intros t. rewrite Hfree, list_lookup_fmap. split; [done|].
    intros (? & (? & _ & ->)%fmap_Some & ?). done.
  - by intros t th r (? & -> & _)%list_lookup_fmap_Some.
Qed.

Lemma inv_start m programs : shares m programs → inv (start m programs).
Proof.
  intros (o & lk & Hown & Hex & Hfree & Hcount & Hlo & Hhi & Hok & Hq).
  exists o, lk. split; [by apply core_start|]. cbn [start pool].
  rewrite sum_with_fmap. erewrite sum_with_ext; [done|]. apply floor_thread_of.
Qed.

Lemma unblocked_red c t : unblocked c t → red cstep c.
Proof.
  intros [[c' Hc]|(t' & th' & _ & _ & [c' Hc])]; exists c'; by econstructor.
Qed.

(** While a thread is not finished, it can take a step, or the thread that
    holds the lock can. *)
Lemma inv_unblocked c t th :
  inv c → pool c !! t = Some th → finished th = false → unblocked c t.
Proof.
  intros (o & lk & Hlive) Ht Hfin.
  destruct (live_thread_step _ _ _ _ _ Hlive Ht Hfin) as [Ha|(_ & _ & t' & _ & Hh)].
  { destruct (advances_cstep _ _ _ _ _ Hlive Ht Hfin Ha) as (c' & ? & _).
    left. by exists c'. }
  destruct (proj1 (core_holder _ _ _ _ _ _ (live_core _ _ _ _ _ _ Hlive) t') Hh)
    as (th' & Ht' & Hin).
  pose proof (in_cs_not_finished _ Hin) as Hfin'.
  destruct (live_thread_step _ _ _ _ _ Hlive Ht' Hfin') as [Ha|(_ & ? & _)]; [|congruence].
  destruct (advances_cstep _ _ _ _ _ Hlive Ht' Hfin' Ha) as (c' & ? & _).
  right. exists t', th'. split_and!; [done..|]. by exists c'.
Qed.

(** So some thread can take a step: the one that holds the lock, or any if
    the lock is free. *)
Lemma inv_progress c t th :
  inv c → pool c !! t = Some th → finished th = false → red cstep c.
Proof. eauto using unblocked_red, inv_unblocked. Qed.

(** A finished thread of the invariant has returned from its last call and
    holds nothing. *)
Lemma finished_owned th :
  thread_ok th → finished th = true → th = thread_of [].
Proof. destruct th as [[] []]; by intros (? & ?). Qed.

End invariant.

(** ** Every state the threads reach *)

Section reachable.
Context `{EM : ErrorMechanism}.
Context (this l : loc) (c0 : Z).
Implicit Types (m : Machine) (programs : list (list Invocation)) (c : Conc).

#[local] Abbreviation reachable := (reachable this l c0).

Lemma reachable_inv m programs c : reachable m programs c → inv this l c0 c.
Proof. intros [??]. eauto using inv_rtc, inv_start. Qed.

(** When no thread can move, every thread has returned from its last
    call. *)
Lemma reachable_done m programs c :
  reachable m programs c → nf cstep c →
  pool c = replicate (length programs) (thread_of []).
Proof.
  intros Hr Hnf. destruct (reachable_inv _ _ _ Hr) as (o & lk & Hlive).
  destruct Hr as [_ Hrun].
  pose proof (cstep_length _ _ Hrun) as Hlen. simpl in Hlen.
  rewrite length_fmap in Hlen. rewrite <- Hlen.
  apply list_eq_Forall2, Forall2_replicate_r; [done|].
  apply Forall_lookup. intros t th Ht. unfold flip.
  destruct (finished th) eqn:Hfin.
  - eapply finished_owned, Hfin. eapply core_thread_ok; [apply Hlive | done].
  - destruct Hnf. eapply inv_progress; [by exists o, lk | done..].
Qed.

(** The counter is its final value plus what the calls still to make give
    back; it is at least 1, the object is alive and nothing was signalled. *)
Theorem counter_counts_references m programs c :
  reachable m programs c →
  ∃ o, objects (mem c) !! this = Some o ∧
       m_refCount o = c0 + sum_with owned (pool c) ∧
       1 ≤ m_refCount o ≤ INT_MAX ∧ signalled (mem c) = [].
Proof.
  intros (o & lk & Hlive)%reachable_inv. exists o.
  pose proof (live_count_range _ _ _ _ _ _ Hlive).
  destruct Hlive as [[[] ? ? ? ? ? ? ?] _]. done.
Qed.

(** C15. At most one thread is between [Lock()] and [Unlock()]. *)
Theorem mutual_exclusion m programs c t1 t2 th1 th2 :
  reachable m programs c →
  pool c !! t1 = Some th1 → pool c !! t2 = Some th2 →
  in_cs (frame th1) = true → in_cs (frame th2) = true → t1 = t2.
Proof.
  intros (o & lk & [Hcore _])%reachable_inv H1 H2 Hin1 Hin2.
  pose proof (core_is_holder _ _ _ _ _ _ Hcore _ _ H1 Hin1).
  pose proof (core_is_holder _ _ _ _ _ _ Hcore _ _ H2 Hin2). congruence.
Qed.

(** The value a thread read for its update is the counter until the thread
    writes it back. *)
Theorem no_lost_update m programs c t th r :
  reachable m programs c → pool c !! t = Some th → reg (frame th) = Some r →
  refCount (mem c) this = Some r.
Proof.
  intros (o & lk & [Hcore _])%reachable_inv Ht Hr.
  rewrite (core_regs _ _ _ _ _ _ Hcore _ _ _ Ht Hr).
  unfold refCount. by rewrite (owns_this _ _ _ _ _ (core_owns _ _ _ _ _ _ Hcore)).
Qed.

(** C16. The counter is written only while the lock is held: a step that
    changes the counter is a step of the thread that holds the lock, between
    its [Lock()] and its [Unlock()]. *)
Theorem counter_written_under_lock m programs c t c' :
  reachable m programs c → cstep_fun t c = Some c' →
  refCount (mem c') this ≠ refCount (mem c) this →
  ∃ th, pool c !! t = Some th ∧ in_cs (frame th) = true ∧
        holder <$> lock_state (mem c) this = Some (Some t).
Proof.
  intros (o & lk & Hlive)%reachable_inv Hc Hne.
  destruct (cstep_fun_inv _ _ _ Hc) as (th & _ & Ht & Hfin & _).
  pose proof (live_core _ _ _ _ _ _ Hlive) as Hcore.
  destruct (live_thread_step _ _ _ _ _ _ _ _ Hlive Ht Hfin)
    as [(th' & m' & o' & lk' & Hstep & Hmoves)|Hw];
    [|apply (waits_cstep _ _ _ _) in Hw; [congruence | done]].
  rewrite (advances_enabled _ _ _ _ _ Ht Hfin Hstep) in Hc. simplify_eq/=.
  rewrite (owns_refCount _ _ _ _ _ (mv_owns _ _ _ _ _ _ _ _ _ _ _ Hmoves)),
    (owns_refCount _ _ _ _ _ (core_owns _ _ _ _ _ _ Hcore)) in Hne.
  destruct (in_cs (frame th)) eqn:Hin;
    [|by rewrite (mv_outside _ _ _ _ _ _ _ _ _ _ _ Hmoves Hin) in Hne].
  exists th. split_and!; [done..|].
  rewrite (owns_lock_state _ _ _ _ _ (core_owns _ _ _ _ _ _ Hcore)).
  by rewrite <- (core_is_holder _ _ _ _ _ _ Hcore _ _ Ht Hin).
Qed.

(** C20. No thread waits for ever: while a thread has not finished, some thread
    can take a step. *)
Theorem no_deadlock m programs c t th :
  reachable m programs c → pool c !! t = Some th → finished th = false →
  red cstep c.
Proof. eauto using inv_progress, reachable_inv. Qed.

(** C17. After all calls complete, the counter is the one before the calls plus
    the [Retain]s minus the [Release]s, and the object is alive. *)
Theorem final_count m programs c :
  reachable m programs c → nf cstep c →
  refCount (mem c) this = Some c0 ∧ alive (mem c) this = true.
Proof.
  intros Hrun Hnf. destruct (reachable_inv _ _ _ Hrun) as (o & lk & [Hcore _]).
  unfold refCount, alive.
  rewrite (owns_this _ _ _ _ _ (core_owns _ _ _ _ _ _ Hcore)).
  split; [simpl; f_equal | by apply bool_decide_eq_true].
  rewrite (core_count _ _ _ _ _ _ Hcore), (reachable_done m programs c) by done.
  rewrite sum_with_zero; [lia | by apply Forall_replicate].
Qed.

(** Every run can be completed: from every state the threads reach, they
    can go on until each has returned from its last call. *)
Theorem calls_complete m programs c :
  reachable m programs c →
  ∃ c', rtc cstep c c' ∧ pool c' = replicate (length programs) (thread_of []).
Proof.
  intros [Hs Hrun]. destruct (cstep_normalises c) as (c' & Hrun' & Hnf).
  exists c'. split; [done|].
  apply (reachable_done m); [split; [done | by etrans] | done].
Qed.

(** The machine when no thread can move. *)
Lemma reachable_final m programs c :
  reachable m programs c → nf cstep c →
  refCount (mem c) this = Some c0 ∧ alive (mem c) this = true ∧
  signalled (mem c) = [].
Proof.
  intros Hrun Hnf. destruct (reachable_inv _ _ _ Hrun) as (o & lk & [Hcore _]).
  unfold refCount, alive.
  rewrite (owns_this _ _ _ _ _ (core_owns _ _ _ _ _ _ Hcore)).
  split_and!; [simpl; f_equal | by apply bool_decide_eq_true | apply Hcore].
  rewrite (core_count _ _ _ _ _ _ Hcore), (reachable_done m programs c) by done.
  rewrite sum_with_zero; [lia | by apply Forall_replicate].
Qed.

(** C21. The calls end under a fair schedule, with a bound: when the threads
    take turns ([round_robin]), as many rounds as the threads have
    statements to execute are enough for every thread to return from its
    last call, none waiting for the lock and none stopped; the counter is
    then the one before the calls plus the [Retain]s minus the
    [Release]s, the object is alive and nothing was signalled. *)
Theorem round_robin_completes m programs k :
  shares this l c0 m programs → (total_work (start m programs) ≤ k)%nat →
  pool (run_schedule (round_robin (length programs) k) (start m programs)) =
    replicate (length programs) (thread_of []) ∧
  refCount (mem (run_schedule (round_robin (length programs) k)
                   (start m programs))) this = Some c0 ∧
  alive (mem (run_schedule (round_robin (length programs) k)
                (start m programs))) this = true ∧
  signalled (mem (run_schedule (round_robin (length programs) k)
                    (start m programs))) = [].
Proof.
  intros Hsh Hk.
  assert (reachable m programs
            (run_schedule (round_robin (length programs) k) (start m programs)))
    as Hr by (split; [done | apply run_schedule_rtc]).
  assert (nf cstep
            (run_schedule (round_robin (length programs) k) (start m programs)))
    as Hnf by (apply round_robin_nf; [simpl; by rewrite length_fmap | done]).
  split; [by eapply reachable_done | by eapply reachable_final].
Qed.

End reachable.

(** ** The concrete pool *)

(** Any number of threads that fits in an [int] may share the object of
    [machine1]. *)
Lemma shares_pool_of n :
  Z.of_nat n < INT_MAX →
  shares 1%positive 1%positive 1 (machine1 1) (replicate n retain_release).
Proof.
  intros Hn. exists (object1 1), new_Mutex.
  rewrite !sum_with_replicate.
  change (balance retain_release) with 0. change (lo retain_release) with 0.
  change (hi retain_release) with 1.
  split_and!; try done; try (simpl; lia). by apply Forall_replicate.
Qed.

Lemma pool_of_reachable (n : nat) s :
  Z.of_nat n < INT_MAX →
  reachable (EM:=Throwing) 1%positive 1%positive 1 (machine1 1)
    (replicate n retain_release) (pool_after n s).
Proof. split; [by apply shares_pool_of | apply run_schedule_rtc]. Qed.

Lemma cstep_preserves_inv_witness :
  inv 1%positive 1%positive 1 (pool_after 2 [0]%nat).
Proof.
  apply (cstep_preserves_inv (EM:=Throwing) 1%positive 1%positive 1 (pool_of 2)
           (pool_after 2 [0]%nat));
    [by apply (inv_start _ _ _ (machine1 1) (replicate 2 retain_release)),
       shares_pool_of
    | by apply (cstep_thread 0%nat)].
Defined.

Lemma counter_counts_references_witness :
  ∃ o, objects (mem (pool_after 2 [0; 0; 0; 0; 1]%nat)) !! 1%positive = Some o ∧
       m_refCount o = 1 + sum_with owned (pool (pool_after 2 [0; 0; 0; 0; 1]%nat)) ∧
       1 ≤ m_refCount o ≤ INT_MAX ∧
       signalled (mem (pool_after 2 [0; 0; 0; 0; 1]%nat)) = [].
Proof.
  by apply (counter_counts_references (EM:=Throwing) 1%positive 1%positive 1
              (machine1 1) (replicate 2 retain_release)), pool_of_reachable.
Defined.

Lemma mutual_exclusion_witness : 0%nat = 0%nat.
Proof.
  apply (mutual_exclusion (EM:=Throwing) 1%positive 1%positive 1 (machine1 1)
           (replicate 2 retain_release) (pool_after 2 [0; 0; 0]%nat)
           0%nat 0%nat thread_98w thread_98w);
    [by apply pool_of_reachable | reflexivity..].
Defined.

Lemma no_lost_update_witness :
  refCount (mem (pool_after 2 [0; 0; 0; 1; 1]%nat)) 1%positive = Some 1.
Proof.
  apply (no_lost_update (EM:=Throwing) 1%positive 1%positive 1 (machine1 1)
           (replicate 2 retain_release) (pool_after 2 [0; 0; 0; 1; 1]%nat)
           0%nat thread_98w 1);
    [by apply pool_of_reachable | reflexivity..].
Defined.

Lemma counter_written_under_lock_witness :
  ∃ th, pool (pool_after 2 [0; 0; 0]%nat) !! 0%nat = Some th ∧
        in_cs (frame th) = true ∧
        holder <$> lock_state (mem (pool_after 2 [0; 0; 0]%nat)) 1%positive
          = Some (Some 0%nat).
Proof.
  apply (counter_written_under_lock (EM:=Throwing) 1%positive 1%positive 1
           (machine1 1) (replicate 2 retain_release) (pool_after 2 [0; 0; 0]%nat)
           0%nat (pool_after 2 [0; 0; 0; 0]%nat));
    [by apply pool_of_reachable | reflexivity | by vm_compute].
Defined.

Lemma no_deadlock_witness :
  red (cstep (EM:=Throwing)) (pool_after 2 [0; 0; 0; 1; 1]%nat).
Proof.
  apply (no_deadlock (EM:=Throwing) 1%positive 1%positive 1 (machine1 1)
           (replicate 2 retain_release) (pool_after 2 [0; 0; 0; 1; 1]%nat)
           0%nat thread_98w);
    [by apply pool_of_reachable | reflexivity..].
Defined.

(** Ten threads and a round-robin schedule that lets them finish. *)
Lemma ten_threads_stuck :
  nf (cstep (EM:=Throwing)) (pool_after 10 (round_robin 10 250)).
Proof. apply stuck_nf. by vm_compute. Qed.

Lemma final_count_witness :
  refCount (mem (pool_after 10 (round_robin 10 250))) 1%positive = Some 1 ∧
  alive (mem (pool_after 10 (round_robin 10 250))) 1%positive = true.
Proof.
  apply (final_count (EM:=Throwing) 1%positive 1%positive 1 (machine1 1)
           (replicate 10 retain_release) (pool_after 10 (round_robin 10 250)));
    [by apply pool_of_reachable | apply ten_threads_stuck].
Defined.

(** Ten threads that retain and release: 250 statements, 250 rounds. *)
Lemma round_robin_completes_witness :
  pool (pool_after 10 (round_robin 10 250)) = replicate 10 (thread_of []) ∧
  refCount (mem (pool_after 10 (round_robin 10 250))) 1%positive = Some 1 ∧
  alive (mem (pool_after 10 (round_robin 10 250))) 1%positive = true ∧
  signalled (mem (pool_after 10 (round_robin 10 250))) = [].
Proof.
  apply (round_robin_completes (EM:=Throwing) 1%positive 1%positive 1
           (machine1 1) (replicate 10 retain_release) 250);
    [by apply shares_pool_of | by vm_compute].
Defined.

Lemma calls_complete_witness :
  ∃ c', rtc (cstep (EM:=Throwing)) (pool_after 2 [0; 0; 0]%nat) c' ∧
        pool c' = replicate 2 (thread_of []).
Proof.
  by apply (calls_complete (EM:=Throwing) 1%positive 1%positive 1 (machine1 1)
              (replicate 2 retain_release) (pool_after 2 [0; 0; 0]%nat)),
    pool_of_reachable.
Defined.
