(* ===== verification/LastRelease.v ===== *)
(** * LastRelease: the release that destroys a shared object

    Threads share the object at [this] and nobody else holds a reference:
    when every call has been made the counter has reached 0.  Each thread
    holds a reference whenever it makes a call ([strict]).  Whatever the
    schedule, the pool goes through three phases: the object is shared
    ([phase_shared]); one thread has found the counter at 0 in its [Release]
    and destroys the object while every other thread has finished
    ([phase_dying]); the object and its lock are gone ([phase_dead]).  So
    exactly one thread destroys the object, after the last call of every
    other thread, and no call is made on the destroyed object. *)

From S2P Require Import Prelude Lock Diagnostic Machine SmartObject Concurrent Monotone Sharing.

(** The statements of the last [Release] from the dummy increment on, the
    destructor and [operator delete] included. *)
Definition destroying (f : Frame) : bool :=
  match f with
  | Release_113 _ | Release_113w _ _ | Release_114 _
  | Dtor_186 _ | Dtor_187 _ | Dtor_187w _ _ | Dtor_188 _ | Dtor_189 _
  | Dtor_193 _ | Dtor_195 _ | Dtor_196 _ | Dtor_198 _ _ | Delete_115 _ => true
  | _ => false
  end.

Section last_release.
Context `{EM : ErrorMechanism}.
Context (this l : loc).

(** The messages of destructors that the log held before the threads
    started. *)
Context (d0 : list LogEvent).

(** The machine after the destruction: the object and its lock are freed,
    the destructor wrote its one message with the counter at 0, and nothing
    was signalled. *)
Record destroyed (m : Machine) : Prop := {
  destroyed_object : objects m !! this = None;
  destroyed_lock : locks m !! l = None;
  destroyed_quiet : signalled m = [];
  destroyed_once : deletions m = d0 ++ [event Deleted None this 0];
}.

(** The threads but [t] have finished; [t] is at frame [f] of its last
    call. *)
Definition only (t : tid) (f : Frame) (threads : list Thread) : Prop :=
  ∀ (t' : tid) th, threads !! t' = Some th →
    th = if decide (t' = t) then {| frame := f; todo := [] |} else thread_of [].

(** Some thread has written the decrement of its [Release] and not yet
    made the test for 0. *)
Definition decrementing (threads : list Thread) : Prop :=
  ∃ (t : tid) th, threads !! t = Some th ∧ just_decremented (frame th) = true.

(** The three phases. *)
Inductive phase : Conc → Prop :=
| phase_shared c o lk :
    core this l 0 c o lk → Forall thread_strict (pool c) →
    deletions (mem c) = d0 →
    1 ≤ m_refCount o ∨ decrementing (pool c) →
    phase c
| phase_dying c t f M :
    only t f (pool c) → (t < length (pool c))%nat → destroying f = true →
    run_alone (remaining f) t f (mem c) = (Normal tt, M) → destroyed M →
    phase c
| phase_dead c :
    Forall (λ th, th = thread_of []) (pool c) → destroyed (mem c) →
    phase c.

(** What the threads start from: the object is alive with a free lock that
    excludes, its counter is what the calls of the threads give back, and
    each thread holds a reference whenever it makes a call. *)
Definition shares_last (m : Machine) (programs : list (list Invocation)) : Prop :=
  ∃ o lk,
    owns m this o l lk ∧ exclusive lk = true ∧ holder lk = None ∧
    m_refCount o = sum_with balance programs ∧
    1 ≤ sum_with balance programs ∧ sum_with hi programs ≤ INT_MAX ∧
    Forall (todo_ok this) programs ∧ Forall strict programs ∧
    signalled m = [].

(** The states the threads reach from such a start. *)
Definition reachable_last (m : Machine) (programs : list (list Invocation))
    (c : Conc) : Prop :=
  shares_last m programs ∧ rtc cstep (start m programs) c.

End last_release.

(** ** A concrete pool *)

(** A thread that holds a reference takes one more and gives both back. *)
Definition retain_release_release : list Invocation :=
  [Inv_Retain site0 1%positive; Inv_Release site0 1%positive;
   Inv_Release site0 1%positive].

(** [n] threads that do so, on an object that they alone own. *)
Definition owners_of (n : nat) : Conc :=
  start (machine1 (Z.of_nat n)) (replicate n retain_release_release).

(** Their state after schedule [s], with the throwing verification. *)
Definition owners_after (n : nat) (s : list tid) : Conc :=
  run_schedule (EM:=Throwing) s (owners_of n).

(** Thread 0 makes its three calls, then thread 1 makes [k] steps. *)
Definition first_then_second (k : nat) : list tid :=
  (replicate 22 0 ++ replicate k 1)%nat.

(** A thread inside the destructor, after its decrement. *)
Definition thread_dtor : Thread :=
  {| frame := Dtor_188 1%positive; todo := [] |}.

(** One of two owners that has read the counter in its [Retain]. *)
Definition thread_retaining : Thread :=
  {| frame := Retain_98w site0 1%positive 1%positive 2;
     todo := [Inv_Release site0 1%positive; Inv_Release site0 1%positive] |}.

(** ** The last thread *)

Lemma only_lookup t f threads :
  only t f threads → (t < length threads)%nat →
  threads !! t = Some {| frame := f; todo := [] |}.
Proof.
  intros Honly [th Ht]%lookup_lt_is_Some.
  pose proof (Honly _ _ Ht) as Hth. rewrite decide_True in Hth by done.
  subst th. exact Ht.
Qed.

Lemma only_insert t f f' threads :
  only t f threads → only t f' (<[t := {| frame := f'; todo := [] |}]> threads).
Proof.
  intros Honly t' th. destruct (decide (t' = t)) as [->|Hne].
  - intros Ht. pose proof (lookup_lt_Some _ _ _ Ht) as Hlt.
    rewrite length_insert in Hlt. rewrite list_lookup_insert_eq in Ht by done.
    congruence.
  - rewrite list_lookup_insert_ne by done. intros Ht.
    by rewrite (Honly _ _ Ht), decide_False.
Qed.

Lemma only_Returned t threads :
  only t Returned threads → Forall (λ th, th = thread_of []) threads.
Proof.
  intros Honly. apply Forall_lookup. intros t' th Ht.
  rewrite (Honly _ _ Ht). by case_decide.
Qed.

Lemma only_finished t f threads t' th :
  only t f threads → threads !! t' = Some th → t' ≠ t → finished th = true.
Proof. intros Honly Ht Hne. by rewrite (Honly _ _ Ht), decide_False. Qed.

Section phases.
Context `{EM : ErrorMechanism}.
Context (this l : loc) (d0 : list LogEvent).

#[local] Abbreviation core := (core this l 0).
#[local] Abbreviation phase := (phase this l d0).
#[local] Abbreviation destroyed := (destroyed this l d0).

Section shared.
Context (c : Conc) (o : SmartObject) (lk : BaseLock).
Context (Hcore : core c o lk) (Hstrict : Forall thread_strict (pool c)).
Context (Hlog : deletions (mem c) = d0).
Context (Halive : 1 ≤ m_refCount o ∨ decrementing (pool c)).
Context (t : tid) (th : Thread) (Ht : pool c !! t = Some th).

Lemma shared_owned_nonneg : Forall (λ th, 0 ≤ owned th) (pool c).
Proof. eapply Forall_impl; [done|]. apply strict_owned. Qed.

(** The counter is an [int] that is not negative. *)
Lemma shared_count_range : 0 ≤ m_refCount o ≤ INT_MAX.
Proof using Hcore Hstrict.
  rewrite (core_count _ _ _ _ _ _ Hcore).
  pose proof (core_ceiling _ _ _ _ _ _ Hcore).
  pose proof (sum_with_nonneg owned _ shared_owned_nonneg).
  assert (sum_with owned (pool c) ≤ sum_with ceiling (pool c))
    by apply sum_with_le, Forall_true, owned_le_ceiling.
  lia.
Qed.

(** The counter counts the thread at its frame. *)
Lemma shared_count_lowest : lowest (frame th) ≤ m_refCount o.
Proof.
  rewrite (core_count _ _ _ _ _ _ Hcore), Z.add_0_l.
  pose proof (sum_with_lookup_ge owned _ _ _ Ht shared_owned_nonneg).
  pose proof (Forall_lookup_1 _ _ _ _ Hstrict Ht) as [_ ?]. lia.
Qed.

Lemma shared_needs :
  (∀ x, frame th = Release_111 x → m_refCount o ≠ 0) →
  needs (frame th) ≤ m_refCount o.
Proof.
  intros Htest. pose proof shared_count_lowest.
  pose proof (lowest_nonneg (frame th)).
  destruct (frame th) eqn:Hf; simpl in *; try lia.
  specialize (Htest _ eq_refl). lia.
Qed.

(** The thread that just decremented holds the lock: it is the only one
    whose step can change the counter. *)
Lemma shared_alive_here :
  in_cs (frame th) = true →
  1 ≤ m_refCount o ∨ just_decremented (frame th) = true.
Proof.
  intros Hin. destruct Halive as [|(t0 & th0 & Ht0 & Hj)]; [by left|]. right.
  assert (in_cs (frame th0) = true) as Hin0 by by destruct (frame th0).
  pose proof (core_is_holder _ _ _ _ _ _ Hcore _ _ Ht Hin) as H1.
  pose proof (core_is_holder _ _ _ _ _ _ Hcore _ _ Ht0 Hin0) as H2.
  rewrite H1 in H2. injection H2 as <-. rewrite Ht in Ht0. by injection Ht0 as <-.
Qed.

(** A step that keeps the object: the pool stays in the first phase. *)
Lemma shared_advances :
  finished th = false → advances this l c o lk t th →
  ∃ c', cstep_fun t c = Some c' ∧ phase c'.
Proof.
  intros Hfin (th' & m' & o' & lk' & Hstep & Hmoves).
  pose proof (lookup_lt_Some _ _ _ Ht).
  eexists. split; [by eapply advances_enabled|].
  apply (phase_shared _ _ _ _ o' lk'); simpl.
  - by eapply core_update.
  - apply Forall_insert; [done|]. eapply mv_strict; [done|].
    by eapply Forall_lookup_1.
  - by rewrite (mv_log _ _ _ _ _ _ _ _ _ _ _ Hmoves).
  - destruct (in_cs (frame th)) eqn:Hin.
    + destruct (mv_alive _ _ _ _ _ _ _ _ _ _ _ Hmoves (shared_alive_here Hin));
        [by left|right].
      exists t, th'. by rewrite list_lookup_insert_eq.
    + rewrite (mv_outside _ _ _ _ _ _ _ _ _ _ _ Hmoves Hin).
      destruct Halive as [|(t0 & th0 & Ht0 & Hj)]; [by left|right].
      exists t0, th0. rewrite list_lookup_insert_ne; [done|].
      intros <-. assert (th0 = th) as -> by congruence. by destruct (frame th).
Qed.

(** When the test of line 111 finds 0, every other thread has finished and
    this one has no call left. *)
Lemma shared_zero x :
  frame th = Release_111 x → m_refCount o = 0 →
  x = this ∧ only t (Release_111 this) (pool c).
Proof.
  intros Hf Hc.
  pose proof (core_thread_ok _ _ _ _ _ _ Hcore _ _ Ht) as [Hok _].
  rewrite Hf in Hok. simpl in Hok. subst x. split; [done|].
  assert (Forall (λ th, owned th = 0) (pool c)) as Hzero.
  { apply sum_with_zero_inv; [apply shared_owned_nonneg|].
    pose proof (core_count _ _ _ _ _ _ Hcore). lia. }
  assert (holder lk = Some t) as Hheld
    by (eapply core_is_holder; [done..|by rewrite Hf]).
  intros t' th' Ht'.
  pose proof (Forall_lookup_1 _ _ _ _ Hzero Ht').
  pose proof (Forall_lookup_1 _ _ _ _ Hstrict Ht').
  case_decide as Heq.
  - subst t'. assert (th' = th) as -> by congruence. destruct th as [f rest].
    simpl in Hf. subst f. f_equal.
    by apply (strict_last {| frame := Release_111 this; todo := rest |}).
  - eapply strict_zero; [by eapply core_thread_ok | done..|].
    destruct (in_cs (frame th')) eqn:Hin; [|done].
    pose proof (core_is_holder _ _ _ _ _ _ Hcore _ _ Ht' Hin). congruence.
Qed.

(** The test finds 0: the thread goes on to destroy the object, and from
    here its statements alone free the object and its lock. *)
Lemma shared_dies x :
  frame th = Release_111 x → m_refCount o = 0 →
  ∃ c', cstep_fun t c = Some c' ∧ phase c'.
Proof.
  intros Hf Hc. destruct (shared_zero _ Hf Hc) as [-> Honly].
  pose proof (lookup_lt_Some _ _ _ Ht) as Hlt.
  pose proof (only_lookup _ _ _ Honly Hlt) as Hth.
  rewrite Ht in Hth. injection Hth as Hth.
  pose proof (core_owns _ _ _ _ _ _ Hcore) as Howns. pose proof Howns as [].
  assert (holder lk = Some t) as Hheld
    by (eapply core_is_holder; [done..|by rewrite Hf]).
  destruct (BaseLock_holder_unlocks _ _ Hheld) as (lk' & Hu & Hfree & _).
  exists {| mem := mem c;
            pool := <[t := {| frame := Release_113 this; todo := [] |}]> (pool c) |}.
  split.
  - eapply advances_enabled; [done | by rewrite Hth |]. rewrite Hth.
    cbn [tstep frame todo fstep Release_step]. exec_steps. done.
  - eapply (phase_dying _ _ _ _ t (Release_113 this)); cbn [mem pool];
      [by eapply only_insert | by rewrite length_insert | done
      | by eapply alone_destroys |].
    split; [simpl; by simplify_map_eq | simpl; by simplify_map_eq | apply Hcore |].
    rewrite deletions_Deleted. change (deletions _) with (deletions (mem c)).
    by rewrite Hlog.
Qed.

End shared.

(** ** The steps of each phase *)

(** While the object is shared a thread that is not finished takes a step
    that keeps the pool in a phase, or waits for the lock. *)
Lemma shared_step c o lk t th :
  core c o lk → Forall thread_strict (pool c) → deletions (mem c) = d0 →
  1 ≤ m_refCount o ∨ decrementing (pool c) →
  pool c !! t = Some th → finished th = false →
  (∃ c', cstep_fun t c = Some c' ∧ phase c') ∨ waits l c lk t th.
Proof.
  intros Hcore Hstrict Hlog Halive Ht Hfin.
  assert ((∃ x, frame th = Release_111 x ∧ m_refCount o = 0) ∨
          (∀ x, frame th = Release_111 x → m_refCount o ≠ 0)) as [(x & Hf & Hc)|Hne].
  { destruct (decide (m_refCount o = 0)); [|right; by intros].
    destruct (frame th) eqn:Hf; try (right; by intros); left; eauto. }
  - left. by eapply shared_dies.
  - destruct (core_thread_step _ _ _ _ _ _ Hcore _ _ Ht Hfin) as [Ha|Hw];
      [by eapply shared_needs | left; by eapply shared_advances | by right].
Qed.

(** The statements of the destruction follow one another up to the
    return. *)
Lemma destroying_not_final f : destroying f = true → is_final f = false.
Proof. by destruct f. Qed.

Lemma fstep_destroying t f f' m m' :
  fstep t f m = (Normal f', m') → destroying f = true →
  destroying f' = true ∨ f' = Returned.
Proof.
  destruct f; intros Hf ?; try done;
    cbn [fstep Retain_step Release_step dtor_step] in Hf;
    unfold exec_bind, exec_ret in Hf; repeat case_match; simplify_eq; auto.
Qed.

(** The thread that destroys the object makes its next statement. *)
Lemma dying_step c t f M :
  only t f (pool c) → (t < length (pool c))%nat → destroying f = true →
  run_alone (remaining f) t f (mem c) = (Normal tt, M) → destroyed M →
  ∃ c', cstep_fun t c = Some c' ∧ phase c'.
Proof.
  intros Honly Hlt Hd Hrun HM. pose proof (destroying_not_final _ Hd) as Hfinal.
  destruct (run_alone_inv _ _ _ _ Hfinal Hrun) as (f' & m' & Hf & Hrun').
  pose proof (only_lookup _ _ _ Honly Hlt) as Ht.
  exists {| mem := m'; pool := <[t := {| frame := f'; todo := [] |}]> (pool c) |}.
  split.
  { eapply advances_enabled; [done | by apply final_not_finished |].
    rewrite tstep_inside by done. simpl. by erewrite exec_bind_normal. }
  destruct (fstep_destroying _ _ _ _ _ Hf Hd) as [Hd'| ->].
  - eapply (phase_dying _ _ _ _ t f'); cbn [mem pool]; eauto using only_insert.
    by rewrite length_insert.
  - rewrite run_alone_final in Hrun' by done. injection Hrun' as <-.
    apply phase_dead; cbn [mem pool]; [|done]. by eapply only_Returned, only_insert.
Qed.

(** The other threads have finished. *)
Lemma dying_others c t f t' :
  only t f (pool c) → t' ≠ t → cstep_fun t' c = None.
Proof.
  intros Honly Hne. destruct (pool c !! t') as [th|] eqn:Ht.
  - eapply finished_disabled; [done|]. by eapply only_finished.
  - unfold cstep_fun. by rewrite Ht.
Qed.

Lemma dead_disabled c t :
  Forall (λ th, th = thread_of []) (pool c) → cstep_fun t c = None.
Proof.
  intros Hall. destruct (pool c !! t) as [th|] eqn:Ht;
    [|unfold cstep_fun; by rewrite Ht].
  eapply finished_disabled; [done|]. by rewrite (Forall_lookup_1 _ _ _ _ Hall Ht).
Qed.

(** ** The phases are an invariant *)

Lemma phase_cstep_fun t c c' : phase c → cstep_fun t c = Some c' → phase c'.
Proof.
  intros [c1 o lk Hcore Hstrict Hlog Halive|c1 t0 f M Honly Hlt Hdes Hrun Hd
         |c1 Hall Hd] Hc.
  - destruct (cstep_fun_inv _ _ _ Hc) as (th & _ & Ht & Hfin & _).
    destruct (shared_step _ _ _ _ _ Hcore Hstrict Hlog Halive Ht Hfin)
      as [(c2 & ? & ?)|Hw]; [congruence|].
    eapply waits_cstep in Hw; [congruence | done].
  - destruct (decide (t = t0)) as [->|Hne].
    + destruct (dying_step _ _ _ _ Honly Hlt Hdes Hrun Hd) as (c2 & ? & ?).
      congruence.
    + by rewrite (dying_others _ _ _ _ Honly Hne) in Hc.
  - by rewrite dead_disabled in Hc.
Qed.

Lemma phase_rtc c c' : phase c → rtc cstep c c' → phase c'.
Proof. induction 2 as [|? ? ? [t ? ? ?]]; eauto using phase_cstep_fun. Qed.

Lemma phase_start m programs :
  shares_last this l m programs → deletions m = d0 → phase (start m programs).
Proof.
  intros (o & lk & Hown & Hex & Hfree & Hcount & Hone & Hhi & Hok & Hstrict & Hq) Hlog.
  apply (phase_shared _ _ _ _ o lk); cbn [start mem pool]; [|  |done|left; lia].
  - by apply core_start.
  - apply Forall_fmap. eapply Forall_impl; [done|]. apply strict_thread_of.
Qed.

(** ** The object is destroyed *)

(** While the object is shared, a thread that is not finished can take a
    step, or the thread that holds the lock can. *)
Lemma shared_unblocked c o lk t th :
  core c o lk → Forall thread_strict (pool c) → deletions (mem c) = d0 →
  1 ≤ m_refCount o ∨ decrementing (pool c) →
  pool c !! t = Some th → finished th = false → unblocked c t.
Proof.
  intros Hcore Hstrict Hlog Halive Ht Hfin.
  destruct (shared_step _ _ _ _ _ Hcore Hstrict Hlog Halive Ht Hfin)
    as [(c' & ? & _)|(_ & _ & t' & _ & Hh)]; [left; by exists c'|].
  destruct (proj1 (core_holder _ _ _ _ _ _ Hcore t') Hh) as (th' & Ht' & Hin).
  pose proof (in_cs_not_finished _ Hin) as Hfin'.
  destruct (shared_step _ _ _ _ _ Hcore Hstrict Hlog Halive Ht' Hfin')
    as [(c' & ? & _)|(_ & ? & _)]; [|congruence].
  right. exists t', th'. split_and!; [done..|]. by exists c'.
Qed.

Lemma shared_unfinished_red c o lk t th :
  core c o lk → Forall thread_strict (pool c) → deletions (mem c) = d0 →
  1 ≤ m_refCount o ∨ decrementing (pool c) →
  pool c !! t = Some th → finished th = false → red cstep c.
Proof. eauto using unblocked_red, shared_unblocked. Qed.

(** While the counter is not 0 some thread has a call to make. *)
Lemma shared_unfinished c o lk :
  core c o lk → 1 ≤ m_refCount o →
  ∃ (t : tid) th, pool c !! t = Some th ∧ finished th = false.
Proof.
  intros Hcore Hone.
  destruct (decide (Forall (λ th, finished th = true) (pool c))) as [Hall|Hsome].
  - rewrite (core_count _ _ _ _ _ _ Hcore), sum_with_zero in Hone; [lia|].
    apply Forall_lookup. intros t th Ht.
    by rewrite (finished_owned this l th (core_thread_ok _ _ _ _ _ _ Hcore _ _ Ht)
                  (Forall_lookup_1 _ _ _ _ Hall Ht)).
  - apply not_Forall_Exists, Exists_exists in Hsome as (th & Hin & Hfin); [|apply _].
    apply list_elem_of_lookup in Hin as [t Ht]. exists t, th.
    split; [done | by apply not_true_is_false].
Qed.

Lemma shared_red c o lk :
  core c o lk → Forall thread_strict (pool c) → deletions (mem c) = d0 →
  1 ≤ m_refCount o ∨ decrementing (pool c) → red cstep c.
Proof.
  intros Hcore Hstrict Hlog Halive.
  assert (∃ (t : tid) th, pool c !! t = Some th ∧ finished th = false)
    as (t & th & Ht & Hfin); [|by eapply shared_unfinished_red].
  destruct Halive as [Hone|(t & th & Ht & Hj)]; [by eapply shared_unfinished|].
  exists t, th. split; [done|]. apply in_cs_not_finished. by destruct (frame th).
Qed.

(** A pool that cannot move has destroyed the object, and every thread has
    returned from its last call. *)
Lemma phase_nf c :
  phase c → nf cstep c →
  Forall (λ th, th = thread_of []) (pool c) ∧ destroyed (mem c).
Proof.
  intros [c1 o lk Hcore Hstrict Hlog Halive|c1 t0 f M Honly Hlt Hdes Hrun Hd
         |c1 Hall Hd] Hnf; [| |done].
  - destruct Hnf. by eapply shared_red.
  - destruct Hnf.
    destruct (dying_step _ _ _ _ Honly Hlt Hdes Hrun Hd) as (c2 & ? & _).
    exists c2. by econstructor.
Qed.

(** In every phase a thread that is not finished can take a step, or the
    thread that holds the lock can. *)
Lemma phase_unblocked c t th :
  phase c → pool c !! t = Some th → finished th = false → unblocked c t.
Proof.
  intros [c1 o lk Hcore Hstrict Hlog Halive|c1 t0 f M Honly Hlt Hdes Hrun Hd
         |c1 Hall Hd] Ht Hfin.
  - by eapply shared_unblocked.
  - destruct (decide (t = t0)) as [->|Hne];
      [|by rewrite (only_finished _ _ _ _ _ Honly Ht Hne) in Hfin].
    destruct (dying_step _ _ _ _ Honly Hlt Hdes Hrun Hd) as (c2 & ? & _).
    left. by exists c2.
  - by rewrite (Forall_lookup_1 _ _ _ _ Hall Ht) in Hfin.
Qed.

(** In every phase nothing is signalled. *)
Lemma phase_quiet c : phase c → signalled (mem c) = [].
Proof.
  intros [c1 o lk Hcore _ _ _|c1 t0 f M _ _ _ Hrun Hd|c1 _ Hd].
  - apply (core_quiet _ _ _ _ _ _ Hcore).
  - pose proof (evolves_signalled _ _
                  (evolving_run_alone (remaining f) t0 f (mem c1))) as Hpre.
    rewrite Hrun in Hpre. cbn [snd] in Hpre.
    rewrite (destroyed_quiet _ _ _ _ Hd) in Hpre. by apply prefix_nil_inv.
  - apply (destroyed_quiet _ _ _ _ Hd).
Qed.

(** At most one thread is between [Lock()] and [Unlock()]. *)
Lemma phase_exclusive c t1 t2 th1 th2 :
  phase c → pool c !! t1 = Some th1 → pool c !! t2 = Some th2 →
  in_cs (frame th1) = true → in_cs (frame th2) = true → t1 = t2.
Proof.
  intros [c1 o lk Hcore _ _ _|c1 t0 f M Honly _ _ _ _|c1 Hall _] H1 H2 Hin1 Hin2.
  - pose proof (core_is_holder _ _ _ _ _ _ Hcore _ _ H1 Hin1).
    pose proof (core_is_holder _ _ _ _ _ _ Hcore _ _ H2 Hin2). congruence.
  - rewrite (Honly _ _ H1) in Hin1. rewrite (Honly _ _ H2) in Hin2.
    repeat case_decide; by simplify_eq.
  - by rewrite (Forall_lookup_1 _ _ _ _ Hall H1) in Hin1.
Qed.

End phases.

(** ** Every state the owners reach *)

Section last.
Context `{EM : ErrorMechanism}.
Context (this l : loc).
Implicit Types (m : Machine) (programs : list (list Invocation)) (c : Conc).

#[local] Abbreviation reachable_last := (reachable_last this l).
#[local] Abbreviation phase := (phase this l).
#[local] Abbreviation destroyed := (destroyed this l).

Lemma reachable_phase m programs c :
  reachable_last m programs c → phase (deletions m) c.
Proof. intros [??]. eauto using phase_rtc, phase_start. Qed.

Lemma all_returned m programs c :
  rtc cstep (start m programs) c → Forall (λ th, th = thread_of []) (pool c) →
  pool c = replicate (length programs) (thread_of []).
Proof.
  intros Hlen%cstep_length Hall. simpl in Hlen. rewrite length_fmap in Hlen.
  rewrite <- Hlen. apply list_eq_Forall2, Forall2_replicate_r; [done|].
  eapply Forall_impl; [done|]. by intros ? ->.
Qed.

Lemma deletions_prefix m m' :
  log m `prefix_of` log m' → deletions m `prefix_of` deletions m'.
Proof. intros [k Hk]. unfold deletions. rewrite Hk, filter_app. by apply prefix_app_r. Qed.

Lemma destroying_not_ok f : destroying f = true → ¬ frame_ok this l f.
Proof. destruct f; simpl; intros ? ?; done. Qed.

(** Every statement executed by any thread keeps the pool in one of the
    three phases. *)
Theorem cstep_preserves_phase d0 c c' : phase d0 c → cstep c c' → phase d0 c'.
Proof.
  intros Hp Hs. inversion Hs as [t ? ? Hc]; subst. by eapply phase_cstep_fun.
Qed.

(** C18. When no thread can move, whatever the schedule was, the object and its
    lock have been freed by one destructor that found the counter at 0,
    nothing was signalled, and every thread has returned from its last
    call. *)
Theorem last_release_destroys m programs c :
  reachable_last m programs c → nf cstep c →
  destroyed (deletions m) (mem c) ∧
  pool c = replicate (length programs) (thread_of []).
Proof.
  intros Hr Hnf. destruct (phase_nf _ _ _ _ (reachable_phase _ _ _ Hr) Hnf).
  destruct Hr as [_ Hrun]. eauto using all_returned.
Qed.

(** From every state the owners reach they can go on until the object is
    destroyed. *)
Theorem last_release_completes m programs c :
  reachable_last m programs c →
  ∃ c', rtc cstep c c' ∧ destroyed (deletions m) (mem c') ∧
        pool c' = replicate (length programs) (thread_of []).
Proof.
  intros Hr. destruct (cstep_normalises c) as (c' & Hrun & Hnf).
  pose proof (phase_rtc _ _ _ _ _ (reachable_phase _ _ _ Hr) Hrun) as Hp.
  destruct (phase_nf _ _ _ _ Hp Hnf). destruct Hr as [_ Hrun0].
  exists c'. split_and!; [done..|]. eapply all_returned; [by etrans | done].
Qed.

(** C23. The thread that destroys the object is the last: it has no call left
    and every other thread has returned from its last call. *)
Theorem destroyer_is_last m programs c t th :
  reachable_last m programs c → pool c !! t = Some th →
  destroying (frame th) = true →
  todo th = [] ∧
  ∀ (t' : tid) th', pool c !! t' = Some th' → t' ≠ t → th' = thread_of [].
Proof.
  intros [c1 o lk Hcore _ _ _|c1 t0 f M Honly _ _ _ _|c1 Hall _]%reachable_phase
    Ht Hd.
  - destruct (destroying_not_ok _ Hd).
    by destruct (core_thread_ok _ _ _ _ _ _ Hcore _ _ Ht).
  - pose proof (Honly _ _ Ht) as Hth. case_decide as Heq; subst; [|done].
    split; [done|]. intros t' th' Ht' Hne. by rewrite (Honly _ _ Ht'), decide_False.
  - by rewrite (Forall_lookup_1 _ _ _ _ Hall Ht) in Hd.
Qed.

(** The destructor runs at most once: in every state the owners reach the
    log holds no deletion message, or the one message of the destructor that
    found the counter at 0. *)
Theorem destroyed_at_most_once m programs c :
  reachable_last m programs c →
  deletions (mem c) `prefix_of` deletions m ++ [event Deleted None this 0].
Proof.
  intros [c1 o lk _ _ Hlog _|c1 t0 f M _ _ _ Hrun HM|c1 _ HM]%reachable_phase.
  - rewrite Hlog. by apply prefix_app_r.
  - rewrite <- (destroyed_once _ _ _ _ HM). apply deletions_prefix.
    pose proof (evolving_run_alone (remaining f) t0 f (mem c1)) as He.
    rewrite Hrun in He. apply He.
  - by rewrite (destroyed_once _ _ _ _ HM).
Qed.

(** In each phase no thread is stopped, and a thread that is in a call or
    has one to make, other than the one that destroys the object, finds
    the object alive. *)
Lemma phase_no_use_after_free d0 c t th :
  phase d0 c → pool c !! t = Some th →
  (∀ i, frame th ≠ Stopped i) ∧
  (finished th = false → destroying (frame th) = false →
   alive (mem c) this = true).
Proof.
  intros [c1 o lk Hcore _ _ _|c1 t0 f M Honly _ Hdes _ _|c1 Hall _] Ht.
  - destruct (core_thread_ok _ _ _ _ _ _ Hcore _ _ Ht) as [Hok _].
    split; [intros i Hf; by rewrite Hf in Hok|]. intros _ _.
    unfold alive. rewrite (owns_this _ _ _ _ _ (core_owns _ _ _ _ _ _ Hcore)).
    by apply bool_decide_eq_true.
  - rewrite (Honly _ _ Ht). case_decide; [|done]. simpl.
    split; [intros i ->; done | congruence].
  - by rewrite (Forall_lookup_1 _ _ _ _ Hall Ht).
Qed.

(** No call is made on the destroyed object: a thread that is in a call or
    has one to make, and is not the one that destroys the object, finds the
    object alive; and no thread is stopped by a fault or an exception. *)
Theorem no_use_after_free m programs c t th :
  reachable_last m programs c → pool c !! t = Some th →
  (∀ i, frame th ≠ Stopped i) ∧
  (finished th = false → destroying (frame th) = false →
   alive (mem c) this = true).
Proof. intros Hr%reachable_phase. by eapply phase_no_use_after_free. Qed.

End last.

(** ** The concrete pool *)

(** Any number of owners whose references fit in an [int] may share the
    object of [machine1]. *)
Lemma shares_last_owners n :
  (1 ≤ n)%nat → 2 * Z.of_nat n ≤ INT_MAX →
  shares_last 1%positive 1%positive (machine1 (Z.of_nat n))
    (replicate n retain_release_release).
Proof.
  intros H1 Hn. exists (object1 (Z.of_nat n)), new_Mutex.
  rewrite !sum_with_replicate.
  change (balance retain_release_release) with 1.
  change (hi retain_release_release) with 2.
  split_and!; try done; try (simpl; lia); by apply Forall_replicate.
Qed.

Lemma owners_reachable (n : nat) s :
  (1 ≤ n)%nat → 2 * Z.of_nat n ≤ INT_MAX →
  reachable_last (EM:=Throwing) 1%positive 1%positive (machine1 (Z.of_nat n))
    (replicate n retain_release_release) (owners_after n s).
Proof. split; [by apply shares_last_owners | apply run_schedule_rtc]. Qed.

Lemma owners_reachable_2 s :
  reachable_last (EM:=Throwing) 1%positive 1%positive (machine1 2)
    (replicate 2 retain_release_release) (owners_after 2 s).
Proof. apply (owners_reachable 2); [lia | done]. Qed.

Lemma cstep_preserves_phase_witness :
  phase (EM:=Throwing) 1%positive 1%positive [] (owners_after 2 [0]%nat).
Proof.
  apply (cstep_preserves_phase (EM:=Throwing) 1%positive 1%positive []
           (owners_of 2) (owners_after 2 [0]%nat));
    [apply (phase_start _ _ _ (machine1 2) (replicate 2 retain_release_release));
       [apply (shares_last_owners 2); [lia | done] | done]
    | by apply (cstep_thread 0%nat)].
Defined.

(** Ten owners and a round-robin schedule that lets them finish. *)
Lemma ten_owners_stuck :
  nf (cstep (EM:=Throwing)) (owners_after 10 (round_robin 10 400)).
Proof. apply stuck_nf. by vm_compute. Qed.

Lemma last_release_destroys_witness :
  destroyed 1%positive 1%positive [] (mem (owners_after 10 (round_robin 10 400))) ∧
  pool (owners_after 10 (round_robin 10 400)) = replicate 10 (thread_of []).
Proof.
  apply (last_release_destroys (EM:=Throwing) 1%positive 1%positive (machine1 10)
           (replicate 10 retain_release_release)
           (owners_after 10 (round_robin 10 400)));
    [apply (owners_reachable 10); [lia | done] | apply ten_owners_stuck].
Defined.

Lemma last_release_completes_witness :
  ∃ c', rtc (cstep (EM:=Throwing)) (owners_after 2 [0; 0; 0]%nat) c' ∧
        destroyed 1%positive 1%positive [] (mem c') ∧
        pool c' = replicate 2 (thread_of []).
Proof.
  apply (last_release_completes (EM:=Throwing) 1%positive 1%positive (machine1 2)
           (replicate 2 retain_release_release) (owners_after 2 [0; 0; 0]%nat)),
    owners_reachable_2.
Defined.

Lemma destroyer_is_last_witness :
  todo thread_dtor = [] ∧
  ∀ (t' : tid) th',
    pool (owners_after 2 (first_then_second 26)) !! t' = Some th' →
    t' ≠ 1%nat → th' = thread_of [].
Proof.
  apply (destroyer_is_last (EM:=Throwing) 1%positive 1%positive (machine1 2)
           (replicate 2 retain_release_release)
           (owners_after 2 (first_then_second 26)) 1%nat thread_dtor);
    [apply owners_reachable_2 | reflexivity..].
Defined.

Lemma no_use_after_free_witness :
  (∀ i, frame thread_retaining ≠ Stopped i) ∧
  (finished thread_retaining = false →
   destroying (frame thread_retaining) = false →
   alive (mem (owners_after 2 [0; 0; 0]%nat)) 1%positive = true).
Proof.
  apply (no_use_after_free (EM:=Throwing) 1%positive 1%positive (machine1 2)
           (replicate 2 retain_release_release) (owners_after 2 [0; 0; 0]%nat)
           0%nat thread_retaining);
    [apply owners_reachable_2 | reflexivity].
Defined.

Lemma destroyed_at_most_once_witness :
  deletions (mem (owners_after 2 (first_then_second 26)))
    `prefix_of` [event Deleted None 1%positive 0].
Proof.
  apply (destroyed_at_most_once (EM:=Throwing) 1%positive 1%positive (machine1 2)
           (replicate 2 retain_release_release)
           (owners_after 2 (first_then_second 26))),
    owners_reachable_2.
Defined.
