(* ===== verification/Serial.v ===== *)
(** * Serial: the calls of the threads, one after the other

    A thread is [busy] from the statement after the first [Lock()] of its
    call to its return.  In a pool that is [orderly] (at most one thread
    is busy, none is stopped) no thread changes the machine while another is
    busy, so a run of the pool leaves the machine that the calls leave when
    they are made one after the other, in the order in which they took the
    lock: the methods of [SmartObject], run by [perform_all], log
    included.  The pools of [Sharing] and of [LastRelease] are orderly.

    The proof follows each thread with a [Past]: the calls it has returned
    from and the call it is in.  While a thread is busy, the rest of its
    call run alone from where it is ([run_alone]) is the whole call made
    from the machine the earlier calls left. *)

From S2P Require Import Prelude Lock Diagnostic Machine SmartObject Concurrent Sharing LastRelease.

(** ** Definitions *)

(** What a thread has done: the calls it has returned from, in order, and
    the call it is in. *)
Record Past : Type := { made : list Invocation; current : option Invocation }.

Definition no_past : Past := {| made := []; current := None |}.

(** The calls of thread [t] as the client of [SmartObject] writes them. *)
Definition ops_of (t : tid) (calls : list Invocation) : list Op :=
  as_op t <$> calls.

(** [ops] is made of the calls of the lists [hs], those of each list in
    their order: its last call is the last call of one of the lists. *)
Inductive merged : list (list Op) → list Op → Prop :=
| merged_nil hs : Forall (λ h, h = []) hs → merged hs []
| merged_snoc hs (t : tid) h op ops :
    hs !! t = Some (h ++ [op]) → merged (<[t := h]> hs) ops →
    merged hs (ops ++ [op]).

(** [ops] is an interleaving of the calls of the threads. *)
Definition interleaving (programs : list (list Invocation)) (ops : list Op) : Prop :=
  merged (imap ops_of programs) ops.

(** The calls the threads have returned from. *)
Definition histories (pasts : list Past) : list (list Op) :=
  imap (λ t p, ops_of t (made p)) pasts.

(** A [Retain] or a [Release]. *)
Definition is_call (i : Invocation) : bool :=
  match i with Inv_Delete _ => false | _ => true end.

(** The first statement of a [Retain] or of a [Release]. *)
Definition is_entry (f : Frame) : bool :=
  match f with Retain_97 _ _ | Release_108 _ _ => true | _ => false end.

(** The thread has taken the lock of its call and has not returned. *)
Definition busy (f : Frame) : bool := negb (is_final f) && negb (is_entry f).

(** At most one thread is busy, and no thread is stopped. *)
Record orderly (c : Conc) : Prop := {
  ord_one (t t' : tid) th th' :
    pool c !! t = Some th → pool c !! t' = Some th' →
    busy (frame th) = true → busy (frame th') = true → t = t';
  ord_unstopped (t : tid) th i : pool c !! t = Some th → frame th ≠ Stopped i;
}.

Section serial.
Context `{EM : ErrorMechanism}.
Context (m0 : Machine) (programs : list (list Invocation)).

(** Where thread [t] is in its call: between two calls; at the [Lock()] of
    call [i]; or busy, and then what is left of the call, run alone from
    the machine [mc], is the call made from [mseq]. *)
Definition at_call (t : tid) (th : Thread) (p : Past) (mc mseq : Machine) : Prop :=
  match current p with
  | None => frame th = Returned
  | Some i =>
      if busy (frame th)
      then run_alone (remaining (frame th)) t (frame th) mc =
             perform (as_op t i) mseq
      else frame th = entry i
  end.

(** The calls of thread [t] are those it made, the one it is in and those
    it has to make. *)
Definition follows (t : tid) (th : Thread) (p : Past) (mc mseq : Machine) : Prop :=
  programs !! t = Some (made p ++ option_list (current p) ++ todo th) ∧
  at_call t th p mc mseq.

(** The calls made so far, in the order [ops], leave [mseq]; the machine of
    the pool is [mseq] when no thread is busy. *)
Record serial_at (c : Conc) (pasts : list Past) (ops : list Op)
    (mseq : Machine) : Prop := {
  ser_run : perform_all ops m0 = (Normal tt, mseq);
  ser_merged : merged (histories pasts) ops;
  ser_length : length pasts = length (pool c);
  ser_threads (t : tid) th p :
    pool c !! t = Some th → pasts !! t = Some p → follows t th p (mem c) mseq;
  ser_idle : Forall (λ th, busy (frame th) = false) (pool c) → mem c = mseq;
}.

Definition serial (c : Conc) : Prop :=
  ∃ pasts ops mseq, serial_at c pasts ops mseq.

End serial.

(** ** Interleavings *)

(** An interleaving has the calls of the lists, each as often. *)
Lemma merged_Permutation hs ops : merged hs ops → ops ≡ₚ concat hs.
Proof.
  induction 1 as [hs Hnil|hs t h op ops Ht _ IH].
  - induction Hnil as [|h hs -> _ IH]; [done | by simpl].
  - rewrite IH, insert_take_drop by by eapply lookup_lt_Some.
    rewrite <- (take_drop_middle hs t _ Ht) at 3.
    rewrite !concat_app, !concat_cons. by solve_Permutation.
Qed.

(** It keeps the order of each list. *)
Lemma merged_sublist hs ops (t : nat) h :
  merged hs ops → hs !! t = Some h → h `sublist_of` ops.
Proof.
  intros Hm. revert h. induction Hm as [hs Hnil|hs t0 h0 op ops Ht0 _ IH]; intros h Ht.
  - rewrite (Forall_lookup_1 _ _ _ _ Hnil Ht). done.
  - pose proof (lookup_lt_Some _ _ _ Ht0). unfold tid in *.
    destruct (decide (t = t0)) as [->|Hne].
    + assert (h = h0 ++ [op]) as -> by congruence.
      apply sublist_app; [|done]. apply IH. by rewrite list_lookup_insert_eq.
    + apply sublist_inserts_r, IH. by rewrite list_lookup_insert_ne.
Qed.

(** ** Histories *)

Lemma histories_insert pasts (t : nat) p p' :
  pasts !! t = Some p →
  histories (<[t := p']> pasts) = <[t := ops_of t (made p')]> (histories pasts).
Proof.
  intros Hp. pose proof (lookup_lt_Some _ _ _ Hp) as Hlt.
  apply list_eq. intros i. unfold histories. rewrite list_lookup_imap.
  destruct (decide (i = t)) as [->|Hne].
  - by rewrite !list_lookup_insert_eq by by rewrite ?length_imap.
  - by rewrite !list_lookup_insert_ne, list_lookup_imap by done.
Qed.

(** A thread that makes its next call has not completed it. *)
Lemma histories_same pasts (t : nat) p p' :
  pasts !! t = Some p → made p' = made p →
  histories (<[t := p']> pasts) = histories pasts.
Proof.
  intros Hp Hm. rewrite (histories_insert _ _ p) by done.
  apply list_insert_id. unfold histories. by rewrite list_lookup_imap, Hp, Hm.
Qed.

(** A thread that returns from a call adds it to the end of the order. *)
Lemma merged_returns pasts (t : nat) p i ops :
  pasts !! t = Some p → merged (histories pasts) ops →
  merged (histories (<[t := {| made := made p ++ [i]; current := None |}]> pasts))
    (ops ++ [as_op t i]).
Proof.
  intros Hp Hm. pose proof (lookup_lt_Some _ _ _ Hp) as Hlt.
  rewrite (histories_insert _ _ p) by done.
  apply (merged_snoc _ t (ops_of t (made p))).
  - rewrite list_lookup_insert_eq by by (unfold histories; rewrite length_imap).
    unfold ops_of. simpl. by rewrite fmap_app.
  - rewrite list_insert_insert_eq, list_insert_id; [done|].
    unfold histories. by rewrite list_lookup_imap, Hp.
Qed.

Lemma histories_no_past n : Forall (λ h, h = []) (histories (replicate n no_past)).
Proof.
  apply Forall_lookup. intros t h. unfold histories.
  rewrite list_lookup_imap. by intros (? & [-> _]%lookup_replicate & ->)%fmap_Some.
Qed.

(** When every thread has made all its calls, the order is an interleaving
    of the programs. *)
Lemma histories_programs pasts programs :
  length pasts = length programs →
  (∀ (t : nat) p, pasts !! t = Some p → programs !! t = Some (made p)) →
  histories pasts = imap ops_of programs.
Proof.
  intros Hlen Hp. apply list_eq. intros t. unfold histories.
  rewrite !list_lookup_imap. destruct (pasts !! t) as [p|] eqn:Ht.
  - by rewrite (Hp _ _ Ht).
  - apply lookup_ge_None in Ht. rewrite lookup_ge_None_2; [done | lia].
Qed.

(** ** Frames *)

Section frames.
Context `{EM : ErrorMechanism}.

Lemma busy_not_final f : busy f = true → is_final f = false.
Proof. by destruct f. Qed.

Lemma entry_not_busy i : is_call i = true → busy (entry i) = false.
Proof. by destruct i. Qed.

(** The first statement of a call takes the lock. *)
Lemma fstep_enters t f f' m m' :
  busy f = false → is_final f = false →
  fstep t f m = (Normal f', m') → busy f' = true.
Proof.
  destruct f; try done; intros _ _ Hf;
    cbn [fstep Retain_step Release_step] in Hf;
    unfold exec_bind, exec_ret in Hf; repeat case_match; by simplify_eq.
Qed.

(** A busy thread is busy until it returns. *)
Lemma fstep_busy t f f' m m' :
  busy f = true → fstep t f m = (Normal f', m') →
  busy f' = true ∨ f' = Returned.
Proof.
  destruct f; try done; intros _ Hf;
    cbn [fstep Retain_step Release_step dtor_step] in Hf;
    unfold exec_bind, exec_ret in Hf; repeat case_match; simplify_eq; auto.
Qed.

(** A [Retain] or a [Release] run alone from its first statement is the
    method. *)
Lemma alone_call t i m :
  is_call i = true →
  run_alone (remaining (entry i)) t (entry i) m = perform (as_op t i) m.
Proof. destruct i; [intros _; apply alone_Retain | intros _; apply alone_Release | done]. Qed.

(** In an orderly pool a step is a step that returns. *)
Lemma cstep_fun_normal t c c' :
  cstep_fun t c = Some c' → orderly c' →
  ∃ th th' m', pool c !! t = Some th ∧ finished th = false ∧
    tstep t th (mem c) = (Normal th', m') ∧
    c' = {| mem := m'; pool := <[t := th']> (pool c) |}.
Proof.
  unfold cstep_fun. intros Hc Hord.
  destruct (pool c !! t) as [th|] eqn:Ht; [|done]. simpl in Hc.
  pose proof (lookup_lt_Some _ _ _ Ht).
  destruct (finished th) eqn:Hfin; [done|].
  destruct (tstep t th (mem c)) as [[th'|i] m'] eqn:Hs; [by simplify_eq; eauto 8|].
  assert (pool c' !! t = Some {| frame := Stopped i; todo := todo th |}) as Ht'
    by (destruct i; simplify_eq/=; by rewrite list_lookup_insert_eq).
  by destruct (ord_unstopped _ Hord _ _ i Ht').
Qed.

End frames.

(** ** One step *)

Section step.
Context `{EM : ErrorMechanism}.
Context (m0 : Machine) (programs : list (list Invocation)).
Context (Hcalls : Forall (Forall (λ i, is_call i = true)) programs).

#[local] Abbreviation serial_at := (serial_at m0 programs).
#[local] Abbreviation follows := (follows programs).
#[local] Abbreviation serial := (serial m0 programs).

Lemma at_call_idle t th p mc mseq mc' mseq' :
  busy (frame th) = false → at_call t th p mc mseq → at_call t th p mc' mseq'.
Proof. unfold at_call. by intros ->. Qed.

Lemma follows_idle t th p mc mseq mc' mseq' :
  busy (frame th) = false → follows t th p mc mseq → follows t th p mc' mseq'.
Proof. intros Hout [? ?]. split; eauto using at_call_idle. Qed.

(** What the past of a thread says at each kind of frame. *)
Lemma at_call_Returned t th p mc mseq :
  frame th = Returned → at_call t th p mc mseq → current p = None.
Proof.
  unfold at_call. intros ->. destruct (current p) as [i|]; [|done].
  simpl. by destruct i.
Qed.

Lemma at_call_entry t th p mc mseq :
  busy (frame th) = false → is_final (frame th) = false →
  at_call t th p mc mseq → ∃ i, current p = Some i ∧ frame th = entry i.
Proof.
  unfold at_call. intros -> Hfinal. destruct (current p) as [i|]; [eauto|].
  intros Hf. by rewrite Hf in Hfinal.
Qed.

Lemma at_call_busy t th p mc mseq :
  busy (frame th) = true → at_call t th p mc mseq →
  ∃ i, current p = Some i ∧
       run_alone (remaining (frame th)) t (frame th) mc = perform (as_op t i) mseq.
Proof.
  unfold at_call. intros Hin. rewrite Hin. destruct (current p) as [i|]; [eauto|].
  intros Hf. by rewrite Hf in Hin.
Qed.

(** The calls of a thread are [Retain]s and [Release]s. *)
Lemma follows_calls t th p mc mseq i :
  follows t th p mc mseq → i ∈ option_list (current p) ++ todo th →
  is_call i = true.
Proof.
  intros [Hprog _] Hi. pose proof (Forall_lookup_1 _ _ _ _ Hcalls Hprog) as Hall.
  rewrite Forall_forall in Hall. apply Hall, elem_of_app. by right.
Qed.

Section thread.
Context (c : Conc) (pasts : list Past) (ops : list Op) (mseq : Machine).
Context (Hser : serial_at c pasts ops mseq).
Context (t : tid) (th : Thread) (p : Past).
Context (Ht : pool c !! t = Some th) (Hp : pasts !! t = Some p).

(** The thread makes its next call. *)
Lemma serial_call i rest :
  frame th = Returned → todo th = i :: rest →
  serial_at {| mem := mem c;
               pool := <[t := {| frame := entry i; todo := rest |}]> (pool c) |}
    (<[t := {| made := made p; current := Some i |}]> pasts) ops mseq.
Proof.
  intros Hf Hr. destruct Hser as [Hrun Hm Hlen Hths Hidle].
  pose proof (Hths _ _ _ Ht Hp) as Hfollows. pose proof Hfollows as [Hprog Hat].
  pose proof (at_call_Returned _ _ _ _ _ Hf Hat) as Hcur.
  assert (busy (entry i) = false) as Hidle_i.
  { apply entry_not_busy, (follows_calls _ _ _ _ _ _ Hfollows).
    rewrite Hr. apply elem_of_app. right. by left. }
  rewrite Hcur, Hr in Hprog. split; cbn [mem pool].
  - done.
  - by rewrite (histories_same _ _ p).
  - by rewrite !length_insert.
  - apply (lookup2_insert (λ t th p, follows t th p (mem c) mseq)
             (λ t th p, follows t th p (mem c) mseq) _ _ _ th p); try done.
    split; [done|]. unfold at_call. simpl. by rewrite Hidle_i.
  - intros Hall. apply Hidle. eapply Forall_insert_inv; [done| |done].
    by rewrite Hf.
Qed.

(** A statement of the thread while every other thread is idle. *)
Lemma serial_update th' p' ops' m' mseq' :
  perform_all ops' m0 = (Normal tt, mseq') →
  merged (histories (<[t := p']> pasts)) ops' →
  (∀ (t1 : tid) th1, t1 ≠ t → pool c !! t1 = Some th1 → busy (frame th1) = false) →
  follows t th' p' m' mseq' →
  (busy (frame th') = false → m' = mseq') →
  serial_at {| mem := m'; pool := <[t := th']> (pool c) |} (<[t := p']> pasts)
    ops' mseq'.
Proof.
  intros Hrun' Hm' Hothers Hfollows Hidle'.
  destruct Hser as [Hrun Hm Hlen Hths Hidle]. split; cbn [mem pool]; try done.
  - by rewrite !length_insert.
  - apply (lookup2_insert (λ t th p, follows t th p (mem c) mseq)
             (λ t th p, follows t th p m' mseq') _ _ _ th p); try done.
    intros t1 th1 p1 Hne Ht1 _ Hf1. eapply follows_idle; eauto.
  - intros Hall. apply Hidle'. pose proof (lookup_lt_Some _ _ _ Ht).
    apply (Forall_lookup_1 _ _ t th' Hall). by rewrite list_lookup_insert_eq.
Qed.

(** The same, when the past of the thread does not change. *)
Lemma serial_update_same th' m' :
  (∀ (t1 : tid) th1, t1 ≠ t → pool c !! t1 = Some th1 → busy (frame th1) = false) →
  follows t th' p m' mseq → busy (frame th') = true →
  serial_at {| mem := m'; pool := <[t := th']> (pool c) |} pasts ops mseq.
Proof.
  intros Hothers Hfollows Hin'.
  rewrite <- (list_insert_id pasts t p Hp) at 1.
  apply serial_update; rewrite ?list_insert_id by done;
    [apply Hser | apply Hser | done | done | by rewrite Hin'].
Qed.

Context (th' : Thread) (m' : Machine).
Context (Hstep : tstep t th (mem c) = (Normal th', m')).
Context (Hothers : ∀ (t1 : tid) th1,
           t1 ≠ t → pool c !! t1 = Some th1 → busy (frame th1) = false).

(** The thread takes the lock: what it has not done yet, run alone, is the
    method. *)
Lemma serial_enter :
  busy (frame th) = false → is_final (frame th) = false →
  serial_at {| mem := m'; pool := <[t := th']> (pool c) |} pasts ops mseq.
Proof.
  intros Hout Hfinal.
  destruct (tstep_statement _ _ _ _ _ Hfinal Hstep) as [Hf Htodo].
  pose proof (fstep_enters _ _ _ _ _ Hout Hfinal Hf) as Hin'.
  pose proof (ser_threads _ _ _ _ _ _ Hser _ _ _ Ht Hp) as Hfollows.
  pose proof Hfollows as [Hprog Hat].
  destruct (at_call_entry _ _ _ _ _ Hout Hfinal Hat) as (i & Hcur & Hentry).
  assert (mem c = mseq) as Hmem.
  { apply Hser, Forall_lookup. intros t1 th1 Ht1.
    destruct (decide (t1 = t)) as [->|]; [|by eauto].
    change (pool c !! t = Some th1) in Ht1. congruence. }
  apply serial_update_same; [done | | done].
  split; [by rewrite Htodo|]. unfold at_call. rewrite Hcur, Hin'.
  rewrite <- (run_alone_next _ _ _ _ _ Hf Hfinal), Hentry, <- Hmem.
  apply alone_call, (follows_calls _ _ _ _ _ _ Hfollows). rewrite Hcur.
  apply elem_of_app. left. by left.
Qed.

(** A statement of a busy thread: what is left of the call is what was
    left, less the statement. *)
Lemma serial_inside :
  busy (frame th) = true → busy (frame th') = true →
  serial_at {| mem := m'; pool := <[t := th']> (pool c) |} pasts ops mseq.
Proof.
  intros Hin Hin'. pose proof (busy_not_final _ Hin) as Hfinal.
  destruct (tstep_statement _ _ _ _ _ Hfinal Hstep) as [Hf Htodo].
  destruct (ser_threads _ _ _ _ _ _ Hser _ _ _ Ht Hp) as [Hprog Hat].
  destruct (at_call_busy _ _ _ _ _ Hin Hat) as (i & Hcur & Hrun).
  apply serial_update_same; [done | | done].
  split; [by rewrite Htodo|]. unfold at_call. rewrite Hcur, Hin'.
  by rewrite <- (run_alone_next _ _ _ _ _ Hf Hfinal).
Qed.

(** The thread returns: the call is made, after the calls made before. *)
Lemma serial_leave :
  busy (frame th) = true → frame th' = Returned →
  ∃ i, serial_at {| mem := m'; pool := <[t := th']> (pool c) |}
         (<[t := {| made := made p ++ [i]; current := None |}]> pasts)
         (ops ++ [as_op t i]) m'.
Proof.
  intros Hin Hret. pose proof (busy_not_final _ Hin) as Hfinal.
  destruct (tstep_statement _ _ _ _ _ Hfinal Hstep) as [Hf Htodo].
  destruct (ser_threads _ _ _ _ _ _ Hser _ _ _ Ht Hp) as [Hprog Hat].
  destruct (at_call_busy _ _ _ _ _ Hin Hat) as (i & Hcur & Hrun). exists i.
  rewrite (run_alone_next _ _ _ _ _ Hf Hfinal), Hret in Hrun.
  apply serial_update; [| by apply merged_returns, Hser | done | | done].
  - by rewrite (perform_all_snoc _ _ _ _ (ser_run _ _ _ _ _ _ Hser)), <- Hrun.
  - split; [|done]. rewrite Hcur in Hprog. simpl in *.
    by rewrite Htodo, <- app_assoc.
Qed.

(** A statement of a call keeps the pool serial. *)
Lemma serial_statement :
  is_final (frame th) = false →
  serial {| mem := m'; pool := <[t := th']> (pool c) |}.
Proof.
  intros Hfinal. destruct (tstep_statement _ _ _ _ _ Hfinal Hstep) as [Hf _].
  destruct (busy (frame th)) eqn:Hin.
  - destruct (fstep_busy _ _ _ _ _ Hin Hf) as [Hin'|Hret].
    + eexists _, _, _. by apply serial_inside.
    + destruct (serial_leave Hin Hret) as [i ?]. by eexists _, _, _.
  - eexists _, _, _. by apply serial_enter.
Qed.

End thread.

(** In an orderly pool, while a thread executes a statement the others are
    idle. *)
Lemma orderly_others c t th th' m' :
  orderly c → orderly {| mem := m'; pool := <[t := th']> (pool c) |} →
  pool c !! t = Some th → is_final (frame th) = false →
  fstep t (frame th) (mem c) = (Normal (frame th'), m') →
  ∀ (t1 : tid) th1, t1 ≠ t → pool c !! t1 = Some th1 → busy (frame th1) = false.
Proof.
  intros Hord Hord' Ht Hfinal Hf t1 th1 Hne Ht1.
  pose proof (lookup_lt_Some _ _ _ Ht).
  destruct (busy (frame th1)) eqn:Hb1; [|done]. pose proof Hne as Hne'.
  destruct Hne. destruct (busy (frame th)) eqn:Hb; [by eapply (ord_one _ Hord)|].
  eapply (ord_one _ Hord' t1 t th1 th'); cbn [pool];
    [by rewrite list_lookup_insert_ne | by rewrite list_lookup_insert_eq | done
    | by eapply fstep_enters].
Qed.

(** Every step from an orderly pool to an orderly pool keeps it serial. *)
Lemma serial_cstep_fun t c c' :
  orderly c → orderly c' → serial c → cstep_fun t c = Some c' → serial c'.
Proof.
  intros Hord Hord' (pasts & ops & mseq & Hser) Hc.
  destruct (cstep_fun_normal _ _ _ Hc Hord') as (th & th' & m' & Ht & Hfin & Hstep & ->).
  destruct (lookup_lt_is_Some_2 pasts t) as [p Hp].
  { rewrite (ser_length _ _ _ _ _ _ Hser). by eapply lookup_lt_Some. }
  destruct (is_final (frame th)) eqn:Hfinal.
  - destruct (finished_final _ Hfin Hfinal) as (i & rest & Hf & Hr).
    rewrite (tstep_call _ _ _ _ _ Hf Hr) in Hstep. injection Hstep as <- <-.
    eexists _, _, _. by eapply serial_call.
  - destruct (tstep_statement _ _ _ _ _ Hfinal Hstep) as [Hf _].
    eapply serial_statement; eauto using orderly_others.
Qed.

(** Before any thread has run no call is made. *)
Lemma serial_start : serial (start m0 programs).
Proof.
  exists (replicate (length programs) no_past), [], m0.
  split; cbn [start mem pool]; try done.
  - apply merged_nil, histories_no_past.
  - by rewrite length_replicate, length_fmap.
  - intros t th p (calls & -> & Hc)%list_lookup_fmap_Some [-> _]%lookup_replicate.
    by split.
Qed.

(** A thread that has returned from its last call has made all its
    calls. *)
Lemma follows_done (t : tid) p mc mseq :
  follows t (thread_of []) p mc mseq → programs !! t = Some (made p).
Proof.
  intros [Hprog Hat].
  rewrite (at_call_Returned t (thread_of []) p mc mseq eq_refl Hat) in Hprog.
  simpl in Hprog. by rewrite app_nil_r in Hprog.
Qed.

(** When every thread has returned from its last call, the machine is the
    one an interleaving of the programs leaves. *)
Lemma serial_done c :
  serial c → pool c = replicate (length programs) (thread_of []) →
  ∃ ops, interleaving programs ops ∧ perform_all ops m0 = (Normal tt, mem c).
Proof.
  intros (pasts & ops & mseq & [Hrun Hm Hlen Hths Hidle]) Hpool.
  rewrite Hpool in *. rewrite length_replicate in Hlen. exists ops. split.
  - unfold interleaving. rewrite <- (histories_programs pasts); [done..|].
    intros t p Hp. eapply follows_done, Hths; [|done].
    apply lookup_replicate_2. rewrite <- Hlen. by eapply lookup_lt_Some.
  - rewrite Hidle; [done|]. by apply Forall_replicate.
Qed.

(** An invariant of orderly pools makes every run serial. *)
Lemma serial_rtc (I : Conc → Prop) c c' :
  (∀ c, I c → orderly c) → (∀ t c c', I c → cstep_fun t c = Some c' → I c') →
  I c → serial c → rtc cstep c c' → serial c'.
Proof.
  intros Hord Hstep HI Hser Hrun. revert HI Hser.
  induction Hrun as [|? ? ? [t ? ? ?] _ IH]; [done|]. intros HI Hser.
  apply IH; eauto using serial_cstep_fun.
Qed.

End step.

(** ** The pools that share an object are orderly *)

Section sharing.
Context `{EM : ErrorMechanism}.
Context (this l : loc).

(** On the shared object a thread is busy between [Lock()] and
    [Unlock()]. *)
Lemma busy_in_cs f : frame_ok this l f → busy f = in_cs f.
Proof. by destruct f. Qed.

Lemma core_orderly c0 c o lk : core this l c0 c o lk → orderly c.
Proof.
  intros Hcore. split.
  - intros t t' th th' Ht Ht' Hb Hb'.
    rewrite busy_in_cs in Hb, Hb' by by eapply core_thread_ok.
    pose proof (core_is_holder _ _ _ _ _ _ Hcore _ _ Ht Hb).
    pose proof (core_is_holder _ _ _ _ _ _ Hcore _ _ Ht' Hb'). congruence.
  - intros t th i Ht Hf.
    destruct (core_thread_ok _ _ _ _ _ _ Hcore _ _ Ht) as [Hok _].
    by rewrite Hf in Hok.
Qed.

Lemma inv_orderly c0 c : inv this l c0 c → orderly c.
Proof. intros (o & lk & [Hcore _]). by eapply core_orderly. Qed.

Lemma phase_orderly d0 c : phase this l d0 c → orderly c.
Proof.
  intros [c1 o lk Hcore _ _ _|c1 t0 f M Honly _ Hdes _ _|c1 Hall _].
  - by eapply core_orderly.
  - split.
    + intros t t' th th' Ht Ht'. rewrite (Honly _ _ Ht), (Honly _ _ Ht').
      repeat case_decide; by simplify_eq.
    + intros t th i Ht. rewrite (Honly _ _ Ht). case_decide; simpl; [|done].
      by intros ->.
  - split.
    + intros t t' th th' Ht _. by rewrite (Forall_lookup_1 _ _ _ _ Hall Ht).
    + intros t th i Ht. by rewrite (Forall_lookup_1 _ _ _ _ Hall Ht).
Qed.

(** Calls on the shared object are [Retain]s and [Release]s. *)
Lemma todo_ok_calls programs :
  Forall (todo_ok this) programs →
  Forall (Forall (λ i, is_call i = true)) programs.
Proof.
  intros Hall. eapply Forall_impl; [done|]. intros calls.
  induction calls as [|i calls IH]; [done|]. intros [Hi Hok].
  constructor; [by destruct i | by apply IH].
Qed.

(** Every state a pool of [Sharing] reaches is serial. *)
Lemma reachable_serial c0 m programs c :
  reachable this l c0 m programs c → serial m programs c.
Proof.
  intros [Hs Hrun]. pose proof Hs as (? & ? & ? & ? & ? & ? & ? & ? & Hok & ?).
  eapply (serial_rtc _ _ (todo_ok_calls _ Hok) (inv this l c0));
    eauto using inv_orderly, inv_cstep_fun, inv_start, serial_start.
Qed.

(** So is every state a pool of [LastRelease] reaches. *)
Lemma reachable_last_serial m programs c :
  reachable_last this l m programs c → serial m programs c.
Proof.
  intros [Hs Hrun]. pose proof Hs as (? & ? & ? & ? & ? & ? & ? & ? & Hok & ?).
  eapply (serial_rtc _ _ (todo_ok_calls _ Hok) (phase this l (deletions m)));
    eauto using phase_orderly, phase_cstep_fun, phase_start, serial_start.
Qed.

(** C13. When all calls have completed, whatever the schedule was, the machine
    is the one the calls leave when they are made one after the other, in
    some interleaving of the programs of the threads: objects, locks, log
    and signalled errors. *)
Theorem serializable c0 m programs c :
  reachable this l c0 m programs c → nf cstep c →
  ∃ ops, interleaving programs ops ∧ perform_all ops m = (Normal tt, mem c).
Proof.
  intros Hr Hnf.
  apply serial_done; [by eapply reachable_serial | by eapply reachable_done].
Qed.

(** C22. When the threads are the only owners of the object and no thread can
    move, whatever the schedule was, the machine is the one the calls leave
    when they are made one after the other, in some interleaving of the
    programs of the threads, every call returning normally: objects, locks,
    log and signalled errors; and the object has been destroyed, by the
    last [Release] of that sequence. *)
Theorem last_release_serializable m programs c :
  reachable_last this l m programs c → nf cstep c →
  ∃ ops, interleaving programs ops ∧ perform_all ops m = (Normal tt, mem c) ∧
         destroyed this l (deletions m) (mem c).
Proof.
  intros Hr Hnf.
  destruct (phase_nf _ _ _ _ (reachable_phase _ _ _ _ _ Hr) Hnf) as [Hall Hd].
  destruct (serial_done m programs c) as (ops & ? & ?);
    [by eapply reachable_last_serial | eapply all_returned, Hall; apply Hr | by eauto].
Qed.

End sharing.

(** ** The concrete pools *)

Lemma serializable_witness :
  ∃ ops, interleaving (replicate 10 retain_release) ops ∧
         perform_all (EM:=Throwing) ops (machine1 1)
           = (Normal tt, mem (pool_after 10 (round_robin 10 250))).
Proof.
  apply (serializable (EM:=Throwing) 1%positive 1%positive 1 (machine1 1)
           (replicate 10 retain_release) (pool_after 10 (round_robin 10 250)));
    [by apply pool_of_reachable | apply ten_threads_stuck].
Defined.

Lemma last_release_serializable_witness :
  ∃ ops, interleaving (replicate 10 retain_release_release) ops ∧
         perform_all (EM:=Throwing) ops (machine1 10)
           = (Normal tt, mem (owners_after 10 (round_robin 10 400))) ∧
         destroyed 1%positive 1%positive []
           (mem (owners_after 10 (round_robin 10 400))).
Proof.
  apply (last_release_serializable (EM:=Throwing) 1%positive 1%positive (machine1 10)
           (replicate 10 retain_release_release)
           (owners_after 10 (round_robin 10 400)));
    [apply (owners_reachable 10); [lia | done] | apply ten_owners_stuck].
Defined.
