(* ===== verification/Refinement.v ===== *)
(** * Refinement: concurrent runs against the protocol

    The three layers, composed.  [Protocol] says what a sequence of calls
    may do to the counts; [SmartObject] performs a sequence the protocol
    permits and ends in the protocol's state ([Protocol.simulation]);
    [Serial] turns a run of a pool of threads into a sequence of calls.
    Here: whatever the schedule, the order in which the threads of a pool of
    [Sharing] or of [LastRelease] made their calls is a sequence the
    protocol permits, so the pool ends in a machine that stands for the
    protocol's state.

    The first part is about the protocol alone: every interleaving of
    programs that keep the count between 1 and [INT_MAX] wherever each
    thread is ([lo], [hi]) is permitted, by induction on the interleaving
    from its last call. *)

From S2P Require Import Prelude Lock Diagnostic Machine SmartObject Invariant Protocol Concurrent Sharing LastRelease Serial.

(** ** Definitions *)

(** The programs without the last call of thread [t]. *)
Definition but_last (t : tid) (programs : list (list Invocation)) :
    list (list Invocation) :=
  match programs !! t with
  | Some calls => <[t := removelast calls]> programs
  | None => programs
  end.

(** Programs of calls on [this] that keep its count, [n] at the start,
    between 1 and [INT_MAX] wherever each thread is in its program. *)
Record margins (this : loc) (n : Z) (programs : list (list Invocation)) : Prop := {
  mg_calls : Forall (todo_ok this) programs;
  mg_lo : 1 ≤ n - sum_with balance programs + sum_with lo programs;
  mg_hi : n - sum_with balance programs + sum_with hi programs ≤ INT_MAX;
}.

(** Programs of threads that are the only owners of [this]: each holds a
    reference whenever it makes a call, and gives back what it holds. *)
Record owners (this : loc) (programs : list (list Invocation)) : Prop := {
  ow_calls : Forall (todo_ok this) programs;
  ow_strict : Forall strict programs;
  ow_some : 1 ≤ sum_with balance programs;
  ow_hi : sum_with hi programs ≤ INT_MAX;
}.

(** The pool has made the calls of [programs] in an order the protocol
    permits from [a] to [a'], and its machine stands for [a']. *)
Definition refines (programs : list (list Invocation)) (a a' : Protocol)
    (c : Conc) : Prop :=
  ∃ ops, interleaving programs ops ∧ psteps ops a a' ∧ sim (mem c) a'.

(** ** Programs, from their last call *)

Lemma balance_snoc calls i : balance (calls ++ [i]) = balance calls + balance_of i.
Proof. unfold balance. rewrite sum_with_app, sum_with_cons, sum_with_nil. lia. Qed.

Lemma lo_snoc calls i : lo (calls ++ [i]) = Z.min (lo calls + balance_of i) 0.
Proof.
  induction calls as [|j calls IH]; cbn [app lo].
  - unfold balance. rewrite sum_with_cons, sum_with_nil. lia.
  - rewrite IH. change (j :: calls ++ [i]) with ((j :: calls) ++ [i]).
    rewrite balance_snoc. lia.
Qed.

Lemma hi_snoc calls i : hi (calls ++ [i]) = Z.max (hi calls + balance_of i) 0.
Proof.
  induction calls as [|j calls IH]; cbn [app hi].
  - unfold balance. rewrite sum_with_cons, sum_with_nil. lia.
  - rewrite IH. change (j :: calls ++ [i]) with ((j :: calls) ++ [i]).
    rewrite balance_snoc. lia.
Qed.

Lemma lo_nonpos calls : lo calls ≤ 0.
Proof. induction calls; simpl; lia. Qed.

Lemma hi_nonneg calls : 0 ≤ hi calls.
Proof. induction calls; simpl; lia. Qed.

Lemma balance_of_range i : -1 ≤ balance_of i ≤ 1.
Proof. destruct i; simpl; lia. Qed.

(** A thread that holds a reference at each of its calls never owes one. *)
Lemma strict_lo calls : strict calls → lo calls = 0.
Proof.
  induction calls as [|i calls IH]; [done|]. intros [Hb Hs]. simpl.
  rewrite IH by done. lia.
Qed.

Lemma strict_snoc calls i :
  strict (calls ++ [i]) → balance_of i = 1 ∧ lo calls = 0.
Proof.
  pose proof (balance_of_range i).
  induction calls as [|j calls IH]; cbn [app strict].
  - unfold balance. rewrite sum_with_cons, sum_with_nil. simpl. lia.
  - change (j :: calls ++ [i]) with ((j :: calls) ++ [i]).
    rewrite balance_snoc. intros [Hb Hs]. destruct (IH Hs) as [Hi Hlo].
    split; [done|]. simpl. lia.
Qed.

Lemma todo_ok_snoc this calls i :
  todo_ok this (calls ++ [i]) → todo_ok this calls ∧ on_this this i.
Proof.
  induction calls as [|j calls IH]; cbn [app todo_ok]; [tauto|].
  intros [Hj Hok]. destruct (IH Hok). tauto.
Qed.

(** ** Interleavings, from their last call *)

Section last_call.
Context (programs : list (list Invocation)) (t : tid) (h : list Op) (op : Op).
Context (Ht : imap ops_of programs !! t = Some (h ++ [op])).

(** The last call of an interleaving is the last call of a program. *)
Lemma last_call_inv :
  ∃ calls i, programs !! t = Some (calls ++ [i]) ∧ h = ops_of t calls ∧
             op = as_op t i.
Proof.
  pose proof Ht as H. rewrite list_lookup_imap in H.
  apply fmap_Some in H as (calls & Hp & H). unfold ops_of in H. symmetry in H.
  apply fmap_app_inv in H as (calls' & last & Hh & Hop & ->).
  destruct last as [|i [|? ?]]; try done. injection Hop as ->.
  by exists calls', i.
Qed.

Lemma but_last_programs calls i :
  programs !! t = Some (calls ++ [i]) →
  <[t := ops_of t calls]> (imap ops_of programs) = imap ops_of (but_last t programs).
Proof.
  intros Hp. unfold but_last. rewrite Hp, removelast_last.
  pose proof (lookup_lt_Some _ _ _ Hp) as Hlt. apply list_eq. intros k.
  rewrite list_lookup_imap. destruct (decide (k = t)) as [->|Hne].
  - by rewrite !list_lookup_insert_eq by by rewrite ?length_imap.
  - by rewrite !list_lookup_insert_ne, list_lookup_imap by done.
Qed.

End last_call.

Lemma sum_with_but_last f (t : tid) programs calls i :
  programs !! t = Some (calls ++ [i]) →
  sum_with f (but_last t programs) = sum_with f programs + (f calls - f (calls ++ [i])).
Proof.
  intros Hp. unfold but_last. rewrite Hp, removelast_last.
  by apply sum_with_insert.
Qed.

Lemma Forall_but_last (P : list Invocation → Prop) (t : tid) programs calls i :
  programs !! t = Some (calls ++ [i]) → P calls → Forall P programs →
  Forall P (but_last t programs).
Proof.
  intros Hp Hc Hall. unfold but_last. rewrite Hp, removelast_last.
  by apply Forall_insert.
Qed.

Lemma sum_lo_nonpos programs : sum_with lo programs ≤ 0.
Proof.
  induction programs as [|p programs IH]; rewrite ?sum_with_cons; [done|].
  pose proof (lo_nonpos p). lia.
Qed.

Lemma sum_hi_nonneg programs : 0 ≤ sum_with hi programs.
Proof. apply sum_with_nonneg, Forall_forall. intros p _. apply hi_nonneg. Qed.

(** Programs that are all empty make no call. *)
Lemma no_calls_balance programs :
  Forall (λ h, h = []) (imap ops_of programs) → sum_with balance programs = 0.
Proof.
  intros Hnil. apply sum_with_zero, Forall_lookup. intros t p Hp.
  assert (ops_of t p = []) as Hops.
  { apply (Forall_lookup_1 _ _ t _ Hnil). by rewrite list_lookup_imap, Hp. }
  by apply fmap_nil_inv in Hops as ->.
Qed.

(** ** The protocol permits every interleaving *)

Section permitted.
Context (this : loc) (n : Z) (a : Protocol).
Context (Ha : a !! this = Some n).

(** Without the last call of a thread the programs keep the count in the
    same bounds. *)
Lemma margins_but_last (t : tid) programs calls i :
  programs !! t = Some (calls ++ [i]) →
  margins this n programs → margins this n (but_last t programs).
Proof.
  intros Hp [Hok Hlo Hhi].
  pose proof (Forall_lookup_1 _ _ _ _ Hok Hp) as [Hcalls _]%todo_ok_snoc.
  split; [by eapply Forall_but_last|..];
    rewrite !(sum_with_but_last _ _ _ _ _ Hp), balance_snoc, ?lo_snoc, ?hi_snoc; lia.
Qed.

(** The count before and after the last call. *)
Lemma margins_last (t : tid) programs calls i :
  programs !! t = Some (calls ++ [i]) → margins this n programs →
  let prev := n - sum_with balance (but_last t programs) in
  n - sum_with balance programs = prev - balance_of i ∧
  1 ≤ prev ≤ INT_MAX ∧ 1 ≤ prev - balance_of i ≤ INT_MAX ∧ on_this this i.
Proof.
  intros Hp Hm. pose proof (margins_but_last _ _ _ _ Hp Hm) as [_ Hlo' Hhi'].
  destruct Hm as [Hok Hlo Hhi].
  pose proof (Forall_lookup_1 _ _ _ _ Hok Hp) as [_ Hi]%todo_ok_snoc.
  pose proof (sum_lo_nonpos programs). pose proof (sum_hi_nonneg programs).
  pose proof (sum_lo_nonpos (but_last t programs)).
  pose proof (sum_hi_nonneg (but_last t programs)).
  rewrite (sum_with_but_last _ _ _ _ _ Hp), balance_snoc in *. simpl.
  split_and!; try done; lia.
Qed.

(** The last call is one the protocol permits where the calls before have
    brought the count. *)
Lemma pstep_last_call (t : tid) i prev :
  on_this this i → 1 ≤ prev ≤ INT_MAX → 1 ≤ prev - balance_of i ≤ INT_MAX →
  pstep (as_op t i) (<[this := prev]> a) (<[this := prev - balance_of i]> a).
Proof.
  intros Hi Hprev Hnext. destruct i as [site x|site x|x]; simpl in *; [..|done]; subst x.
  - replace (<[this := prev - -1]> a) with (<[this := prev + 1]> (<[this := prev]> a))
      by (rewrite insert_insert_eq; f_equal; lia).
    apply pstep_retain; [by rewrite lookup_insert_eq | lia].
  - rewrite <- (insert_insert_eq a this (prev - 1) prev).
    apply pstep_release; [by rewrite lookup_insert_eq | lia].
Qed.

(** Every interleaving of such programs is a sequence of calls the
    protocol permits, and brings the count to what the calls add up to. *)
Lemma interleaving_permitted programs ops :
  margins this n programs → interleaving programs ops →
  psteps ops a (<[this := n - sum_with balance programs]> a).
Proof.
  unfold interleaving. intros Hm Hi. remember (imap ops_of programs) as hs eqn:Hhs.
  revert programs Hhs Hm.
  induction Hi as [hs Hnil|hs t h op ops Ht _ IH]; intros programs -> Hm.
  - rewrite (no_calls_balance _ Hnil), Z.sub_0_r, insert_id by done. constructor.
  - destruct (last_call_inv _ _ _ _ Ht) as (calls & i & Hp & -> & ->).
    destruct (margins_last _ _ _ _ Hp Hm) as (-> & Hprev & Hnext & Hon).
    eapply psteps_app.
    + apply IH; [by rewrite (but_last_programs _ _ _ _ Hp) | by eapply margins_but_last].
    + eapply psteps_cons; [by apply pstep_last_call | constructor].
Qed.

End permitted.

(** The same for the only owners: the last call of the interleaving is the
    [Release] that finds one reference left, and the instance is gone. *)
Lemma owners_margins this (t : tid) programs calls i :
  programs !! t = Some (calls ++ [i]) → owners this programs →
  balance_of i = 1 ∧ on_this this i ∧
  sum_with balance (but_last t programs) = sum_with balance programs - 1 ∧
  margins this (sum_with balance programs) (but_last t programs).
Proof.
  intros Hp [Hok Hstrict Hsome Hhi].
  pose proof (Forall_lookup_1 _ _ _ _ Hok Hp) as [Hcalls Hi]%todo_ok_snoc.
  pose proof (Forall_lookup_1 _ _ _ _ Hstrict Hp) as [Hb Hlo]%strict_snoc.
  pose proof (hi_nonneg calls).
  assert (sum_with lo (but_last t programs) = 0) as Hlo0.
  { apply sum_with_zero. eapply Forall_but_last; [done..|].
    eapply Forall_impl; [done|]. apply strict_lo. }
  split_and!; [done | done | |split; [by eapply Forall_but_last|..]];
    rewrite ?Hlo0, !(sum_with_but_last _ _ _ _ _ Hp), balance_snoc, ?hi_snoc; lia.
Qed.

Lemma interleaving_permitted_last this (a : Protocol) programs ops :
  a !! this = Some (sum_with balance programs) → owners this programs →
  interleaving programs ops → psteps ops a (delete this a).
Proof.
  unfold interleaving. intros Ha Ho Hi.
  inversion Hi as [hs Hnil|hs t h op ops' Ht Hrest]; subst.
  { pose proof (ow_some _ _ Ho). rewrite (no_calls_balance _ Hnil) in *. lia. }
  destruct (last_call_inv _ _ _ _ Ht) as (calls & i & Hp & -> & ->).
  destruct (owners_margins _ _ _ _ _ Hp Ho) as (Hb & Hon & Hbal & Hm).
  rewrite (but_last_programs _ _ _ _ Hp) in Hrest.
  pose proof (interleaving_permitted this _ a Ha _ _ Hm Hrest) as Hsteps.
  rewrite Hbal in Hsteps. eapply psteps_app; [done|].
  destruct i as [site x|site x|x]; simpl in *; try done. subst x.
  eapply psteps_cons; [|constructor].
  replace (delete this a)
    with (delete this (<[this := sum_with balance programs - (sum_with balance programs - 1)]> a))
    by by rewrite delete_insert_eq.
  apply pstep_release_last. rewrite lookup_insert_eq. f_equal. lia.
Qed.

(** ** The pools *)

Section pools.
Context `{EM : ErrorMechanism}.
Context (this l : loc).

(** A machine that stands for a protocol state has the count of the shared
    object in it. *)
Lemma sim_count m (a : Protocol) o lk :
  sim m a → owns m this o l lk → a !! this = Some (m_refCount o).
Proof.
  intros Hsim Hown. rewrite <- (sim_abs _ _ Hsim). unfold abs.
  by rewrite lookup_fmap, (owns_this _ _ _ _ _ Hown).
Qed.

Lemma shares_margins c0 m programs :
  shares this l c0 m programs →
  margins this (c0 + sum_with balance programs) programs.
Proof. intros (o & lk & ? & ? & ? & ? & ? & ? & ? & ?). split; [done|lia..]. Qed.

Lemma shares_last_owners_of m programs :
  shares_last this l m programs → owners this programs.
Proof. intros (o & lk & ? & ? & ? & ? & ? & ? & ? & ? & ?). by split. Qed.

(** The machine a sequence of permitted calls leaves is the one it stands
    for. *)
Lemma permitted_run ops m m' (a a' : Protocol) :
  sim m a → psteps ops a a' → perform_all ops m = (Normal tt, m') → sim m' a'.
Proof.
  intros Hsim Hsteps Hrun.
  destruct (simulation ops m a a' Hsim Hsteps) as (m1 & Hrun1 & Hsim1 & _).
  congruence.
Qed.

(** Threads that share an object refine the protocol: when all calls have
    completed, whatever the schedule was, the calls were made in an order
    the protocol permits from the state the pool started in, and the machine
    stands for the protocol's final state, in which the object has the
    count the calls add up to. *)
Theorem sharing_refines_protocol c0 m programs c (a : Protocol) :
  reachable this l c0 m programs c → nf cstep c → sim m a →
  refines programs a (<[this := c0]> a) c.
Proof.
  intros Hr Hnf Hsim.
  destruct (serial_done m programs c) as (ops & Hi & Hrun);
    [by eapply reachable_serial | by eapply reachable_done |].
  destruct Hr as [Hs _]. pose proof (shares_margins _ _ _ Hs) as Hm.
  destruct Hs as (o & lk & Hown & _ & _ & Hc & _).
  pose proof (interleaving_permitted this _ a
                (eq_trans (sim_count _ _ _ _ Hsim Hown) (f_equal Some Hc)) _ _ Hm Hi)
    as Hsteps.
  replace (c0 + sum_with balance programs - sum_with balance programs) with c0
    in Hsteps by lia.
  exists ops. eauto using permitted_run.
Qed.

(** Threads that are the only owners refine the protocol: the calls were
    made in an order the protocol permits, the last of them the [Release]
    of the last reference, and the machine stands for the protocol's state
    without the object. *)
Theorem last_release_refines_protocol m programs c (a : Protocol) :
  reachable_last this l m programs c → nf cstep c → sim m a →
  refines programs a (delete this a) c.
Proof.
  intros Hr Hnf Hsim.
  destruct (phase_nf _ _ _ _ (reachable_phase _ _ _ _ _ Hr) Hnf) as [Hall _].
  destruct (serial_done m programs c) as (ops & Hi & Hrun);
    [by eapply reachable_last_serial | eapply all_returned, Hall; apply Hr |].
  destruct Hr as [Hs _]. pose proof (shares_last_owners_of _ _ Hs) as Ho.
  destruct Hs as (o & lk & Hown & _ & _ & Hc & _).
  pose proof (interleaving_permitted_last this a _ _
                (eq_trans (sim_count _ _ _ _ Hsim Hown) (f_equal Some Hc)) Ho Hi)
    as Hsteps.
  exists ops. eauto using permitted_run.
Qed.

End pools.

Lemma sharing_refines_protocol_witness :
  refines (replicate 10 retain_release) {[1%positive := 1]}
    (<[1%positive := 1]> {[1%positive := 1]}) (pool_after 10 (round_robin 10 250)).
Proof.
  apply (sharing_refines_protocol (EM:=Throwing) 1%positive 1%positive 1
           (machine1 1) (replicate 10 retain_release)
           (pool_after 10 (round_robin 10 250)));
    [by apply pool_of_reachable | apply ten_threads_stuck
    | by apply (bool_decide_unpack _); vm_compute].
Defined.

Lemma last_release_refines_protocol_witness :
  refines (replicate 10 retain_release_release) {[1%positive := 10]}
    (delete 1%positive {[1%positive := 10]}) (owners_after 10 (round_robin 10 400)).
Proof.
  apply (last_release_refines_protocol (EM:=Throwing) 1%positive 1%positive
           (machine1 10) (replicate 10 retain_release_release)
           (owners_after 10 (round_robin 10 400)));
    [apply (owners_reachable 10); [lia | done] | apply ten_owners_stuck
    | by apply (bool_decide_unpack _); vm_compute].
Defined.
