(* ===== verification/Independence.v ===== *)
(** * Independence: calls on one object leave the other objects alone

    A lock belongs to one object and is taken only by the calls on that
    object.  Whatever the threads of a pool call and whatever the schedule,
    an object that no thread calls, and its lock, stay as they are, and no
    message about it is written: the statements of [Retain], [Release] and
    the destructor reach only [this] and the lock [this] points to.

    The proof is a small logic of computations: [keeping p Q] says that [p]
    leaves the bystander and its lock untouched and returns values that
    satisfy [Q]; it composes along [exec_bind].  It asks of the machine
    only that no other object points to the lock of the bystander
    ([unshared]), so it also applies when the bystander is gone. *)

From S2P Require Import Prelude Lock Diagnostic Machine SmartObject Concurrent Monotone Sharing LastRelease.

#[local] Open Scope exec_scope.

(** ** Definitions *)

(** The object a call is made on. *)
Definition callee (i : Invocation) : loc :=
  match i with Inv_Retain _ x | Inv_Release _ x | Inv_Delete x => x end.

(** The object a frame names as [this]. *)
Definition frame_object (f : Frame) : option loc :=
  match f with
  | Retain_97 _ x | Retain_98 _ x _ | Retain_98w _ x _ _ | Retain_99 _ x _
  | Release_108 _ x | Release_109 _ x | Release_109w _ x _ | Release_110 _ x
  | Release_111 x | Release_113 x | Release_113w x _ | Release_114 x
  | Release_118 x | Release_122 x | Release_124 x
  | Dtor_186 x | Dtor_187 x | Dtor_187w x _ | Dtor_188 x | Dtor_189 x
  | Dtor_193 x | Dtor_195 x | Dtor_196 x | Dtor_198 x _ | Delete_115 x => Some x
  | Retain_100 _ | Returned | Stopped _ => None
  end.

(** The lock a frame holds the address of: the [LockObj] of [Retain], and
    the pointer the destructor has read. *)
Definition frame_lock (f : Frame) : option loc :=
  match f with
  | Retain_98 _ _ l | Retain_98w _ _ l _ | Retain_99 _ _ l | Retain_100 l
  | Dtor_198 _ l => Some l
  | _ => None
  end.

Section bystander.
Context (y ly : loc).

(** No object but [y] points to [ly]. *)
Definition unshared (m : Machine) : Prop :=
  map_Forall (λ x o, m_refCounterLock o = Some ly → x = y) (objects m).

(** [y] is alive and points to [ly], and no other live object does. *)
Definition sole_owner (m : Machine) : Prop :=
  objects m !! y ≫= m_refCounterLock = Some ly ∧ unshared m.

(** The messages about [y]. *)
Definition messages (m : Machine) : list LogEvent :=
  filter (λ e, ev_this e = y) (log m).

(** [y] and [ly] are in [m'] what they are in [m], and no message about
    [y] was written. *)
Definition untouched (m m' : Machine) : Prop :=
  objects m' !! y = objects m !! y ∧ locks m' !! ly = locks m !! ly ∧
  messages m' = messages m.

(** The frame is not in a call on [y] and does not hold the address of
    [ly]. *)
Definition apart (f : Frame) : Prop :=
  frame_object f ≠ Some y ∧ frame_lock f ≠ Some ly.

(** The thread is not in a call on [y] and has none to make. *)
Definition avoids (th : Thread) : Prop :=
  apart (frame th) ∧ Forall (λ i, callee i ≠ y) (todo th).

(** From a machine where no other object points to [ly], the computation
    leaves [y] and [ly] untouched, and what it returns satisfies [Q]. *)
Definition keeping {A} (p : Call A) (Q : A → Prop) : Prop :=
  ∀ m, unshared m →
    untouched m (p m).2 ∧ ∀ a, (p m).1 = Normal a → Q a.

(** No thread of the pool works on [y], and no other object points to
    [ly]. *)
Record bystander (c : Conc) : Prop := {
  by_unshared : unshared (mem c);
  by_threads : Forall avoids (pool c);
}.

#[global] Instance sole_owner_dec m : Decision (sole_owner m).
Proof. unfold sole_owner, unshared. apply _. Defined.
#[global] Instance avoids_dec th : Decision (avoids th).
Proof. unfold avoids, apart. apply _. Defined.

End bystander.

(** ** A concrete pool *)

(** The machine of [machine1] after a copy of its object has been made: the
    copy is object 2 and has lock 2. *)
Definition machine_copied (c : Z) : Machine :=
  (EP_NEW_copy raw0 site0 1 (machine1 c)).2.

(** The two owners of the original, each with a [Retain] and two
    [Release]s to make, beside the copy; their state after schedule [s]. *)
Definition beside_copy (s : list tid) : Conc :=
  run_schedule (EM:=Throwing) s
    (start (machine_copied 2) (replicate 2 retain_release_release)).

(** ** The logic *)

Section logic.
Context (y ly : loc).

#[local] Abbreviation sole_owner := (sole_owner y ly).
#[local] Abbreviation unshared := (unshared y ly).
#[local] Abbreviation messages := (messages y).
#[local] Abbreviation untouched := (untouched y ly).
#[local] Abbreviation keeping := (keeping y ly).

#[global] Instance untouched_preorder : PreOrder untouched.
Proof.
  split; [done|]. intros m1 m2 m3 (? & ? & ?) (? & ? & ?).
  split_and!; congruence.
Qed.

(** No statement allocates or writes a lock pointer: no object comes to
    point to [ly]. *)
Lemma unshared_evolves m m' : unshared m → evolves m m' → unshared m'.
Proof.
  intros Hsole Hev x o' Hx Hp'.
  destruct (evolves_objects _ _ Hev _ _ Hx) as (o1 & Ho1 & Hptr & _).
  eapply Hsole; [done | congruence].
Qed.

Lemma sole_owner_evolves m m' :
  sole_owner m → evolves m m' → untouched m m' → sole_owner m'.
Proof.
  intros [Hown Hsole] Hev (Hy & _). split; [by rewrite Hy|].
  by eapply unshared_evolves.
Qed.

Lemma messages_with_log k site x c m :
  x ≠ y → messages (with_log (event k site x c) m) = messages m.
Proof.
  intros. unfold messages. simpl.
  by rewrite filter_app, filter_cons_False, filter_nil, app_nil_r.
Qed.

Section rules.
Context {A B : Type}.

Lemma keeping_ret (a : A) (Q : A → Prop) : Q a → keeping (exec_ret a) Q.
Proof. intros HQ m _. split; [done|]. by intros ? [= <-]. Qed.

Lemma keeping_interrupt i (Q : A → Prop) : keeping (exec_interrupt i) Q.
Proof. by intros m _. Qed.

Lemma keeping_bind (p : Call A) (k : A → Call B) Q R :
  evolving p → keeping p Q → (∀ a, Q a → keeping (k a) R) →
  keeping (x <- p ;; k x) R.
Proof.
  intros Hev Hp Hk m Hm. destruct (Hp m Hm) as [Hu HQ]. specialize (Hev m).
  unfold exec_bind. destruct (p m) as [[a|i] m1]; [|done]. simpl in *.
  destruct (Hk a (HQ a eq_refl) m1) as [Hu1 HR];
    [by eapply unshared_evolves|].
  split; [by etrans | done].
Qed.

Lemma keeping_weaken (p : Call A) (Q R : A → Prop) :
  keeping p Q → (∀ a, Q a → R a) → keeping p R.
Proof. intros Hp HQR m Hm. destruct (Hp m Hm). split; eauto. Qed.

(** A computation that changes nothing in the heaps and writes no
    message. *)
Lemma keeping_heaps (p : Call A) (Q : A → Prop) :
  (∀ m, objects (p m).2 = objects m ∧ locks (p m).2 = locks m ∧
        log (p m).2 = log m) →
  (∀ m a, unshared m → (p m).1 = Normal a → Q a) → keeping p Q.
Proof.
  intros Hp HQ m Hm. destruct (Hp m) as (Ho & Hl & Hlog).
  split; [unfold untouched, messages; split_and!; congruence | eauto].
Qed.

End rules.

(** ** The primitives *)

Section primitives.
Context `{EM : ErrorMechanism}.

#[local] Abbreviation any := (λ _, True).

Lemma keeping_deref x :
  keeping (deref x) (λ o, x ≠ y → m_refCounterLock o ≠ Some ly).
Proof.
  apply keeping_heaps; unfold deref, exec_bind, exec_get.
  - intros m. by destruct (objects m !! x).
  - intros m o Hsole Ho Hx Hp. destruct (objects m !! x) eqn:E; [|done].
    simplify_eq/=. eauto.
Qed.

Lemma keeping_load_refCount x : keeping (load_refCount x) any.
Proof.
  eapply keeping_bind; [auto with evolving | apply keeping_deref |].
  intros o _. by apply keeping_ret.
Qed.

Lemma keeping_load_refCounterLock x :
  x ≠ y → keeping (load_refCounterLock x) (λ p, p ≠ Some ly).
Proof.
  intros Hx. eapply keeping_bind; [auto with evolving | apply keeping_deref |].
  intros o Ho. apply keeping_ret. auto.
Qed.

Lemma keeping_refCounterLock x :
  x ≠ y → keeping (refCounterLock x) (λ l, l ≠ ly).
Proof.
  intros Hx. eapply keeping_bind;
    [auto with evolving | by apply keeping_load_refCounterLock |].
  intros [l|] Hl; [|apply keeping_interrupt]. apply keeping_ret. congruence.
Qed.

Lemma keeping_store_refCount x c : x ≠ y → keeping (store_refCount x c) any.
Proof.
  intros Hx m _. unfold store_refCount, deref, exec_bind, exec_get.
  destruct (objects m !! x); [|done].
  split; [|done]. split_and!; [by simpl; rewrite lookup_insert_ne | done..].
Qed.

Lemma keeping_Lock t l : l ≠ ly → keeping (BaseLock_call_Lock t l) any.
Proof.
  intros Hl m _. unfold BaseLock_call_Lock, exec_bind, exec_get.
  destruct (locks m !! l) as [lk|]; [|done]. destruct (Lock t lk); [|done].
  split; [|done]. split_and!; [done | by simpl; rewrite lookup_insert_ne | done].
Qed.

Lemma keeping_Unlock t l : l ≠ ly → keeping (BaseLock_call_Unlock t l) any.
Proof.
  intros Hl m _. unfold BaseLock_call_Unlock, exec_bind, exec_get.
  destruct (locks m !! l) as [lk|]; [|done]. destruct (Unlock t lk); [|done].
  split; [|done]. split_and!; [done | by simpl; rewrite lookup_insert_ne | done].
Qed.

Lemma keeping_refCounterLock_Lock t x :
  x ≠ y → keeping (refCounterLock_Lock t x) any.
Proof.
  intros Hx. eapply keeping_bind;
    [auto with evolving | by apply keeping_refCounterLock |].
  intros l Hl. by apply keeping_Lock.
Qed.

Lemma keeping_refCounterLock_Unlock t x :
  x ≠ y → keeping (refCounterLock_Unlock t x) any.
Proof.
  intros Hx. eapply keeping_bind;
    [auto with evolving | by apply keeping_refCounterLock |].
  intros l Hl. by apply keeping_Unlock.
Qed.

Lemma keeping_LOG_THIS_MSG k site x :
  x ≠ y → keeping (LOG_THIS_MSG k site x) any.
Proof.
  intros Hx.
  eapply keeping_bind; [auto with evolving | apply keeping_load_refCount |].
  intros c _ m _. split; [|done].
  split_and!; [done.. | by apply messages_with_log].
Qed.

Lemma keeping_EP_VERIFY cond e : keeping (EP_VERIFY cond e) any.
Proof.
  apply keeping_heaps; [|done]. intros m. unfold EP_VERIFY, exec_bind.
  destruct cond; [done|]. simpl. by destruct (on_failure e).
Qed.

Lemma keeping_EP_DELETE_lock l : l ≠ ly → keeping (EP_DELETE_lock l) any.
Proof.
  intros Hl m _. unfold EP_DELETE_lock, exec_bind, exec_get.
  destruct (locks m !! l); [|done].
  split; [|done]. split_and!; [done | by simpl; rewrite lookup_delete_ne | done].
Qed.

Lemma keeping_operator_delete x : x ≠ y → keeping (operator_delete x) any.
Proof.
  intros Hx m _. unfold operator_delete, deref, exec_bind, exec_get.
  destruct (objects m !! x); [|done].
  split; [|done]. split_and!; [by simpl; rewrite lookup_delete_ne | done..].
Qed.

End primitives.
End logic.

Create HintDb keeping discriminated.
#[export] Hint Resolve keeping_interrupt keeping_load_refCount
  keeping_load_refCounterLock keeping_refCounterLock keeping_store_refCount
  keeping_Lock keeping_Unlock keeping_refCounterLock_Lock
  keeping_refCounterLock_Unlock keeping_LOG_THIS_MSG keeping_EP_VERIFY
  keeping_EP_DELETE_lock keeping_operator_delete : keeping.

(** A statement is a sequence of primitives that ends by naming the next
    frame. *)
Ltac keeping_solve :=
  repeat first
    [ solve [auto with keeping nocore]
    | eapply keeping_bind; [solve [auto with evolving] | | intros ? ?]
    | apply keeping_ret
    | match goal with
      | |- apart _ _ (if ?b then _ else _) => destruct b
      | |- apart _ _ (match ?p with _ => _ end) => destruct p
      | |- apart _ _ _ => split; simpl; congruence
      end ].

Section statements.
Context `{EM : ErrorMechanism} (y ly : loc).

Lemma keeping_fstep t f : apart y ly f → keeping y ly (fstep t f) (apart y ly).
Proof.
  intros [Hf Hl].
  destruct f; simpl in Hf, Hl;
    try (assert (this ≠ y) by congruence); try (assert (l ≠ ly) by congruence);
    cbn [fstep Retain_step Release_step dtor_step]; keeping_solve.
Qed.

Lemma apart_entry i : callee i ≠ y → apart y ly (entry i).
Proof. intros Hi. destruct i; split; simpl in *; congruence. Qed.

Lemma keeping_tstep t th :
  avoids y ly th → keeping y ly (tstep t th) (avoids y ly).
Proof.
  intros [Hf Htodo].
  assert (keeping y ly
            (f' <- fstep t (frame th) ;;
             exec_ret {| frame := f'; todo := todo th |}) (avoids y ly)) as Hin.
  { eapply keeping_bind; [apply evolving_fstep | by apply keeping_fstep |].
    intros f' Hf'. by apply keeping_ret. }
  revert Hin Htodo. unfold tstep. destruct (frame th); try done.
  destruct (todo th) as [|i rest]; [done|]. intros _ [Hi Hrest]%Forall_cons.
  apply keeping_ret. split; [by apply apart_entry | done].
Qed.

(** A step of the pool leaves the bystander a bystander, and as it is. *)
Lemma bystander_cstep_fun t c c' :
  bystander y ly c → cstep_fun t c = Some c' →
  bystander y ly c' ∧ untouched y ly (mem c) (mem c').
Proof.
  intros [Hm Hpool] Hc. unfold cstep_fun in Hc.
  destruct (pool c !! t) as [th|] eqn:Ht; [|done]. simpl in Hc.
  destruct (finished th); [done|].
  pose proof (Forall_lookup_1 _ _ _ _ Hpool Ht) as Hth.
  destruct (keeping_tstep t th Hth (mem c) Hm) as [Hu Hq].
  pose proof (evolving_tstep t th (mem c)) as Hev.
  destruct (tstep t th (mem c)) as [[th'|i] m']; simpl in *;
    [|destruct i]; simplify_eq; (split; [|done]);
    (split; simpl; [by eapply unshared_evolves|]);
    apply Forall_insert; [done | auto | done | | done | ];
    split; [done | apply Hth | done | apply Hth].
Qed.

Lemma bystander_rtc c c' :
  bystander y ly c → rtc cstep c c' →
  bystander y ly c' ∧ untouched y ly (mem c) (mem c').
Proof.
  intros Hc Hrun. induction Hrun as [c|c c1 c' [t ? ? Hs] _ IH]; [done|].
  destruct (bystander_cstep_fun _ _ _ Hc Hs) as [Hc1 Hu].
  destruct (IH Hc1). split; [done | by etrans].
Qed.

(** The pool that starts on programs none of which calls on [y]. *)
Lemma bystander_start m programs :
  unshared y ly m → Forall (Forall (λ i, callee i ≠ y)) programs →
  bystander y ly (start m programs).
Proof.
  intros Hm Hprogs. split; [done|]. simpl. apply Forall_fmap.
  eapply Forall_impl; [done|]. intros p Hp. split; [by split | done].
Qed.

(** C25. An object that no thread of the pool calls, and whose lock no other
    object points to, is after every run of the pool what it was before, and
    so is its lock, and the log has no new message about it: the statements
    of [Retain], [Release] and the destructor write only [this], the lock
    [this] points to and messages about [this]. *)
Theorem instances_independent m programs c :
  sole_owner y ly m → Forall (Forall (λ i, callee i ≠ y)) programs →
  rtc cstep (start m programs) c →
  untouched y ly m (mem c) ∧ sole_owner y ly (mem c).
Proof.
  intros Hm Hprogs Hrun.
  destruct (bystander_rtc _ _ (bystander_start _ _ (proj2 Hm) Hprogs) Hrun)
    as [[Hu _] Hsame].
  split; [done|]. split; [|done]. destruct Hsame as [-> _]. apply Hm.
Qed.

End statements.

(** The copy of an object that its two owners release and destroy: the
    original is gone with its lock, the copy has its count of 1 and its own
    lock, free. *)
Example copy_outlives_original :
  let m := mem (beside_copy (round_robin 2 60)) in
  objects m !! 1%positive = None ∧ locks m !! 1%positive = None ∧
  objects m !! 2%positive = objects (machine_copied 2) !! 2%positive ∧
  refCount m 2 = Some 1 ∧ locks m !! 2%positive = Some new_Mutex.
Proof. by vm_compute. Qed.

Lemma instances_independent_witness :
  untouched 2 2 (machine_copied 2) (mem (beside_copy (round_robin 2 60))) ∧
  sole_owner 2 2 (mem (beside_copy (round_robin 2 60))).
Proof.
  apply (instances_independent (EM:=Throwing) 2%positive 2%positive
           (machine_copied 2) (replicate 2 retain_release_release));
    [by apply (bool_decide_unpack _); vm_compute
    | by repeat constructor
    | apply run_schedule_rtc].
Defined.
