(* ===== verification/Local.v ===== *)
(** * Local: a call sees only its object

    The statements of [Retain], [Release] and the destructor read and write
    [this], the lock [this] points to, the messages about [this] and the
    signalled errors, and nothing else.  [view x lx m] is the machine [m]
    with everything else removed; a call on [x] does on [view x lx m] what
    it does on [m]: it ends the same way and leaves the view of what it
    leaves on [m].  This holds of the methods ([methods_are_local]) and of
    each of their statements ([local_fstep]), so a thread cannot tell
    whether the other objects exist.

    Like [keeping] of [Independence], [local p Q] is a logic of
    computations that composes along [exec_bind]. *)

From S2P Require Import Prelude Lock Diagnostic Machine SmartObject Concurrent Monotone Sharing LastRelease Independence.

#[local] Open Scope exec_scope.

(** ** Definitions *)

Section definitions.
Context (x lx : loc).

(** What a call on [x] can see of the machine. *)
Definition view (m : Machine) : Machine :=
  {| objects := filter (λ kv, kv.1 = x) (objects m);
     locks := filter (λ kv, kv.1 = lx) (locks m);
     log := messages x m;
     signalled := signalled m |}.

(** The lock [x] points to, if it points to one, is [lx]. *)
Definition points (m : Machine) : Prop :=
  ∀ o l, objects m !! x = Some o → m_refCounterLock o = Some l → l = lx.

(** [x] points to [lx] or to nothing, and no other object points to [lx]. *)
Definition belongs (m : Machine) : Prop := points m ∧ unshared x lx m.

(** The frame is in a call on [x], and the lock it holds the address of
    is [lx]. *)
Definition about (f : Frame) : Prop :=
  from_option (λ z, z = x) True (frame_object f) ∧
  from_option (λ l, l = lx) True (frame_lock f).

(** The thread is in a call on [x] and calls on nothing else. *)
Definition within (th : Thread) : Prop :=
  about (frame th) ∧ Forall (λ i, callee i = x) (todo th).

(** On the view the computation ends as on the machine and leaves the view
    of what it leaves there; what it returns satisfies [Q]. *)
Definition local {A} (p : Call A) (Q : A → Prop) : Prop :=
  ∀ m, points m →
    p (view m) = ((p m).1, view (p m).2) ∧ ∀ a, (p m).1 = Normal a → Q a.

#[global] Instance about_dec f : Decision (about f).
Proof.
  unfold about. destruct (frame_object f), (frame_lock f); simpl; apply _.
Defined.
#[global] Instance within_dec th : Decision (within th).
Proof. unfold within. apply _. Defined.

End definitions.

(** ** The view *)

Section view.
Context (x lx : loc).

#[local] Abbreviation view := (view x lx).
#[local] Abbreviation points := (points x lx).

Lemma lookup_filter_key {A} (k : loc) (m : gmap loc A) :
  filter (λ kv, kv.1 = k) m !! k = m !! k.
Proof.
  destruct (m !! k) eqn:E; [by apply map_lookup_filter_Some|].
  apply map_lookup_filter_None. by left.
Qed.

Lemma lookup_filter_other {A} (k j : loc) (m : gmap loc A) :
  j ≠ k → filter (λ kv, kv.1 = k) m !! j = None.
Proof. intros Hj. apply map_lookup_filter_None. right. by intros a _. Qed.

Lemma filter_key_eq {A} (k : loc) (m m' : gmap loc A) :
  m' !! k = m !! k →
  filter (λ kv, kv.1 = k) m' = filter (λ kv, kv.1 = k) m.
Proof.
  intros Hk. apply map_eq. intros j. destruct (decide (j = k)) as [->|Hj].
  - by rewrite !lookup_filter_key.
  - by rewrite !lookup_filter_other.
Qed.

Lemma view_object m : objects (view m) !! x = objects m !! x.
Proof. apply lookup_filter_key. Qed.

Lemma view_lock m : locks (view m) !! lx = locks m !! lx.
Proof. apply lookup_filter_key. Qed.

Lemma view_with_objects_insert o m :
  view (with_objects <[x := o]> m) = with_objects <[x := o]> (view m).
Proof. apply Machine_eq; try done. simpl. by rewrite map_filter_insert_True. Qed.

Lemma view_with_objects_delete m :
  view (with_objects (delete x) m) = with_objects (delete x) (view m).
Proof. apply Machine_eq; try done. simpl. by rewrite map_filter_delete. Qed.

Lemma view_with_locks_insert lk m :
  view (with_locks <[lx := lk]> m) = with_locks <[lx := lk]> (view m).
Proof. apply Machine_eq; try done. simpl. by rewrite map_filter_insert_True. Qed.

Lemma view_with_locks_delete m :
  view (with_locks (delete lx) m) = with_locks (delete lx) (view m).
Proof. apply Machine_eq; try done. simpl. by rewrite map_filter_delete. Qed.

Lemma view_with_log k site c m :
  view (with_log (event k site x c) m) = with_log (event k site x c) (view m).
Proof.
  apply Machine_eq; try done. cbn [view log]. unfold messages. simpl.
  by rewrite filter_app, filter_cons_True.
Qed.

(** A machine that differs in other objects and locks, and in messages
    about other objects, has the same view. *)
Lemma view_untouched m m' :
  untouched x lx m m' → signalled m' = signalled m → view m' = view m.
Proof.
  intros (Ho & Hl & Hlog) Hs. apply Machine_eq; simpl; try done.
  - by apply filter_key_eq.
  - by apply filter_key_eq.
Qed.

Lemma view_idemp m : view (view m) = view m.
Proof.
  apply view_untouched; [|done].
  split_and!; [apply view_object | apply view_lock |].
  unfold messages at 1. simpl. unfold messages. by apply list_filter_filter_l.
Qed.

(** No statement writes a lock pointer. *)
Lemma points_evolves m m' : points m → evolves m m' → points m'.
Proof.
  intros Hm Hev o' l Ho' Hl.
  destruct (evolves_objects _ _ Hev _ _ Ho') as (o & Ho & Hptr & _).
  eapply Hm; [done | congruence].
Qed.

Lemma belongs_evolves m m' : belongs x lx m → evolves m m' → belongs x lx m'.
Proof. intros [??] ?. split; eauto using points_evolves, unshared_evolves. Qed.

Lemma sole_owner_belongs m : sole_owner x lx m → belongs x lx m.
Proof.
  intros [Hp Hu]. split; [|done]. intros o l Ho Hl. rewrite Ho in Hp.
  simpl in Hp. congruence.
Qed.

End view.

(** ** The logic *)

Section logic.
Context (x lx : loc).

#[local] Abbreviation view := (view x lx).
#[local] Abbreviation points := (points x lx).
#[local] Abbreviation local := (local x lx).
#[local] Abbreviation any := (λ _, True).

Section rules.
Context {A B : Type}.

Lemma local_ret (a : A) (Q : A → Prop) : Q a → local (exec_ret a) Q.
Proof. intros HQ m _. split; [done|]. by intros ? [= <-]. Qed.

Lemma local_interrupt i (Q : A → Prop) : local (exec_interrupt i) Q.
Proof. by intros m _. Qed.

Lemma local_bind (p : Call A) (k : A → Call B) Q R :
  evolving p → local p Q → (∀ a, Q a → local (k a) R) →
  local (a <- p ;; k a) R.
Proof.
  intros Hev Hp Hk m Hm. destruct (Hp m Hm) as [Heq HQ]. specialize (Hev m).
  unfold exec_bind. rewrite Heq. destruct (p m) as [[a|i] m1]; [|done].
  simpl in *. apply Hk; [auto | by eapply points_evolves].
Qed.

Lemma local_finally (p : Call A) (c : Call unit) Q :
  evolving p → local p Q → local c any → local (exec_finally p c) Q.
Proof.
  intros Hev Hp Hc m Hm. destruct (Hp m Hm) as [Heq HQ]. specialize (Hev m).
  unfold exec_finally. rewrite Heq. destruct (p m) as [r m1]. simpl in *.
  destruct (Hc m1) as [-> _]; [by eapply points_evolves|].
  destruct (c m1) as [[[]|i] m2]; simpl; [|done]. by split.
Qed.

End rules.

(** ** The primitives *)

Section primitives.
Context `{EM : ErrorMechanism}.

Lemma local_deref :
  local (deref x) (λ o, ∀ l, m_refCounterLock o = Some l → l = lx).
Proof.
  intros m Hm. unfold deref, exec_bind, exec_get. rewrite view_object.
  destruct (objects m !! x) as [o|] eqn:Ho; [|done].
  split; [done|]. intros ? [= <-] l. by apply Hm.
Qed.

Lemma local_load_refCount : local (load_refCount x) any.
Proof.
  eapply local_bind; [auto with evolving | apply local_deref |].
  intros o _. by apply local_ret.
Qed.

Lemma local_load_refCounterLock :
  local (load_refCounterLock x) (λ p, ∀ l, p = Some l → l = lx).
Proof.
  eapply local_bind; [auto with evolving | apply local_deref |].
  intros o Ho. by apply local_ret.
Qed.

Lemma local_refCounterLock : local (refCounterLock x) (λ l, l = lx).
Proof.
  eapply local_bind; [auto with evolving | apply local_load_refCounterLock |].
  intros [l|] Hl; [|apply local_interrupt]. apply local_ret. auto.
Qed.

Lemma local_store_refCount c : local (store_refCount x c) any.
Proof.
  intros m _. unfold store_refCount, deref, exec_bind, exec_get.
  rewrite view_object. destruct (objects m !! x); [|done].
  split; [|done]. cbv [exec_modify exec_ret fst snd]. by rewrite view_with_objects_insert.
Qed.

Lemma local_Lock t : local (BaseLock_call_Lock t lx) any.
Proof.
  intros m _. unfold BaseLock_call_Lock, exec_bind, exec_get.
  rewrite view_lock. destruct (locks m !! lx) as [lk|]; [|done].
  destruct (Lock t lk); [|done].
  split; [|done]. cbv [exec_modify exec_ret fst snd]. by rewrite view_with_locks_insert.
Qed.

Lemma local_Unlock t : local (BaseLock_call_Unlock t lx) any.
Proof.
  intros m _. unfold BaseLock_call_Unlock, exec_bind, exec_get.
  rewrite view_lock. destruct (locks m !! lx) as [lk|]; [|done].
  destruct (Unlock t lk); [|done].
  split; [|done]. cbv [exec_modify exec_ret fst snd]. by rewrite view_with_locks_insert.
Qed.

Lemma local_refCounterLock_Lock t : local (refCounterLock_Lock t x) any.
Proof.
  eapply local_bind; [auto with evolving | apply local_refCounterLock |].
  intros l ->. apply local_Lock.
Qed.

Lemma local_refCounterLock_Unlock t : local (refCounterLock_Unlock t x) any.
Proof.
  eapply local_bind; [auto with evolving | apply local_refCounterLock |].
  intros l ->. apply local_Unlock.
Qed.

Lemma local_LOG_THIS_MSG k site : local (LOG_THIS_MSG k site x) any.
Proof.
  eapply local_bind; [auto with evolving | apply local_load_refCount |].
  intros c _ m _. split; [|done]. cbv [exec_modify exec_ret fst snd].
  by rewrite view_with_log.
Qed.

Lemma local_EP_VERIFY cond e : local (EP_VERIFY cond e) any.
Proof.
  intros m _. unfold EP_VERIFY, exec_bind, exec_modify.
  destruct cond; [done|]. by destruct (on_failure e).
Qed.

Lemma local_EP_DELETE_lock : local (EP_DELETE_lock lx) any.
Proof.
  intros m _. unfold EP_DELETE_lock, exec_bind, exec_get.
  rewrite view_lock. destruct (locks m !! lx); [|done].
  split; [|done]. cbv [exec_modify exec_ret fst snd]. by rewrite view_with_locks_delete.
Qed.

Lemma local_operator_delete : local (operator_delete x) any.
Proof.
  intros m _. unfold operator_delete, deref, exec_bind, exec_get.
  rewrite view_object. destruct (objects m !! x); [|done].
  split; [|done]. cbv [exec_modify exec_ret fst snd]. by rewrite view_with_objects_delete.
Qed.

End primitives.
End logic.

Create HintDb local discriminated.
#[export] Hint Resolve local_interrupt local_load_refCount
  local_load_refCounterLock local_refCounterLock local_store_refCount
  local_Lock local_Unlock local_refCounterLock_Lock
  local_refCounterLock_Unlock local_LOG_THIS_MSG local_EP_VERIFY
  local_EP_DELETE_lock local_operator_delete : local.

(** A statement is a sequence of primitives that ends by naming the next
    frame. *)
Ltac local_solve :=
  repeat first
    [ progress (cbv beta in *; subst)
    | solve [auto with local nocore]
    | eapply local_bind; [solve [evolving_solve] | | intros ? ?]
    | apply local_ret
    | apply local_finally; [solve [evolving_solve] | |]
    | match goal with
      | |- local _ _ (if ?b then _ else _) _ => destruct b
      | H : ∀ l, ?p = Some l → l = _ |- local _ _ (match ?p with _ => _ end) _ =>
          destruct p; [specialize (H _ eq_refl)|]
      | |- about _ _ (if ?b then _ else _) => destruct b
      | H : ∀ l, ?p = Some l → l = _ |- about _ _ (match ?p with _ => _ end) =>
          destruct p; [specialize (H _ eq_refl)|]
      | |- about _ _ _ => by split; simpl
      end ].

(** ** The methods *)

Section methods.
Context `{EM : ErrorMechanism} (x lx : loc).

#[local] Abbreviation any := (λ _, True).

Lemma local_Retain t site : local x lx (Retain t site x) any.
Proof. unfold Retain, LockObj, refCount_incr. local_solve. Qed.

Lemma local_dtor t : local x lx (SmartObject_dtor t x) any.
Proof. unfold SmartObject_dtor, refCount_decr. local_solve. Qed.

Lemma local_EP_DELETE_this t : local x lx (EP_DELETE_this t x) any.
Proof.
  unfold EP_DELETE_this. pose proof (local_dtor t).
  pose proof (evolving_dtor t x). local_solve.
Qed.

Lemma local_Release t site : local x lx (Release t site x) any.
Proof.
  unfold Release, refCount_incr, refCount_decr.
  pose proof (local_EP_DELETE_this t). local_solve.
Qed.

(** C31. On what [x] can see, the methods do what they do on the machine: they
    end the same way and leave the view of what they leave there. *)
Theorem methods_are_local t site m :
  points x lx m →
  Retain t site x (view x lx m) =
    ((Retain t site x m).1, view x lx (Retain t site x m).2) ∧
  Release t site x (view x lx m) =
    ((Release t site x m).1, view x lx (Release t site x m).2) ∧
  EP_DELETE_this t x (view x lx m) =
    ((EP_DELETE_this t x m).1, view x lx (EP_DELETE_this t x m).2).
Proof.
  intros Hm. split_and!;
    [apply local_Retain | apply local_Release | apply local_EP_DELETE_this];
    done.
Qed.

End methods.

Section statements.
Context `{EM : ErrorMechanism} (x lx : loc).

Lemma local_fstep t f : about x lx f → local x lx (fstep t f) (about x lx).
Proof.
  intros [Hf Hl].
  destruct f; simpl in Hf, Hl; subst;
    cbn [fstep Retain_step Release_step dtor_step]; local_solve.
Qed.

Lemma about_entry i : callee i = x → about x lx (entry i).
Proof. intros <-. by destruct i. Qed.

Lemma local_tstep t th :
  within x lx th → local x lx (tstep t th) (within x lx).
Proof.
  intros [Hf Htodo].
  assert (local x lx
            (f' <- fstep t (frame th) ;;
             exec_ret {| frame := f'; todo := todo th |}) (within x lx)) as Hin.
  { eapply local_bind; [apply evolving_fstep | by apply local_fstep |].
    intros f' Hf'. by apply local_ret. }
  revert Hin Htodo. unfold tstep. destruct (frame th); try done.
  destruct (todo th) as [|i rest]; [done|]. intros _ [Hi Hrest]%Forall_cons.
  apply local_ret. split; [by apply about_entry | done].
Qed.

End statements.

Lemma methods_are_local_witness :
  Retain 0%nat site0 1 (view 1 1 (machine_copied 2)) =
    ((Retain 0%nat site0 1 (machine_copied 2)).1,
     view 1 1 (Retain 0%nat site0 1 (machine_copied 2)).2) ∧
  Release (EM:=Throwing) 0%nat site0 1 (view 1 1 (machine_copied 2)) =
    ((Release (EM:=Throwing) 0%nat site0 1 (machine_copied 2)).1,
     view 1 1 (Release (EM:=Throwing) 0%nat site0 1 (machine_copied 2)).2) ∧
  EP_DELETE_this (EM:=Throwing) 0%nat 1 (view 1 1 (machine_copied 2)) =
    ((EP_DELETE_this (EM:=Throwing) 0%nat 1 (machine_copied 2)).1,
     view 1 1 (EP_DELETE_this (EM:=Throwing) 0%nat 1 (machine_copied 2)).2).
Proof.
  apply (methods_are_local (EM:=Throwing) 1%positive 1%positive 0%nat site0
           (machine_copied 2)).
  by apply (sole_owner_belongs 1 1), (bool_decide_unpack _); vm_compute.
Defined.
