(* ===== verification/Groups.v ===== *)
(** * Groups: several objects shared at once

    A pool whose threads call on several objects: some objects outlive
    the calls, others are destroyed by the last [Release] of their owners,
    and a thread may call on one object after another.  The lock of an
    object is taken only by the calls on that object, so the calls on one
    object neither wait for nor disturb the calls on another.

    [seen x lx c] is the pool [c] as object [x] sees it: the machine is the
    view of [Local]; of every thread it keeps the calls on [x], and the
    frame when the thread is in a call on [x].  A step of a call on [x] is
    a step of [seen x lx c], and it leaves [seen y ly c] as it is for every
    other object [y].  So whatever holds of an object that is shared alone
    (the invariant of [Sharing], the phases of [LastRelease]) holds of it
    in the pool ([together]); what is asked of such an invariant is the
    class [Discipline].  And a run of the pool is, as each object sees it,
    a run of a pool on that object alone ([seen_rtc]), so the pool refines
    the protocol object by object. *)

From S2P Require Import Prelude Lock Diagnostic Machine SmartObject Protocol Concurrent Monotone Sharing LastRelease Serial Refinement Independence Local.

(** ** Definitions *)

(** What the calls of its threads leave of an object: the object with
    count [c0], or nothing. *)
Inductive Lifetime : Type :=
| Outlives (c0 : Z)
| Destroyed.

#[global] Instance Lifetime_eq_dec : EqDecision Lifetime.
Proof. solve_decision. Defined.

(** The shared objects, each with its lock and its lifetime. *)
Abbreviation Shared := (gmap loc (loc * Lifetime)).

(** What the pool asks of the invariant of an object that is shared alone:
    every step keeps it; a thread that has not finished can take a step, or
    the thread between [Lock()] and [Unlock()] can; no thread was stopped
    by a fault or an exception; nothing is signalled; and at most one
    thread is between [Lock()] and [Unlock()]. *)
Class Discipline `{EM : ErrorMechanism} (I : Conc → Prop) : Prop := {
  discipline_step t c c' : I c → cstep_fun t c = Some c' → I c';
  discipline_progress c t th :
    I c → pool c !! t = Some th → finished th = false → unblocked c t;
  discipline_running c t th i :
    I c → pool c !! t = Some th → frame th ≠ Stopped i;
  discipline_quiet c : I c → signalled (mem c) = [];
  discipline_exclusive c t1 t2 th1 th2 :
    I c → pool c !! t1 = Some th1 → pool c !! t2 = Some th2 →
    in_cs (frame th1) = true → in_cs (frame th2) = true → t1 = t2;
}.

(** The calls on [x] among [calls]. *)
Definition calls_on (x : loc) (calls : list Invocation) : list Invocation :=
  filter (λ i, callee i = x) calls.

(** The frame as [x] sees it: a frame of a call on another object is a
    thread between two calls. *)
Definition frame_on (x lx : loc) (f : Frame) : Frame :=
  if decide (about x lx f) then f else Returned.

(** The thread as [x] sees it. *)
Definition thread_on (x lx : loc) (th : Thread) : Thread :=
  {| frame := frame_on x lx (frame th); todo := calls_on x (todo th) |}.

(** The next step of the thread is a step of a call on [x]: the thread is
    in such a call, or about to make one. *)
Definition turn (x lx : loc) (th : Thread) : Prop :=
  match frame th, todo th with
  | Returned, i :: _ => callee i = x
  | f, _ => about x lx f
  end.

(** The result of a step as [x] sees it. *)
Definition outcome_on (x lx : loc) (r : Outcome Interruption Thread) :
    Outcome Interruption Thread :=
  match r with
  | Normal th => Normal (thread_on x lx th)
  | Interrupt i => Interrupt i
  end.

Section definitions.
Context `{EM : ErrorMechanism}.

(** The pool as [x] sees it. *)
Definition seen (x lx : loc) (c : Conc) : Conc :=
  {| mem := view x lx (mem c); pool := thread_on x lx <$> pool c |}.

(** What the calls of its threads make of an object in the protocol. *)
Definition outcome (life : Lifetime) (x : loc) (a : Protocol) : Protocol :=
  match life with
  | Outlives c0 => <[x := c0]> a
  | Destroyed => delete x a
  end.

(** The invariant of an object with the given lifetime. *)
Definition holds (life : Lifetime) (x lx : loc) (c : Conc) : Prop :=
  match life with
  | Outlives c0 => inv x lx c0 c
  | Destroyed => ∃ d0, phase x lx d0 c
  end.

(** What its threads start from. *)
Definition begins (life : Lifetime) (x lx : loc) (m : Machine)
    (programs : list (list Invocation)) : Prop :=
  match life with
  | Outlives c0 => shares x lx c0 m programs
  | Destroyed => shares_last x lx m programs
  end.

(** The thread is between two calls or in a call on an object of [G], and
    the calls it has to make are on objects of [G]. *)
Definition placed (G : Shared) (th : Thread) : Prop :=
  Forall (λ i, is_Some (G !! callee i)) (todo th) ∧
  (frame th = Returned ∨
   is_final (frame th) = false ∧
   ∃ x lx life, G !! x = Some (lx, life) ∧ about x lx (frame th)).

(** The invariant of the pool: that of every object, on what the object
    sees. *)
Record together (G : Shared) (c : Conc) : Prop := {
  tg_locks x y lx ly a b :
    G !! x = Some (lx, a) → G !! y = Some (ly, b) → x ≠ y → lx ≠ ly;
  tg_threads : Forall (placed G) (pool c);
  tg_belongs x lx life : G !! x = Some (lx, life) → belongs x lx (mem c);
  tg_holds x lx life :
    G !! x = Some (lx, life) → holds life x lx (seen x lx c);
}.

(** What the pool starts from: every call is on an object of [G], every
    object is the only owner of its lock, and the calls on it are such as
    may be made on it when it is shared alone. *)
Record share_all (G : Shared) (m : Machine)
    (programs : list (list Invocation)) : Prop := {
  sa_known : Forall (Forall (λ i, is_Some (G !! callee i))) programs;
  sa_sole x lx life : G !! x = Some (lx, life) → sole_owner x lx m;
  sa_begins x lx life :
    G !! x = Some (lx, life) →
    begins life x lx (view x lx m) (calls_on x <$> programs);
}.

(** The states such a pool reaches. *)
Definition reachable_together (G : Shared) (m : Machine)
    (programs : list (list Invocation)) (c : Conc) : Prop :=
  share_all G m programs ∧ rtc cstep (start m programs) c.

End definitions.

(** ** A concrete pool *)

Definition retain_release_on (x : loc) : list Invocation :=
  [Inv_Retain site0 x; Inv_Release site0 x].

(** Two objects: the object of [machine1] with two references and a copy
    of it, which has an owner elsewhere.  Threads 0 and 2 own the
    references to the original: each takes one more and gives both back,
    and retains and releases the copy in between.  Threads 1, 3 and 4
    retain and release the copy. *)
Definition two_shared : Shared :=
  {[ 1%positive := (1%positive, Destroyed);
     2%positive := (2%positive, Outlives 1) ]}.

(** The calls of thread 0: on the original, and on the copy in between. *)
Definition original_first : list Invocation :=
  [Inv_Retain site0 1%positive; Inv_Retain site0 2%positive;
   Inv_Release site0 2%positive; Inv_Release site0 1%positive;
   Inv_Release site0 1%positive].

(** The calls of thread 2: on the copy, and on the original in between. *)
Definition copy_first : list Invocation :=
  [Inv_Retain site0 2%positive; Inv_Retain site0 1%positive;
   Inv_Release site0 1%positive; Inv_Release site0 1%positive;
   Inv_Release site0 2%positive].

Definition two_programs : list (list Invocation) :=
  [original_first; retain_release_on 2; copy_first;
   retain_release_on 2; retain_release_on 2].

(** The copy [machine_copied] holds at address 2. *)
Definition the_copy : SmartObject :=
  {| m_refCount := 1; m_refCounterLock := Some 2%positive;
     m_lockPolicy := LOCK_POLICY_MUTEX |}.

Definition two_after (s : list tid) : Conc :=
  run_schedule (EM:=Throwing) s (start (machine_copied 2) two_programs).

(** A thread that waits for the lock of [x] in its [Retain]. *)
Definition waiting (x : loc) : Thread :=
  {| frame := Retain_97 site0 x; todo := [Inv_Release site0 x] |}.

(** A thread that holds the lock of [x] in its [Retain], the first of
    [calls]. *)
Definition holding (x : loc) (calls : list Invocation) : Thread :=
  {| frame := Retain_98 site0 x x; todo := tail calls |}.

(** ** The threads as an object sees them *)

Section threads.
Context `{EM : ErrorMechanism}.
Context (x lx : loc).

Lemma frame_on_about f : about x lx f → frame_on x lx f = f.
Proof. intros. unfold frame_on. by rewrite decide_True. Qed.

(** A frame that is not of a thread between two calls is kept only when
    it is about [x]. *)
Lemma frame_on_inv f :
  frame_on x lx f ≠ Returned → about x lx f ∧ frame_on x lx f = f.
Proof. unfold frame_on. by case_decide. Qed.

(** A frame of a call on [x] is not seen by another object. *)
Lemma frame_on_other y ly f :
  about x lx f → (∀ j, f ≠ Stopped j) → x ≠ y → lx ≠ ly →
  frame_on y ly f = Returned.
Proof.
  intros [Ho Hl] Hrun Hx Hlx. unfold frame_on. case_decide as Hy; [|done].
  destruct Hy as [Ho' Hl'].
  destruct f; try done; simpl in *; congruence.
Qed.

Lemma about_apart y ly f : about x lx f → x ≠ y → lx ≠ ly → apart y ly f.
Proof.
  intros [Hf Hl] Hx Hlx.
  split; [destruct (frame_object f)|destruct (frame_lock f)];
    simpl in *; congruence.
Qed.

Lemma finished_turn th :
  turn x lx th → finished (thread_on x lx th) = finished th.
Proof.
  destruct th as [f calls]. unfold turn, thread_on, calls_on. simpl.
  destruct f, calls as [|call rest]; intros Hturn;
    rewrite ?frame_on_about, ?filter_cons_True by done; try done.
Qed.

(** The statement of a call on [x] does on what [x] sees what it does on
    the machine. *)
Lemma inside_thread_on t f calls m :
  about x lx f → points x lx m →
  exec_bind (fstep t f)
    (λ f', exec_ret {| frame := f'; todo := calls_on x calls |}) (view x lx m) =
  (outcome_on x lx
     (exec_bind (fstep t f)
        (λ f', exec_ret {| frame := f'; todo := calls |}) m).1,
   view x lx
     (exec_bind (fstep t f)
        (λ f', exec_ret {| frame := f'; todo := calls |}) m).2).
Proof.
  intros Hf Hm. destruct (local_fstep x lx t _ Hf m Hm) as [Heq Hpost].
  unfold exec_bind, exec_ret. rewrite Heq.
  destruct (fstep t f m) as [[f'|i] m']; [|done]. simpl.
  unfold thread_on. simpl. by rewrite frame_on_about by auto.
Qed.

(** The thread whose turn is on [x] does on what [x] sees what it does on
    the machine. *)
Lemma tstep_thread_on t th m :
  turn x lx th → points x lx m →
  tstep t (thread_on x lx th) (view x lx m) =
    (outcome_on x lx (tstep t th m).1, view x lx (tstep t th m).2).
Proof.
  intros Hturn Hm.
  destruct th as [f calls]. unfold turn, thread_on in *. simpl in *.
  destruct f; try (rewrite frame_on_about by done; by apply inside_thread_on).
  destruct calls as [|call rest];
    [rewrite frame_on_about by done; by apply (inside_thread_on t Returned [])|].
  unfold calls_on. rewrite filter_cons_True by done.
  unfold tstep, exec_ret. simpl. unfold thread_on. simpl.
  by rewrite frame_on_about by by apply about_entry.
Qed.

(** Inside a call the turn is on the object of the call. *)
Lemma turn_inside th :
  turn x lx th → is_final (frame th) = false → about x lx (frame th).
Proof. destruct th as [[] ?]; by unfold turn. Qed.

Lemma inside_turn th :
  about x lx (frame th) → is_final (frame th) = false → turn x lx th.
Proof. destruct th as [[] ?]; by unfold turn. Qed.

(** The step of a thread whose turn is on [x] leaves every other object
    and its lock untouched. *)
Lemma keeping_turn y ly t th :
  turn x lx th → x ≠ y → lx ≠ ly → keeping y ly (tstep t th) (λ _, True).
Proof.
  intros Hturn Hx Hlx. destruct th as [f calls]. unfold turn in Hturn.
  assert (about x lx f →
          keeping y ly
            (exec_bind (fstep t f)
               (λ f', exec_ret {| frame := f'; todo := calls |}))
            (λ _, True)) as Hin.
  { intros Hf. eapply keeping_bind;
      [apply evolving_fstep | by eapply keeping_fstep, about_apart |].
    intros f' _. by apply keeping_ret. }
  simpl in *. destruct f; try by apply Hin.
  destruct calls; [by apply Hin | by apply keeping_ret].
Qed.

(** And the thread is after the step what it was for every other object:
    a thread between two calls, with the same calls to make. *)
Lemma thread_on_bystander y ly t th th' m m' :
  turn x lx th → finished th = false → points x lx m → x ≠ y → lx ≠ ly →
  tstep t th m = (Normal th', m') → thread_on y ly th' = thread_on y ly th.
Proof.
  intros Hturn Hfin Hm Hx Hlx Hs. destruct (is_final (frame th)) eqn:Hfinal.
  - destruct (finished_final th) as (i & rest & Hf & Hr); [done..|].
    rewrite (tstep_call _ _ _ _ _ Hf Hr) in Hs. simplify_eq.
    destruct th as [f calls]. unfold turn in Hturn. simpl in *. subst.
    unfold thread_on, calls_on. simpl. rewrite filter_cons_False by congruence.
    f_equal. rewrite (frame_on_other y ly (entry i));
      [done | by apply about_entry | by destruct i | done..].
  - pose proof (turn_inside _ Hturn Hfinal) as Hf.
    apply tstep_statement in Hs as [Hs Htodo]; [|done].
    destruct (local_fstep x lx t _ Hf m Hm) as [_ Hpost].
    rewrite Hs in Hpost. unfold thread_on. rewrite Htodo. f_equal.
    rewrite !(frame_on_other y ly); eauto using fstep_not_Stopped.
    intros j Hj. by rewrite Hj in Hfinal.
Qed.

End threads.

(** ** The two disciplines *)

Section disciplines.
Context `{EM : ErrorMechanism}.
Context (x lx : loc).

Lemma inv_exclusive c0 c t1 t2 th1 th2 :
  inv x lx c0 c → pool c !! t1 = Some th1 → pool c !! t2 = Some th2 →
  in_cs (frame th1) = true → in_cs (frame th2) = true → t1 = t2.
Proof.
  intros (o & lk & [Hcore _]) H1 H2 Hin1 Hin2.
  pose proof (core_is_holder _ _ _ _ _ _ Hcore _ _ H1 Hin1).
  pose proof (core_is_holder _ _ _ _ _ _ Hcore _ _ H2 Hin2). congruence.
Qed.

Lemma inv_running c0 c t th i :
  inv x lx c0 c → pool c !! t = Some th → frame th ≠ Stopped i.
Proof.
  intros (o & lk & [Hcore _]) Ht Hf.
  destruct (core_thread_ok _ _ _ _ _ _ Hcore _ _ Ht) as [Hok _].
  by rewrite Hf in Hok.
Qed.

#[global] Instance inv_discipline c0 : Discipline (inv x lx c0).
Proof.
  split; [apply inv_cstep_fun | apply inv_unblocked | apply inv_running |
          | apply inv_exclusive].
  intros c (o & lk & [Hcore _]). apply (core_quiet _ _ _ _ _ _ Hcore).
Qed.

#[global] Instance phase_discipline :
  Discipline (λ c, ∃ d0, phase x lx d0 c).
Proof.
  split.
  - intros t c c' [d0 Hc] ?. exists d0. by eapply phase_cstep_fun.
  - intros c t th [d0 Hc]. by eapply phase_unblocked.
  - intros c t th i [d0 Hc] Ht. by eapply phase_no_use_after_free.
  - intros c [d0 Hc]. by eapply phase_quiet.
  - intros c t1 t2 th1 th2 [d0 Hc]. by eapply phase_exclusive.
Qed.

#[global] Instance holds_discipline life : Discipline (holds life x lx).
Proof. destruct life; [apply inv_discipline | apply phase_discipline]. Qed.

Lemma begins_holds life m programs :
  begins life x lx m programs → holds life x lx (start m programs).
Proof.
  destruct life; [apply inv_start|]. intros. exists (deletions m).
  by apply phase_start.
Qed.

End disciplines.

(** ** Steps *)

Section steps.
Context `{EM : ErrorMechanism}.
Implicit Types (t : tid).

(** The thread after a step is the one its statement returns, or it was
    stopped. *)
Lemma cstep_fun_thread t c c' th :
  cstep_fun t c = Some c' → pool c !! t = Some th →
  (∃ th', tstep t th (mem c) = (Normal th', mem c') ∧
          pool c' = <[t := th']> (pool c)) ∨
  (∃ i, pool c' !! t = Some {| frame := Stopped i; todo := todo th |}).
Proof.
  unfold cstep_fun. intros Hc Ht. rewrite Ht in Hc. simpl in Hc.
  destruct (finished th); [done|].
  destruct (tstep t th (mem c)) as [[th'|i] m']; [|destruct i];
    simplify_eq; [left; eauto|right..]; eexists; simpl;
    by rewrite list_lookup_insert_eq by by eapply lookup_lt_Some.
Qed.

Lemma seen_lookup x lx c t th :
  pool c !! t = Some th → pool (seen x lx c) !! t = Some (thread_on x lx th).
Proof.
  intros Ht. cbn [seen pool]. rewrite list_lookup_fmap.
  exact (f_equal (fmap (thread_on x lx)) Ht).
Qed.

Lemma seen_lookup_inv x lx c t th1 :
  pool (seen x lx c) !! t = Some th1 →
  ∃ th, pool c !! t = Some th ∧ th1 = thread_on x lx th.
Proof.
  cbn [seen pool]. rewrite list_lookup_fmap.
  intros (th & ? & ?)%fmap_Some. eauto.
Qed.

(** The threads start on the calls on [x]. *)
Lemma seen_start x lx m programs :
  seen x lx (start m programs) = start (view x lx m) (calls_on x <$> programs).
Proof.
  unfold seen, start. cbn [mem pool]. f_equal.
  rewrite <- !list_fmap_compose. by apply list_fmap_ext.
Qed.

(** A thread whose turn is on [x] steps in the pool as it does in what [x]
    sees. *)
Lemma seen_cstep_fun t x lx c th :
  pool c !! t = Some th → turn x lx th → points x lx (mem c) →
  cstep_fun t (seen x lx c) = seen x lx <$> cstep_fun t c.
Proof.
  intros Ht Hturn Hm. unfold cstep_fun.
  rewrite (seen_lookup x lx c t th Ht), Ht.
  cbn [fmap option_fmap option_map mbind option_bind seen mem].
  rewrite finished_turn by done. destruct (finished th); [done|].
  rewrite tstep_thread_on by done.
  destruct (tstep t th (mem c)) as [[th'|[e|cr|l]] m']; simpl; try done;
    unfold seen; cbn [mem pool]; by rewrite list_fmap_insert.
Qed.

(** No other object sees the step. *)
Lemma seen_other t x lx y ly c c' th th' :
  pool c !! t = Some th → turn x lx th → finished th = false →
  points x lx (mem c) → x ≠ y → lx ≠ ly → unshared y ly (mem c) →
  signalled (mem c') = signalled (mem c) →
  tstep t th (mem c) = (Normal th', mem c') →
  pool c' = <[t := th']> (pool c) → seen y ly c' = seen y ly c.
Proof.
  intros Ht Hturn Hfin Hm Hx Hl Hu Hq Hs Hp. unfold seen. f_equal.
  - apply view_untouched; [|done].
    destruct (keeping_turn x lx y ly t th Hturn Hx Hl (mem c) Hu) as [Hk _].
    by rewrite Hs in Hk.
  - rewrite Hp, list_fmap_insert.
    rewrite (thread_on_bystander x lx y ly t th th' (mem c) (mem c')) by done.
    apply list_insert_id. exact (seen_lookup y ly c t th Ht).
Qed.

End steps.

(** ** The invariant *)

Section invariant.
Context `{EM : ErrorMechanism}.
Context (G : Shared).
Implicit Types (t : tid).

#[local] Abbreviation together := (together G).

(** The next step of a thread that has not finished is on an object of
    [G]. *)
Lemma placed_turn th :
  placed G th → finished th = false →
  ∃ x lx life, G !! x = Some (lx, life) ∧ turn x lx th.
Proof.
  intros [Htodo [Hf|(Hfinal & x & lx & life & HG & Hab)]] Hfin.
  - destruct (finished_final th) as (i & rest & _ & Hr);
      [done | by rewrite Hf |].
    rewrite Hr in Htodo. apply Forall_cons in Htodo as [[[lx life] HG] _].
    exists (callee i), lx, life. split; [done|]. unfold turn. by rewrite Hf, Hr.
  - exists x, lx, life. split; [done | by apply inside_turn].
Qed.

(** And the step leaves the thread between two calls or in a call on that
    object. *)
Lemma placed_tstep x lx life t th th' m m' :
  G !! x = Some (lx, life) → placed G th → turn x lx th →
  finished th = false → points x lx m →
  tstep t th m = (Normal th', m') → placed G th'.
Proof.
  intros HG [Htodo _] Hturn Hfin Hm Hs.
  destruct (is_final (frame th)) eqn:Hfinal.
  - destruct (finished_final th) as (i & rest & Hf & Hr); [done..|].
    rewrite (tstep_call _ _ _ _ _ Hf Hr) in Hs. simplify_eq.
    unfold turn in Hturn. rewrite Hf, Hr in Hturn. rewrite Hr in Htodo.
    apply Forall_cons in Htodo as [_ Hrest]. split; [done|]. right. simpl.
    split; [by destruct i|]. exists x, lx, life. by split; [|apply about_entry].
  - apply tstep_statement in Hs as [Hs Hsame]; [|done].
    destruct (local_fstep x lx t _ (turn_inside _ _ _ Hturn Hfinal) m Hm)
      as [_ Hpost].
    rewrite Hs in Hpost. split; [by rewrite Hsame|].
    destruct (is_final (frame th')) eqn:Hfinal'; [left|right; eauto 8].
    destruct (frame th') eqn:Hf'; try done.
    by destruct (fstep_not_Stopped _ _ _ _ _ i Hs Hfinal).
Qed.

(** The thread at [t]. *)
Lemma together_thread t c th :
  together c → pool c !! t = Some th → finished th = false →
  ∃ x lx life, G !! x = Some (lx, life) ∧ turn x lx th ∧ points x lx (mem c).
Proof.
  intros Htg Ht Hfin.
  destruct (placed_turn th) as (x & lx & life & HG & Hturn); [|done|].
  { eapply Forall_lookup_1; [apply Htg | done]. }
  exists x, lx, life. split_and!; [done..|]. by eapply tg_belongs.
Qed.

(** The thread that steps: its step is a step of what the object of its
    call sees; it is not stopped, and it signals nothing. *)
Lemma together_stepper t c c' :
  together c → cstep_fun t c = Some c' →
  ∃ th th' x lx life,
    pool c !! t = Some th ∧ finished th = false ∧
    G !! x = Some (lx, life) ∧ turn x lx th ∧
    cstep_fun t (seen x lx c) = Some (seen x lx c') ∧
    tstep t th (mem c) = (Normal th', mem c') ∧
    pool c' = <[t := th']> (pool c) ∧
    signalled (mem c') = signalled (mem c).
Proof.
  intros Htg Hc.
  destruct (cstep_fun_inv _ _ _ Hc) as (th & _ & Ht & Hfin & _).
  destruct (together_thread _ _ _ Htg Ht Hfin) as (x & lx & life & HG & Hturn & Hm).
  assert (cstep_fun t (seen x lx c) = Some (seen x lx c')) as Hseen
    by by rewrite (seen_cstep_fun _ _ _ _ _ Ht Hturn Hm), Hc.
  pose proof (tg_holds _ _ Htg _ _ _ HG) as Hx.
  pose proof (discipline_step t _ _ Hx Hseen) as Hx'.
  destruct (cstep_fun_thread _ _ _ _ Hc Ht) as [(th' & Hs & Hp)|[i Hi]].
  - exists th, th', x, lx, life. split_and!; try done.
    change (signalled (mem (seen x lx c')) = signalled (mem (seen x lx c))).
    by rewrite !(discipline_quiet (I:=holds life x lx)).
  - apply (seen_lookup x lx) in Hi.
    by destruct (discipline_running (I:=holds life x lx) _ _ _ i Hx' Hi).
Qed.

(** No other object sees the step. *)
Lemma together_bystander t c c' th x lx y ly a b :
  together c → cstep_fun t c = Some c' → pool c !! t = Some th →
  turn x lx th → G !! x = Some (lx, a) → G !! y = Some (ly, b) → x ≠ y →
  seen y ly c' = seen y ly c.
Proof.
  intros Htg Hc Ht Hturn HGx HGy Hne.
  destruct (together_stepper _ _ _ Htg Hc)
    as (th0 & th' & x' & lx' & life & Ht' & Hfin & _ & _ & _ & Hs & Hp & Hq).
  assert (th0 = th) as -> by congruence.
  apply (seen_other t x lx y ly c c' th th'); try done.
  - by eapply tg_belongs.
  - by eapply (tg_locks _ _ Htg x y).
  - by eapply tg_belongs.
Qed.

(** What an object sees takes the step, or stays as it is. *)
Lemma seen_step t c c' y ly life :
  together c → cstep_fun t c = Some c' → G !! y = Some (ly, life) →
  rtc cstep (seen y ly c) (seen y ly c').
Proof.
  intros Htg Hc HG.
  destruct (together_stepper _ _ _ Htg Hc)
    as (th & th' & x & lx & life' & Ht & _ & HG' & Hturn & Hseen & _).
  destruct (decide (x = y)) as [->|Hne].
  - simplify_eq. by apply rtc_once, (cstep_thread t).
  - by rewrite (together_bystander _ _ _ _ _ _ _ _ _ _ Htg Hc Ht Hturn HG' HG Hne).
Qed.

(** Every step keeps the invariant of every object. *)
Lemma together_cstep_fun t c c' :
  together c → cstep_fun t c = Some c' → together c'.
Proof.
  intros Htg Hc.
  destruct (together_stepper _ _ _ Htg Hc)
    as (th & th' & x & lx & life & Ht & Hfin & HG & Hturn & Hseen & Hs & Hp & _).
  split; [apply Htg | ..].
  - rewrite Hp. apply Forall_insert; [apply Htg|].
    eapply (placed_tstep x lx); try done.
    + eapply Forall_lookup_1; [apply Htg | done].
    + by eapply tg_belongs.
  - intros y ly life1 HG1.
    eapply belongs_evolves; [by eapply tg_belongs | by eapply cstep_fun_evolves].
  - intros y ly life1 HG1. destruct (decide (x = y)) as [->|Hne].
    + simplify_eq. eapply (discipline_step t); [by eapply tg_holds | done].
    + rewrite (together_bystander _ _ _ _ _ _ _ _ _ _ Htg Hc Ht Hturn HG HG1 Hne).
      by eapply tg_holds.
Qed.

Lemma together_rtc c c' : together c → rtc cstep c c' → together c'.
Proof. induction 2 as [|? ? ? [t ? ? ?]]; eauto using together_cstep_fun. Qed.

(** Two objects that own their locks have different locks. *)
Lemma sole_owner_locks m x y lx ly :
  sole_owner x lx m → sole_owner y ly m → x ≠ y → lx ≠ ly.
Proof.
  intros [Hx _] [_ Hy] Hne ->. apply Hne.
  destruct (objects m !! x) as [o|] eqn:Ho; [|done]. by eapply Hy.
Qed.

Lemma together_start m programs :
  share_all G m programs → together (start m programs).
Proof.
  intros [Hknown Hsole Hbegins]. split; cbn [start mem pool].
  - intros x y lx ly a b Hx Hy. eapply sole_owner_locks; eauto.
  - apply Forall_fmap. eapply Forall_impl; [done|]. intros calls ?.
    split; [done | by left].
  - intros x lx life HG. by eapply sole_owner_belongs, Hsole.
  - intros x lx life HG. rewrite seen_start. by apply begins_holds, Hbegins.
Qed.

Lemma reachable_together_inv m programs c :
  reachable_together G m programs c → together c.
Proof. intros [??]. eauto using together_rtc, together_start. Qed.

(** ** Each object sees a pool of its own *)

Lemma seen_rtc c c' y ly life :
  together c → rtc cstep c c' → G !! y = Some (ly, life) →
  rtc cstep (seen y ly c) (seen y ly c').
Proof.
  intros Htg Hrun HG. induction Hrun as [|c c1 c' [t ? ? Hc] _ IH]; [done|].
  etrans; [by eapply seen_step | eauto using together_cstep_fun].
Qed.

(** What an object that outlives the calls sees of a run of the pool is a
    run of a pool of [Sharing]. *)
Lemma seen_reachable m programs c x lx c0 :
  reachable_together G m programs c → G !! x = Some (lx, Outlives c0) →
  reachable x lx c0 (view x lx m) (calls_on x <$> programs) (seen x lx c).
Proof.
  intros [Hsa Hrun] HG. split; [apply (sa_begins _ _ _ Hsa _ _ _ HG)|].
  rewrite <- seen_start. eauto using seen_rtc, together_start.
Qed.

(** What an object that is destroyed sees is a run of a pool of
    [LastRelease]. *)
Lemma seen_reachable_last m programs c y ly :
  reachable_together G m programs c → G !! y = Some (ly, Destroyed) →
  reachable_last y ly (view y ly m) (calls_on y <$> programs) (seen y ly c).
Proof.
  intros [Hsa Hrun] HG. split; [apply (sa_begins _ _ _ Hsa _ _ _ HG)|].
  rewrite <- seen_start. eauto using seen_rtc, together_start.
Qed.

(** A thread that is enabled in what the object of its call sees is
    enabled. *)
Lemma seen_enabled t c th x lx :
  pool c !! t = Some th → turn x lx th → points x lx (mem c) →
  is_Some (cstep_fun t (seen x lx c)) → is_Some (cstep_fun t c).
Proof.
  intros Ht Hturn Hm. rewrite (seen_cstep_fun _ _ _ _ _ Ht Hturn Hm).
  by rewrite fmap_is_Some.
Qed.

(** While a thread has not finished, it can take a step, or the thread
    that holds the lock of the object it calls on can. *)
Lemma together_unblocked c t th :
  together c → pool c !! t = Some th → finished th = false → unblocked c t.
Proof.
  intros Htg Ht Hfin.
  destruct (together_thread _ _ _ Htg Ht Hfin) as (x & lx & life & HG & Hturn & Hm).
  destruct (discipline_progress (I:=holds life x lx) (seen x lx c) t
              (thread_on x lx th)) as [Hme|(t' & th1 & Ht1 & Hin & Hit)];
    [by eapply tg_holds | by apply seen_lookup | by rewrite finished_turn | |].
  { left. by eapply seen_enabled. }
  apply seen_lookup_inv in Ht1 as (th' & Ht' & ->).
  destruct (frame_on_inv x lx (frame th')) as [Hab Hf];
    [intros Hf; cbn [thread_on frame] in Hin; by rewrite Hf in Hin|].
  cbn [thread_on frame] in Hin. rewrite Hf in Hin.
  right. exists t', th'. split_and!; [done..|].
  eapply seen_enabled; [done | | done..].
  apply inside_turn; [done|]. by destruct (frame th').
Qed.

Lemma together_progress c t th :
  together c → pool c !! t = Some th → finished th = false → red cstep c.
Proof. eauto using unblocked_red, together_unblocked. Qed.

(** When the pool cannot move, every thread has returned from its last
    call. *)
Lemma together_done c :
  together c → nf cstep c → Forall (λ th, th = thread_of []) (pool c).
Proof.
  intros Htg Hnf. apply Forall_lookup. intros t th Ht.
  destruct (finished th) eqn:Hfin; [|destruct Hnf; by eapply together_progress].
  destruct (Forall_lookup_1 _ _ _ _ (tg_threads _ _ Htg) Ht) as [_ [Hf|[Hf _]]];
    destruct th as [[] []]; by simplify_eq/=.
Qed.

(** And no object sees a thread that can move. *)
Lemma together_nf c x lx :
  together c → nf cstep c → nf cstep (seen x lx c).
Proof.
  intros Htg Hnf [c1 Hstep]. inversion Hstep as [t ? ? Hc1]; subst.
  destruct (cstep_fun_inv _ _ _ Hc1) as (th1 & _ & Ht1 & Hfin & _).
  apply seen_lookup_inv in Ht1 as (th & Ht & ->).
  pose proof (Forall_lookup_1 _ _ _ _ (together_done _ Htg Hnf) Ht) as ->.
  done.
Qed.

End invariant.

(** ** Pools on several objects *)

Section pools.
Context `{EM : ErrorMechanism}.
Context (G : Shared).
Implicit Types (t : tid).

#[local] Abbreviation reachable_together := (reachable_together G).

(** C27. The counter of an object that outlives the calls is its final value
    plus what the calls that are still to be made on it give back,
    whatever is done to the other objects meanwhile, by the same threads
    or by others. *)
Theorem counters_count_references m programs c x lx c0 :
  reachable_together m programs c → G !! x = Some (lx, Outlives c0) →
  ∃ o, objects (mem c) !! x = Some o ∧
       m_refCount o = c0 + sum_with owned (thread_on x lx <$> pool c) ∧
       1 ≤ m_refCount o ≤ INT_MAX ∧ signalled (mem c) = [].
Proof.
  intros Htg%reachable_together_inv HG.
  destruct (tg_holds _ _ Htg _ _ _ HG) as (o & lk & Hlive). exists o.
  pose proof (live_count_range _ _ _ _ _ _ Hlive).
  destruct Hlive as [[[Ho _ _] _ Hcount _ _ _ _ Hq] _].
  cbn [seen mem] in Ho. by rewrite view_object in Ho.
Qed.

(** Of the threads in a call on one object, at most one is between
    [Lock()] and [Unlock()]. *)
Theorem mutual_exclusion_per_object m programs c x lx life t1 t2 th1 th2 :
  reachable_together m programs c → G !! x = Some (lx, life) →
  pool c !! t1 = Some th1 → pool c !! t2 = Some th2 →
  about x lx (frame th1) → about x lx (frame th2) →
  in_cs (frame th1) = true → in_cs (frame th2) = true → t1 = t2.
Proof.
  intros Htg%reachable_together_inv HG H1 H2 Hab1 Hab2 Hin1 Hin2.
  apply (discipline_exclusive (I:=holds life x lx) _ _ _ _ _
           (tg_holds _ _ Htg _ _ _ HG) (seen_lookup x lx _ _ _ H1)
           (seen_lookup x lx _ _ _ H2));
    cbn [thread_on frame]; by rewrite frame_on_about.
Qed.

(** No thread waits for ever, on whichever objects it calls. *)
Theorem no_deadlock_together m programs c t th :
  reachable_together m programs c → pool c !! t = Some th →
  finished th = false → red cstep c.
Proof. eauto using together_progress, reachable_together_inv. Qed.

(** When no thread can move, every thread has returned from its last
    call: none was stopped by a fault or an exception, on any object. *)
Theorem all_calls_return m programs c :
  reachable_together m programs c → nf cstep c →
  Forall (λ th, th = thread_of []) (pool c).
Proof. eauto using together_done, reachable_together_inv. Qed.

(** C33. Every run can be completed: from every state that threads sharing
    several objects reach, they can go on until no thread can move, and
    then each has returned from its last call, whatever the order in which
    they call on the objects; none is left waiting for a lock. *)
Theorem calls_complete_together m programs c :
  reachable_together m programs c →
  ∃ c', rtc cstep c c' ∧ nf cstep c' ∧
        Forall (λ th, th = thread_of []) (pool c').
Proof.
  intros [Hsa Hrun]. destruct (cstep_normalises c) as (c' & Hrun' & Hnf).
  exists c'. split_and!; [done..|].
  eapply all_calls_return; [split; [done | by etrans] | done].
Qed.

(** C30. No call is made on a destroyed object, in any state the pool reaches:
    no thread is stopped by a fault or an exception, and a thread that is
    in a call on an object or has one to make, other than the thread that
    destroys the object, finds the object alive. *)
Theorem no_use_after_free_together m programs c t th x lx life :
  reachable_together m programs c → G !! x = Some (lx, life) →
  pool c !! t = Some th →
  (∀ i, frame th ≠ Stopped i) ∧
  (finished (thread_on x lx th) = false →
   destroying (frame (thread_on x lx th)) = false →
   alive (mem c) x = true).
Proof.
  intros Htg%reachable_together_inv HG Ht.
  pose proof (tg_holds _ _ Htg _ _ _ HG) as Hx.
  pose proof (seen_lookup x lx _ _ _ Ht) as Ht'. split.
  - intros i Hf.
    apply (discipline_running (I:=holds life x lx) _ _ _ i Hx Ht').
    cbn [thread_on frame]. by rewrite Hf.
  - assert (alive (mem (seen x lx c)) x = alive (mem c) x) as <-
      by (unfold alive; cbn [seen mem]; by rewrite view_object).
    destruct life as [c0|]; [|destruct Hx; by eapply phase_no_use_after_free].
    destruct Hx as (o & lk & [Hcore _]). intros _ _. unfold alive.
    rewrite (owns_this _ _ _ _ _ (core_owns _ _ _ _ _ _ Hcore)).
    by apply bool_decide_eq_true.
Qed.

(** C29. After all calls complete, an object that outlives them has the counter
    it had before the calls plus the [Retain]s minus the [Release]s that
    were made on it, and it is alive. *)
Theorem final_counts m programs c x lx c0 :
  reachable_together m programs c → nf cstep c →
  G !! x = Some (lx, Outlives c0) →
  refCount (mem c) x = Some c0 ∧ alive (mem c) x = true.
Proof.
  intros Htg%reachable_together_inv Hnf HG.
  destruct (tg_holds _ _ Htg _ _ _ HG) as (o & lk & [Hcore _]).
  pose proof (owns_this _ _ _ _ _ (core_owns _ _ _ _ _ _ Hcore)) as Ho.
  cbn [seen mem] in Ho. rewrite view_object in Ho.
  unfold refCount, alive. rewrite Ho.
  split; [simpl; f_equal | by apply bool_decide_eq_true].
  rewrite (core_count _ _ _ _ _ _ Hcore), sum_with_zero; [lia|].
  apply Forall_fmap. eapply Forall_impl; [by eapply together_done|].
  by intros ? ->.
Qed.

(** C28. After all calls complete, an object whose owners have given back
    every reference is freed with its lock, its destructor has written one
    message, with the counter at 0, after the messages the log held
    before, and nothing was signalled. *)
Theorem last_releases_destroy m programs c y ly :
  reachable_together m programs c → nf cstep c →
  G !! y = Some (ly, Destroyed) →
  objects (mem c) !! y = None ∧ locks (mem c) !! ly = None ∧
  signalled (mem c) = [] ∧
  filter (λ e, ev_kind e = Deleted) (messages y (mem c)) =
    filter (λ e, ev_kind e = Deleted) (messages y m) ++
      [event Deleted None y 0].
Proof.
  intros Hr Hnf HG.
  pose proof (reachable_phase _ _ _ _ _ (seen_reachable_last _ _ _ _ _ _ Hr HG))
    as Hphase.
  destruct (phase_nf _ _ _ _ Hphase
              (together_nf _ _ _ _ (reachable_together_inv _ _ _ _ Hr) Hnf))
    as [_ [Ho Hl Hq Hlog]].
  cbn [seen mem] in *. by rewrite view_object in Ho; rewrite view_lock in Hl.
Qed.

(** C26. Every object refines the protocol: when all calls have completed,
    whatever the schedule was and whatever was done to the other objects
    meanwhile, the calls on the object were made in an order the protocol
    permits, and what the object sees of the machine stands for the
    protocol's final state. *)
Theorem objects_refine_protocol m programs c x lx life (a : Protocol) :
  reachable_together m programs c → nf cstep c →
  G !! x = Some (lx, life) → sim (view x lx m) a →
  refines (calls_on x <$> programs) a (outcome life x a) (seen x lx c).
Proof.
  intros Hr Hnf HG Hsim.
  pose proof (together_nf _ _ x lx (reachable_together_inv _ _ _ _ Hr) Hnf).
  destruct life;
    [eapply sharing_refines_protocol | eapply last_release_refines_protocol];
    eauto using seen_reachable, seen_reachable_last.
Qed.

End pools.

(** ** The concrete pool *)

#[local] Instance strict_dec calls : Decision (strict calls).
Proof. induction calls; simpl; apply _. Defined.

#[local] Ltac two_decide :=
  first [by vm_compute | by apply (bool_decide_unpack _); vm_compute].

#[local] Ltac two_cases x lx life :=
  intros x lx life; unfold two_shared;
  intros [[<- [= <- <-]]|[_ [<- [= <- <-]]%lookup_singleton_Some]]%lookup_insert_Some.

Lemma two_share_all : share_all two_shared (machine_copied 2) two_programs.
Proof.
  split; [two_decide | two_cases x lx life; two_decide | two_cases x lx life].
  - exists (object1 2), new_Mutex. split_and!; [split|..]; two_decide.
  - exists the_copy, new_Mutex. split_and!; [split|..]; two_decide.
Qed.

Lemma two_reachable s :
  reachable_together (EM:=Throwing) two_shared (machine_copied 2)
    two_programs (two_after s).
Proof. split; [apply two_share_all | apply run_schedule_rtc]. Qed.

Lemma counters_count_references_witness :
  ∃ o, objects (mem (two_after [0; 0; 2; 2; 1; 3]%nat)) !! 2%positive = Some o ∧
       m_refCount o =
         1 + sum_with owned (thread_on 2 2 <$>
                               pool (two_after [0; 0; 2; 2; 1; 3]%nat)) ∧
       1 ≤ m_refCount o ≤ INT_MAX ∧
       signalled (mem (two_after [0; 0; 2; 2; 1; 3]%nat)) = [].
Proof.
  by apply (counters_count_references (EM:=Throwing) two_shared
              (machine_copied 2) two_programs
              (two_after [0; 0; 2; 2; 1; 3]%nat) 2%positive 2%positive 1);
    [apply two_reachable|].
Defined.

Lemma mutual_exclusion_per_object_witness : 2%nat = 2%nat.
Proof.
  apply (mutual_exclusion_per_object (EM:=Throwing) two_shared
           (machine_copied 2) two_programs (two_after [0; 0; 2; 2]%nat)
           2%positive 2%positive (Outlives 1) 2%nat 2%nat
           (holding 2 copy_first) (holding 2 copy_first));
    [apply two_reachable | reflexivity.. | two_decide | two_decide
    | reflexivity | reflexivity].
Defined.

(** The locks are per object: a thread in a call on the original and a
    thread in a call on the copy are between [Lock()] and [Unlock()] at
    the same time. *)
Example locks_held_together :
  in_cs ∘ frame <$> pool (two_after [0; 0; 2; 2]%nat) =
    [true; false; true; false; false].
Proof. by vm_compute. Qed.

Lemma no_deadlock_together_witness :
  red (cstep (EM:=Throwing)) (two_after [0; 0; 2; 2; 1; 3]%nat).
Proof.
  apply (no_deadlock_together (EM:=Throwing) two_shared
           (machine_copied 2) two_programs (two_after [0; 0; 2; 2; 1; 3]%nat)
           3%nat (waiting 2));
    [apply two_reachable | reflexivity..].
Defined.

(** A round-robin schedule that lets the five threads finish. *)
Lemma two_stuck : nf (cstep (EM:=Throwing)) (two_after (round_robin 5 100)).
Proof. apply stuck_nf. by vm_compute. Qed.

Lemma all_calls_return_witness :
  Forall (λ th, th = thread_of []) (pool (two_after (round_robin 5 100))).
Proof.
  apply (all_calls_return (EM:=Throwing) two_shared
           (machine_copied 2) two_programs);
    [apply two_reachable | apply two_stuck].
Defined.

Lemma calls_complete_together_witness :
  ∃ c', rtc (cstep (EM:=Throwing)) (two_after [0; 0; 2; 2; 1; 3]%nat) c' ∧
        nf (cstep (EM:=Throwing)) c' ∧
        Forall (λ th, th = thread_of []) (pool c').
Proof.
  apply (calls_complete_together (EM:=Throwing) two_shared (machine_copied 2)
           two_programs), two_reachable.
Defined.

Lemma final_counts_witness :
  refCount (mem (two_after (round_robin 5 100))) 2%positive = Some 1 ∧
  alive (mem (two_after (round_robin 5 100))) 2%positive = true.
Proof.
  apply (final_counts (EM:=Throwing) two_shared (machine_copied 2)
           two_programs (two_after (round_robin 5 100)) 2%positive 2%positive 1);
    [apply two_reachable | apply two_stuck | reflexivity].
Defined.

Lemma last_releases_destroy_witness :
  objects (mem (two_after (round_robin 5 100))) !! 1%positive = None ∧
  locks (mem (two_after (round_robin 5 100))) !! 1%positive = None ∧
  signalled (mem (two_after (round_robin 5 100))) = [] ∧
  filter (λ e, ev_kind e = Deleted)
    (messages 1 (mem (two_after (round_robin 5 100)))) =
    filter (λ e, ev_kind e = Deleted) (messages 1 (machine_copied 2)) ++
      [event Deleted None 1 0].
Proof.
  apply (last_releases_destroy (EM:=Throwing) two_shared
           (machine_copied 2) two_programs (two_after (round_robin 5 100))
           1%positive 1%positive);
    [apply two_reachable | apply two_stuck | reflexivity].
Defined.

(** Thread 2 is in a call on the copy and has calls to make on the
    original: the original is alive. *)
Lemma no_use_after_free_together_witness :
  (∀ i, frame (holding 2 copy_first) ≠ Stopped i) ∧
  (finished (thread_on 1 1 (holding 2 copy_first)) = false →
   destroying (frame (thread_on 1 1 (holding 2 copy_first))) = false →
   alive (mem (two_after [0; 0; 2; 2; 1; 3]%nat)) 1%positive = true).
Proof.
  apply (no_use_after_free_together (EM:=Throwing) two_shared
           (machine_copied 2) two_programs (two_after [0; 0; 2; 2; 1; 3]%nat)
           2%nat (holding 2 copy_first) 1%positive 1%positive Destroyed);
    [apply two_reachable | reflexivity..].
Defined.

Lemma objects_refine_protocol_witness :
  refines (calls_on 1 <$> two_programs) {[1%positive := 2]}
    (outcome Destroyed 1%positive {[1%positive := 2]})
    (seen 1%positive 1%positive (two_after (round_robin 5 100))).
Proof.
  apply (objects_refine_protocol (EM:=Throwing) two_shared
           (machine_copied 2) two_programs (two_after (round_robin 5 100))
           1%positive 1%positive Destroyed);
    [apply two_reachable | apply two_stuck | reflexivity | two_decide].
Defined.
