(* ===== verification/Lifecycle.v ===== *)
(** * Lifecycle: an object from its constructor to its destructor

    The constructor, the calls of the creator, the threads and the
    destructor, one after the other on one machine.  The creator makes the
    object with [EP_NEW] and takes one reference more for every other owner
    ([create]); the owners then retain and release the object from their
    threads, each giving back what it holds.

    [handed] is what the creator leaves: the machine it started from with
    one object and one lock more.  It is what the pools of [LastRelease]
    start from ([handed_shares_last]) and, for an object with an owner
    left, the pools of [Sharing] ([handed_shares]).  The calls of a pool
    on one object reach nothing else ([calls_reach_this_only]), so when
    the threads are done the heaps are what they were before the
    constructor: nothing leaks, nothing else was touched.  The machine is
    well formed ([Invariant.wf]) in every state of the threads but those
    in which a thread is destroying the object ([outside_destructor]). *)

From S2P Require Import Prelude Lock Diagnostic Machine SmartObject Invariant Concurrent Monotone Sharing LastRelease Independence.

(** ** Definitions *)

(** What the creator does before the threads start: [EP_NEW] of the
    object, then one [Retain] for every owner but itself. *)
Definition create (raw : SmartObject) (site : CallSite) (p : LockPolicy)
    (t : tid) (k : nat) (m : Machine) : list Op :=
  OpNew raw site p :: replicate k (OpRetain t site (fresh (dom (objects m)))).

(** The machine the creator leaves. *)
Definition created `{EM : ErrorMechanism} (raw : SmartObject) (site : CallSite)
    (p : LockPolicy) (t : tid) (k : nat) (m : Machine) : Machine :=
  (perform_all (create raw site p t k m) m).2.

(** [m'] is [m] with one object more, [this], counted [c] times, and its
    lock [l], free; no destructor has run since [m] and nothing was
    signalled. *)
Record handed (p : LockPolicy) (this l : loc) (c : Z) (m m' : Machine) : Prop := {
  handed_wf : wf m';
  handed_objects :
    objects m' =
      <[this := {| m_refCount := c; m_refCounterLock := Some l;
                   m_lockPolicy := p |}]> (objects m);
  handed_locks : ∃ lk0, new_lock p = Some lk0 ∧ locks m' = <[l := lk0]> (locks m);
  handed_deletions : deletions m' = deletions m;
  handed_signalled : signalled m' = signalled m;
}.

(** No thread is in the statements that destroy the object: the last part
    of [Release] (lines 113-115), the destructor, [operator delete]. *)
Definition outside_destructor (c : Conc) : Prop :=
  Forall (λ th, destroying (frame th) = false) (pool c).

#[global] Instance outside_destructor_dec c : Decision (outside_destructor c).
Proof. unfold outside_destructor. apply _. Defined.

(** ** A concrete pool *)

(** An owner of object 2 takes one reference more and gives both back. *)
Definition owner_of_2 : list Invocation :=
  [Inv_Retain site0 2%positive; Inv_Release site0 2%positive;
   Inv_Release site0 2%positive].

(** Beside the object of [machine1], thread 0 makes an object with a mutex
    and takes a reference for a second owner. *)
Definition made_beside : Machine :=
  created (EM:=Throwing) raw0 site0 LOCK_POLICY_MUTEX 0%nat 1 (machine1 1).

(** The two owners after schedule [s]. *)
Definition owners_beside (s : list tid) : Conc :=
  run_schedule (EM:=Throwing) s (start made_beside (replicate 2 owner_of_2)).

(** A thread that takes a reference to object 2 from an owner and gives it
    back. *)
Definition guest_of_2 : list Invocation :=
  [Inv_Retain site0 2%positive; Inv_Release site0 2%positive].

(** One owner and a guest after schedule [s]; the creator keeps its
    reference. *)
Definition guest_beside (s : list tid) : Conc :=
  run_schedule (EM:=Throwing) s (start made_beside [owner_of_2; guest_of_2]).

(** ** The creator *)

Section creator.
Context `{EM : ErrorMechanism}.
Context (m : Machine) (raw : SmartObject) (site : CallSite) (t : tid).
Context (p : LockPolicy) (lk0 : BaseLock).
Context (Hwf : wf m) (Hp : new_lock p = Some lk0).

#[local] Abbreviation this := (fresh (dom (objects m))).
#[local] Abbreviation l := (fresh (dom (locks m))).
#[local] Abbreviation handed := (handed p this l).

(** The constructor hands out the first reference. *)
Lemma handed_ctor : handed 1 m (ctor_result site this p m).
Proof using Hwf Hp.
  split; [by apply wf_ctor_result, fresh_object_None | ..];
    unfold ctor_result; rewrite Hp; [done | by exists lk0 | | done].
  by apply (deletions_with_log Allocated).
Qed.

(** What is handed out is an object that owns its lock. *)
Lemma handed_owns c m' :
  handed c m m' →
  owns m' this {| m_refCount := c; m_refCounterLock := Some l;
                  m_lockPolicy := p |} l lk0.
Proof using Hp.
  intros [_ Ho (lk & Hlk & Hl) _ _]. simplify_eq.
  split; [rewrite Ho | done | rewrite Hl]; apply lookup_insert_eq.
Qed.

(** A [Retain] hands out one reference more. *)
Lemma handed_Retain c m' :
  handed c m m' → in_int c → c < INT_MAX →
  ∃ m'', Retain t site this m' = (Normal tt, m'') ∧ handed (c + 1) m m''.
Proof using Hp.
  intros Hh Hint Hc. pose proof (handed_owns _ _ Hh) as Howns.
  destruct (live_object_facts m' t this l _ lk0 Howns)
    as (_ & _ & _ & lk' & Hlock & _); [by eapply new_lock_free|].
  pose proof (Retain_preserves_wf m' t site this (handed_wf _ _ _ _ _ _ Hh)) as Hwf'.
  rewrite Retain_run in *. unfold Retain_result in *.
  rewrite (owns_enter _ _ _ _ _ _ _ Howns Hlock) in *.
  cbn [en_object] in *. eexists. split; [done|].
  destruct Hh as [_ Ho Hl Hd Hs]. split; [done | | done | | done].
  - cbn. rewrite Ho, insert_insert_eq, int_incr_small by done. done.
  - by rewrite deletions_with_log.
Qed.

(** And [k] of them [k] more. *)
Lemma handed_retains k c m' :
  handed c m m' → in_int c → c + Z.of_nat k ≤ INT_MAX →
  ∃ m'', perform_all (replicate k (OpRetain t site this)) m' = (Normal tt, m'') ∧
         handed (c + Z.of_nat k) m m''.
Proof using Hp.
  revert c m'. induction k as [|k IH]; intros c m' Hh Hint Hk.
  { exists m'. split; [done|]. by replace (c + Z.of_nat 0) with c by lia. }
  destruct (handed_Retain c m' Hh Hint) as (m1 & Hr & Hh1); [lia|].
  destruct (IH (c + 1) m1 Hh1) as (m2 & Hrs & Hh2);
    [unfold in_int in *; lia | lia |].
  exists m2. split; [|by replace (c + Z.of_nat (S k)) with (c + 1 + Z.of_nat k) by lia].
  cbn [replicate perform_all perform]. by erewrite exec_bind_normal.
Qed.

(** The creator hands out [1 + k] references. *)
Lemma created_handed k :
  1 + Z.of_nat k ≤ INT_MAX →
  handed (1 + Z.of_nat k) m (created raw site p t k m).
Proof using Hwf Hp.
  intros Hk.
  destruct (handed_retains k 1 _ handed_ctor) as (m2 & Hrs & Hh); [done..|].
  unfold created, create. cbn [perform_all perform].
  unfold exec_bind at 1 2. rewrite EP_NEW_SmartObject_run.
  unfold exec_ret at 1. by rewrite Hrs.
Qed.

(** Threads that are the owners of what was handed out may share it. *)
Lemma handed_shares_last c m' programs :
  handed c m m' → exclusive lk0 = true → signalled m = [] →
  Forall (todo_ok this) programs → Forall strict programs →
  sum_with balance programs = c → 1 ≤ c → sum_with hi programs ≤ INT_MAX →
  shares_last this l m' programs.
Proof using Hp.
  intros Hh Hex Hq Hok Hstrict Hc Hone Hhi.
  eexists _, lk0.
  split_and!; [by apply handed_owns | done | by eapply new_lock_free
              | done | lia | done.. |].
  by rewrite (handed_signalled _ _ _ _ _ _ Hh).
Qed.

(** And so may threads that leave it an owner: [c0] references stay. *)
Lemma handed_shares c c0 m' programs :
  handed c m m' → exclusive lk0 = true → signalled m = [] →
  Forall (todo_ok this) programs →
  c = c0 + sum_with balance programs →
  1 ≤ c0 + sum_with lo programs → c0 + sum_with hi programs ≤ INT_MAX →
  shares this l c0 m' programs.
Proof using Hp.
  intros Hh Hex Hq Hok Hc Hlo Hhi.
  eexists _, lk0.
  split_and!; [by apply handed_owns | done | by eapply new_lock_free
              | done.. |].
  by rewrite (handed_signalled _ _ _ _ _ _ Hh).
Qed.

(** A lock of the class of a new lock that nobody holds is the new
    lock. *)
Lemma free_lock_new lk :
  lock_kind lk = lock_kind lk0 → holder lk = None → lk = lk0.
Proof using Hp.
  revert Hp. destruct p, lk as [[[]]|[[]]|[]]; intros; by simplify_eq/=.
Qed.

(** What the owners leave of what was handed out when they leave [c0]
    references: the object with the counter at [c0], and its lock, free. *)
Lemma stays_at_end c c0 m' programs c1 :
  reachable this l c0 m' programs c1 → nf cstep c1 → handed c m m' →
  objects (mem c1) !! this =
    Some {| m_refCount := c0; m_refCounterLock := Some l; m_lockPolicy := p |} ∧
  locks (mem c1) !! l = Some lk0 ∧ signalled (mem c1) = [] ∧
  deletions (mem c1) = deletions m' ∧
  Forall (λ th, th = thread_of []) (pool c1).
Proof using Hp.
  intros Hr Hnf Hh. pose proof (reachable_done _ _ _ _ _ _ Hr Hnf) as Hpool.
  pose proof (reachable_inv _ _ _ _ _ _ Hr) as Hinv. destruct Hr as [Hsh Hrun].
  pose proof (inv_rtc_deletions _ _ _ _ _ (inv_start _ _ _ _ _ Hsh) Hrun) as Hdel.
  destruct Hinv as (o & lk & [[[Ho Hptr Hlk] _ Hcount _ _ Hholder _ Hquiet] _]).
  pose proof (runs_evolve _ _ Hrun) as [Hobjs Hlocks _ _].
  destruct (Hobjs _ _ Ho) as (o0 & Ho0 & _ & Hpol & _).
  destruct (Hlocks _ _ Hlk) as (lk1 & Hlk1 & Hkind).
  destruct (handed_owns _ _ Hh) as [Ho0' _ Hlk1']. cbn [start mem] in *.
  assert (Forall (λ th, th = thread_of []) (pool c1)) as Hall
    by (rewrite Hpool; by apply Forall_replicate).
  rewrite sum_with_zero in Hcount
    by (eapply Forall_impl; [done | by intros ? ->]).
  assert (lk = lk0) as ->.
  { apply free_lock_new; [congruence|].
    destruct (holder lk) as [t'|] eqn:Hhold; [|done].
    destruct (proj1 (Hholder t') eq_refl) as (th & Ht & Hin).
    by rewrite (Forall_lookup_1 _ _ _ _ Hall Ht) in Hin. }
  split_and!; [|done..]. rewrite Ho. f_equal.
  rewrite Ho0' in Ho0. injection Ho0 as <-.
  destruct o. simpl in *. f_equal; [lia | done..].
Qed.

End creator.

(** ** What a pool on one object reaches *)

Section frame.
Context `{EM : ErrorMechanism}.

(** Calls on the shared object are calls on it. *)
Lemma todo_ok_callee this calls :
  todo_ok this calls → Forall (λ i, callee i = this) calls.
Proof.
  induction calls as [|i rest IH]; [done|]. intros [Hi Hok].
  constructor; [by destruct i | auto].
Qed.

(** In a well-formed machine every object has a lock address to itself:
    that of its lock, or one that is not in use. *)
Lemma wf_unshared_object m y : wf m → ∃ ly, unshared y ly m.
Proof.
  intros Hwf. destruct (objects m !! y ≫= m_refCounterLock) as [ly|] eqn:Hy.
  - exists ly. intros x o Hx Hl.
    destruct (objects m !! y) as [oy|] eqn:Hoy; [|done].
    by eapply wf_no_sharing.
  - exists (fresh (dom (locks m))). intros x o Hx Hl.
    destruct (wf_owns _ _ _ _ Hwf Hx Hl) as (lk & [_ _ Hlk] & _).
    by rewrite fresh_lock_None in Hlk.
Qed.

(** And every lock address but that of the lock of [x] belongs to another
    object than [x], or to none. *)
Lemma wf_unshared_lock m x o l ly :
  wf m → objects m !! x = Some o → m_refCounterLock o = Some l → l ≠ ly →
  ∃ y, y ≠ x ∧ unshared y ly m.
Proof.
  intros Hwf Hx Hl Hne. destruct (locks m !! ly) as [lk|] eqn:Hly.
  - destruct (wf_lock_owner _ _ _ Hwf Hly) as (y & oy & Hy & Hp).
    exists y. split; [intros ->; congruence|].
    intros z oz Hz Hpz. by eapply wf_no_sharing.
  - exists (fresh (dom (objects m))).
    split; [intros Hf; by rewrite <- Hf, fresh_object_None in Hx|].
    intros z oz Hz Hpz.
    destruct (wf_owns _ _ _ _ Hwf Hz Hpz) as (lk & [_ _ Hlk] & _). congruence.
Qed.

(** The calls of a pool on one object reach that object and its lock and
    nothing else: every other object and every other lock is after every
    run what it was before. *)
Theorem calls_reach_this_only m this o l programs c :
  wf m → objects m !! this = Some o → m_refCounterLock o = Some l →
  Forall (todo_ok this) programs → rtc cstep (start m programs) c →
  (∀ y, y ≠ this → objects (mem c) !! y = objects m !! y) ∧
  (∀ ly, ly ≠ l → locks (mem c) !! ly = locks m !! ly).
Proof.
  intros Hwf Ho Hl Hok Hrun.
  assert (∀ y, y ≠ this → Forall (Forall (λ i, callee i ≠ y)) programs) as Hav.
  { intros y Hy. eapply Forall_impl; [done|]. intros calls Hc%todo_ok_callee.
    eapply Forall_impl; [done|]. simpl. congruence. }
  split.
  - intros y Hy. destruct (wf_unshared_object m y Hwf) as [ly Hu].
    by destruct (bystander_rtc y ly _ _ (bystander_start y ly _ _ Hu (Hav y Hy)) Hrun)
      as [_ [? _]].
  - intros ly Hly.
    destruct (wf_unshared_lock m this o l ly) as (y & Hy & Hu); [done..|].
    by destruct (bystander_rtc y ly _ _ (bystander_start y ly _ _ Hu (Hav y Hy)) Hrun)
      as [_ (_ & ? & _)].
Qed.

End frame.

(** ** Pools keep the machine well formed *)

Section well_formed.
Context `{EM : ErrorMechanism}.
Context (this l : loc).

(** Well-formedness is a property of the two heaps. *)
Lemma wf_heaps m m' :
  objects m' = objects m → locks m' = locks m → wf m → wf m'.
Proof.
  intros Ho Hl [H1 H2 H3].
  split; unfold wf_object, lock_ok in *; by rewrite ?Ho, ?Hl.
Qed.

(** Threads that have returned are outside. *)
Lemma returned_outside c :
  Forall (λ th, th = thread_of []) (pool c) → outside_destructor c.
Proof. intros Hall. eapply Forall_impl; [done|]. by intros ? ->. Qed.

(** The pool has written the counter of its object, with an [int], and the
    state of its lock; the rest of the machine is what it was. *)
Lemma core_wf m o lk programs c c0 o' lk' :
  wf m → owns m this o l lk → Forall (todo_ok this) programs →
  rtc cstep (start m programs) c →
  core this l c0 c o' lk' → in_int (m_refCount o') → wf (mem c).
Proof.
  intros Hwf [Ho Hp Hlk] Hok Hrun [[Ho' Hp' Hlk'] _ _ _ _ _ _ _] Hint.
  pose proof (runs_evolve _ _ Hrun) as [Hobjs Hlocks _ _]. cbn [start mem] in *.
  destruct (Hobjs _ _ Ho') as (? & ? & Hptr & Hpol & _).
  destruct (Hlocks _ _ Hlk') as (? & ? & Hkind). simplify_eq.
  destruct (calls_reach_this_only m this o l programs c) as [Hy Hly]; [done..|].
  apply (wf_heaps (with_locks <[l := lk']>
                     (with_objects <[this := set_refCount (m_refCount o') o]> m))).
  - apply map_eq. intros y. cbn. destruct (decide (y = this)) as [->|].
    + rewrite Ho', lookup_insert_eq. f_equal. destruct o, o'.
      unfold set_refCount. simpl in *. by f_equal.
    + by rewrite Hy, lookup_insert_ne.
  - apply map_eq. intros ly. cbn. destruct (decide (ly = l)) as [->|].
    + by rewrite Hlk', lookup_insert_eq.
    + by rewrite Hly, lookup_insert_ne.
  - eapply wf_update_lock; [|done..]. by apply wf_store_refCount.
Qed.

(** The destructor has freed the lock with the object: no lock is left
    without an object and no pointer dangles. *)
Lemma destroyed_wf m o lk programs c d0 :
  wf m → owns m this o l lk → Forall (todo_ok this) programs →
  rtc cstep (start m programs) c → destroyed this l d0 (mem c) → wf (mem c).
Proof.
  intros Hwf Howns Hok Hrun [Hgone Hlgone _ _].
  destruct (calls_reach_this_only m this o l programs c) as [Hy Hly];
    [done | apply Howns.. | done | done |].
  apply (wf_heaps (with_locks (delete l) (with_objects (delete this) m)));
    [| |by eapply wf_delete]; apply map_eq; intros y; cbn.
  - destruct (decide (y = this)) as [->|].
    + by rewrite Hgone, lookup_delete_eq.
    + by rewrite Hy, lookup_delete_ne.
  - destruct (decide (y = l)) as [->|].
    + by rewrite Hlgone, lookup_delete_eq.
    + by rewrite Hly, lookup_delete_ne.
Qed.

(** While the object has an owner left. *)
Lemma shared_wf m programs c c0 :
  wf m → reachable this l c0 m programs c → wf (mem c).
Proof.
  intros Hwf Hr. destruct (reachable_inv _ _ _ _ _ _ Hr) as (o' & lk' & Hlive).
  pose proof (live_count_range _ _ _ _ _ _ Hlive) as Hrange.
  destruct Hr as [(o & lk & Howns & _ & _ & _ & _ & _ & Hok & _) Hrun].
  eapply core_wf; [done.. | apply Hlive |].
  unfold in_int, INT_MIN, INT_MAX in *. lia.
Qed.

(** When the threads are the only owners: before the last [Release] has
    found the counter at 0, and after the object is gone. *)
Lemma owners_wf m programs c :
  wf m → reachable_last this l m programs c → outside_destructor c → wf (mem c).
Proof.
  intros Hwf Hr Hout. pose proof (reachable_phase _ _ _ _ _ Hr) as Hph.
  destruct Hr as [(o & lk & Howns & _ & _ & _ & _ & _ & Hok & _) Hrun].
  destruct Hph as [c o' lk' Hcore Hstrict _ _|c t f M Honly Hlt Hdes _ _|c _ Hd].
  - pose proof (shared_count_range _ _ _ _ _ Hcore Hstrict).
    eapply core_wf; [done..|]. unfold in_int, INT_MIN, INT_MAX in *. lia.
  - destruct (lookup_lt_is_Some_2 _ _ Hlt) as [th Ht].
    pose proof (Forall_lookup_1 _ _ _ _ Hout Ht) as Hth.
    rewrite (Honly _ _ Ht), decide_True in Hth by done. simpl in Hth. congruence.
  - by eapply destroyed_wf.
Qed.

(** C24. The threads of a pool keep the machine well formed: every counter is
    an [int], every lock pointer points to a live lock of the class its
    policy names, no two objects share a lock and every lock has an
    object.  While the object they share has an owner left, this holds in
    every state they reach, between any two statements.  When the threads
    are the only owners it holds in every state in which no thread is in
    the statements that destroy the object, the state they end in
    included: the destructor has then freed the lock with its object.  In
    between it does not hold: from the [EP_DELETE] of the lock (line 198)
    to [operator delete] the object points to a lock that is gone
    ([dangling_in_destructor]). *)
Theorem pools_keep_wf m programs c :
  wf m →
  (∀ c0, reachable this l c0 m programs c → wf (mem c)) ∧
  (reachable_last this l m programs c → outside_destructor c → wf (mem c)).
Proof. eauto using shared_wf, owners_wf. Qed.

End well_formed.

(** ** From the constructor to the destructor *)

Section whole_life.
Context `{EM : ErrorMechanism}.
Context (m : Machine) (raw : SmartObject) (site : CallSite) (t : tid) (k : nat).
Context (p : LockPolicy) (lk0 : BaseLock).

#[local] Abbreviation this := (fresh (dom (objects m))).
#[local] Abbreviation l := (fresh (dom (locks m))).

(** C19. An object is made by [EP_NEW] with a policy that locks, its creator
    takes [k] references more, and threads that hold these [1 + k]
    references retain and release the object until each has given back
    what it holds.  When they are done, whatever the schedule was, the
    object and its lock are freed and every other object and lock is what
    it was before the constructor: the heaps are those the creator
    started from.  Nothing was signalled, one destructor has run, and
    every thread has returned from its last call.  And from every state
    they reach the threads can go on until they are done. *)
Theorem lifecycle programs c :
  wf m → signalled m = [] → new_lock p = Some lk0 → exclusive lk0 = true →
  Forall (todo_ok this) programs → Forall strict programs →
  sum_with balance programs = 1 + Z.of_nat k →
  sum_with hi programs ≤ INT_MAX →
  rtc cstep (start (created raw site p t k m) programs) c →
  (∃ c', rtc cstep c c' ∧ nf cstep c') ∧
  (nf cstep c →
   objects (mem c) = objects m ∧ locks (mem c) = locks m ∧
   signalled (mem c) = [] ∧
   deletions (mem c) = deletions m ++ [event Deleted None this 0] ∧
   Forall (λ th, th = thread_of []) (pool c)).
Proof.
  intros Hwf Hq Hp Hex Hok Hstrict Hsum Hhi Hrun.
  split; [apply cstep_normalises|]. intros Hnf.
  assert (sum_with balance programs ≤ sum_with hi programs) as Hle
    by (apply sum_with_le, Forall_forall; intros; apply balance_le_hi).
  pose proof (created_handed m raw site t p lk0 Hwf Hp k) as Hh.
  specialize (Hh ltac:(lia)).
  pose proof (handed_shares_last m p lk0 Hp _ _ programs Hh Hex Hq Hok Hstrict
                Hsum ltac:(lia) Hhi) as Hsh.
  destruct (phase_nf _ _ _ _ (reachable_phase _ _ _ _ _ (conj Hsh Hrun)) Hnf)
    as [Hall [Hgone Hlgone Hquiet Hlog]].
  destruct (calls_reach_this_only _ _ _ _ _ _ (handed_wf _ _ _ _ _ _ Hh)
              (owns_this _ _ _ _ _ (handed_owns m p lk0 Hp _ _ Hh)) eq_refl
              Hok Hrun) as [Hobjs Hlocks].
  destruct Hh as [_ Ho (lk & Hlk & Hl) Hd _]. split_and!; [| |done| |done].
  - apply map_eq. intros y. destruct (decide (y = this)) as [->|Hy].
    + by rewrite Hgone, fresh_object_None.
    + by rewrite Hobjs, Ho, lookup_insert_ne.
  - apply map_eq. intros ly. destruct (decide (ly = l)) as [->|Hy].
    + by rewrite Hlgone, fresh_lock_None.
    + by rewrite Hlocks, Hl, lookup_insert_ne.
  - by rewrite Hlog, Hd.
Qed.

(** C32. An object created by [EP_NEW] with a policy that locks and retained [k]
    times by its creator, then used by threads that leave [c0] references
    to somebody else: when no thread can move, whatever the schedule was,
    the object is there with the counter at [c0] and its lock free, as the
    constructor made them, no destructor has run, nothing was signalled,
    every other object and lock is what it was, and every thread has
    returned from its last call. *)
Theorem shared_object_stays programs c0 c :
  wf m → signalled m = [] → new_lock p = Some lk0 → exclusive lk0 = true →
  Forall (todo_ok this) programs →
  1 + Z.of_nat k = c0 + sum_with balance programs →
  1 ≤ c0 + sum_with lo programs → c0 + sum_with hi programs ≤ INT_MAX →
  rtc cstep (start (created raw site p t k m) programs) c → nf cstep c →
  objects (mem c) =
    <[this := {| m_refCount := c0; m_refCounterLock := Some l;
                 m_lockPolicy := p |}]> (objects m) ∧
  locks (mem c) = <[l := lk0]> (locks m) ∧
  signalled (mem c) = [] ∧ deletions (mem c) = deletions m ∧
  Forall (λ th, th = thread_of []) (pool c).
Proof.
  intros Hwf Hq Hp Hex Hok Hsum Hlo Hhi Hrun Hnf.
  assert (sum_with balance programs ≤ sum_with hi programs) as Hle
    by (apply sum_with_le, Forall_forall; intros; apply balance_le_hi).
  pose proof (created_handed m raw site t p lk0 Hwf Hp k) as Hh.
  specialize (Hh ltac:(lia)).
  pose proof (handed_shares m p lk0 Hp _ c0 _ programs Hh Hex Hq Hok Hsum Hlo Hhi)
    as Hsh.
  destruct (stays_at_end m p lk0 Hp _ _ _ _ c (conj Hsh Hrun) Hnf Hh)
    as (Ho & Hl & Hquiet & Hdel & Hall).
  destruct (calls_reach_this_only _ _ _ _ _ _ (handed_wf _ _ _ _ _ _ Hh)
              (owns_this _ _ _ _ _ (handed_owns m p lk0 Hp _ _ Hh)) eq_refl
              Hok Hrun) as [Hobjs Hlocks].
  destruct Hh as [_ Ho' (lk & Hlk & Hl') Hd _]. simplify_eq.
  split_and!; [| |done|congruence|done].
  - apply map_eq. intros y. destruct (decide (y = this)) as [->|Hy].
    + by rewrite Ho, lookup_insert_eq.
    + by rewrite Hobjs, Ho', !lookup_insert_ne.
  - apply map_eq. intros ly. destruct (decide (ly = l)) as [->|Hy].
    + by rewrite Hl, lookup_insert_eq.
    + by rewrite Hlocks, Hl', !lookup_insert_ne.
Qed.

End whole_life.

(** ** The concrete pool *)

Lemma made_beside_handed :
  handed LOCK_POLICY_MUTEX 2 2 2 (machine1 1) made_beside.
Proof.
  by apply (created_handed (EM:=Throwing) (machine1 1) raw0 site0 0%nat
              LOCK_POLICY_MUTEX new_Mutex wf_machine1 eq_refl 1).
Qed.

(** A round-robin schedule that lets the two owners finish. *)
Lemma owners_beside_stuck :
  nf (cstep (EM:=Throwing)) (owners_beside (round_robin 2 60)).
Proof. apply stuck_nf. by vm_compute. Qed.

Lemma owners_beside_shares :
  shares_last 2 2 made_beside (replicate 2 owner_of_2).
Proof.
  apply (handed_shares_last (machine1 1) LOCK_POLICY_MUTEX new_Mutex eq_refl
           2 made_beside); try done; [apply made_beside_handed | ..];
    by repeat constructor.
Qed.

Lemma owners_beside_outside :
  outside_destructor (owners_beside (round_robin 2 60)).
Proof. apply returned_outside. vm_compute. by repeat constructor. Qed.

(** Two threads in the middle of their calls on the object of [machine1],
    and the two owners of the object made beside it when they are done. *)
Lemma pools_keep_wf_witness :
  wf (mem (pool_after 2 [0; 0; 0]%nat)) ∧
  wf (mem (owners_beside (round_robin 2 60))).
Proof.
  split.
  - apply (proj1 (pools_keep_wf (EM:=Throwing) 1%positive 1%positive
                    (machine1 1) (replicate 2 retain_release)
                    (pool_after 2 [0; 0; 0]%nat) wf_machine1) 1).
    by apply pool_of_reachable.
  - apply (proj2 (pools_keep_wf (EM:=Throwing) 2%positive 2%positive
                    made_beside (replicate 2 owner_of_2)
                    (owners_beside (round_robin 2 60))
                    (handed_wf _ _ _ _ _ _ made_beside_handed)));
      [split; [apply owners_beside_shares | apply run_schedule_rtc]
      | apply owners_beside_outside].
Defined.

(** Inside the destructor the machine is not well formed: the first owner
    has returned, the second has deleted the lock (line 198) and is at
    [operator delete]; the object is alive and points to a lock that is
    gone. *)
Example dangling_in_destructor :
  frame <$> pool (owners_beside (replicate 40 0 ++ replicate 31 1))%nat =
    [Returned; Delete_115 2] ∧
  ¬ wf (mem (owners_beside (replicate 40 0 ++ replicate 31 1)%nat)).
Proof.
  split; [by vm_compute|]. apply (proj1 (bool_decide_eq_false _)). by vm_compute.
Qed.

Lemma calls_reach_this_only_witness :
  (∀ y, y ≠ 2%positive →
     objects (mem (owners_beside [0; 1; 0; 1]%nat)) !! y = objects made_beside !! y) ∧
  (∀ ly, ly ≠ 2%positive →
     locks (mem (owners_beside [0; 1; 0; 1]%nat)) !! ly = locks made_beside !! ly).
Proof.
  apply (calls_reach_this_only (EM:=Throwing) made_beside 2%positive
           {| m_refCount := 2; m_refCounterLock := Some 2%positive;
              m_lockPolicy := LOCK_POLICY_MUTEX |} 2%positive
           (replicate 2 owner_of_2));
    [apply made_beside_handed | reflexivity | reflexivity
    | by repeat constructor | apply run_schedule_rtc].
Defined.

Lemma lifecycle_witness :
  objects (mem (owners_beside (round_robin 2 60))) = objects (machine1 1) ∧
  locks (mem (owners_beside (round_robin 2 60))) = locks (machine1 1) ∧
  signalled (mem (owners_beside (round_robin 2 60))) = [] ∧
  deletions (mem (owners_beside (round_robin 2 60))) =
    deletions (machine1 1) ++ [event Deleted None 2 0] ∧
  Forall (λ th, th = thread_of []) (pool (owners_beside (round_robin 2 60))).
Proof.
  apply (lifecycle (EM:=Throwing) (machine1 1) raw0 site0 0%nat 1
           LOCK_POLICY_MUTEX new_Mutex (replicate 2 owner_of_2)
           (owners_beside (round_robin 2 60)));
    [apply wf_machine1 | reflexivity | reflexivity | reflexivity
    | by repeat constructor | by repeat constructor | reflexivity | by vm_compute
    | apply run_schedule_rtc | apply owners_beside_stuck].
Defined.

Lemma guest_beside_stuck :
  nf (cstep (EM:=Throwing)) (guest_beside (round_robin 2 60)).
Proof. apply stuck_nf. by vm_compute. Qed.

Lemma shared_object_stays_witness :
  objects (mem (guest_beside (round_robin 2 60))) =
    <[2%positive := {| m_refCount := 1; m_refCounterLock := Some 2%positive;
                       m_lockPolicy := LOCK_POLICY_MUTEX |}]>
      (objects (machine1 1)) ∧
  locks (mem (guest_beside (round_robin 2 60))) =
    <[2%positive := new_Mutex]> (locks (machine1 1)) ∧
  signalled (mem (guest_beside (round_robin 2 60))) = [] ∧
  deletions (mem (guest_beside (round_robin 2 60))) = deletions (machine1 1) ∧
  Forall (λ th, th = thread_of []) (pool (guest_beside (round_robin 2 60))).
Proof.
  apply (shared_object_stays (EM:=Throwing) (machine1 1) raw0 site0 0%nat 1
           LOCK_POLICY_MUTEX new_Mutex [owner_of_2; guest_of_2] 1
           (guest_beside (round_robin 2 60)));
    [apply wf_machine1 | reflexivity | reflexivity | reflexivity
    | by repeat constructor | reflexivity | by vm_compute | by vm_compute
    | apply run_schedule_rtc | apply guest_beside_stuck].
Defined.
