(* ===== verification/Races.v ===== *)
(** * Races: what the lock and the protocol are for

    Concrete schedules, run by evaluation.  Without a lock that excludes
    (policy [LOCK_POLICY_NONE]) two [Retain]s that interleave lose an
    update, and a [Retain] that interleaves with a [Release] leaves a
    counter below the references held, so that a later [Release] destroys
    an object that is still owned.  With the mutex the same schedules count
    right.  A verification that throws inside the destructor leaves the lock
    held, and every other thread waits for ever.  A [Retain] made between
    the [Unlock()] of the last [Release] and the destructor is found out by
    the destructor, too late. *)

From S2P Require Import Prelude Lock Diagnostic Machine SmartObject Concurrent.

(** ** The pools *)

(** An object with the no-op lock, counter [c]. *)
Definition object_nolock (c : Z) : SmartObject :=
  {| m_refCount := c; m_refCounterLock := Some 1%positive;
     m_lockPolicy := LOCK_POLICY_NONE |}.

Definition machine_nolock (c : Z) : Machine :=
  {| objects := {[ 1%positive := object_nolock c ]};
     locks := {[ 1%positive := new_NoLock ]};
     log := []; signalled := [] |}.

(** Two threads, one [Retain] each. *)
Definition two_retains : list (list Invocation) :=
  [[Inv_Retain site0 1%positive]; [Inv_Retain site0 1%positive]].

(** Thread 0 retains, then releases twice; thread 1 releases the reference
    it holds. *)
Definition retain_and_release : list (list Invocation) :=
  [[Inv_Retain site0 1%positive; Inv_Release site0 1%positive;
    Inv_Release site0 1%positive];
   [Inv_Release site0 1%positive]].

(** Thread 0 deletes the object while thread 1 holds a reference it is
    about to release. *)
Definition delete_and_release : list (list Invocation) :=
  [[Inv_Delete 1%positive]; [Inv_Release site0 1%positive]].

(** Thread 0 releases the only reference; thread 1 retains through a
    pointer it holds without a reference. *)
Definition release_and_retain : list (list Invocation) :=
  [[Inv_Release site0 1%positive]; [Inv_Retain site0 1%positive]].

(** Thread 0 goes as far as the [Unlock()] of line 114, thread 1 makes its
    whole [Retain], thread 0 goes on. *)
Definition retain_in_window : list tid :=
  (replicate 9 0 ++ replicate 6 1 ++ replicate 12 0)%nat.

(** Both threads read the counter before either writes it. *)
Definition both_read_first : list tid :=
  [0; 0; 0; 1; 1; 1; 0; 0; 0; 1; 1; 1]%nat.

(** Thread 0 reads, thread 1 makes its whole [Release], thread 0 writes and
    goes on. *)
Definition read_release_write : list tid :=
  ([0; 0; 0] ++ replicate 9 1 ++ replicate 40 0)%nat.

(** One thread after the other. *)
Definition one_by_one (k : nat) : list tid :=
  (replicate k 0 ++ replicate k 1)%nat.

(** ** Lost update *)

(** Under the no-op lock, two [Retain]s on a counter of 1 that read before
    either writes leave 2: one reference is not counted. *)
Example lost_update_without_lock :
  let c := run_schedule (EM:=Throwing) both_read_first
             (start (machine_nolock 1) two_retains) in
  pool c = [thread_of []; thread_of []] ∧ refCount (mem c) 1%positive = Some 2.
Proof. by vm_compute. Qed.

(** One after the other they count right. *)
Example serial_without_lock :
  let c := run_schedule (EM:=Throwing) (one_by_one 6)
             (start (machine_nolock 1) two_retains) in
  pool c = [thread_of []; thread_of []] ∧ refCount (mem c) 1%positive = Some 3.
Proof. by vm_compute. Qed.

(** With the mutex the schedule of the lost update counts right: thread 1
    waits at [Lock()] and loses its turns. *)
Example no_lost_update_with_mutex :
  let c := run_schedule (EM:=Throwing) (both_read_first ++ [1; 1; 1]%nat)
             (start (machine1 1) two_retains) in
  pool c = [thread_of []; thread_of []] ∧ refCount (mem c) 1%positive = Some 3.
Proof. by vm_compute. Qed.

(** ** An object destroyed under its owner *)

(** Two references, one per thread.  Under the no-op lock thread 0 reads 2
    for its [Retain], thread 1 releases (the counter is 1), thread 0 writes
    3 and releases twice: the counter ends at 1 and the object is never
    destroyed, though nobody holds a reference. *)
Example leak_without_lock :
  let c := run_schedule (EM:=Throwing) read_release_write
             (start (machine_nolock 2) retain_and_release) in
  pool c = [thread_of []; thread_of []] ∧ refCount (mem c) 1%positive = Some 1.
Proof. by vm_compute. Qed.

(** With the mutex the same schedule, and the turns thread 1 lost while it
    waited, ends with the object destroyed by the last [Release]. *)
Example destroyed_with_mutex :
  let c := run_schedule (EM:=Throwing) (read_release_write ++ replicate 30 1%nat)
             (start (machine1 2) retain_and_release) in
  pool c = [thread_of []; thread_of []] ∧ alive (mem c) 1%positive = false ∧
  signalled (mem c) = [].
Proof. by vm_compute. Qed.

(** ** A verification that throws with the lock held *)

(** Thread 0 deletes an object that thread 1 still owns.  The destructor's
    verification throws between [Lock()] and [Unlock()]: thread 0 is stopped
    holding the lock, and thread 1 waits at the [Lock()] of its [Release]
    for ever. *)
Example throwing_destructor_deadlocks :
  let c := run_schedule (EM:=Throwing) (replicate 10 0 ++ [1; 1])%nat
             (start (machine1 2) delete_and_release) in
  stuck (EM:=Throwing) c = true ∧
  pool c = [ {| frame := Stopped (Raised (NonZeroCountAtDestruction 1)); todo := [] |};
             {| frame := Release_108 site0 1%positive; todo := [] |} ] ∧
  lock_state (mem c) 1%positive = Some (Mutex {| owner := Some 0%nat |}).
Proof. by vm_compute. Qed.

(** If the verification reports and returns, the destructor goes on and
    frees the object; the [Release] of thread 1 is then a call on a
    destroyed object. *)
Example reporting_destructor_frees :
  let c := run_schedule (EM:=Reporting) (replicate 12 0 ++ replicate 3 1)%nat
             (start (machine1 2) delete_and_release) in
  pool c = [ thread_of [];
             {| frame := Stopped (Fault (DanglingThis 1%positive)); todo := [] |} ] ∧
  alive (mem c) 1%positive = false ∧
  signalled (mem c) = [NonZeroCountAtDestruction 1].
Proof. by vm_compute. Qed.

(** ** A [Retain] between the last [Unlock()] and the destructor *)

(** The last [Release] gives the lock back at line 114 with the counter at
    1 (the increment of line 113) and takes it again in the destructor.  A
    [Retain] by a thread that holds no reference, made in between, finds a
    live object and counts 2; the destructor then finds 1 where it expects
    0 and signals the error: with a verification that throws, the object
    stays, with the lock held by the stopped thread. *)
Example retain_in_window_throws :
  let c := run_schedule (EM:=Throwing) retain_in_window
             (start (machine1 1) release_and_retain) in
  pool c = [ {| frame := Stopped (Raised (NonZeroCountAtDestruction 1)); todo := [] |};
             thread_of [] ] ∧
  refCount (mem c) 1%positive = Some 1 ∧
  signalled (mem c) = [NonZeroCountAtDestruction 1] ∧
  lock_state (mem c) 1%positive = Some (Mutex {| owner := Some 0%nat |}).
Proof. by vm_compute. Qed.

(** With one that reports and returns, the object is freed although the
    [Retain] returned. *)
Example retain_in_window_frees :
  let c := run_schedule (EM:=Reporting) retain_in_window
             (start (machine1 1) release_and_retain) in
  pool c = [thread_of []; thread_of []] ∧ alive (mem c) 1%positive = false ∧
  signalled (mem c) = [NonZeroCountAtDestruction 1].
Proof. by vm_compute. Qed.
